(** * Trace regions of the Verona runtime: rings, root swap, merge, mark and sweep

    A shallow embedding of [src/rt/region/region_trace.h].  The heap is a
    finite map from addresses to cells; a cell is either an ordinary object
    or the metadata object of a trace region.  Every routine of the class
    [RegionTrace] is transcribed as a function on heaps in the option
    monad: [None] stands for a failed assertion, an [abort()], a
    dereference of storage that is not allocated, or a loop that ran out of
    fuel. *)

From stdpp Require Import gmap.

(** ** Machine integers and addresses *)

(** Addresses are natural numbers; [nullptr] is address zero. *)
Definition nullptr : N := 0%N.

(** [size_t] is a 64-bit unsigned integer: additions wrap around. *)
Definition size_t_modulus : N := (2 ^ 64)%N.

Definition size_t_add (a b : N) : N := ((a + b) mod size_t_modulus)%N.

(** ** Objects *)

(** The kind tag stored in the header word of an object. *)
Inductive RegionMD := UNMARKED | MARKED | SCC_PTR | RC | ISO | COWN.

#[global] Instance RegionMD_eq_dec : EqDecision RegionMD.
Proof. solve_decision. Defined.

(** Modelled from the spec: the descriptor of an object ([object.h] is not
    part of the sources).  It gives the size of the object and answers the
    tests [needs_finaliser_ring], [has_finaliser] and
    [has_possibly_iso_fields] of the object header API. *)
Record Descriptor := mkDescriptor {
  desc_size : N;
  desc_needs_finaliser_ring : bool;
  desc_has_finaliser : bool;
  desc_has_possibly_iso_fields : bool
}.

(** Modelled from the spec: an object ([object.h] is not part of the
    sources).  The header word holds the kind tag together with one
    pointer: the [next] link of the ring for a mutable object, the region
    metadata object for an iso (the sweep asserts, for the iso [p], both
    [p->get_next_any_mark() == this] and [p->get_region() == this]).
    [o_fields] are the owned pointers that [trace] pushes. *)
Record Object := mkObject {
  o_class : RegionMD;
  o_next : N;
  o_descriptor : Descriptor;
  o_fields : list N;
  o_ext_ref : bool
}.

(** The metadata object of a trace region: the [next] link it inherits from
    [Object] (head of the primary ring), the members declared in
    [RegionTrace], and the remembered set and external reference table it
    inherits from [RegionBase]. *)
Record RegionTrace := mkRegionTrace {
  r_next : N;
  next_not_root : N;
  last_not_root : N;
  current_memory_used : N;
  previous_memory_used : N;
  hash_set : gmap N bool;
  ext_table : gset N
}.

Inductive Cell :=
  | CObject (o : Object)
  | CRegion (r : RegionTrace).

(** Observable actions of the collector, in program order. *)
Inductive Event :=
  | EvFinalise (p : N)
  | EvDealloc (p : N).

#[global] Instance Event_eq_dec : EqDecision Event.
Proof. solve_decision. Defined.

(** The work stacks [f] and [collect] (top of stack first) that [gc]
    threads through sweep and release, with the heap and the log. *)
Record Collector := mkCollector {
  heap : gmap N Cell;
  f_stack : list N;
  collect_stack : list N;
  log : list Event
}.

Definition get_obj (h : gmap N Cell) (a : N) : option Object :=
  match h !! a with Some (CObject o) => Some o | _ => None end.

Definition get_reg (h : gmap N Cell) (a : N) : option RegionTrace :=
  match h !! a with Some (CRegion r) => Some r | _ => None end.

Definition with_class (c : RegionMD) (o : Object) : Object :=
  mkObject c (o_next o) (o_descriptor o) (o_fields o) (o_ext_ref o).

Definition with_next (n : N) (o : Object) : Object :=
  mkObject (o_class o) n (o_descriptor o) (o_fields o) (o_ext_ref o).

Definition with_descriptor (d : Descriptor) (o : Object) : Object :=
  mkObject (o_class o) (o_next o) d (o_fields o) (o_ext_ref o).

Definition with_fields (fs : list N) (o : Object) : Object :=
  mkObject (o_class o) (o_next o) (o_descriptor o) fs (o_ext_ref o).

Definition with_r_next (n : N) (r : RegionTrace) : RegionTrace :=
  mkRegionTrace n (next_not_root r) (last_not_root r)
    (current_memory_used r) (previous_memory_used r) (hash_set r) (ext_table r).

Definition with_next_not_root (n : N) (r : RegionTrace) : RegionTrace :=
  mkRegionTrace (r_next r) n (last_not_root r)
    (current_memory_used r) (previous_memory_used r) (hash_set r) (ext_table r).

Definition with_last_not_root (n : N) (r : RegionTrace) : RegionTrace :=
  mkRegionTrace (r_next r) (next_not_root r) n
    (current_memory_used r) (previous_memory_used r) (hash_set r) (ext_table r).

Definition with_current_memory_used (n : N) (r : RegionTrace) : RegionTrace :=
  mkRegionTrace (r_next r) (next_not_root r) (last_not_root r)
    n (previous_memory_used r) (hash_set r) (ext_table r).

Definition with_previous_memory_used (n : N) (r : RegionTrace) : RegionTrace :=
  mkRegionTrace (r_next r) (next_not_root r) (last_not_root r)
    (current_memory_used r) n (hash_set r) (ext_table r).

Definition with_hash_set (s : gmap N bool) (r : RegionTrace) : RegionTrace :=
  mkRegionTrace (r_next r) (next_not_root r) (last_not_root r)
    (current_memory_used r) (previous_memory_used r) s (ext_table r).

Definition with_ext_table (s : gset N) (r : RegionTrace) : RegionTrace :=
  mkRegionTrace (r_next r) (next_not_root r) (last_not_root r)
    (current_memory_used r) (previous_memory_used r) (hash_set r) s.

Definition upd_obj (g : Object → Object) (h : gmap N Cell) (a : N)
    : option (gmap N Cell) :=
  o ← get_obj h a; Some (<[a := CObject (g o)]> h).

Definition upd_reg (g : RegionTrace → RegionTrace) (h : gmap N Cell) (a : N)
    : option (gmap N Cell) :=
  r ← get_reg h a; Some (<[a := CRegion (g r)]> h).

(** Modelled from the spec: the object header API of [object.h], which is
    not part of the sources.  [init_next] initialises the header word as a
    ring link, which makes the object an unmarked mutable (this is how
    [swap_root] demotes the previous iso); [set_next] rewrites the link
    only.  [get_next] and [set_next] also apply to a region metadata
    object, which is itself an [Object]. *)
Module Object.

Definition get_class (h : gmap N Cell) (a : N) : option RegionMD :=
  o_class <$> get_obj h a.

Definition get_next (h : gmap N Cell) (a : N) : option N :=
  match h !! a with
  | Some (CObject o) => Some (o_next o)
  | Some (CRegion r) => Some (r_next r)
  | None => None
  end.

Definition get_next_any_mark := get_next.

Definition set_next (h : gmap N Cell) (a n : N) : option (gmap N Cell) :=
  match h !! a with
  | Some (CObject o) => Some (<[a := CObject (with_next n o)]> h)
  | Some (CRegion r) => Some (<[a := CRegion (with_r_next n r)]> h)
  | None => None
  end.

Definition init_next (h : gmap N Cell) (a n : N) : option (gmap N Cell) :=
  match h !! a with
  | Some (CObject o) =>
      Some (<[a := CObject (with_class UNMARKED (with_next n o))]> h)
  | Some (CRegion r) => Some (<[a := CRegion (with_r_next n r)]> h)
  | None => None
  end.

Definition init_iso (h : gmap N Cell) (a : N) : option (gmap N Cell) :=
  upd_obj (with_class ISO) h a.

Definition set_region (h : gmap N Cell) (a reg : N) : option (gmap N Cell) :=
  o ← get_obj h a;
  guard (o_class o = ISO);;
  Some (<[a := CObject (with_next reg o)]> h).

Definition get_region (h : gmap N Cell) (a : N) : option N :=
  o ← get_obj h a;
  guard (o_class o = ISO);;
  Some (o_next o).

Definition set_descriptor (h : gmap N Cell) (a : N) (d : Descriptor)
    : option (gmap N Cell) :=
  upd_obj (with_descriptor d) h a.

Definition mark (h : gmap N Cell) (a : N) : option (gmap N Cell) :=
  o ← get_obj h a;
  guard (o_class o = UNMARKED);;
  Some (<[a := CObject (with_class MARKED o)]> h).

Definition unmark (h : gmap N Cell) (a : N) : option (gmap N Cell) :=
  o ← get_obj h a;
  guard (o_class o = MARKED);;
  Some (<[a := CObject (with_class UNMARKED o)]> h).

Definition size (h : gmap N Cell) (a : N) : option N :=
  desc_size ∘ o_descriptor <$> get_obj h a.

(** The descriptor of a region metadata object has no trace function and
    no finaliser, so the metadata object never needs the finaliser
    ring. *)
Definition needs_finaliser_ring (h : gmap N Cell) (a : N) : option bool :=
  match h !! a with
  | Some (CObject o) => Some (desc_needs_finaliser_ring (o_descriptor o))
  | Some (CRegion _) => Some false
  | None => None
  end.

Definition has_finaliser (h : gmap N Cell) (a : N) : option bool :=
  desc_has_finaliser ∘ o_descriptor <$> get_obj h a.

Definition has_possibly_iso_fields (h : gmap N Cell) (a : N) : option bool :=
  desc_has_possibly_iso_fields ∘ o_descriptor <$> get_obj h a.

Definition has_ext_ref (h : gmap N Cell) (a : N) : option bool :=
  o_ext_ref <$> get_obj h a.

Definition debug_is_iso (h : gmap N Cell) (a : N) : bool :=
  bool_decide (get_class h a = Some ISO).

Definition debug_is_mutable (h : gmap N Cell) (a : N) : bool :=
  bool_decide (get_class h a = Some UNMARKED ∨ get_class h a = Some MARKED).

(** [trace] pushes every owned pointer field on the stack, one after the
    other. *)
Definition trace (h : gmap N Cell) (a : N) (st : list N) : option (list N) :=
  o ← get_obj h a; Some (rev (o_fields o) ++ st).

(** [immutable] resolves a pointer into the interior of a strongly
    connected component to the root of the component. *)
Fixpoint immutable (fuel : nat) (h : gmap N Cell) (a : N) : option N :=
  match fuel with
  | O => None
  | S fuel =>
      o ← get_obj h a;
      if decide (o_class o = SCC_PTR) then immutable fuel h (o_next o)
      else Some a
  end.

(** [find_iso_fields iso f collect] pushes the fields of the object that
    are isos of sub-regions, that is isos other than [iso], on [collect]
    and on [f]. *)
Definition find_iso_fields (c : Collector) (a iso : N) : option Collector :=
  o ← get_obj (heap c) a;
  let isos :=
    filter (λ q, q ≠ iso ∧ get_class (heap c) q = Some ISO) (o_fields o) in
  Some (mkCollector (heap c) (rev isos ++ f_stack c)
          (rev isos ++ collect_stack c) (log c)).

Definition finalise (c : Collector) (a : N) : option Collector :=
  _ ← get_obj (heap c) a;
  Some (mkCollector (heap c) (f_stack c) (collect_stack c)
          (log c ++ [EvFinalise a])).

(** [dealloc] returns the storage of an object, or of a region metadata
    object, to the allocator. *)
Definition dealloc (c : Collector) (a : N) : option Collector :=
  _ ← heap c !! a;
  Some (mkCollector (delete a (heap c)) (f_stack c) (collect_stack c)
          (log c ++ [EvDealloc a])).

Definition dealloc_cell (h : gmap N Cell) (a : N) : option (gmap N Cell) :=
  _ ← h !! a; Some (delete a h).

End Object.

(** Modelled from the spec: the remembered set of a region
    ([region_base.h] is not part of the sources).  Every entry carries the
    mark bit of the current collection. *)
Module RememberedSet.

(** Record [p] in the remembered-set mark, counting it in [marked] when it
    was not marked before. *)
Definition mark (h : gmap N Cell) (reg p marked : N)
    : option (gmap N Cell * N) :=
  r ← get_reg h reg;
  match hash_set r !! p with
  | Some true => Some (h, marked)
  | _ =>
      Some (<[reg := CRegion (with_hash_set (<[p := true]> (hash_set r)) r)]> h,
            size_t_add marked 1)
  end.

(** Drop the entries that were not marked and clear the marks of the
    others; with [marked = 0] everything is dropped. *)
Definition sweep_set (h : gmap N Cell) (reg marked : N)
    : option (gmap N Cell) :=
  upd_reg (λ r,
    with_hash_set
      (if decide (marked = 0%N) then ∅
       else (λ _, false) <$> filter (λ kv, kv.2 = true) (hash_set r)) r) h reg.

Definition merge (h : gmap N Cell) (reg other : N) : option (gmap N Cell) :=
  o ← get_reg h other;
  upd_reg (λ r, with_hash_set (hash_set r ∪ hash_set o) r) h reg.

End RememberedSet.

(** Modelled from the spec: the external reference table of a region
    ([region_base.h] is not part of the sources). *)
Module ExternalReferenceTable.

Definition erase (h : gmap N Cell) (reg p : N) : option (gmap N Cell) :=
  upd_reg (λ r, with_ext_table (ext_table r ∖ {[p]}) r) h reg.

Definition merge (h : gmap N Cell) (reg other : N) : option (gmap N Cell) :=
  o ← get_reg h other;
  upd_reg (λ r, with_ext_table (ext_table r ∪ ext_table o) r) h reg.

End ExternalReferenceTable.

(** ** The class [RegionTrace] *)

Inductive RingKind := FinaliserRing | NonfinaliserRing.

#[global] Instance RingKind_eq_dec : EqDecision RingKind.
Proof. solve_decision. Defined.

Definition is_trace_region (h : gmap N Cell) (r : N) : bool :=
  bool_decide (is_Some (get_reg h r)).

(** [get]: the region metadata object of the iso [o]. *)
Definition get (h : gmap N Cell) (o : N) : option N :=
  guard (Object.debug_is_iso h o = true);;
  r ← Object.get_region h o;
  guard (is_trace_region h r = true);;
  Some r.

Definition use_memory (h : gmap N Cell) (this size : N)
    : option (gmap N Cell) :=
  upd_reg (λ r,
    with_current_memory_used (size_t_add (current_memory_used r) size) r)
    h this.

(** Storage handed out by the allocator: it is not null and not in use. *)
Definition fresh (h : gmap N Cell) (a : N) : Prop :=
  a ≠ nullptr ∧ h !! a = None.

#[global] Instance fresh_dec h a : Decision (fresh h a).
Proof. unfold fresh. apply _. Defined.

(** [create]: [o] and [reg] are the blocks the allocator returns for the
    object and for the region metadata object. *)
Definition create (h : gmap N Cell) (o reg : N) (desc : Descriptor)
    : option (gmap N Cell) :=
  guard (fresh h o);;
  let h := <[o := CObject (mkObject UNMARKED nullptr desc [] false)]> h in
  guard (fresh h reg);;
  let h := <[reg := CRegion (mkRegionTrace o reg reg 0 0 ∅ ∅)]> h in
  h ← use_memory h reg (desc_size desc);
  h ← Object.set_descriptor h o desc;
  h ← Object.init_iso h o;
  Object.set_region h o reg.

(** [append(hd, tl)]: insert the chain [hd .. tl] into the appropriate
    ring, right after the region metadata object. *)
Definition append (h : gmap N Cell) (this hd tl : N)
    : option (gmap N Cell) :=
  p ← Object.get_next h this;
  nhd ← Object.needs_finaliser_ring h hd;
  np ← Object.needs_finaliser_ring h p;
  if decide (nhd = np) then
    h ← Object.init_next h tl p;
    Object.set_next h this hd
  else
    r ← get_reg h this;
    h ← Object.init_next h tl (next_not_root r);
    h ← upd_reg (with_next_not_root hd) h this;
    r ← get_reg h this;
    if decide (last_not_root r = this)
    then upd_reg (with_last_not_root tl) h this
    else Some h.

(** [alloc]: [o] is the block the allocator returns. *)
Definition alloc (h : gmap N Cell) (in_ o : N) (desc : Descriptor)
    : option (gmap N Cell) :=
  reg ← get h in_;
  guard (fresh h o);;
  let h := <[o := CObject (mkObject UNMARKED nullptr desc [] false)]> h in
  h ← Object.set_descriptor h o desc;
  h ← append h reg o o;
  use_memory h reg (desc_size desc).

(** The iterator over both rings: [begin], [operator++], and the loop of
    [debug_is_in_region]. *)
Definition iterator_begin (h : gmap N Cell) (r : N) : option N :=
  q ← Object.get_next h r;
  Some (if decide (q = r) then nullptr else q).

Definition iterator_incr (h : gmap N Cell) (reg ptr : N) : option N :=
  q ← Object.get_next_any_mark h ptr;
  if decide (q ≠ reg) then Some q
  else
    r ← get_reg h reg;
    if decide (ptr ≠ last_not_root r ∧ next_not_root r ≠ reg) then
      guard (Object.debug_is_iso h ptr = true);;
      Some (next_not_root r)
    else Some nullptr.

Fixpoint iterator_find (fuel : nat) (h : gmap N Cell) (reg ptr o : N)
    : option bool :=
  match fuel with
  | O => None
  | S fuel =>
      if decide (ptr = nullptr) then Some false
      else if decide (ptr = o) then Some true
      else ptr ← iterator_incr h reg ptr; iterator_find fuel h reg ptr o
  end.

(** The loop visits every cell of the heap at most once, so the number of
    cells bounds the number of iterations. *)
Definition debug_is_in_region (h : gmap N Cell) (this o : N) : option bool :=
  ptr ← iterator_begin h this;
  iterator_find (S (size h)) h this ptr o.

Definition swap_root_internal (h : gmap N Cell) (this oroot nroot : N)
    : option (gmap N Cell) :=
  b ← debug_is_in_region h this nroot;
  guard (b = true);;
  no ← Object.needs_finaliser_ring h oroot;
  nn ← Object.needs_finaliser_ring h nroot;
  '(h, oroot) ←
    (if decide (no ≠ nn) then
       r ← get_reg h this;
       l ← Object.get_next h (last_not_root r);
       guard (l = this);;
       t ← Object.get_next h this;
       h ← Object.set_next h this (next_not_root r);
       h ← upd_reg (with_next_not_root t) h this;
       r ← get_reg h this;
       let t := last_not_root r in
       h ← upd_reg (with_last_not_root oroot) h this;
       h ← Object.init_next h oroot this;
       Some (h, t)
     else Some (h, oroot));
  h ←
    (if decide (oroot ≠ nroot) then
       guard (oroot ≠ this);;
       n ← Object.get_next_any_mark h oroot;
       guard (n = this);;
       n ← Object.get_next h nroot;
       guard (n ≠ this);;
       x ← Object.get_next h this;
       y ← Object.get_next h nroot;
       h ← Object.init_next h oroot x;
       Object.set_next h this y
     else Some h);
  h ← Object.init_iso h nroot;
  Object.set_region h nroot this.

Definition swap_root (h : gmap N Cell) (prev next : N)
    : option (gmap N Cell) :=
  guard (prev ≠ next);;
  guard (Object.debug_is_iso h prev = true);;
  guard (Object.debug_is_mutable h next = true);;
  r ← Object.get_region h prev;
  guard (r ≠ next);;
  reg ← get h prev;
  swap_root_internal h reg prev next.

(** [mark]: scan through the region and mark all objects reachable from
    the iso [o]. *)
Fixpoint mark_loop (fuel : nat) (h : gmap N Cell) (this : N)
    (dfs : list N) (marked : N) : option (gmap N Cell * list N * N) :=
  match dfs with
  | [] => Some (h, [], marked)
  | p :: dfs =>
      match fuel with
      | O => None
      | S fuel =>
          c ← Object.get_class h p;
          match c with
          | ISO | MARKED => mark_loop fuel h this dfs marked
          | UNMARKED =>
              h ← Object.mark h p;
              dfs ← Object.trace h p dfs;
              mark_loop fuel h this dfs marked
          | SCC_PTR =>
              p ← Object.immutable (S fuel) h p;
              '(h, marked) ← RememberedSet.mark h this p marked;
              mark_loop fuel h this dfs marked
          | RC | COWN =>
              '(h, marked) ← RememberedSet.mark h this p marked;
              mark_loop fuel h this dfs marked
          end
      end
  end.

Definition mark (fuel : nat) (h : gmap N Cell) (this o : N)
    (dfs : list N) (marked : N) : option (gmap N Cell * list N * N) :=
  dfs ← Object.trace h o dfs;
  mark_loop fuel h this dfs marked.

Definition set_heap (h : gmap N Cell) (c : Collector) : Collector :=
  mkCollector h (f_stack c) (collect_stack c) (log c).

(** The body of [sweep_ring]: the loop over the ring, with the cursor
    [prev], the current node [p] and the list [gc] of nodes whose
    deallocation is deferred. *)
Fixpoint sweep_loop (fuel : nat) (ring : RingKind) (in_secondary_ring : bool)
    (this o : N) (c : Collector) (prev p gc : N) : option (Collector * N) :=
  if decide (p = this) then Some (c, gc)
  else
    match fuel with
    | O => None
    | S fuel =>
        cls ← Object.get_class (heap c) p;
        match cls with
        | ISO =>
            (* An iso is always the root, and the last thing in the ring.
               Don't run the finaliser. *)
            guard (p = o);;
            n ← Object.get_next_any_mark (heap c) p;
            guard (n = this);;
            r ← Object.get_region (heap c) p;
            guard (r = this);;
            sz ← Object.size (heap c) p;
            h ← use_memory (heap c) this sz;
            Some (set_heap h c, gc)
        | MARKED =>
            sz ← Object.size (heap c) p;
            h ← use_memory (heap c) this sz;
            h ← Object.unmark h p;
            q ← Object.get_next h p;
            sweep_loop fuel ring in_secondary_ring this o (set_heap h c) p q gc
        | UNMARKED =>
            q ← Object.get_next (heap c) p;
            '(c, gc) ←
              match ring with
              | FinaliserRing =>
                  c ← Object.find_iso_fields c p o;
                  hf ← Object.has_finaliser (heap c) p;
                  c ← (if (hf : bool) then Object.finalise c p else Some c);
                  (* Build up linked list of objects with finalisers.
                     We'll deallocate them after sweeping through the
                     entire ring. *)
                  h ← Object.set_next (heap c) p gc;
                  Some (set_heap h c, p)
              | NonfinaliserRing =>
                  pif ← Object.has_possibly_iso_fields (heap c) p;
                  guard (pif = false);;
                  er ← Object.has_ext_ref (heap c) p;
                  h ← (if (er : bool) then ExternalReferenceTable.erase (heap c) this p
                       else Some (heap c));
                  c ← Object.dealloc (set_heap h c) p;
                  Some (c, gc)
              end;
            h ← (if decide (prev = this ∧ in_secondary_ring = true)
                 then upd_reg (with_next_not_root q) (heap c) this
                 else Object.set_next (heap c) prev q);
            r ← get_reg h this;
            h ← (if decide (in_secondary_ring = true ∧ last_not_root r = p)
                 then upd_reg (with_last_not_root prev) h this
                 else Some h);
            sweep_loop fuel ring in_secondary_ring this o (set_heap h c)
              prev q gc
        | _ => None
        end
    end.

(** The second loop of [sweep_ring]: deallocate the deferred nodes. *)
Fixpoint free_deferred (fuel : nat) (c : Collector) (p : N)
    : option Collector :=
  if decide (p = nullptr) then Some c
  else
    match fuel with
    | O => None
    | S fuel =>
        q ← Object.get_next (heap c) p;
        c ← Object.dealloc c p;
        free_deferred fuel c q
    end.

Definition sweep_ring (fuel : nat) (ring : RingKind) (this : N)
    (c : Collector) (o : N) : option Collector :=
  no ← Object.needs_finaliser_ring (heap c) o;
  let in_secondary_ring :=
    match ring with FinaliserRing => negb no | NonfinaliserRing => no end in
  r ← get_reg (heap c) this;
  p ← (if in_secondary_ring then Some (next_not_root r)
       else Object.get_next (heap c) this);
  '(c, gc) ←
    sweep_loop fuel ring in_secondary_ring this o c this p nullptr;
  match ring with
  | FinaliserRing => free_deferred fuel c gc
  | NonfinaliserRing => Some c
  end.

Section SizeClasses.

(** The size-class compression of the backing allocator (snmalloc). *)
Variable size_to_sizeclass : N → N.
Variable sizeclass_to_size : N → N.

Definition merge_internal (h : gmap N Cell) (this o other : N)
    : option (gmap N Cell) :=
  r ← Object.get_region h o;
  guard (r = other);;
  (* Merge the primary ring. *)
  head ← Object.get_next h other;
  h ← (if decide (head ≠ other) then append h this head o else Some h);
  (* Merge the secondary ring. *)
  ro ← get_reg h other;
  let head := next_not_root ro in
  h ← (if decide (head ≠ other) then append h this head (last_not_root ro)
       else Some h);
  (* Update memory usage. *)
  ro ← get_reg h other;
  h ← upd_reg (λ r, with_current_memory_used
         (size_t_add (current_memory_used r) (current_memory_used ro)) r) h this;
  upd_reg (with_previous_memory_used
    (size_to_sizeclass
       (size_t_add (sizeclass_to_size (previous_memory_used ro))
                   (sizeclass_to_size (previous_memory_used ro))))) h this.

Definition merge (h : gmap N Cell) (into o : N) : option (gmap N Cell) :=
  guard (Object.debug_is_iso h o = true);;
  reg ← get h into;
  other ← Object.get_region h o;
  guard (reg ≠ other);;
  guard (is_trace_region h other = true);;
  h ← merge_internal h reg o other;
  (* Merge the ExternalReferenceTable and RememberedSet. *)
  h ← ExternalReferenceTable.merge h reg other;
  h ← RememberedSet.merge h reg other;
  (* Now we can deallocate the other region's metadata object. *)
  Object.dealloc_cell h other.

(** [sweep]: sweep and deallocate all unmarked objects in the region. *)
Definition sweep (fuel : nat) (this : N) (c : Collector) (o marked : N)
    : option Collector :=
  h ← upd_reg (with_current_memory_used 0) (heap c) this;
  c ← sweep_ring fuel FinaliserRing this (set_heap h c) o;
  c ← sweep_ring fuel NonfinaliserRing this c o;
  h ← RememberedSet.sweep_set (heap c) this marked;
  r ← get_reg h this;
  h ← upd_reg (with_previous_memory_used
         (size_to_sizeclass (current_memory_used r))) h this;
  Some (set_heap h c).

(** [release_internal]: release and deallocate all objects within the
    region represented by the iso [o]. *)
Definition release_internal (fuel : nat) (this : N) (c : Collector) (o : N)
    : option Collector :=
  guard (Object.debug_is_iso (heap c) o = true);;
  c ← Object.find_iso_fields c o o;
  c ← Object.finalise c o;
  c ← sweep fuel this c o 0;
  c ← Object.dealloc c this;
  (* Note that sweep does not deallocate the iso object! *)
  Object.dealloc c o.

(** The loop of [gc] that releases the unreachable sub-regions found on
    [collect].  Only trace regions are modelled: a region of another kind
    takes the [abort()] exit. *)
Fixpoint release_unreachable (fuel : nat) (reg : N) (c : Collector)
    : option Collector :=
  match collect_stack c with
  | [] => Some c
  | o :: rest =>
      match fuel with
      | O => None
      | S fuel =>
          let c := mkCollector (heap c) (f_stack c) rest (log c) in
          guard (Object.debug_is_iso (heap c) o = true);;
          r ← Object.get_region (heap c) o;
          guard (r ≠ reg);;
          if is_trace_region (heap c) r then
            c ← release_internal fuel r c o;
            release_unreachable fuel reg c
          else None
      end
  end.

(** [gc]: run a garbage collection on the region of the iso [o]. *)
Definition gc (fuel : nat) (h : gmap N Cell) (o : N) : option Collector :=
  guard (Object.debug_is_iso h o = true);;
  reg ← get h o;
  '(h, f, marked) ← mark fuel h reg o [] 0%N;
  c ← sweep fuel reg (mkCollector h f [] []) o marked;
  release_unreachable fuel reg c.

End SizeClasses.

(** ** Ring segments *)

(** [lseg h p q l]: starting at [p] and following the links of the header
    words, one visits exactly the objects [l], in this order, and arrives
    at [q]. *)
Fixpoint lseg (h : gmap N Cell) (p q : N) (l : list N) : Prop :=
  match l with
  | [] => p = q
  | a :: l =>
      p = a ∧
      match h !! a with
      | Some (CObject o) => lseg h (o_next o) q l
      | _ => False
      end
  end.

#[global] Instance lseg_dec h p q l : Decision (lseg h p q l).
Proof.
  revert p; induction l as [|a l IH]; simpl; intros p; [apply _|].
  destruct (h !! a) as [[o|r]|]; apply _.
Defined.

(** The last element of a list, or [d] when the list is empty. *)
Definition last_or (d : N) (l : list N) : N := List.last l d.

(** A predicate on the object stored at an address. *)
Definition obj_sat (P : Object → Prop) (h : gmap N Cell) (a : N) : Prop :=
  match get_obj h a with Some o => P o | None => False end.

#[global] Instance obj_sat_dec P `{∀ o, Decision (P o)} h a :
  Decision (obj_sat P h a).
Proof. unfold obj_sat. destruct (get_obj h a); apply _. Defined.

Definition is_mutable (o : Object) : Prop :=
  o_class o = UNMARKED ∨ o_class o = MARKED.

Definition is_iso (o : Object) : Prop := o_class o = ISO.

Definition needs (b : bool) (o : Object) : Prop :=
  desc_needs_finaliser_ring (o_descriptor o) = b.

(** The two rings of the region [this]: the primary ring holds [P] and
    then the iso [o]; the secondary ring holds [S]. *)
Definition rings (h : gmap N Cell) (this o : N) (P S : list N) : Prop :=
  match get_reg h this with
  | Some r =>
      lseg h (r_next r) this (P ++ [o]) ∧
      lseg h (next_not_root r) this S ∧
      last_not_root r = last_or this S ∧
      NoDup (P ++ o :: S)
  | None => False
  end.

(** The ring-partition law: the primary ring holds the objects whose need
    of the finaliser ring is that of the iso, the secondary ring the
    others. *)
Definition partition_law (h : gmap N Cell) (o : N) (P S : list N) : Prop :=
  ∃ b, obj_sat (needs b) h o ∧
       Forall (obj_sat (needs b) h) P ∧
       Forall (obj_sat (needs (negb b)) h) S.

(** The invariant of one region. *)
Definition region_inv (h : gmap N Cell) (this o : N) (P S : list N) : Prop :=
  rings h this o P S ∧
  obj_sat is_iso h o ∧
  Forall (obj_sat is_mutable h) (P ++ S) ∧
  partition_law h o P S.

(** The invariant of the heap: null is not allocated, every region
    metadata object heads a well-formed region, and every iso is the root
    of the region its header word points to. *)
Definition heap_inv (h : gmap N Cell) : Prop :=
  h !! nullptr = None ∧
  (∀ this r, h !! this = Some (CRegion r) →
     ∃ o P S, region_inv h this o P S) ∧
  (∀ a o, h !! a = Some (CObject o) → o_class o = ISO →
     ∃ P S, region_inv h (o_next o) a P S).

(** Two cells that the ring structure cannot tell apart: same links, same
    descriptor, same side of the iso / mutable divide. *)
Definition ring_equiv (c c' : Cell) : Prop :=
  match c, c' with
  | CObject o, CObject o' =>
      o_next o' = o_next o ∧ o_descriptor o' = o_descriptor o ∧
      (is_iso o ↔ is_iso o') ∧ (is_mutable o ↔ is_mutable o')
  | CRegion r, CRegion r' =>
      r_next r' = r_next r ∧ next_not_root r' = next_not_root r ∧
      last_not_root r' = last_not_root r
  | _, _ => False
  end.

(** The cells of a region: its metadata object and the objects of its two
    rings. *)
Definition region_cells (this o : N) (P S : list N) : list N :=
  this :: P ++ o :: S.

(** A set of addresses that contains each region either with all its cells
    or not at all. *)
Definition closed_footprint (h : gmap N Cell) (F : list N) : Prop :=
  ∀ r o P S a, region_inv h r o P S → a ∈ P ++ o :: S → r ∈ F ↔ a ∈ F.

(** What [mark] may do to a cell: flip an unmarked object to marked, or
    update the remembered set of a region. *)
Definition mark_rel (c c' : Cell) : Prop :=
  match c, c' with
  | CObject o, CObject o' =>
      o' = o ∨ (o_class o = UNMARKED ∧ o' = with_class MARKED o)
  | CRegion r, CRegion r' => ∃ s, r' = with_hash_set s r
  | _, _ => False
  end.

(** Heaps related cell by cell by [mark_rel], with the same domain. *)
Definition heap_mark_rel (h h' : gmap N Cell) : Prop :=
  ∀ a, match h !! a, h' !! a with
       | Some c, Some c' => mark_rel c c'
       | None, None => True
       | _, _ => False
       end.

(** Region isolation: the fields of the objects of [cells] point to
    objects of [cells] or to objects that are not unmarked mutables (isos
    of other regions, immutables, cowns). *)
Definition isolated (h : gmap N Cell) (cells : list N) : Prop :=
  ∀ p x q, p ∈ cells → h !! p = Some (CObject x) → q ∈ o_fields x →
    q ∈ cells ∨ obj_sat (λ y, o_class y ≠ UNMARKED) h q.

(** ** Blocks of the body of [sweep_loop], named to state lemmas on them *)

(** What the loop does with an unmarked object [p] before unlinking it:
    in the finaliser ring, look for sub-regions, finalise, and defer the
    deallocation; in the other ring, deallocate at once. *)
Definition sweep_dispose (ring : RingKind) (this o : N) (c : Collector)
    (p gc : N) : option (Collector * N) :=
  match ring with
  | FinaliserRing =>
      c ← Object.find_iso_fields c p o;
      hf ← Object.has_finaliser (heap c) p;
      c ← (if (hf : bool) then Object.finalise c p else Some c);
      h ← Object.set_next (heap c) p gc;
      Some (set_heap h c, p)
  | NonfinaliserRing =>
      pif ← Object.has_possibly_iso_fields (heap c) p;
      guard (pif = false);;
      er ← Object.has_ext_ref (heap c) p;
      h ← (if (er : bool) then ExternalReferenceTable.erase (heap c) this p
           else Some (heap c));
      c ← Object.dealloc (set_heap h c) p;
      Some (c, gc)
  end.

(** Unlinking [p], whose successor is [q], from the ring. *)
Definition sweep_unlink (in_secondary_ring : bool) (this : N)
    (h : gmap N Cell) (prev p q : N) : option (gmap N Cell) :=
  h ← (if decide (prev = this ∧ in_secondary_ring = true)
       then upd_reg (with_next_not_root q) h this
       else Object.set_next h prev q);
  r ← get_reg h this;
  if decide (in_secondary_ring = true ∧ last_not_root r = p)
  then upd_reg (with_last_not_root prev) h this
  else Some h.

(** The objects of a ring that a sweep keeps (marked objects and the iso)
    and those it collects (unmarked objects). *)
Definition survivors (h : gmap N Cell) (l : list N) : list N :=
  filter (λ a, Object.get_class h a ≠ Some UNMARKED) l.

Definition unreachable (h : gmap N Cell) (l : list N) : list N :=
  filter (λ a, Object.get_class h a = Some UNMARKED) l.

Definition obj_size (h : gmap N Cell) (a : N) : N :=
  default 0%N (Object.size h a).

Definition sum_sizes (h : gmap N Cell) (l : list N) : N :=
  foldr (λ a s, (obj_size h a + s)%N) 0%N l.

(** The finalisers a sweep of the finaliser ring runs for the unreachable
    objects [d]. *)
Definition finalise_events (h : gmap N Cell) (d : list N) : list Event :=
  EvFinalise <$> filter (λ a, Object.has_finaliser h a = Some true) d.

(** The running total of [use_memory] over the objects [l]. *)
Definition add_sizes (h : gmap N Cell) (l : list N) (acc : N) : N :=
  foldl (λ s a, size_t_add s (obj_size h a)) acc l.

(** The events of the sweep of one ring whose unreachable objects are
    [d]: finalisers in the finaliser ring, deallocations in the other. *)
Definition sweep_loop_events (ring : RingKind) (h : gmap N Cell)
    (d : list N) : list Event :=
  match ring with
  | FinaliserRing => finalise_events h d
  | NonfinaliserRing => EvDealloc <$> d
  end.

(** The state reached by the loop of [sweep_ring] started at the cursor
    [prev] in front of the ring segment [l], in the heap [h] whose
    metadata object is [r], with the deferred list [G]. *)
Definition sweep_loop_post (ring : RingKind) (in_secondary_ring : bool)
    (this : N) (h : gmap N Cell) (r : RegionTrace) (prev : N)
    (l G : list N) (c c' : Collector) (gc' : N) : Prop :=
  let s := survivors h l in
  let d := unreachable h l in
  ∃ r',
    heap c' !! this = Some (CRegion r') ∧
    current_memory_used r' = add_sizes h s (current_memory_used r) ∧
    previous_memory_used r' = previous_memory_used r ∧
    hash_set r' = hash_set r ∧
    (prev = this →
       if in_secondary_ring
       then next_not_root r' = hd this s ∧ r_next r' = r_next r
       else r_next r' = hd this s ∧ next_not_root r' = next_not_root r) ∧
    (prev ≠ this →
       r_next r' = r_next r ∧ next_not_root r' = next_not_root r ∧
       ∀ xprev, h !! prev = Some (CObject xprev) →
         heap c' !! prev = Some (CObject (with_next (hd this s) xprev))) ∧
    last_not_root r' =
      (if in_secondary_ring then last_or prev s else last_not_root r) ∧
    lseg (heap c') (hd this s) this s ∧
    (∀ a x, a ∈ s → h !! a = Some (CObject x) →
       ∃ x', heap c' !! a = Some (CObject x') ∧
             o_descriptor x' = o_descriptor x ∧
             o_fields x' = o_fields x ∧
             o_class x' =
               if decide (o_class x = MARKED) then UNMARKED else o_class x) ∧
    lseg (heap c') gc' nullptr
      (match ring with FinaliserRing => rev d | NonfinaliserRing => [] end
       ++ G) ∧
    (ring = NonfinaliserRing → ∀ a, a ∈ d → heap c' !! a = None) ∧
    (∀ a, a ∉ l → a ≠ this → a ≠ prev → heap c' !! a = h !! a) ∧
    log c' = log c ++ sweep_loop_events ring h d.

(** The events of a complete sweep of one ring whose unreachable objects
    are [d], in ring order: in the finaliser ring the finalisers run
    first and the deferred objects are deallocated afterwards, last
    deferred first. *)
Definition sweep_ring_events (ring : RingKind) (h : gmap N Cell)
    (d : list N) : list Event :=
  match ring with
  | FinaliserRing => finalise_events h d ++ (EvDealloc <$> rev d)
  | NonfinaliserRing => EvDealloc <$> d
  end.

(** The ring that [sweep_ring] walks for the ring kind [ring], in a region
    whose iso needs the finaliser ring iff [bo]: the secondary ring [S]
    or the primary ring [P ++ [o]]. *)
Definition swept_secondary (ring : RingKind) (bo : bool) : bool :=
  match ring with FinaliserRing => negb bo | NonfinaliserRing => bo end.

Definition swept_ring (ring : RingKind) (bo : bool) (o : N)
    (P S : list N) : list N :=
  if swept_secondary ring bo then S else P ++ [o].


(** ** The states of the heap *)

(** The mutator writes the pointer fields of an object. *)
Definition store (h : gmap N Cell) (a : N) (fs : list N)
    : option (gmap N Cell) :=
  upd_obj (with_fields fs) h a.

(** A sequence of [alloc] calls on the region of the iso [in_]. *)
Fixpoint allocs (h : gmap N Cell) (in_ : N) (l : list (N * Descriptor))
    : option (gmap N Cell) :=
  match l with
  | [] => Some h
  | (o, d) :: l => h ← alloc h in_ o d; allocs h in_ l
  end.

Section Reachable.

Variable size_to_sizeclass : N → N.
Variable sizeclass_to_size : N → N.

(** The heaps that the operations of the region API build from the empty
    heap, with the mutator writing fields in between. *)
Inductive reachable : gmap N Cell → Prop :=
  | reachable_empty : reachable ∅
  | reachable_create h o reg desc h' :
      reachable h → create h o reg desc = Some h' → reachable h'
  | reachable_alloc h in_ o desc h' :
      reachable h → alloc h in_ o desc = Some h' → reachable h'
  | reachable_swap_root h prev next h' :
      reachable h → swap_root h prev next = Some h' → reachable h'
  | reachable_merge h into o h' :
      reachable h →
      merge size_to_sizeclass sizeclass_to_size h into o = Some h' →
      reachable h'
  | reachable_gc fuel h o c :
      reachable h → gc size_to_sizeclass fuel h o = Some c →
      reachable (heap c)
  | reachable_store h a fs h' :
      reachable h → store h a fs = Some h' → reachable h'.

End Reachable.



(** A ring [l] cut at its element [n]: the part in front of [n] and the
    part behind it. *)
Fixpoint split_at (n : N) (l : list N) : list N * list N :=
  match l with
  | [] => ([], [])
  | a :: l =>
      if decide (a = n) then ([], l)
      else let '(c, d) := split_at n l in (a :: c, d)
  end.

(** The ring [l] rotated so that [n] is its last element. *)
Definition rotate_to_last (n : N) (l : list N) : list N :=
  let '(c, d) := split_at n l in d ++ c ++ [n].


(** ** Example heaps *)

(** A size-class compression: powers of two. *)
Definition ex_size_to_sizeclass (n : N) : N := N.log2_up n.
Definition ex_sizeclass_to_size (c : N) : N := (2 ^ c)%N.

(** A plain descriptor, and one with a finaliser. *)
Definition ex_dN : Descriptor := mkDescriptor 16 false false false.
Definition ex_dF : Descriptor := mkDescriptor 24 true true false.

(** The region of the iso [1], with metadata object [2], after allocating
    [3] (finaliser), [4] (plain) and [5] (finaliser): the primary ring is
    [4; 1] and the secondary ring is [5; 3]. *)
Definition ex_h1 : gmap N Cell := default ∅ (create ∅ 1 2 ex_dN).
Definition ex_h2 : gmap N Cell := default ∅ (alloc ex_h1 1 3 ex_dF).
Definition ex_h3 : gmap N Cell := default ∅ (alloc ex_h2 1 4 ex_dN).
Definition ex_h4 : gmap N Cell := default ∅ (alloc ex_h3 1 5 ex_dF).

(** A second region, of the iso [7] with metadata object [8] and the
    interior object [9]; the iso [1] points to [4], and [4] points to [3]
    and to the iso [7]. *)
Definition ex_m1 : gmap N Cell := default ∅ (create ex_h4 7 8 ex_dN).
Definition ex_m2 : gmap N Cell := default ∅ (alloc ex_m1 7 9 ex_dN).
Definition ex_m3 : gmap N Cell := default ∅ (store ex_m2 1 [4%N]).
Definition ex_m4 : gmap N Cell := default ∅ (store ex_m3 4 [3%N; 7%N]).


(** A collector state on the heap [ex_h4], with empty stacks and log. *)
Definition ex_c4 : Collector := mkCollector ex_h4 [] [] [].


(** The heap [ex_m2] (two regions, headers [2] and [8]) after a collection
    of each region, and the same heap with another value of the
    [previous_memory_used] of the region [2]. *)
Definition ex_g1 : gmap N Cell :=
  default ∅ (heap <$> gc ex_size_to_sizeclass 10 ex_m2 7).


(** The heap [ex_h4] after [swap_root (1, 5)], and after [swap_root (5, 1)]
    on top of it. *)
Definition ex_s1 : gmap N Cell := default ∅ (swap_root ex_h4 1 5).
Definition ex_s2 : gmap N Cell := default ∅ (swap_root ex_s1 5 1).


(** ** The typed iterators *)

(** Modelled from the spec: the iterator kinds ([IteratorType] is declared
    in [region_base.h], which is not part of the sources): the objects
    that need no finaliser ring, those that need it, or both. *)
Inductive IteratorType := NoFinaliser | NeedsFinaliser | Both.

(** [iterator (RegionTrace* r)]: the start of an iteration of kind
    [type] over the region [r]. *)
Definition iterator_new (type : IteratorType) (h : gmap N Cell) (r : N)
    : option N :=
  q ← Object.get_next h r;
  ptr ←
    match type with
    | NoFinaliser =>
        n ← Object.needs_finaliser_ring h q;
        rr ← get_reg h r;
        Some (if negb n then q else next_not_root rr)
    | NeedsFinaliser =>
        n ← Object.needs_finaliser_ring h q;
        rr ← get_reg h r;
        Some (if (n : bool) then q else next_not_root rr)
    | Both => Some q
    end;
  (* If the next object is the region metadata object, then there was
     nothing to iterate over. *)
  Some (if decide (ptr = r) then nullptr else ptr).

(** [operator++] of the iterator of kind [type]. *)
Definition iterator_next (type : IteratorType) (h : gmap N Cell)
    (reg ptr : N) : option N :=
  q ← Object.get_next_any_mark h ptr;
  if decide (q ≠ reg) then Some q
  else
    match type with
    | Both =>
        r ← get_reg h reg;
        if decide (ptr ≠ last_not_root r ∧ next_not_root r ≠ reg) then
          (* We finished the primary ring and there's a secondary ring to
             switch to. *)
          guard (Object.debug_is_iso h ptr = true);;
          Some (next_not_root r)
        else Some nullptr
    | _ =>
        (* We finished a ring and don't care about the other ring. *)
        Some nullptr
    end.

(** The range-based loop [for (auto p : *this)] from the iterator [ptr] to
    [end ()], collecting the objects it visits. *)
Fixpoint iterate (fuel : nat) (type : IteratorType) (h : gmap N Cell)
    (reg ptr : N) : option (list N) :=
  if decide (ptr = nullptr) then Some []
  else
    match fuel with
    | O => None
    | S fuel =>
        q ← iterator_next type h reg ptr;
        l ← iterate fuel type h reg q;
        Some (ptr :: l)
    end.

(** The objects that the loop over [begin<type> ()] .. [end<type> ()]
    visits.  The loop visits every cell of the heap at most once, so the
    number of cells bounds the number of iterations. *)
Definition iterator_objects (type : IteratorType) (h : gmap N Cell)
    (reg : N) : option (list N) :=
  ptr ← iterator_new type h reg;
  iterate (S (size h)) type h reg ptr.

(** ** Tracing *)

(** The pointers that [mark] pops when it starts from the stack [seed]:
    the seed, and the fields of the unmarked objects it pops. *)
Inductive traced (h : gmap N Cell) (seed : list N) : N → Prop :=
  | traced_seed a : a ∈ seed → traced h seed a
  | traced_field a x q :
      traced h seed a → h !! a = Some (CObject x) →
      o_class x = UNMARKED → q ∈ o_fields x → traced h seed q.


(** Two cells with the same payload: objects with the same descriptor,
    fields and external-reference flag, metadata objects with the same
    memory counters, remembered set and external reference table. *)
Definition same_payload (c c' : Cell) : Prop :=
  match c, c' with
  | CObject x, CObject x' =>
      o_descriptor x' = o_descriptor x ∧ o_fields x' = o_fields x ∧
      o_ext_ref x' = o_ext_ref x
  | CRegion r, CRegion r' =>
      current_memory_used r' = current_memory_used r ∧
      previous_memory_used r' = previous_memory_used r ∧
      hash_set r' = hash_set r ∧ ext_table r' = ext_table r
  | _, _ => False
  end.


(** The heap [ex_m2] after the object [5] of the region [2], which needs
    a finaliser, is made to point to the iso [7] of the region [8]. *)
Definition ex_k1 : gmap N Cell := default ∅ (store ex_m2 5 [7%N]).


(** ** Conditions under which the loops of the collector return *)

(** What the loop of [sweep_ring] asks of the objects of the ring: a
    mutable, or the iso of the region with its header pointing back to
    the metadata object; an unmarked object of the ring without
    finalisers has no field that may hold an iso. *)
Definition sweepable (ring : RingKind) (this o : N) (h : gmap N Cell)
    (a : N) : Prop :=
  ∃ x, h !! a = Some (CObject x) ∧
    (o_class x = UNMARKED ∨ o_class x = MARKED ∨
     (o_class x = ISO ∧ a = o ∧ o_next x = this)) ∧
    (ring = NonfinaliserRing → o_class x = UNMARKED →
     desc_has_possibly_iso_fields (o_descriptor x) = false).

(** The assertion of the sweep of the ring without finalisers, as a
    condition on the objects [l]: an unmarked object that does not need
    the finaliser ring has no field that may hold an iso. *)
Definition sweep_ready (h : gmap N Cell) (l : list N) : Prop :=
  ∀ a x, a ∈ l → h !! a = Some (CObject x) → o_class x = UNMARKED →
    desc_needs_finaliser_ring (o_descriptor x) = false →
    desc_has_possibly_iso_fields (o_descriptor x) = false.

(** The work left to [mark]: one unit for every field of an unmarked
    object, which the trace of the object pushes on the stack. *)
Definition mark_weight (c : Cell) : nat :=
  match c with
  | CObject x =>
      if decide (o_class x = UNMARKED) then length (o_fields x) else 0%nat
  | CRegion _ => 0%nat
  end.

Definition mark_work (h : gmap N Cell) : nat :=
  sum_list_with mark_weight (map_to_list h).*2.

(** What [mark] asks of a pointer it pops: the pointer refers to an
    object, and a pointer into a strongly connected component resolves to
    the root of the component within [k] steps. *)
Definition markable (k : nat) (h : gmap N Cell) (q : N) : Prop :=
  ∃ y, h !! q = Some (CObject y) ∧
       (o_class y = SCC_PTR → is_Some (Object.immutable k h q)).


(** The heap [ex_m2] with an entry in the remembered set and in the
    external reference table of each of its two regions. *)
Definition ex_e1 : gmap N Cell :=
  default ∅
    (upd_reg (λ r, with_ext_table {[4%N]}
                     (with_hash_set {[20%N := false]} r)) ex_m2 2).

Definition ex_e2 : gmap N Cell :=
  default ∅
    (upd_reg (λ r, with_ext_table {[9%N]}
                     (with_hash_set {[21%N := false]} r)) ex_e1 8).

(** ** Insertion histories *)

Section RingHistory.

Variable size_to_sizeclass : N → N.
Variable sizeclass_to_size : N → N.

(** The histories of the region of the iso [in_] in which [swap_root] is
    not applied to the region, with the list of the objects of its rings,
    the latest inserted first.  An allocation inserts the new object; a
    merge inserts the objects of the donated rings, in the order of these
    rings; a collection removes the objects it frees; a write to a field,
    or an operation that changes no cell of the region, inserts
    nothing.  A history starts in any state of the heap, with the objects
    that the rings hold then. *)
Inductive ring_history (in_ : N) : gmap N Cell → list N → Prop :=
  | history_start h this P S :
      reachable size_to_sizeclass sizeclass_to_size h →
      rings h this in_ P S →
      ring_history in_ h (P ++ S)
  | history_alloc h L o desc h' :
      ring_history in_ h L →
      alloc h in_ o desc = Some h' →
      ring_history in_ h' (o :: L)
  | history_merge h L o other P2 S2 h' :
      ring_history in_ h L →
      rings h other o P2 S2 →
      merge size_to_sizeclass sizeclass_to_size h in_ o = Some h' →
      ring_history in_ h' ((P2 ++ o :: S2) ++ L)
  | history_gc h L fuel c :
      ring_history in_ h L →
      gc size_to_sizeclass fuel h in_ = Some c →
      ring_history in_ (heap c) (filter (λ a, is_Some (heap c !! a)) L)
  | history_store h L a fs h' :
      ring_history in_ h L →
      store h a fs = Some h' →
      ring_history in_ h' L
  | history_frame h L this h' :
      ring_history in_ h L →
      reachable size_to_sizeclass sizeclass_to_size h' →
      get h in_ = Some this →
      (∀ a, a ∈ this :: in_ :: L → h' !! a = h !! a) →
      ring_history in_ h' L.

End RingHistory.

(** The heap [ex_h4] after the iso has been made to point to [5], and
    after a collection of the region: [5] is the only interior object
    left. *)
Definition ex_r1 : gmap N Cell := default ∅ (store ex_h4 1 [5%N]).

Definition ex_r2 : gmap N Cell :=
  default ∅ (heap <$> gc ex_size_to_sizeclass 10 ex_r1 1).

(** ** Lemmas on ring segments *)

Lemma lseg_cons h p q a l :
  lseg h p q (a :: l) ↔
  p = a ∧ ∃ o, h !! a = Some (CObject o) ∧ lseg h (o_next o) q l.
Proof.
  simpl. split.
  - intros [-> H]. split; [done|].
    destruct (h !! a) as [[o|r]|]; try done. eauto.
  - intros [-> (o & -> & H)]. done.
Qed.

Lemma lseg_app h p q l1 l2 :
  lseg h p q (l1 ++ l2) ↔ ∃ m, lseg h p m l1 ∧ lseg h m q l2.
Proof.
  revert p. induction l1 as [|a l1 IH]; intros p.
  - simpl. split; [eauto|]. by intros (m & -> & H).
  - rewrite <- app_comm_cons, lseg_cons. split.
    + intros [-> (o & Ho & H)]. apply IH in H as (m & H1 & H2).
      exists m. rewrite lseg_cons. eauto.
    + intros (m & H1 & H2). apply lseg_cons in H1 as [-> (o & Ho & H1)].
      split; [done|]. exists o. split; [done|]. apply IH. eauto.
Qed.

Lemma lseg_snoc h p q l a :
  lseg h p q (l ++ [a]) ↔
  lseg h p a l ∧ ∃ o, h !! a = Some (CObject o) ∧ o_next o = q.
Proof.
  rewrite lseg_app. split.
  - intros (m & H1 & H2). apply lseg_cons in H2 as [-> (o & Ho & H2)].
    simpl in H2. eauto.
  - intros (H1 & o & Ho & Hq). exists a. split; [done|].
    apply lseg_cons. split; [done|]. exists o. by split.
Qed.

(** A segment only depends on the links of the objects it visits. *)
Lemma lseg_ext h h' p q l :
  (∀ a o, a ∈ l → h !! a = Some (CObject o) →
     ∃ o', h' !! a = Some (CObject o') ∧ o_next o' = o_next o) →
  lseg h p q l → lseg h' p q l.
Proof.
  revert p. induction l as [|a l IH]; intros p Hext; [done|].
  rewrite !lseg_cons. intros [-> (o & Ho & H)]. split; [done|].
  destruct (Hext a o) as (o' & Ho' & Hn); [left|done|].
  exists o'. split; [done|]. rewrite Hn. apply IH; [|done].
  intros b ob Hb. apply Hext. by right.
Qed.

Lemma lseg_frame h h' p q l :
  (∀ a, a ∈ l → h' !! a = h !! a) → lseg h p q l → lseg h' p q l.
Proof.
  intros Hfr. apply lseg_ext. intros a o Ha Ho. exists o.
  by rewrite Hfr.
Qed.

Lemma lseg_insert h p q l a c :
  a ∉ l → lseg h p q l → lseg (<[a := c]> h) p q l.
Proof.
  intros Ha. apply lseg_frame. intros b Hb.
  apply lookup_insert_ne. by intros ->.
Qed.

Lemma lseg_delete h p q l a :
  a ∉ l → lseg h p q l → lseg (delete a h) p q l.
Proof.
  intros Ha. apply lseg_frame. intros b Hb.
  apply lookup_delete_ne. by intros ->.
Qed.

Lemma lseg_is_obj h p q l a :
  lseg h p q l → a ∈ l → is_Some (get_obj h a).
Proof.
  revert p. induction l as [|b l IH]; intros p H Ha.
  - by apply elem_of_nil in Ha.
  - apply lseg_cons in H as [-> (o & Ho & H)].
    apply elem_of_cons in Ha as [->|Ha]; [|by eapply IH].
    unfold get_obj. rewrite Ho. eauto.
Qed.

Lemma lseg_not_reg h p q l a :
  lseg h p q l → is_Some (get_reg h a) → a ∉ l.
Proof.
  intros H [r Hr] Ha. destruct (lseg_is_obj _ _ _ _ _ H Ha) as [o Ho].
  unfold get_obj, get_reg in *. by destruct (h !! a) as [[]|].
Qed.

Lemma lseg_split h p q l a :
  lseg h p q l → a ∈ l →
  ∃ l1 l2, l = l1 ++ a :: l2 ∧ lseg h p a l1 ∧ lseg h a q (a :: l2).
Proof.
  intros H Ha. apply list_elem_of_split in Ha as (l1 & l2 & ->).
  exists l1, l2. split; [done|].
  apply lseg_app in H as (m & H1 & H2).
  assert (m = a) as -> by (by apply lseg_cons in H2 as [-> _]). done.
Qed.

(** Two segments from the same start that both end at a region metadata
    object are the same segment. *)
Lemma lseg_end_unique h p q1 q2 l1 l2 :
  lseg h p q1 l1 → lseg h p q2 l2 →
  is_Some (get_reg h q1) → is_Some (get_reg h q2) →
  q1 = q2 ∧ l1 = l2.
Proof.
  revert p l2. induction l1 as [|a l1 IH]; intros p l2 H1 H2 Hq1 Hq2.
  - simpl in H1. subst p. destruct l2 as [|b l2]; [done|].
    apply lseg_cons in H2 as [-> (o & Ho & _)].
    destruct Hq1 as [r Hr]. unfold get_reg in Hr. by rewrite Ho in Hr.
  - apply lseg_cons in H1 as [-> (o & Ho & H1)].
    destruct l2 as [|b l2].
    + simpl in H2. subst q2.
      destruct Hq2 as [r Hr]. unfold get_reg in Hr. by rewrite Ho in Hr.
    + apply lseg_cons in H2 as [<- (o' & Ho' & H2)].
      assert (o' = o) as -> by congruence.
      destruct (IH _ _ H1 H2 Hq1 Hq2) as [-> ->]. done.
Qed.

Lemma lseg_next h p q l a :
  lseg h p q l → a ∈ l →
  ∃ o, h !! a = Some (CObject o) ∧ (o_next o = q ∨ o_next o ∈ l).
Proof.
  revert p. induction l as [|b l IH]; intros p H Ha.
  - by apply elem_of_nil in Ha.
  - apply lseg_cons in H as [-> (o & Ho & H)].
    apply elem_of_cons in Ha as [->|Ha].
    + exists o. split; [done|]. destruct l as [|c l]; simpl in H.
      * by left.
      * destruct H as [-> _]. right. right. left.
    + destruct (IH _ H Ha) as (o' & Ho' & Hn). exists o'.
      split; [done|]. destruct Hn; [by left|right; by right].
Qed.

(** ** Symbolic execution of the heap primitives *)

Ltac hlookup :=
  repeat match goal with
  | |- context [<[?a := _]> _ !! ?a] => rewrite lookup_insert_eq
  | |- context [<[?a := _]> _ !! ?b] =>
      rewrite (lookup_insert_ne _ a b) by congruence
  | |- context [delete ?a _ !! ?a] => rewrite lookup_delete_eq
  | |- context [delete ?a _ !! ?b] =>
      rewrite (lookup_delete_ne _ a b) by congruence
  | H : ?h !! ?a = _ |- context [?h !! ?a] => rewrite H
  end.

Ltac hexec := repeat (progress (hlookup; simpl)).

Lemma get_reg_Some h a r : get_reg h a = Some r ↔ h !! a = Some (CRegion r).
Proof.
  unfold get_reg. destruct (h !! a) as [[]|]; split; congruence.
Qed.

Lemma get_obj_Some h a o : get_obj h a = Some o ↔ h !! a = Some (CObject o).
Proof.
  unfold get_obj. destruct (h !! a) as [[]|]; split; congruence.
Qed.

Lemma obj_sat_iff P h a :
  obj_sat P h a ↔ ∃ o, h !! a = Some (CObject o) ∧ P o.
Proof.
  unfold obj_sat, get_obj. destruct (h !! a) as [[o|r]|]; split;
    try done; try (intros (o' & Ho' & _); congruence).
  - eauto.
  - intros (o' & Ho' & HP). by simplify_eq.
Qed.

Lemma append_spec h this hd tl r otl b bo :
  h !! this = Some (CRegion r) →
  h !! tl = Some (CObject otl) →
  obj_sat (needs b) h hd →
  obj_sat (needs bo) h (r_next r) →
  append h this hd tl =
    Some (<[this := CRegion
             (if decide (b = bo) then with_r_next hd r
              else with_last_not_root
                     (if decide (last_not_root r = this) then tl
                      else last_not_root r)
                     (with_next_not_root hd r))]>
          (<[tl := CObject
               (with_class UNMARKED
                  (with_next (if decide (b = bo) then r_next r
                              else next_not_root r) otl))]> h)).
Proof.
  intros Hr Htl Hhd Hp.
  apply obj_sat_iff in Hhd as (ohd & Hhd & Hb).
  apply obj_sat_iff in Hp as (op & Hp & Hbo).
  unfold needs in *.
  unfold append, Object.get_next, Object.needs_finaliser_ring,
    Object.init_next, Object.set_next, upd_reg, get_reg.
  hexec. rewrite Hb, Hbo.
  destruct (decide (b = bo)) as [Heq|Heq]; hexec; [done|].
  rewrite insert_insert_eq.
  destruct (decide (last_not_root r = this)); hexec.
  - done.
  - by destruct r.
Qed.
Lemma rings_iff h this o P S :
  rings h this o P S ↔
  ∃ r, h !! this = Some (CRegion r) ∧
       lseg h (r_next r) this (P ++ [o]) ∧
       lseg h (next_not_root r) this S ∧
       last_not_root r = last_or this S ∧
       NoDup (P ++ o :: S).
Proof.
  unfold rings, get_reg. destruct (h !! this) as [[ob|r]|]; split;
    try done; try (intros (r' & Hr' & _); congruence).
  - intros H. by exists r.
  - intros (r' & Hr' & H). by simplify_eq.
Qed.

Lemma obj_sat_insert_ne P h a b c :
  a ≠ b → obj_sat P (<[b := c]> h) a ↔ obj_sat P h a.
Proof.
  intros Hne. unfold obj_sat, get_obj. by rewrite lookup_insert_ne.
Qed.

Lemma obj_sat_delete_ne P h a b :
  a ≠ b → obj_sat P (delete b h) a ↔ obj_sat P h a.
Proof.
  intros Hne. unfold obj_sat, get_obj. by rewrite lookup_delete_ne.
Qed.

Lemma obj_sat_insert_reg P h a b r r' :
  h !! b = Some (CRegion r) →
  obj_sat P (<[b := CRegion r']> h) a ↔ obj_sat P h a.
Proof.
  intros Hb. unfold obj_sat, get_obj.
  destruct (decide (a = b)) as [->|Hne].
  - by rewrite lookup_insert_eq, Hb.
  - by rewrite lookup_insert_ne.
Qed.

Lemma obj_sat_frame P h h' a :
  h' !! a = h !! a → obj_sat P h a → obj_sat P h' a.
Proof. unfold obj_sat, get_obj. by intros ->. Qed.

Lemma Forall_obj_sat_frame P h h' l :
  (∀ a, a ∈ l → h' !! a = h !! a) →
  Forall (obj_sat P h) l → Forall (obj_sat P h') l.
Proof.
  intros Hfr. rewrite !Forall_forall. intros H a Ha.
  apply (obj_sat_frame P h); [by apply Hfr|by apply H].
Qed.

Lemma obj_sat_is_obj P h a : obj_sat P h a → is_Some (get_obj h a).
Proof. unfold obj_sat. destruct (get_obj h a); [eauto|done]. Qed.

Lemma obj_sat_not_reg P h a r :
  obj_sat P h a → h !! a = Some (CRegion r) → False.
Proof. unfold obj_sat, get_obj. intros H Hr. by rewrite Hr in H. Qed.

Lemma last_or_snoc d l a : last_or d (l ++ [a]) = a.
Proof. apply List.last_last. Qed.

Lemma last_or_app d l1 l2 : last_or d (l1 ++ l2) = last_or (last_or d l1) l2.
Proof.
  unfold last_or. revert l1. induction l2 as [|a l2 IH] using rev_ind; intros l1.
  - by rewrite app_nil_r.
  - by rewrite app_assoc, !List.last_last.
Qed.

Lemma last_or_elem d l : l ≠ [] → last_or d l ∈ l.
Proof.
  destruct l as [|a l] using rev_ind; [done|]. intros _.
  rewrite last_or_snoc. apply elem_of_app. right. left.
Qed.

Lemma last_or_nonempty d d' l : l ≠ [] → last_or d l = last_or d' l.
Proof.
  destruct l as [|a l] using rev_ind; [done|]. intros _.
  by rewrite !last_or_snoc.
Qed.

(** The metadata object is in none of its rings. *)
Lemma rings_this_notin h this o P S :
  rings h this o P S → this ∉ P ++ o :: S.
Proof.
  intros (r & Hr & HP & HS & _)%rings_iff Hin.
  assert (is_Some (get_reg h this)) as Hreg
    by (exists r; by apply get_reg_Some).
  replace (P ++ o :: S) with ((P ++ [o]) ++ S) in Hin
    by (by rewrite <- app_assoc).
  apply elem_of_app in Hin as [Hin|Hin].
  - by eapply lseg_not_reg in Hin.
  - by eapply lseg_not_reg in Hin.
Qed.

Lemma rings_last_this h this o P S r :
  rings h this o P S → h !! this = Some (CRegion r) →
  last_not_root r = this ↔ S = [].
Proof.
  intros Hrings Hr. pose proof (rings_this_notin _ _ _ _ _ Hrings) as Hnotin.
  apply rings_iff in Hrings as (r' & Hr' & _ & _ & Hlast & _).
  assert (r' = r) as -> by congruence. rewrite Hlast. split.
  - intros Heq. destruct (decide (S = [])) as [|Hne]; [done|].
    apply (last_or_elem this) in Hne. rewrite Heq in Hne.
    exfalso. apply Hnotin. apply elem_of_app. right. by right.
  - by intros ->.
Qed.

Ltac lseg_ins := repeat (apply lseg_insert; [done|]); try done.

Lemma append_rings h this o P S r hd tl C otl (same : bool) :
  rings h this o P S →
  h !! this = Some (CRegion r) →
  lseg h hd tl C →
  h !! tl = Some (CObject otl) →
  NoDup (C ++ [tl]) →
  (∀ a, a ∈ C ++ [tl] → a ∉ P ++ o :: S) →
  rings
    (<[this := CRegion
         (if same then with_r_next hd r
          else with_last_not_root
                 (if decide (last_not_root r = this) then tl
                  else last_not_root r)
                 (with_next_not_root hd r))]>
       (<[tl := CObject
            (with_class UNMARKED
               (with_next (if same then r_next r else next_not_root r)
                  otl))]> h))
    this o
    (if same then (C ++ [tl]) ++ P else P)
    (if same then S else (C ++ [tl]) ++ S).
Proof.
  intros Hrings Hr HC Htl Hnd Hdisj.
  pose proof (rings_this_notin _ _ _ _ _ Hrings) as Hthis.
  pose proof (rings_last_this _ _ _ _ _ _ Hrings Hr) as Hlast_this.
  apply rings_iff in Hrings as (r' & Hr' & HP & HS & Hlast & HndPS).
  assert (r' = r) as -> by congruence. clear Hr'.
  assert (tl ∉ C) as HtlC.
  { apply NoDup_app in Hnd as (_ & Hd & _). intros Hin.
    apply (Hd tl Hin). left. }
  assert (this ∉ C) as HthisC.
  { eapply lseg_not_reg; [done|]. exists r. by apply get_reg_Some. }
  assert (tl ∉ P ++ o :: S) as HtlPS.
  { apply Hdisj. apply elem_of_app. right. left. }
  assert ((tl ∉ P ++ [o]) ∧ (tl ∉ S)) as [HtlP HtlS].
  { split; intros Hin; apply HtlPS.
    - apply elem_of_app in Hin as [Hin|Hin%list_elem_of_singleton].
      + apply elem_of_app. by left.
      + subst. apply elem_of_app. right. left.
    - apply elem_of_app. right. by right. }
  assert ((this ∉ P ++ [o]) ∧ (this ∉ S)) as [HthisP HthisS].
  { split; intros Hin; apply Hthis.
    - apply elem_of_app in Hin as [Hin|Hin%list_elem_of_singleton].
      + apply elem_of_app. by left.
      + subst. apply elem_of_app. right. left.
    - apply elem_of_app. right. by right. }
  apply rings_iff. eexists. split; [apply lookup_insert_eq|].
  destruct same; simpl.
  - split; [|split; [|split]].
    + rewrite <- !app_assoc. apply lseg_app. exists tl. split.
      * lseg_ins.
      * simpl. split; [done|]. hlookup. simpl.
        lseg_ins.
    + lseg_ins.
    + done.
    + rewrite <- app_assoc. apply NoDup_app. split; [done|]. split; [|done].
      intros a Ha. by apply Hdisj.
  - split; [|split; [|split]].
    + lseg_ins.
    + rewrite <- !app_assoc. apply lseg_app. exists tl. split.
      * lseg_ins.
      * simpl. split; [done|]. hlookup. simpl.
        lseg_ins.
    + rewrite last_or_app, last_or_snoc.
      destruct (decide (last_not_root r = this)) as [Heq|Hne].
      * apply Hlast_this in Heq. by subst.
      * rewrite Hlast. apply last_or_nonempty. intros HS'.
        by apply Hne, Hlast_this.
    + apply NoDup_app in HndPS as (HndP & HPS & HndoS).
      apply NoDup_cons in HndoS as [HoS HndS].
      apply NoDup_app. split; [done|]. split.
      * intros a Ha [->|Hin]%elem_of_cons.
        -- apply (HPS o Ha). left.
        -- apply elem_of_app in Hin as [Hin|Hin].
           ++ apply (Hdisj a Hin). apply elem_of_app. by left.
           ++ apply (HPS a Ha). by right.
      * apply NoDup_cons. split.
        -- intros [Hin|Hin]%elem_of_app; [|done].
           apply (Hdisj o Hin). apply elem_of_app. right. left.
        -- apply NoDup_app. split; [done|]. split; [|done].
           intros a Ha Hin. apply (Hdisj a Ha). apply elem_of_app.
           right. by right.
Qed.

(** ** Regions: uniqueness, disjointness, framing *)

(** Membership in lists built with [++] and [::]. *)
Ltac list_mem :=
  unfold region_cells in *;
  repeat (rewrite ?elem_of_app, ?elem_of_cons, ?elem_of_nil in * );
  intuition (subst; auto; congruence).


Lemma ring_equiv_refl c : ring_equiv c c.
Proof. destruct c; simpl; naive_solver. Qed.

Lemma region_inv_rings h this o P S :
  region_inv h this o P S → rings h this o P S.
Proof. by intros [? _]. Qed.

Lemma region_inv_is_reg h this o P S :
  region_inv h this o P S → is_Some (get_reg h this).
Proof.
  intros [(r & Hr & _)%rings_iff _]. exists r. by apply get_reg_Some.
Qed.

Lemma rings_is_obj h this o P S a :
  rings h this o P S → a ∈ P ++ o :: S → is_Some (get_obj h a).
Proof.
  intros (r & Hr & HP & HS & _)%rings_iff Hin.
  replace (P ++ o :: S) with ((P ++ [o]) ++ S) in Hin
    by (by rewrite <- app_assoc).
  apply elem_of_app in Hin as [Hin|Hin].
  - by apply (lseg_is_obj _ _ _ _ _ HP).
  - by apply (lseg_is_obj _ _ _ _ _ HS).
Qed.

(** From any object of a ring, the links lead to the metadata object. *)
Lemma rings_path h this o P S a :
  rings h this o P S → a ∈ P ++ o :: S → ∃ l, lseg h a this l.
Proof.
  intros (r & Hr & HP & HS & _)%rings_iff Hin.
  replace (P ++ o :: S) with ((P ++ [o]) ++ S) in Hin
    by (by rewrite <- app_assoc).
  apply elem_of_app in Hin as [Hin|Hin].
  - destruct (lseg_split _ _ _ _ _ HP Hin) as (l1 & l2 & _ & _ & H). eauto.
  - destruct (lseg_split _ _ _ _ _ HS Hin) as (l1 & l2 & _ & _ & H). eauto.
Qed.

(** An object lies in the rings of at most one region. *)
Lemma rings_disjoint h r1 o1 P1 S1 r2 o2 P2 S2 a :
  rings h r1 o1 P1 S1 → rings h r2 o2 P2 S2 →
  a ∈ P1 ++ o1 :: S1 → a ∈ P2 ++ o2 :: S2 → r1 = r2.
Proof.
  intros H1 H2 Ha1 Ha2.
  destruct (rings_path _ _ _ _ _ _ H1 Ha1) as [l1 Hl1].
  destruct (rings_path _ _ _ _ _ _ H2 Ha2) as [l2 Hl2].
  apply rings_iff in H1 as (r & Hr & _). apply rings_iff in H2 as (r' & Hr' & _).
  eapply lseg_end_unique; [done|done|..].
  - exists r. by apply get_reg_Some.
  - exists r'. by apply get_reg_Some.
Qed.

(** The rings of a region are determined by the heap. *)
Lemma rings_unique h this o P S o' P' S' :
  rings h this o P S → rings h this o' P' S' →
  o = o' ∧ P = P' ∧ S = S'.
Proof.
  intros (r & Hr & HP & HS & _)%rings_iff (r' & Hr' & HP' & HS' & _)%rings_iff.
  assert (r' = r) as -> by congruence.
  assert (is_Some (get_reg h this)) as Hreg
    by (exists r; by apply get_reg_Some).
  destruct (lseg_end_unique _ _ _ _ _ _ HP HP' Hreg Hreg) as [_ HeqP].
  destruct (lseg_end_unique _ _ _ _ _ _ HS HS' Hreg Hreg) as [_ HeqS].
  apply app_inj_tail in HeqP as [-> ->]. done.
Qed.

Lemma lseg_equiv h h' p q l :
  (∀ a c, a ∈ l → h !! a = Some c → ∃ c', h' !! a = Some c' ∧ ring_equiv c c') →
  lseg h p q l → lseg h' p q l.
Proof.
  intros Heq. apply lseg_ext. intros a o Ha Ho.
  destruct (Heq a _ Ha Ho) as (c' & Hc' & Hre).
  destruct c' as [o'|]; [|done]. exists o'. split; [done|]. by destruct Hre.
Qed.

Lemma obj_sat_equiv (Q : Object → Prop) h h' a :
  (∀ o o', ring_equiv (CObject o) (CObject o') → Q o → Q o') →
  (∀ c, h !! a = Some c → ∃ c', h' !! a = Some c' ∧ ring_equiv c c') →
  obj_sat Q h a → obj_sat Q h' a.
Proof.
  intros HQ Heq (o & Ho & Hq)%obj_sat_iff.
  destruct (Heq _ Ho) as (c' & Hc' & Hre).
  destruct c' as [o'|]; [|done]. apply obj_sat_iff. exists o'.
  split; [done|]. by eapply HQ.
Qed.

Lemma needs_equiv b o o' :
  ring_equiv (CObject o) (CObject o') → needs b o → needs b o'.
Proof. unfold needs. by intros (_ & -> & _). Qed.

Lemma is_iso_equiv o o' :
  ring_equiv (CObject o) (CObject o') → is_iso o → is_iso o'.
Proof. intros (_ & _ & H & _). apply H. Qed.

Lemma is_mutable_equiv o o' :
  ring_equiv (CObject o) (CObject o') → is_mutable o → is_mutable o'.
Proof. intros (_ & _ & _ & H). apply H. Qed.

(** The invariant of a region only depends on the cells of the region, up
    to [ring_equiv]. *)
Lemma region_inv_transfer h h' this o P S :
  (∀ a c, a ∈ region_cells this o P S → h !! a = Some c →
     ∃ c', h' !! a = Some c' ∧ ring_equiv c c') →
  region_inv h this o P S → region_inv h' this o P S.
Proof.
  unfold region_cells. intros Heq (Hrings & Hiso & Hmut & b & Hbo & HbP & HbS).
  assert (∀ a, a ∈ P ++ o :: S → ∀ c, h !! a = Some c →
            ∃ c', h' !! a = Some c' ∧ ring_equiv c c') as Heq'.
  { intros a Ha c. apply Heq. by right. }
  rewrite Forall_forall in Hmut, HbP, HbS.
  split; [|split; [|split]].
  - apply rings_iff in Hrings as (r & Hr & HP & HS & Hlast & Hnd).
    destruct (Heq this _ ltac:(left) Hr) as (c' & Hc' & Hre).
    destruct c' as [|r']; [done|]. destruct Hre as (Hn & Hnn & Hl).
    apply rings_iff. exists r'. rewrite Hn, Hnn, Hl.
    split; [done|]. split; [|split; [|done]].
    + eapply lseg_equiv; [|done]. intros a c Ha. apply Heq'. list_mem.
    + eapply lseg_equiv; [|done]. intros a c Ha. apply Heq'. list_mem.
  - eapply obj_sat_equiv; [apply is_iso_equiv| |done]. apply Heq'. list_mem.
  - apply Forall_forall. intros a Ha.
    eapply obj_sat_equiv; [apply is_mutable_equiv| |by apply Hmut].
    apply Heq'. list_mem.
  - exists b. split; [|split].
    + eapply obj_sat_equiv; [apply needs_equiv| |done]. apply Heq'. list_mem.
    + apply Forall_forall. intros a Ha.
      eapply obj_sat_equiv; [apply needs_equiv| |by apply HbP].
      apply Heq'. list_mem.
    + apply Forall_forall. intros a Ha.
      eapply obj_sat_equiv; [apply needs_equiv| |by apply HbS].
      apply Heq'. list_mem.
Qed.

Lemma region_inv_frame h h' this o P S :
  (∀ a, a ∈ region_cells this o P S → h' !! a = h !! a) →
  region_inv h this o P S → region_inv h' this o P S.
Proof.
  intros Hfr. apply region_inv_transfer. intros a c Ha Hc.
  exists c. rewrite Hfr by done. split; [done|apply ring_equiv_refl].
Qed.

Lemma region_inv_unique h this o P S o' P' S' :
  region_inv h this o P S → region_inv h this o' P' S' →
  o = o' ∧ P = P' ∧ S = S'.
Proof. intros [H _] [H' _]. by eapply rings_unique. Qed.

(** Preservation of the heap invariant by an operation whose footprint [F]
    is made of whole regions and of fresh cells. *)
Lemma heap_inv_preserved (F : list N) h h' :
  heap_inv h →
  h' !! nullptr = None →
  (∀ a, a ∉ F → h' !! a = h !! a) →
  (∀ r o P S a, region_inv h r o P S → a ∈ P ++ o :: S → r ∈ F ↔ a ∈ F) →
  (∀ a r, a ∈ F → h' !! a = Some (CRegion r) →
     ∃ o P S, region_inv h' a o P S) →
  (∀ a o, a ∈ F → h' !! a = Some (CObject o) → o_class o = ISO →
     ∃ P S, region_inv h' (o_next o) a P S) →
  heap_inv h'.
Proof.
  intros (Hnull & Hregs & Hisos) Hnull' Hframe Hclosed HregF HisoF.
  assert (∀ r o P S, region_inv h r o P S → r ∉ F →
            region_inv h' r o P S) as Hkeep.
  { intros r o P S Hinv HnF. eapply region_inv_frame; [|done].
    intros a [->|Ha]%elem_of_cons; apply Hframe; [done|].
    by rewrite <- (Hclosed _ _ _ _ _ Hinv Ha). }
  split; [done|]. split.
  - intros this r Hr. destruct (decide (this ∈ F)) as [HF|HnF]; [by eauto|].
    rewrite Hframe in Hr by done.
    destruct (Hregs _ _ Hr) as (o & P & S & Hinv). eauto.
  - intros a o Ho Hiso. destruct (decide (a ∈ F)) as [HF|HnF]; [by eauto|].
    rewrite Hframe in Ho by done.
    destruct (Hisos _ _ Ho Hiso) as (P & S & Hinv).
    exists P, S. apply Hkeep; [done|].
    rewrite (Hclosed _ _ _ _ a Hinv); [done|]. list_mem.
Qed.
(** ** [append], [create] and [alloc] *)

Lemma lseg_head h p q a l : lseg h p q (a :: l) → p = a.
Proof. by intros [-> _]. Qed.

Lemma lseg_head_elem h p q l : lseg h p q l → l ≠ [] → p ∈ l.
Proof. destruct l as [|a l]; [done|]. intros [-> _] _. left. Qed.

Lemma region_inv_get h this o P S :
  region_inv h this o P S → get h o = Some this.
Proof.
  intros ((r & Hr & HP & _)%rings_iff & (oo & Ho & Hiso)%obj_sat_iff & _).
  apply lseg_snoc in HP as (_ & oo' & Ho' & Hn).
  assert (oo' = oo) as -> by congruence. unfold is_iso in Hiso.
  unfold get, Object.debug_is_iso, Object.get_class, Object.get_region,
    is_trace_region, get_obj, get_reg.
  hexec. rewrite Hiso. simpl. rewrite Hn. by hexec.
Qed.

Lemma get_Some h o this :
  get h o = Some this →
  ∃ oo r, h !! o = Some (CObject oo) ∧ o_class oo = ISO ∧
          o_next oo = this ∧ h !! this = Some (CRegion r).
Proof.
  unfold get, Object.get_region, is_trace_region. intros H.
  simplify_option_eq.
  match goal with H : bool_decide _ = true |- _ =>
    apply bool_decide_eq_true_1 in H as [r Hr] end.
  eexists _, r. rewrite <- get_obj_Some, <- get_reg_Some. done.
Qed.

Lemma heap_inv_get h o this :
  heap_inv h → get h o = Some this → ∃ P S, region_inv h this o P S.
Proof.
  intros (_ & _ & Hisos) (oo & r & Ho & Hiso & <- & Hr)%get_Some. eauto.
Qed.

Lemma use_memory_spec h this r n :
  h !! this = Some (CRegion r) →
  use_memory h this n =
    Some (<[this := CRegion
             (with_current_memory_used
                (size_t_add (current_memory_used r) n) r)]> h).
Proof. intros Hr. unfold use_memory, upd_reg, get_reg. by hexec. Qed.

Lemma region_inv_insert_equiv h a c c' this o P S :
  h !! a = Some c → ring_equiv c c' →
  region_inv h this o P S → region_inv (<[a := c']> h) this o P S.
Proof.
  intros Ha Hre. apply region_inv_transfer. intros a' c0 _ Hc0.
  destruct (decide (a' = a)) as [->|Hne].
  - exists c'. rewrite lookup_insert_eq. split; [done|]. congruence.
  - exists c0. rewrite lookup_insert_ne by done. split; [done|].
    apply ring_equiv_refl.
Qed.

Lemma region_inv_insert_ne h a c this o P S :
  a ∉ region_cells this o P S →
  region_inv h this o P S → region_inv (<[a := c]> h) this o P S.
Proof.
  intros Ha. apply region_inv_frame. intros a' Ha'.
  apply lookup_insert_ne. by intros ->.
Qed.

Lemma region_inv_delete_ne h a this o P S :
  a ∉ region_cells this o P S →
  region_inv h this o P S → region_inv (delete a h) this o P S.
Proof.
  intros Ha. apply region_inv_frame. intros a' Ha'.
  apply lookup_delete_ne. by intros ->.
Qed.

(** Every cell of a region is allocated. *)
Lemma region_cells_allocated h this o P S a :
  region_inv h this o P S → a ∈ region_cells this o P S → is_Some (h !! a).
Proof.
  intros Hinv [->|Ha]%elem_of_cons.
  - destruct (region_inv_is_reg _ _ _ _ _ Hinv) as [r Hr%get_reg_Some]. eauto.
  - destruct (rings_is_obj _ _ _ _ _ _ (region_inv_rings _ _ _ _ _ Hinv) Ha)
      as [oo Ho%get_obj_Some]. eauto.
Qed.

Lemma partition_law_needs h o P S b :
  partition_law h o P S → obj_sat (needs b) h o →
  Forall (obj_sat (needs b) h) (P ++ [o]) ∧
  Forall (obj_sat (needs (negb b)) h) S.
Proof.
  intros (b' & Hb' & HP & HS) Hb.
  assert (b' = b) as ->.
  { apply obj_sat_iff in Hb as (oo & Ho & Hn).
    apply obj_sat_iff in Hb' as (oo' & Ho' & Hn'). unfold needs in *.
    congruence. }
  split; [|done]. apply Forall_app. split; [done|]. by apply Forall_singleton.
Qed.

Lemma append_region_inv h this o P S r hd tl C otl b bo :
  region_inv h this o P S →
  h !! this = Some (CRegion r) →
  obj_sat (needs bo) h o →
  lseg h hd tl C →
  h !! tl = Some (CObject otl) →
  NoDup (C ++ [tl]) →
  (∀ a, a ∈ C ++ [tl] → a ∉ P ++ o :: S) →
  Forall (obj_sat is_mutable h) C →
  Forall (obj_sat (needs b) h) (C ++ [tl]) →
  ∃ r' otl',
    append h this hd tl =
      Some (<[this := CRegion r']> (<[tl := CObject otl']> h)) ∧
    region_inv (<[this := CRegion r']> (<[tl := CObject otl']> h)) this o
      (if decide (b = bo) then (C ++ [tl]) ++ P else P)
      (if decide (b = bo) then S else (C ++ [tl]) ++ S) ∧
    current_memory_used r' = current_memory_used r ∧
    previous_memory_used r' = previous_memory_used r ∧
    hash_set r' = hash_set r ∧ ext_table r' = ext_table r ∧
    o_class otl' = UNMARKED ∧ o_descriptor otl' = o_descriptor otl ∧
    o_fields otl' = o_fields otl.
Proof.
  intros (Hrings & Hiso & Hmut & Hpart) Hr Hbo HC Htl Hnd Hdisj HmutC HbC.
  destruct (partition_law_needs _ _ _ _ _ Hpart Hbo) as [HboP HboS].
  pose proof (rings_this_notin _ _ _ _ _ Hrings) as Hthis.
  pose proof Hrings as (r0 & Hr0 & HP & HS & Hlast & HndPS)%rings_iff.
  assert (r0 = r) as -> by congruence. clear Hr0.
  assert (this ∉ C ++ [tl]) as HthisC.
  { intros [Hin| ->%list_elem_of_singleton]%elem_of_app; [|congruence].
    eapply lseg_not_reg; [exact HC| |done]. exists r. by apply get_reg_Some. }
  assert (obj_sat (needs b) h hd) as Hhd.
  { rewrite Forall_forall in HbC. apply HbC.
    destruct C as [|c C]; simpl in HC.
    - subst. left.
    - destruct HC as [-> _]. left. }
  assert (obj_sat (needs bo) h (r_next r)) as Hp.
  { rewrite Forall_forall in HboP. apply HboP.
    apply (lseg_head_elem _ _ _ _ HP). by destruct P. }
  set (same := if decide (b = bo) then true else false).
  set (r' := if same then with_r_next hd r
             else with_last_not_root
                    (if decide (last_not_root r = this) then tl
                     else last_not_root r)
                    (with_next_not_root hd r)).
  set (otl' := with_class UNMARKED
                 (with_next (if same then r_next r else next_not_root r) otl)).
  exists r', otl'.
  assert (∀ a, a ∈ P ++ o :: S → a ≠ tl ∧ a ≠ this) as Hother.
  { intros a Ha. split; intros ->; [|done].
    apply (Hdisj tl); [|done]. apply elem_of_app. right. left. }
  assert (∀ (Q : Object → Prop) a, a ≠ tl → a ≠ this → obj_sat Q h a →
            obj_sat Q (<[this := CRegion r']> (<[tl := CObject otl']> h)) a)
    as Hkeep.
  { intros Q a H1 H2. apply obj_sat_frame.
    by rewrite !lookup_insert_ne by done. }
  assert (∀ (Q : Object → Prop), Q otl' →
            obj_sat Q (<[this := CRegion r']> (<[tl := CObject otl']> h)) tl)
    as Htl'.
  { intros Q HQ. apply obj_sat_iff. exists otl'. split; [|done].
    rewrite lookup_insert_ne by congruence. apply lookup_insert_eq. }
  assert (∀ (Q : Object → Prop), (∀ x, Q x → Q (with_class UNMARKED x)) →
            (∀ x n, Q x → Q (with_next n x)) →
            Forall (obj_sat Q h) (C ++ [tl]) →
            Forall (obj_sat Q (<[this := CRegion r']>
                                 (<[tl := CObject otl']> h))) (C ++ [tl]))
    as HkeepC.
  { intros Q HQ1 HQ2. rewrite !Forall_forall. intros HQ a Ha.
    destruct (decide (a = tl)) as [->|Hne].
    - apply Htl'. specialize (HQ tl Ha).
      apply obj_sat_iff in HQ as (x & Hx & HQx).
      assert (x = otl) as -> by congruence. unfold otl'. auto.
    - apply Hkeep; [done| |by apply HQ]. intros ->. done. }
  split; [|split].
  - rewrite (append_spec _ _ _ _ r otl b bo) by done. unfold r', otl', same.
    by destruct (decide (b = bo)); simpl.
  - assert (same = if decide (b = bo) then true else false) as Hsame
      by done.
    split; [|split; [|split]].
    + pose proof (append_rings h this o P S r hd tl C otl same
        Hrings Hr HC Htl Hnd Hdisj) as H.
      fold r' otl' in H. clear Hsame. subst same.
      by destruct (decide (b = bo)).
    + apply Hkeep; [| |done]; apply Hother; list_mem.
    + assert (Forall (obj_sat is_mutable
                (<[this := CRegion r']> (<[tl := CObject otl']> h)))
                (C ++ [tl])) as HmutC'.
      { apply Forall_app. split.
        - rewrite Forall_forall in HmutC |- *. intros a Ha.
          apply Hkeep; [| |by apply HmutC].
          + intros ->. apply NoDup_app in Hnd as (_ & Hd & _).
            apply (Hd tl Ha). left.
          + intros ->. apply HthisC. apply elem_of_app. by left.
        - apply Forall_singleton. apply Htl'. by left. }
      assert (Forall (obj_sat is_mutable
                (<[this := CRegion r']> (<[tl := CObject otl']> h)))
                (P ++ S)) as HmutPS.
      { rewrite Forall_forall in Hmut |- *. intros a Ha.
        apply Hkeep; [| |by apply Hmut]; apply Hother; list_mem. }
      apply Forall_app in HmutPS as [? ?].
      destruct (decide (b = bo)).
      * apply Forall_app; split; [apply Forall_app; split|]; done.
      * apply Forall_app; split; [done|apply Forall_app; split; done].
    + exists bo. split; [|split].
      * apply Hkeep; [| |done]; apply Hother; list_mem.
      * assert (Forall (obj_sat (needs bo)
                  (<[this := CRegion r']> (<[tl := CObject otl']> h))) P).
        { apply Forall_app in HboP as [HboP _].
          rewrite Forall_forall in HboP |- *. intros a Ha.
          apply Hkeep; [| |by apply HboP]; apply Hother; list_mem. }
        destruct (decide (b = bo)) as [->|]; [|done].
        apply Forall_app. split; [|done]. by apply HkeepC.
      * assert (Forall (obj_sat (needs (negb bo))
                  (<[this := CRegion r']> (<[tl := CObject otl']> h))) S).
        { rewrite Forall_forall in HboS |- *. intros a Ha.
          apply Hkeep; [| |by apply HboS]; apply Hother; list_mem. }
        destruct (decide (b = bo)) as [|Hne]; [done|].
        apply Forall_app. split; [|done].
        replace (negb bo) with b by (by destruct b, bo). by apply HkeepC.
  - unfold r', otl'. by destruct same.
Qed.
Lemma closed_footprint_fresh h F :
  (∀ a, a ∈ F → h !! a = None) → closed_footprint h F.
Proof.
  intros Hfresh r o P S a Hinv Ha. split; intros Hin%Hfresh; exfalso.
  - destruct (region_cells_allocated h r o P S r Hinv) as [c Hc]; [left|].
    congruence.
  - destruct (region_cells_allocated h r o P S a Hinv) as [c Hc];
      [by right|]. congruence.
Qed.

Lemma closed_footprint_region h this o P S :
  region_inv h this o P S → closed_footprint h (region_cells this o P S).
Proof.
  intros Hinv r o' P' S' a Hinv' Ha. unfold region_cells. split.
  - intros [->|Hin]%elem_of_cons.
    + destruct (region_inv_unique _ _ _ _ _ _ _ _ Hinv Hinv') as (-> & -> & ->).
      by right.
    + exfalso.
      destruct (rings_is_obj _ _ _ _ _ _ (region_inv_rings _ _ _ _ _ Hinv) Hin)
        as [oo Ho%get_obj_Some].
      destruct (region_inv_is_reg _ _ _ _ _ Hinv') as [rr Hr%get_reg_Some].
      congruence.
  - intros [->|Hin]%elem_of_cons.
    + exfalso.
      destruct (rings_is_obj _ _ _ _ _ _ (region_inv_rings _ _ _ _ _ Hinv') Ha)
        as [oo Ho%get_obj_Some].
      destruct (region_inv_is_reg _ _ _ _ _ Hinv) as [rr Hr%get_reg_Some].
      congruence.
    + apply elem_of_cons. left. symmetry.
      eapply (rings_disjoint h this o P S r o' P' S' a);
        eauto using region_inv_rings.
Qed.

Lemma closed_footprint_app h F1 F2 :
  closed_footprint h F1 → closed_footprint h F2 →
  closed_footprint h (F1 ++ F2).
Proof.
  intros H1 H2 r o P S a Hinv Ha. rewrite !elem_of_app.
  by rewrite (H1 r o P S a), (H2 r o P S a).
Qed.

(** Equality of heaps built from insertions, by cases on the address. *)
Ltac heap_eq :=
  apply map_eq; intros ?a;
  repeat (rewrite lookup_insert; case_decide; subst; try done);
  try congruence.

Lemma fresh_iff h a : fresh h a ↔ a ≠ nullptr ∧ h !! a = None.
Proof. done. Qed.

Lemma create_spec h o reg d :
  fresh h o → fresh h reg → o ≠ reg →
  create h o reg d =
    Some (<[o := CObject (mkObject ISO reg d [] false)]>
          (<[reg := CRegion
               (mkRegionTrace o reg reg (size_t_add 0 (desc_size d)) 0 ∅ ∅)]>
             h)).
Proof.
  intros Ho Hreg Hne. unfold create, fresh in *.
  rewrite option_guard_True by done. simpl.
  case_guard as Hg; simpl.
  2:{ exfalso. apply Hg. destruct Hreg. split; [done|].
      by rewrite lookup_insert_ne. }
  unfold use_memory, Object.set_descriptor, Object.init_iso,
    Object.set_region, upd_reg, upd_obj, get_reg, get_obj.
  hexec. f_equal. heap_eq.
Qed.

Lemma create_Some h o reg d h' :
  create h o reg d = Some h' → fresh h o ∧ fresh h reg ∧ o ≠ reg.
Proof.
  unfold create. intros H.
  rewrite (option_guard_decide (fresh h o)) in H.
  destruct (decide (fresh h o)) as [Ho|]; [|done].
  rewrite (option_guard_decide (fresh _ reg)) in H.
  destruct (decide (fresh _ reg)) as [Hreg|]; [|done]. split; [done|].
  destruct Hreg as [Hn Hreg]. destruct (decide (o = reg)) as [->|Hne].
  - by rewrite lookup_insert_eq in Hreg.
  - by rewrite lookup_insert_ne in Hreg.
Qed.

Lemma create_region_inv h o reg d :
  fresh h o → fresh h reg → o ≠ reg →
  region_inv
    (<[o := CObject (mkObject ISO reg d [] false)]>
       (<[reg := CRegion
            (mkRegionTrace o reg reg (size_t_add 0 (desc_size d)) 0 ∅ ∅)]>
          h)) reg o [] [].
Proof.
  intros Ho Hreg Hne. split; [|split; [|split]].
  - apply rings_iff. eexists. split; [by hlookup|]. simpl.
    split; [|split; [done|split; [done|]]].
    + split; [done|]. by hlookup.
    + apply NoDup_singleton.
  - apply obj_sat_iff. eexists. by hlookup.
  - constructor.
  - exists (desc_needs_finaliser_ring d). split; [|split; constructor].
    apply obj_sat_iff. eexists. by hlookup.
Qed.

Lemma create_heap_inv h o reg d h' :
  heap_inv h → create h o reg d = Some h' → heap_inv h'.
Proof.
  intros Hinv Hc. destruct (create_Some _ _ _ _ _ Hc) as (Ho & Hreg & Hne).
  rewrite create_spec in Hc by done. injection Hc as <-.
  pose proof (create_region_inv h o reg d Ho Hreg Hne) as Hnew.
  destruct Ho as [Ho1 Ho2], Hreg as [Hr1 Hr2].
  apply (heap_inv_preserved [o; reg] h); [done|..].
  - rewrite !lookup_insert_ne by done. apply Hinv.
  - intros a Ha. rewrite !lookup_insert_ne; [done|list_mem..].
  - apply closed_footprint_fresh. intros a Ha. list_mem.
  - intros a r Ha Hr. assert (a = reg) as ->.
    { destruct (decide (a = o)) as [->|]; [|list_mem].
      by rewrite lookup_insert_eq in Hr. }
    eauto.
  - intros a oo Ha Hoo Hiso. assert (a = o) as ->.
    { destruct (decide (a = reg)) as [->|]; [|list_mem].
      by rewrite lookup_insert_ne, lookup_insert_eq in Hoo. }
    rewrite lookup_insert_eq in Hoo. injection Hoo as <-. simpl. eauto.
Qed.
Lemma alloc_spec h in_ reg o d P S r bo :
  region_inv h reg in_ P S →
  h !! reg = Some (CRegion r) →
  obj_sat (needs bo) h in_ →
  fresh h o →
  ∃ r' oo',
    alloc h in_ o d = Some (<[reg := CRegion r']> (<[o := CObject oo']> h)) ∧
    region_inv (<[reg := CRegion r']> (<[o := CObject oo']> h)) reg in_
      (if decide (desc_needs_finaliser_ring d = bo) then o :: P else P)
      (if decide (desc_needs_finaliser_ring d = bo) then S else o :: S) ∧
    current_memory_used r' = size_t_add (current_memory_used r) (desc_size d) ∧
    previous_memory_used r' = previous_memory_used r ∧
    hash_set r' = hash_set r ∧ ext_table r' = ext_table r ∧
    o_class oo' = UNMARKED ∧ o_descriptor oo' = d ∧ o_fields oo' = [].
Proof.
  intros Hinv Hr Hbo [Hnull Hfresh].
  set (raw := mkObject UNMARKED nullptr d [] false).
  set (h2 := <[o := CObject (with_descriptor d raw)]> (<[o := CObject raw]> h)).
  assert (o ∉ region_cells reg in_ P S) as Ho.
  { intros Hin. destruct (region_cells_allocated _ _ _ _ _ _ Hinv Hin).
    congruence. }
  assert (o ≠ reg) as Hne by (intros ->; apply Ho; left).
  assert (region_inv h2 reg in_ P S) as Hinv2
    by (unfold h2; apply region_inv_insert_ne; [done|];
        by apply region_inv_insert_ne).
  assert (h2 !! reg = Some (CRegion r)) as Hr2
    by (unfold h2; by hlookup).
  assert (h2 !! o = Some (CObject (with_descriptor d raw))) as Ho2
    by (unfold h2; by hlookup).
  assert (obj_sat (needs bo) h2 in_) as Hbo2.
  { apply (obj_sat_frame _ h); [|done]. unfold h2.
    rewrite !lookup_insert_ne; [done|intros ->; apply Ho; list_mem..]. }
  destruct (append_region_inv h2 reg in_ P S r o o [] (with_descriptor d raw)
              (desc_needs_finaliser_ring d) bo Hinv2 Hr2 Hbo2)
    as (r' & oo' & Happ & Hinv' & Hc & Hp & Hh & He & Hcl & Hd & Hf);
    [done|done|apply NoDup_singleton| | | |].
  { intros a ->%list_elem_of_singleton Hin. apply Ho. by right. }
  { constructor. }
  { apply Forall_singleton. apply obj_sat_iff. eexists. by split. }
  exists (with_current_memory_used
            (size_t_add (current_memory_used r') (desc_size d)) r'), oo'.
  assert (<[reg := CRegion r']> (<[o := CObject oo']> h2) =
          <[reg := CRegion r']> (<[o := CObject oo']> h)) as Heq.
  { unfold h2. by rewrite !insert_insert_eq. }
  rewrite Heq in Happ, Hinv'. split; [|split].
  - unfold alloc. rewrite (region_inv_get _ _ _ _ _ Hinv). simpl.
    rewrite option_guard_True by done.
    unfold Object.set_descriptor, upd_obj, get_obj. hexec.
    fold raw. fold h2. rewrite Happ. simpl.
    rewrite (use_memory_spec _ _ r') by apply lookup_insert_eq.
    by rewrite insert_insert_eq.
  - rewrite <- (insert_insert_eq (<[o := CObject oo']> h) reg
                 (CRegion (with_current_memory_used _ r')) (CRegion r')).
    eapply region_inv_insert_equiv; [apply lookup_insert_eq| |done]. done.
  - simpl. rewrite Hc. by destruct r'.
Qed.
Lemma region_inv_iso_next h this o P S oo :
  region_inv h this o P S → h !! o = Some (CObject oo) → o_next oo = this.
Proof.
  intros [(r & _ & (_ & oo' & Ho' & Hn)%lseg_snoc & _)%rings_iff _] Ho.
  congruence.
Qed.

(** Preservation of the heap invariant by an operation on one region that
    may also use fresh cells [Fr]. *)
Lemma heap_inv_region_update h h' this o P S o' P' S' Fr :
  heap_inv h →
  region_inv h this o P S →
  (∀ a, a ∈ Fr → h !! a = None) →
  h' !! nullptr = None →
  (∀ a, a ∉ region_cells this o P S ++ Fr → h' !! a = h !! a) →
  region_inv h' this o' P' S' →
  (∀ a r, a ∈ region_cells this o P S ++ Fr →
     h' !! a = Some (CRegion r) → a = this) →
  (∀ a oo, a ∈ region_cells this o P S ++ Fr →
     h' !! a = Some (CObject oo) → o_class oo = ISO → a = o') →
  heap_inv h'.
Proof.
  intros Hinv Hreg Hfresh Hnull Hframe Hreg' Hregs Hisos.
  apply (heap_inv_preserved (region_cells this o P S ++ Fr) h);
    [done|done|done|..].
  - apply closed_footprint_app.
    + by apply closed_footprint_region.
    + by apply closed_footprint_fresh.
  - intros a r Ha Hr. rewrite (Hregs a r Ha Hr). eauto.
  - intros a oo Ha Ho Hiso. rewrite (Hisos a oo Ha Ho Hiso) in Ho |- *.
    rewrite (region_inv_iso_next _ _ _ _ _ _ Hreg' Ho). eauto.
Qed.

Lemma region_inv_needs h this o P S :
  region_inv h this o P S → ∃ b, obj_sat (needs b) h o.
Proof. intros (_ & _ & _ & b & Hb & _). eauto. Qed.

Lemma alloc_Some h in_ o d h' :
  alloc h in_ o d = Some h' → ∃ reg, get h in_ = Some reg ∧ fresh h o.
Proof.
  unfold alloc. intros H. destruct (get h in_) as [reg|]; [|done].
  simpl in H. rewrite (option_guard_decide (fresh h o)) in H.
  destruct (decide (fresh h o)); [eauto|done].
Qed.

Lemma alloc_heap_inv h in_ o d h' :
  heap_inv h → alloc h in_ o d = Some h' → heap_inv h'.
Proof.
  intros Hinv Ha. destruct (alloc_Some _ _ _ _ _ Ha) as (reg & Hget & Hfr).
  destruct (heap_inv_get _ _ _ Hinv Hget) as (P & S & Hreg).
  destruct (region_inv_needs _ _ _ _ _ Hreg) as [bo Hbo].
  destruct (region_inv_is_reg _ _ _ _ _ Hreg) as [r Hr%get_reg_Some].
  destruct (alloc_spec h in_ reg o d P S r bo Hreg Hr Hbo Hfr)
    as (r' & oo' & Heq & Hreg' & _ & _ & _ & _ & Hcl & _).
  rewrite Heq in Ha. injection Ha as <-. destruct Hfr as [Hnull Hfresh].
  assert (o ≠ reg) as Hne by (intros ->; congruence).
  eapply (heap_inv_region_update h _ reg in_ P S in_ _ _ [o]);
    [done|done|..|exact Hreg'| |].
  - by intros a ->%list_elem_of_singleton.
  - destruct Hinv as (Hn0 & _).
    rewrite !lookup_insert_ne; [done|congruence|intros ->; congruence].
  - intros a Hnot. rewrite !lookup_insert_ne; [done|list_mem..].
  - intros a ra Hin Hra. destruct (decide (a = reg)) as [|Hne']; [done|].
    rewrite lookup_insert_ne in Hra by done.
    destruct (decide (a = o)) as [->|Hne''].
    + by rewrite lookup_insert_eq in Hra.
    + rewrite lookup_insert_ne in Hra by done.
      apply elem_of_app in Hin as [[->|Hin]%elem_of_cons|Hin]; [done| |list_mem].
      destruct (rings_is_obj _ _ _ _ _ _ (region_inv_rings _ _ _ _ _ Hreg) Hin)
        as [x Hx%get_obj_Some]. congruence.
  - intros a oa Hin Hoa Hiso. destruct (decide (a = reg)) as [->|Hne'].
    { by rewrite lookup_insert_eq in Hoa. }
    rewrite lookup_insert_ne in Hoa by done.
    destruct (decide (a = o)) as [->|Hne''].
    { rewrite lookup_insert_eq in Hoa. injection Hoa as <-. congruence. }
    rewrite lookup_insert_ne in Hoa by done.
    destruct Hinv as (_ & _ & Hisos).
    destruct (Hisos _ _ Hoa Hiso) as (P2 & S2 & Hinv2).
    assert (o_next oa = reg) as Hn.
    { symmetry.
      apply (rings_disjoint h reg in_ P S (o_next oa) a P2 S2 a);
        eauto using region_inv_rings; list_mem. }
    rewrite Hn in Hinv2.
    by destruct (region_inv_unique _ _ _ _ _ _ _ _ Hreg Hinv2) as (-> & _).
Qed.
(** ** The iterator and [debug_is_in_region] *)

Lemma NoDup_perm_cons (l k : list N) a : NoDup l → l ≡ₚ a :: k → a ∉ k.
Proof. intros H Hp. rewrite Hp in H. by apply NoDup_cons in H as [? _]. Qed.

Lemma length_le_size (h : gmap N Cell) (l : list N) :
  NoDup l → (∀ a, a ∈ l → is_Some (h !! a)) → length l ≤ size h.
Proof.
  intros Hnd Hal. rewrite <- (size_list_to_set (C := gset N) l) by done.
  rewrite <- (size_dom h). apply subseteq_size.
  intros a Ha%elem_of_list_to_set. apply elem_of_dom. auto.
Qed.

Lemma rings_length h this o P S :
  rings h this o P S → length (this :: P ++ o :: S) ≤ size h.
Proof.
  intros Hr. pose proof (rings_this_notin _ _ _ _ _ Hr) as Hthis.
  apply length_le_size.
  - apply NoDup_cons. split; [done|].
    by apply rings_iff in Hr as (r & _ & _ & _ & _ & Hnd).
  - intros a [->|Ha]%elem_of_cons.
    + apply rings_iff in Hr as (r & Hr & _). eauto.
    + destruct (rings_is_obj _ _ _ _ _ _ Hr Ha) as [x Hx%get_obj_Some]. eauto.
Qed.

(** One step of the iterator moves to the next object in the enumeration
    of the primary ring followed by the secondary ring. *)
Lemma iterator_incr_spec h this o P S L1 ptr L2 :
  region_inv h this o P S →
  P ++ o :: S = L1 ++ ptr :: L2 →
  iterator_incr h this ptr = Some (hd nullptr L2).
Proof.
  intros (Hrings & Hiso & _) HL.
  pose proof (rings_this_notin _ _ _ _ _ Hrings) as Hthis.
  pose proof Hrings as (r & Hr & HP & HS & Hlast & Hnd)%rings_iff.
  apply obj_sat_iff in Hiso as (oo & Ho & Hiso). unfold is_iso in Hiso.
  assert (ptr ∉ L1 ++ L2) as Hptr.
  { eapply NoDup_perm_cons; [exact Hnd|]. rewrite HL. solve_Permutation. }
  unfold iterator_incr, Object.get_next_any_mark, Object.get_next, get_reg,
    Object.debug_is_iso, Object.get_class, get_obj.
  (* Where is [ptr]: in the primary ring or in the secondary ring? *)
  assert ((∃ P2, P ++ [o] = L1 ++ ptr :: P2 ∧ L2 = P2 ++ S) ∨
          (∃ S1, S = S1 ++ ptr :: L2)) as [(P2 & HP2 & ->)|(S1 & HS1)].
  { replace (P ++ o :: S) with ((P ++ [o]) ++ S) in HL
      by (by rewrite <- app_assoc).
    apply List.app_eq_app in HL as [l [[H1 H2]|[H1 H2]]].
    - destruct l as [|p l]; simpl in H2.
      + right. exists []. done.
      + injection H2 as <- ->. left. eauto.
    - right. eauto. }
  - (* primary ring *)
    rewrite HP2 in HP. apply lseg_app in HP as (m & _ & HP).
    apply lseg_cons in HP as (-> & op & Hop & HP). hexec.
    destruct P2 as [|p2 P2]; simpl in HP.
    + (* [ptr] is the iso *)
      assert (ptr = o) as ->.
      { apply (f_equal (last_or nullptr)) in HP2.
        by rewrite !last_or_snoc in HP2. }
      assert (op = oo) as -> by congruence.
      rewrite HP. rewrite decide_False by (by intros ?). hexec.
      destruct S as [|s S'].
      * simpl in HS. rewrite HS.
        rewrite decide_False by (by intros [_ ?]). done.
      * pose proof HS as [Hs _]. rewrite Hs.
        rewrite decide_True.
        -- hexec. rewrite Hiso. simpl. done.
        -- split.
           ++ rewrite Hlast. intros Heq.
              assert (o ∉ P ++ s :: S') as Ho'
                by (eapply NoDup_perm_cons; [exact Hnd|solve_Permutation]).
              apply Ho'. rewrite Heq. apply elem_of_app. right.
              by apply last_or_elem.
           ++ intros ->. apply Hthis. list_mem.
    + destruct HP as [-> _]. rewrite decide_True; [done|].
      intros ->. apply Hthis. rewrite HL. list_mem.
  - (* secondary ring *)
    rewrite HS1 in HS. apply lseg_app in HS as (m & _ & HS).
    apply lseg_cons in HS as (-> & op & Hop & HS). hexec.
    destruct L2 as [|p2 L2']; simpl in HS.
    + rewrite HS. rewrite decide_False by (by intros ?). hexec.
      rewrite decide_False; [done|]. intros [Hne _]. apply Hne.
      rewrite Hlast, HS1. by rewrite last_or_snoc.
    + destruct HS as [-> _]. rewrite decide_True; [done|].
      intros ->. apply Hthis. rewrite HL. list_mem.
Qed.

Lemma iterator_find_spec h this o P S x fuel L1 L2 :
  h !! nullptr = None →
  region_inv h this o P S →
  P ++ o :: S = L1 ++ L2 →
  length L2 < fuel →
  iterator_find fuel h this (hd nullptr L2) x = Some (bool_decide (x ∈ L2)).
Proof.
  intros Hnull Hinv. revert fuel L1.
  induction L2 as [|ptr L2 IH]; intros fuel L1 HL Hfuel.
  - destruct fuel; [simpl in Hfuel; lia|]. done.
  - destruct fuel; [simpl in Hfuel; lia|]. simpl in *.
    assert (ptr ≠ nullptr) as Hptr.
    { intros ->.
      destruct (region_cells_allocated h this o P S nullptr Hinv) as [c Hc];
        [|congruence].
      right. rewrite HL. list_mem. }
    rewrite decide_False by done.
    destruct (decide (ptr = x)) as [->|Hne].
    + rewrite bool_decide_eq_true_2; [done|left].
    + rewrite (iterator_incr_spec h this o P S L1 ptr L2 Hinv HL). simpl.
      rewrite (IH fuel (L1 ++ [ptr])); [|by rewrite <- app_assoc|lia].
      f_equal. apply bool_decide_ext. list_mem.
Qed.

Lemma debug_is_in_region_spec h this o P S x :
  h !! nullptr = None →
  region_inv h this o P S →
  debug_is_in_region h this x = Some (bool_decide (x ∈ P ++ o :: S)).
Proof.
  intros Hnull Hinv. pose proof Hinv as [Hrings _].
  pose proof (rings_this_notin _ _ _ _ _ Hrings) as Hthis.
  pose proof (rings_length _ _ _ _ _ Hrings) as Hlen.
  pose proof Hrings as (r & Hr & HP & _)%rings_iff.
  assert (r_next r = hd nullptr (P ++ o :: S)) as Hhd.
  { destruct P; simpl in *; by destruct HP as [-> _]. }
  assert (iterator_begin h this = Some (hd nullptr (P ++ o :: S))) as Hb.
  { unfold iterator_begin, Object.get_next. hexec.
    rewrite decide_False; [by rewrite Hhd|].
    intros Heq. apply Hthis. rewrite <- Heq, Hhd. destruct P; left. }
  unfold debug_is_in_region. rewrite Hb. cbn [mbind option_bind].
  apply (iterator_find_spec h this o P S x _ []); [done..|].
  simpl in Hlen. lia.
Qed.
(** ** [swap_root] *)

Lemma obj_sat_mono (Q Q' : Object → Prop) h h' a :
  obj_sat Q h a →
  (∀ x, h !! a = Some (CObject x) → Q x →
     ∃ x', h' !! a = Some (CObject x') ∧ Q' x') →
  obj_sat Q' h' a.
Proof.
  intros (x & Hx & HQ)%obj_sat_iff H. apply obj_sat_iff. eauto.
Qed.

Lemma Forall_obj_sat_mono (Q Q' : Object → Prop) h h' l :
  Forall (obj_sat Q h) l →
  (∀ a x, a ∈ l → h !! a = Some (CObject x) → Q x →
     ∃ x', h' !! a = Some (CObject x') ∧ Q' x') →
  Forall (obj_sat Q' h') l.
Proof.
  rewrite !Forall_forall. intros H Hm a Ha.
  eapply obj_sat_mono; [by apply H|]. intros x. by apply Hm.
Qed.

(** Case analysis on an address looked up in a heap built by insertions. *)
Ltac lookup_cases a :=
  repeat match goal with
  | |- context [<[?k := _]> _ !! a] =>
      destruct (decide (a = k)) as [->|?];
      [rewrite lookup_insert_eq|rewrite lookup_insert_ne by done]
  end.

Ltac lseg_frame :=
  repeat (apply lseg_insert; [solve [list_mem]|]); try done.

Lemma region_inv_intro h this o P S r b :
  h !! this = Some (CRegion r) →
  lseg h (r_next r) this (P ++ [o]) →
  lseg h (next_not_root r) this S →
  last_not_root r = last_or this S →
  NoDup (P ++ o :: S) →
  obj_sat is_iso h o →
  Forall (obj_sat is_mutable h) (P ++ S) →
  obj_sat (needs b) h o →
  Forall (obj_sat (needs b) h) P →
  Forall (obj_sat (needs (negb b)) h) S →
  region_inv h this o P S.
Proof.
  intros. split; [|split; [done|split; [done|]]].
  - apply rings_iff. eauto 10.
  - exists b. done.
Qed.

Lemma region_inv_elim h this o P S :
  region_inv h this o P S →
  ∃ r b,
    h !! this = Some (CRegion r) ∧
    lseg h (r_next r) this (P ++ [o]) ∧
    lseg h (next_not_root r) this S ∧
    last_not_root r = last_or this S ∧
    NoDup (P ++ o :: S) ∧
    (this ∉ P ++ o :: S) ∧
    obj_sat is_iso h o ∧
    Forall (obj_sat is_mutable h) (P ++ S) ∧
    obj_sat (needs b) h o ∧
    Forall (obj_sat (needs b) h) P ∧
    Forall (obj_sat (needs (negb b)) h) S.
Proof.
  intros (Hrings & Hiso & Hmut & b & Hb & HbP & HbS).
  pose proof (rings_this_notin _ _ _ _ _ Hrings).
  apply rings_iff in Hrings as (r & Hr & HP & HS & Hlast & Hnd).
  exists r, b. done.
Qed.

Lemma needs_with_next b n x : needs b x → needs b (with_next n x).
Proof. done. Qed.

Lemma needs_with_class b c x : needs b x → needs b (with_class c x).
Proof. done. Qed.

Lemma is_mutable_with_next n x : is_mutable x → is_mutable (with_next n x).
Proof. done. Qed.

Lemma is_mutable_unmarked x : is_mutable (with_class UNMARKED x).
Proof. by left. Qed.

Lemma swap_root_internal_same h this oroot nroot A B S r oo on :
  h !! nullptr = None →
  region_inv h this oroot (A ++ nroot :: B) S →
  h !! this = Some (CRegion r) →
  h !! oroot = Some (CObject oo) →
  h !! nroot = Some (CObject on) →
  swap_root_internal h this oroot nroot =
    Some (<[nroot := CObject (with_next this (with_class ISO on))]>
          (<[this := CRegion (with_r_next (o_next on) r)]>
           (<[oroot := CObject
                (with_class UNMARKED (with_next (r_next r) oo))]> h))) ∧
  region_inv
    (<[nroot := CObject (with_next this (with_class ISO on))]>
       (<[this := CRegion (with_r_next (o_next on) r)]>
          (<[oroot := CObject
               (with_class UNMARKED (with_next (r_next r) oo))]> h)))
    this nroot (B ++ oroot :: A) S.
Proof.
  intros Hnull Hinv Hr Ho Hn.
  pose proof Hinv as (r0 & b & Hr0 & HP & HS & Hlast & Hnd & Hthis & Hiso &
                        Hmut & Hb & HbP & HbS)%region_inv_elim.
  assert (r0 = r) as -> by congruence. clear Hr0.
  assert (nroot ∉ A ++ B ++ oroot :: S) as Hn1
    by (eapply NoDup_perm_cons; [exact Hnd|solve_Permutation]).
  assert (oroot ∉ A ++ nroot :: B ++ S) as Ho1
    by (eapply NoDup_perm_cons; [exact Hnd|solve_Permutation]).
  assert (oroot ≠ nroot) as Hne by list_mem.
  assert (this ≠ oroot ∧ this ≠ nroot) as [Hto Htn] by list_mem.
  rewrite <- !app_assoc in HP. simpl in HP.
  apply lseg_app in HP as (m & HA & HP).
  apply lseg_cons in HP as (-> & on' & Hn' & HP).
  assert (on' = on) as -> by congruence. clear Hn'.
  apply lseg_snoc in HP as (HB & oo' & Ho' & Hoo).
  assert (oo' = oo) as -> by congruence. clear Ho'.
  assert (o_next on ≠ this) as Hnn.
  { intros Heq. rewrite Heq in HB. destruct B as [|b0 B]; simpl in HB.
    - by subst.
    - destruct HB as [-> _]. apply Hthis. list_mem. }
  assert (desc_needs_finaliser_ring (o_descriptor oo) = b) as Hbo.
  { apply obj_sat_iff in Hb as (x & Hx & Hbx). unfold needs in Hbx.
    congruence. }
  assert (desc_needs_finaliser_ring (o_descriptor on) = b) as Hbn.
  { rewrite Forall_forall in HbP.
    assert (obj_sat (needs b) h nroot) as (x & Hx & Hbx)%obj_sat_iff
      by (apply HbP; list_mem).
    unfold needs in Hbx. congruence. }
  assert (o_class oo = ISO) as Hcl.
  { apply obj_sat_iff in Hiso as (x & Hx & Hbx). unfold is_iso in Hbx.
    congruence. }
  rewrite Forall_forall in Hmut, HbP, HbS.
  assert (∀ c a, obj_sat (needs c) h a →
            obj_sat (needs c)
              (<[nroot := CObject (with_next this (with_class ISO on))]>
                 (<[this := CRegion (with_r_next (o_next on) r)]>
                    (<[oroot := CObject
                         (with_class UNMARKED (with_next (r_next r) oo))]>
                       h))) a) as Hdesc.
  { intros c a Ha. eapply obj_sat_mono; [exact Ha|]. intros x Hx Hc.
    lookup_cases a; try (exfalso; congruence);
      eexists; (split; [done|]); by simplify_eq. }
  split.
  - unfold swap_root_internal.
    rewrite (debug_is_in_region_spec h this oroot (A ++ nroot :: B) S)
      by done.
    rewrite bool_decide_eq_true_2 by list_mem. cbn [mbind option_bind].
    rewrite option_guard_True by done.
    unfold Object.needs_finaliser_ring, Object.get_next_any_mark,
      Object.get_next, Object.init_next, Object.set_next, Object.init_iso,
      Object.set_region, upd_obj, upd_reg, get_obj, get_reg.
    hexec. rewrite Hbo, Hbn. rewrite decide_False by (by intros ?).
    cbn [mbind option_bind]. rewrite decide_True by done.
    rewrite option_guard_True by done. hexec. rewrite Hoo.
    rewrite option_guard_True by done. hexec.
    rewrite option_guard_True by done. hexec.
    by rewrite insert_insert_eq.
  - apply (region_inv_intro _ _ _ _ _ (with_r_next (o_next on) r) b).
    + by hlookup.
    + simpl. rewrite <- !app_assoc. simpl. apply lseg_app. exists oroot. split.
      * lseg_frame.
      * apply lseg_cons. split; [done|]. eexists. split; [by hlookup|]. simpl.
        apply lseg_snoc. split.
        -- lseg_frame.
        -- eexists. split; [by hlookup|]. done.
    + simpl. lseg_frame.
    + done.
    + eapply NoDup_Permutation_proper; [|exact Hnd]. solve_Permutation.
    + apply obj_sat_iff. eexists. split; [by hlookup|]. done.
    + apply Forall_forall. intros a Ha.
      destruct (decide (a = oroot)) as [->|Hao].
      { apply obj_sat_iff. eexists. split; [by hlookup|]. by left. }
      apply (obj_sat_frame _ h); [|apply Hmut; list_mem].
      rewrite !lookup_insert_ne; [done|intros ->; list_mem..].
    + apply Hdesc, HbP. list_mem.
    + apply Forall_forall. intros a Ha. apply Hdesc.
      apply elem_of_app in Ha as [Ha|[->|Ha]%elem_of_cons]; [|done|];
        apply HbP; list_mem.
    + apply Forall_forall. intros a Ha. apply Hdesc. by apply HbS.
Qed.
Ltac hside := solve [done | congruence | intros ?; congruence | tauto].

Ltac hstep :=
  first
    [ progress hlookup
    | rewrite option_guard_True by hside
    | rewrite decide_True by hside
    | rewrite decide_False by hside
    | rewrite insert_insert_eq
    | progress simpl ].

Ltac hrun := repeat hstep.

Lemma swap_root_internal_last h this oroot nroot P C r oo on :
  h !! nullptr = None →
  region_inv h this oroot P (C ++ [nroot]) →
  h !! this = Some (CRegion r) →
  h !! oroot = Some (CObject oo) →
  h !! nroot = Some (CObject on) →
  swap_root_internal h this oroot nroot =
    Some (<[nroot := CObject (with_next this (with_class ISO on))]>
          (<[oroot := CObject (with_class UNMARKED (with_next this oo))]>
           (<[this := CRegion
                (with_last_not_root oroot
                   (with_next_not_root (r_next r)
                      (with_r_next (next_not_root r) r)))]> h))) ∧
  region_inv
    (<[nroot := CObject (with_next this (with_class ISO on))]>
       (<[oroot := CObject (with_class UNMARKED (with_next this oo))]>
          (<[this := CRegion
               (with_last_not_root oroot
                  (with_next_not_root (r_next r)
                     (with_r_next (next_not_root r) r)))]> h)))
    this nroot C (P ++ [oroot]).
Proof.
  intros Hnull Hinv Hr Ho Hn.
  pose proof Hinv as (r0 & b & Hr0 & HP & HS & Hlast & Hnd & Hthis & Hiso &
                        Hmut & Hb & HbP & HbS)%region_inv_elim.
  assert (r0 = r) as -> by congruence. clear Hr0.
  assert (nroot ∉ P ++ oroot :: C) as Hn1
    by (eapply NoDup_perm_cons; [exact Hnd|solve_Permutation]).
  assert (oroot ∉ P ++ C ++ [nroot]) as Ho1
    by (eapply NoDup_perm_cons; [exact Hnd|solve_Permutation]).
  assert (oroot ≠ nroot) as Hne by list_mem.
  assert (this ≠ oroot ∧ this ≠ nroot) as [Hto Htn] by list_mem.
  apply lseg_snoc in HP as (HP & oo' & Ho' & Hoo).
  assert (oo' = oo) as -> by congruence. clear Ho'.
  apply lseg_snoc in HS as (HC & on' & Hn' & Hon).
  assert (on' = on) as -> by congruence. clear Hn'.
  rewrite last_or_snoc in Hlast.
  rewrite Forall_forall in Hmut, HbP, HbS.
  assert (desc_needs_finaliser_ring (o_descriptor oo) = b) as Hbo.
  { apply obj_sat_iff in Hb as (x & Hx & Hbx). unfold needs in Hbx.
    congruence. }
  assert (desc_needs_finaliser_ring (o_descriptor on) = negb b) as Hbn.
  { assert (obj_sat (needs (negb b)) h nroot) as (x & Hx & Hbx)%obj_sat_iff
      by (apply HbS; list_mem).
    unfold needs in Hbx. congruence. }
  assert (o_class oo = ISO) as Hcl.
  { apply obj_sat_iff in Hiso as (x & Hx & Hbx). unfold is_iso in Hbx.
    congruence. }
  set (r3 := with_last_not_root oroot
               (with_next_not_root (r_next r)
                  (with_r_next (next_not_root r) r))).
  assert (∀ c a, obj_sat (needs c) h a →
            obj_sat (needs c)
              (<[nroot := CObject (with_next this (with_class ISO on))]>
                 (<[oroot := CObject
                      (with_class UNMARKED (with_next this oo))]>
                    (<[this := CRegion r3]> h))) a) as Hdesc.
  { intros c a Ha. eapply obj_sat_mono; [exact Ha|]. intros x Hx Hc.
    lookup_cases a; try (exfalso; congruence);
      eexists; (split; [done|]); by simplify_eq. }
  split.
  - unfold swap_root_internal.
    rewrite (debug_is_in_region_spec h this oroot P (C ++ [nroot]))
      by done.
    rewrite bool_decide_eq_true_2 by list_mem. cbn [mbind option_bind].
    rewrite option_guard_True by done.
    unfold Object.needs_finaliser_ring, Object.get_next_any_mark,
      Object.get_next, Object.init_next, Object.set_next, Object.init_iso,
      Object.set_region, upd_obj, upd_reg, get_obj, get_reg.
    hrun. rewrite Hbo, Hbn. rewrite decide_True by (by destruct b).
    hrun. rewrite Hlast. hrun. done.
  - apply (region_inv_intro _ _ _ _ _ r3 (negb b)).
    + by hlookup.
    + simpl. apply lseg_snoc. split; [lseg_frame|].
      eexists. split; [by hlookup|]. done.
    + simpl. apply lseg_snoc. split; [lseg_frame|].
      eexists. split; [by hlookup|]. done.
    + simpl. by rewrite last_or_snoc.
    + eapply NoDup_Permutation_proper; [|exact Hnd]. solve_Permutation.
    + apply obj_sat_iff. eexists. split; [by hlookup|]. done.
    + apply Forall_forall. intros a Ha.
      destruct (decide (a = oroot)) as [->|Hao].
      { apply obj_sat_iff. eexists. split; [by hlookup|]. by left. }
      apply (obj_sat_frame _ h); [|apply Hmut; list_mem].
      rewrite !lookup_insert_ne; [done|intros ->; list_mem..].
    + apply Hdesc, HbS. list_mem.
    + apply Forall_forall. intros a Ha. apply Hdesc, HbS. list_mem.
    + apply Forall_forall. intros a Ha. apply Hdesc. rewrite negb_involutive.
      apply elem_of_app in Ha as [Ha|Ha%list_elem_of_singleton];
        [by apply HbP|by subst].
Qed.

Lemma swap_root_internal_mid h this oroot nroot P C D t r oo on ot :
  h !! nullptr = None →
  region_inv h this oroot P (C ++ nroot :: D ++ [t]) →
  h !! this = Some (CRegion r) →
  h !! oroot = Some (CObject oo) →
  h !! nroot = Some (CObject on) →
  h !! t = Some (CObject ot) →
  swap_root_internal h this oroot nroot =
    Some (<[nroot := CObject (with_next this (with_class ISO on))]>
          (<[this := CRegion
               (with_r_next (o_next on)
                  (with_last_not_root oroot
                     (with_next_not_root (r_next r)
                        (with_r_next (next_not_root r) r))))]>
           (<[t := CObject
                (with_class UNMARKED (with_next (next_not_root r) ot))]>
            (<[oroot := CObject
                 (with_class UNMARKED (with_next this oo))]> h)))) ∧
  region_inv
    (<[nroot := CObject (with_next this (with_class ISO on))]>
       (<[this := CRegion
            (with_r_next (o_next on)
               (with_last_not_root oroot
                  (with_next_not_root (r_next r)
                     (with_r_next (next_not_root r) r))))]>
          (<[t := CObject
               (with_class UNMARKED (with_next (next_not_root r) ot))]>
             (<[oroot := CObject
                  (with_class UNMARKED (with_next this oo))]> h))))
    this nroot ((D ++ [t]) ++ C) (P ++ [oroot]).
Proof.
  intros Hnull Hinv Hr Ho Hn Ht.
  pose proof Hinv as (r0 & b & Hr0 & HP & HS & Hlast & Hnd & Hthis & Hiso &
                        Hmut & Hb & HbP & HbS)%region_inv_elim.
  assert (r0 = r) as -> by congruence. clear Hr0.
  assert (nroot ∉ P ++ oroot :: C ++ D ++ [t]) as Hn1
    by (eapply NoDup_perm_cons; [exact Hnd|solve_Permutation]).
  assert (oroot ∉ P ++ C ++ nroot :: D ++ [t]) as Ho1
    by (eapply NoDup_perm_cons; [exact Hnd|solve_Permutation]).
  assert (t ∉ P ++ oroot :: C ++ nroot :: D) as Ht1
    by (eapply NoDup_perm_cons; [exact Hnd|solve_Permutation]).
  assert (oroot ≠ nroot ∧ t ≠ nroot ∧ t ≠ oroot) as (Hne & Htn' & Hto')
    by list_mem.
  assert (this ≠ oroot ∧ this ≠ nroot ∧ this ≠ t) as (Hto & Htn & Htt)
    by list_mem.
  apply lseg_snoc in HP as (HP & oo' & Ho' & Hoo).
  assert (oo' = oo) as -> by congruence. clear Ho'.
  apply lseg_app in HS as (m & HC & HS).
  apply lseg_cons in HS as (-> & on' & Hn' & HS).
  assert (on' = on) as -> by congruence. clear Hn'.
  apply lseg_snoc in HS as (HD & ot' & Ht' & Hot).
  assert (ot' = ot) as -> by congruence. clear Ht'.
  replace (C ++ nroot :: D ++ [t]) with ((C ++ nroot :: D) ++ [t]) in Hlast
    by (by rewrite <- app_assoc).
  rewrite last_or_snoc in Hlast.
  rewrite Forall_forall in Hmut, HbP, HbS.
  assert (desc_needs_finaliser_ring (o_descriptor oo) = b) as Hbo.
  { apply obj_sat_iff in Hb as (x & Hx & Hbx). unfold needs in Hbx.
    congruence. }
  assert (desc_needs_finaliser_ring (o_descriptor on) = negb b) as Hbn.
  { assert (obj_sat (needs (negb b)) h nroot) as (x & Hx & Hbx)%obj_sat_iff
      by (apply HbS; list_mem).
    unfold needs in Hbx. congruence. }
  assert (o_class oo = ISO) as Hcl.
  { apply obj_sat_iff in Hiso as (x & Hx & Hbx). unfold is_iso in Hbx.
    congruence. }
  assert (o_next on ≠ this) as Hnn.
  { intros Heq. rewrite Heq in HD. destruct D as [|d0 D]; simpl in HD.
    - by subst.
    - destruct HD as [-> _]. apply Hthis. list_mem. }
  set (r3 := with_last_not_root oroot
               (with_next_not_root (r_next r)
                  (with_r_next (next_not_root r) r))).
  assert (∀ c a, obj_sat (needs c) h a →
            obj_sat (needs c)
              (<[nroot := CObject (with_next this (with_class ISO on))]>
                 (<[this := CRegion (with_r_next (o_next on) r3)]>
                    (<[t := CObject
                         (with_class UNMARKED
                            (with_next (next_not_root r) ot))]>
                       (<[oroot := CObject
                            (with_class UNMARKED (with_next this oo))]>
                          h)))) a) as Hdesc.
  { intros c a Ha. eapply obj_sat_mono; [exact Ha|]. intros x Hx Hc.
    lookup_cases a; try (exfalso; congruence);
      eexists; (split; [done|]); by simplify_eq. }
  split.
  - unfold swap_root_internal.
    rewrite (debug_is_in_region_spec h this oroot P (C ++ nroot :: D ++ [t]))
      by done.
    rewrite bool_decide_eq_true_2 by list_mem. cbn [mbind option_bind].
    rewrite option_guard_True by done.
    unfold Object.needs_finaliser_ring, Object.get_next_any_mark,
      Object.get_next, Object.init_next, Object.set_next, Object.init_iso,
      Object.set_region, upd_obj, upd_reg, get_obj, get_reg.
    hrun. rewrite Hbo, Hbn. rewrite decide_True by (by destruct b).
    hrun. rewrite Hlast. hrun. f_equal. heap_eq.
  - apply (region_inv_intro _ _ _ _ _ (with_r_next (o_next on) r3) (negb b)).
    + by hlookup.
    + simpl. rewrite <- !app_assoc. apply lseg_app. exists t. split;
        [lseg_frame|].
      apply lseg_cons. split; [done|]. eexists. split; [by hlookup|]. simpl.
      apply lseg_snoc. split; [lseg_frame|].
      eexists. split; [by hlookup|]. done.
    + simpl. apply lseg_snoc. split; [lseg_frame|].
      eexists. split; [by hlookup|]. done.
    + simpl. by rewrite last_or_snoc.
    + eapply NoDup_Permutation_proper; [|exact Hnd]. solve_Permutation.
    + apply obj_sat_iff. eexists. split; [by hlookup|]. done.
    + apply Forall_forall. intros a Ha.
      destruct (decide (a = oroot)) as [->|Hao].
      { apply obj_sat_iff. eexists. split; [by hlookup|]. by left. }
      destruct (decide (a = t)) as [->|Hat].
      { apply obj_sat_iff. eexists. split; [by hlookup|]. by left. }
      apply (obj_sat_frame _ h); [|apply Hmut; list_mem].
      rewrite !lookup_insert_ne; [done|intros ->; list_mem..].
    + apply Hdesc, HbS. list_mem.
    + apply Forall_forall. intros a Ha. apply Hdesc, HbS. list_mem.
    + apply Forall_forall. intros a Ha. apply Hdesc. rewrite negb_involutive.
      apply elem_of_app in Ha as [Ha|Ha%list_elem_of_singleton];
        [by apply HbP|by subst].
Qed.
(** Preservation of the heap invariant by an operation that rebuilds one
    region out of the cells of the closed footprint [F]. *)
Lemma heap_inv_update_closed F h h' this o P S :
  heap_inv h →
  closed_footprint h F →
  h' !! nullptr = None →
  (∀ a, a ∉ F → h' !! a = h !! a) →
  region_inv h' this o P S →
  (∀ a, a ∈ F → a ∈ region_cells this o P S ∨ h' !! a = None) →
  heap_inv h'.
Proof.
  intros Hinv Hcl Hnull Hframe Hreg Hcells.
  pose proof Hreg as (r & b & Hr & HP & HS & Hlast & Hnd & Hthis & Hiso &
                        Hmut & _)%region_inv_elim.
  rewrite Forall_forall in Hmut.
  apply (heap_inv_preserved F h); [done..| |].
  - intros a ra Ha Hra.
    destruct (Hcells a Ha) as [[->|Hin]%elem_of_cons|Hnone]; [by eauto| |].
    + destruct (rings_is_obj _ _ _ _ _ _ (region_inv_rings _ _ _ _ _ Hreg) Hin)
        as [x Hx%get_obj_Some]. congruence.
    + congruence.
  - intros a x Ha Hx Hcls.
    destruct (Hcells a Ha) as [[->|Hin]%elem_of_cons|Hnone]; [congruence| |].
    + assert (a = o) as ->.
      { destruct (decide (a = o)) as [|Hne]; [done|]. exfalso.
        assert (obj_sat is_mutable h' a) as (x' & Hx' & [Hm|Hm])%obj_sat_iff
          by (apply Hmut; list_mem); congruence. }
      rewrite (region_inv_iso_next _ _ _ _ _ _ Hreg Hx). eauto.
    + congruence.
Qed.

Lemma swap_root_internal_spec h this oroot nroot P S :
  h !! nullptr = None →
  region_inv h this oroot P S →
  nroot ∈ P ++ S →
  ∃ h' P' S',
    swap_root_internal h this oroot nroot = Some h' ∧
    region_inv h' this nroot P' S' ∧
    (∀ a, a ∉ region_cells this oroot P S → h' !! a = h !! a) ∧
    region_cells this nroot P' S' ≡ₚ region_cells this oroot P S ∧
    ((∃ A B, P = A ++ nroot :: B ∧ P' = B ++ oroot :: A ∧ S' = S) ∨
     (∃ C D, S = C ++ nroot :: D ∧ P' = D ++ C ∧ S' = P ++ [oroot])).
Proof.
  intros Hnull Hinv Hin.
  destruct (region_inv_is_reg _ _ _ _ _ Hinv) as [r Hr%get_reg_Some].
  destruct (rings_is_obj h this oroot P S oroot) as [oo Ho%get_obj_Some];
    [by apply region_inv_rings|list_mem|].
  destruct (rings_is_obj h this oroot P S nroot) as [on Hn%get_obj_Some];
    [by apply region_inv_rings|list_mem|].
  apply elem_of_app in Hin as [Hin|Hin].
  - apply list_elem_of_split in Hin as (A & B & ->).
    destruct (swap_root_internal_same h this oroot nroot A B S r oo on)
      as [Heq Hinv']; [done..|].
    eexists _, _, _. split; [exact Heq|]. split; [exact Hinv'|].
    split; [|split].
    + intros a Ha. rewrite !lookup_insert_ne; [done|intros ->; list_mem..].
    + unfold region_cells. solve_Permutation.
    + left. eauto.
  - apply list_elem_of_split in Hin as (C & D & ->).
    destruct D as [|d D] using rev_ind.
    + destruct (swap_root_internal_last h this oroot nroot P C r oo on)
        as [Heq Hinv']; [done..|].
      eexists _, _, _. split; [exact Heq|]. split; [exact Hinv'|].
      split; [|split].
      * intros a Ha. rewrite !lookup_insert_ne; [done|intros ->; list_mem..].
      * unfold region_cells. solve_Permutation.
      * right. exists C, []. by rewrite app_nil_l.
    + clear IHD.
      destruct (rings_is_obj h this oroot P (C ++ nroot :: D ++ [d]) d)
        as [ot Ht%get_obj_Some]; [by apply region_inv_rings|list_mem|].
      destruct (swap_root_internal_mid h this oroot nroot P C D d r oo on ot)
        as [Heq Hinv']; [done..|].
      eexists _, _, _. split; [exact Heq|]. split; [exact Hinv'|].
      split; [|split].
      * intros a Ha. rewrite !lookup_insert_ne; [done|intros ->; list_mem..].
      * unfold region_cells. solve_Permutation.
      * right. eauto.
Qed.

Lemma swap_root_Some h prev next h' :
  swap_root h prev next = Some h' →
  prev ≠ next ∧
  ∃ reg, get h prev = Some reg ∧
         swap_root_internal h reg prev next = Some h'.
Proof.
  unfold swap_root. intros H.
  rewrite (option_guard_decide (prev ≠ next)) in H.
  destruct (decide (prev ≠ next)); [|done]. split; [done|].
  rewrite (option_guard_decide (Object.debug_is_iso h prev = true)) in H.
  destruct (decide (Object.debug_is_iso h prev = true)); [|done].
  rewrite (option_guard_decide (Object.debug_is_mutable h next = true)) in H.
  destruct (decide (Object.debug_is_mutable h next = true)); [|done].
  destruct (Object.get_region h prev) as [r|]; [|done]. simpl in H.
  rewrite (option_guard_decide (r ≠ next)) in H.
  destruct (decide (r ≠ next)); [|done].
  destruct (get h prev) as [reg|]; [|done]. eauto.
Qed.

Lemma swap_root_internal_in h this oroot nroot P S h' :
  h !! nullptr = None →
  region_inv h this oroot P S →
  swap_root_internal h this oroot nroot = Some h' →
  nroot ∈ P ++ oroot :: S.
Proof.
  intros Hnull Hinv. unfold swap_root_internal.
  rewrite (debug_is_in_region_spec h this oroot P S) by done.
  cbn [mbind option_bind]. intros H.
  rewrite (option_guard_decide (_ = true)) in H.
  destruct (decide (bool_decide (nroot ∈ P ++ oroot :: S) = true)) as [Hd|];
    [|done].
  by apply bool_decide_eq_true_1 in Hd.
Qed.

Lemma swap_root_heap_inv h prev next h' :
  heap_inv h → swap_root h prev next = Some h' → heap_inv h'.
Proof.
  intros Hinv (Hne & reg & Hget & Hsw)%swap_root_Some.
  destruct (heap_inv_get _ _ _ Hinv Hget) as (P & S & Hreg).
  pose proof Hinv as (Hnull & _).
  pose proof (swap_root_internal_in _ _ _ _ _ _ _ Hnull Hreg Hsw) as Hin.
  assert (next ∈ P ++ S) as Hin' by list_mem.
  destruct (swap_root_internal_spec h reg prev next P S Hnull Hreg Hin')
    as (h1 & P' & S' & Heq & Hreg' & Hframe & Hperm & _).
  assert (h1 = h') as -> by congruence.
  apply (heap_inv_update_closed (region_cells reg prev P S) h h' reg next P' S');
    [done|by apply closed_footprint_region| |done|done|].
  - rewrite Hframe; [done|]. intros Hc.
    destruct (region_cells_allocated _ _ _ _ _ _ Hreg Hc). congruence.
  - intros a Ha. left. by rewrite Hperm.
Qed.

(** ** [merge] *)

Section MergeProofs.

Variable size_to_sizeclass : N → N.
Variable sizeclass_to_size : N → N.

(** The rings of the merged region: the donated primary ring, which ends
    with the donated iso [o], goes in front of the ring of the same
    finaliser need, the donated secondary ring in front of the other. *)
Lemma merge_spec h into o reg other P1 S1 P2 S2 r1 r2 b1 b2 :
  region_inv h reg into P1 S1 →
  region_inv h other o P2 S2 →
  reg ≠ other →
  obj_sat (needs b1) h into →
  obj_sat (needs b2) h o →
  h !! reg = Some (CRegion r1) →
  h !! other = Some (CRegion r2) →
  ∃ h' r',
    merge size_to_sizeclass sizeclass_to_size h into o = Some h' ∧
    region_inv h' reg into
      (if decide (b2 = b1) then (P2 ++ [o]) ++ P1 else S2 ++ P1)
      (if decide (b2 = b1) then S2 ++ S1 else (P2 ++ [o]) ++ S1) ∧
    h' !! reg = Some (CRegion r') ∧
    current_memory_used r' =
      size_t_add (current_memory_used r1) (current_memory_used r2) ∧
    previous_memory_used r' =
      size_to_sizeclass
        (size_t_add (sizeclass_to_size (previous_memory_used r2))
                    (sizeclass_to_size (previous_memory_used r2))) ∧
    hash_set r' = hash_set r1 ∪ hash_set r2 ∧
    ext_table r' = ext_table r1 ∪ ext_table r2 ∧
    h' !! other = None ∧
    obj_sat (λ x, o_class x = UNMARKED) h' o ∧
    (∀ a, a ∉ region_cells reg into P1 S1 ++ region_cells other o P2 S2 →
       h' !! a = h !! a).
Proof.
  intros Hinv1 Hinv2 Hne Hb1 Hb2 Hr1 Hr2.
  pose proof Hinv2 as (r0 & b & Hr0 & HP2 & HS2 & Hlast2 & Hnd2 & Hthis2 &
                         Hiso2 & Hmut2 & Hb & HbP2 & HbS2)%region_inv_elim.
  assert (r0 = r2) as -> by congruence. clear Hr0.
  assert (b = b2) as ->.
  { apply obj_sat_iff in Hb as (x & Hx & Hbx).
    apply obj_sat_iff in Hb2 as (x' & Hx' & Hbx'). unfold needs in *.
    congruence. }
  pose proof (rings_this_notin _ _ _ _ _ (region_inv_rings _ _ _ _ _ Hinv1))
    as Hthis1.
  assert (∀ a, a ∈ P2 ++ o :: S2 → a ∉ P1 ++ into :: S1) as Hdisj.
  { intros a Ha2 Ha1. apply Hne.
    eapply (rings_disjoint h reg into P1 S1 other o P2 S2 a);
      eauto using region_inv_rings. }
  apply lseg_snoc in HP2 as (HP2 & oo & Ho & Hoo).
  assert (o_class oo = ISO) as Hcl.
  { apply obj_sat_iff in Hiso2 as (x & Hx & Hbx). unfold is_iso in Hbx.
    congruence. }
  assert (NoDup (P2 ++ [o]) ∧ NoDup S2 ∧ ∀ a, a ∈ S2 → a ∉ P2 ++ [o])
    as (HndP2 & HndS2 & HdisjPS).
  { replace (P2 ++ o :: S2) with ((P2 ++ [o]) ++ S2) in Hnd2
      by (by rewrite <- app_assoc).
    apply NoDup_app in Hnd2 as (? & Hd & ?). split; [done|]. split; [done|].
    intros a Ha Ha'. by apply (Hd a). }
  (* the primary ring of the other region *)
  destruct (append_region_inv h reg into P1 S1 r1 (r_next r2) o P2 oo b2 b1)
    as (r1' & oo' & Happ1 & Hinv1' & Hc1 & Hp1 & Hh1 & He1 & Hcl1 & Hd1 & Hf1);
    [done..| | | |].
  { intros a Ha. apply Hdisj. list_mem. }
  { apply Forall_app in Hmut2 as [? _]. done. }
  { apply Forall_app. split; [done|]. by apply Forall_singleton. }
  set (h1 := <[reg := CRegion r1']> (<[o := CObject oo']> h)) in *.
  assert (reg ≠ o) as Hro by (intros ->; congruence).
  assert (other ≠ o) as Hoo' by (intros ->; congruence).
  assert (∀ a, a ≠ reg → a ≠ o → h1 !! a = h !! a) as Hframe1.
  { intros a ? ?. unfold h1. by rewrite !lookup_insert_ne. }
  assert (h1 !! other = Some (CRegion r2)) as Hr2'
    by (rewrite Hframe1; done).
  assert (h1 !! reg = Some (CRegion r1')) as Hr1'
    by (unfold h1; by hlookup).
  assert (obj_sat (needs b1) h1 into) as Hb1'.
  { apply (obj_sat_frame _ h); [|done]. apply Hframe1.
    - intros ->. apply Hthis1. list_mem.
    - intros ->. apply (Hdisj o); list_mem. }
  assert (∀ a, a ∈ S2 → h1 !! a = h !! a) as HframeS2.
  { intros a Ha. apply Hframe1.
    - intros ->. destruct (lseg_is_obj _ _ _ _ _ HS2 Ha) as [x Hx%get_obj_Some].
      congruence.
    - intros ->. apply (HdisjPS o Ha). list_mem. }
  (* the secondary ring of the other region *)
  assert (∃ h2 r1'',
    (if decide (next_not_root r2 ≠ other)
     then append h1 reg (next_not_root r2) (last_not_root r2)
     else Some h1) = Some h2 ∧
    region_inv h2 reg into
      (if decide (b2 = b1) then (P2 ++ [o]) ++ P1 else S2 ++ P1)
      (if decide (b2 = b1) then S2 ++ S1 else (P2 ++ [o]) ++ S1) ∧
    h2 !! reg = Some (CRegion r1'') ∧
    current_memory_used r1'' = current_memory_used r1 ∧
    hash_set r1'' = hash_set r1 ∧ ext_table r1'' = ext_table r1 ∧
    h2 !! other = Some (CRegion r2) ∧
    obj_sat (λ x, o_class x = UNMARKED) h2 o ∧
    (∀ a, a ∉ region_cells reg into P1 S1 ++ region_cells other o P2 S2 →
       h2 !! a = h !! a))
    as (h2 & r1'' & Happ2 & Hinv2' & Hr1'' & Hc2 & Hh2 & He2 & Hr2'' & Ho2 &
        Hframe2).
  { destruct S2 as [|t S2' _] using rev_ind.
    - simpl in HS2. rewrite decide_False by (by intros ?).
      exists h1, r1'. split; [done|]. split.
      { destruct (decide (b2 = b1)); [by rewrite app_nil_l|].
        destruct (decide (negb b2 = b1)) as [|Hx]; [by rewrite app_nil_l|].
        destruct b1, b2; done. }
      split; [done|]. split; [done|]. split; [done|]. split; [done|].
      split; [done|]. split.
      + apply obj_sat_iff. exists oo'. split; [|done]. unfold h1. by hlookup.
      + intros a Ha. apply Hframe1; intros ->; list_mem.
    - rewrite last_or_snoc in Hlast2.
      apply lseg_snoc in HS2 as (HS2 & ot & Ht & Hot).
      assert (next_not_root r2 ≠ other) as Hnn.
      { intros Heq. apply Hthis2. rewrite Heq in HS2.
        destruct S2' as [|s S2']; simpl in HS2.
        - subst. list_mem.
        - destruct HS2 as [-> _]. list_mem. }
      rewrite decide_True by done. rewrite Hlast2.
      assert (t ≠ reg ∧ t ≠ o) as [Htr Hto].
      { split; intros ->; [congruence|].
        apply (HdisjPS o); list_mem. }
      destruct (append_region_inv h1 reg into
                  (if decide (b2 = b1) then (P2 ++ [o]) ++ P1 else P1)
                  (if decide (b2 = b1) then S1 else (P2 ++ [o]) ++ S1)
                  r1' (next_not_root r2) t S2' ot (negb b2) b1)
        as (r1'' & ot' & Happ2 & Hinv2' & Hc2 & Hp2 & Hh2 & He2 & Hcl2 & _);
        [done|done|done|..].
      { eapply lseg_frame; [|exact HS2]. intros a Ha. apply HframeS2.
        list_mem. }
      { rewrite Hframe1; done. }
      { done. }
      { intros a Ha Ha'.
        assert (a ∈ P1 ++ into :: S1 ∨ a ∈ P2 ++ [o]) as [Hx|Hx]
          by (destruct (decide (b2 = b1)); list_mem).
        - apply (Hdisj a); [list_mem|done].
        - by apply (HdisjPS a). }
      { apply Forall_app in Hmut2 as [_ Hm]. apply Forall_app in Hm as [Hm _].
        eapply Forall_obj_sat_frame; [|exact Hm]. intros a Ha.
        apply HframeS2. list_mem. }
      { eapply Forall_obj_sat_frame; [|exact HbS2]. intros a Ha.
        by apply HframeS2. }
      exists (<[reg := CRegion r1'']> (<[t := CObject ot']> h1)), r1''.
      split; [done|]. split.
      { destruct (decide (b2 = b1)) as [Heq|Hneq].
        - destruct (decide (negb b2 = b1)); [|done].
          subst. by destruct b1.
        - destruct (decide (negb b2 = b1)); [done|].
          by destruct b1, b2. }
      split; [by hlookup|]. split; [congruence|]. split; [congruence|].
      split; [congruence|]. split; [by hlookup|]. split.
      + apply obj_sat_iff. exists oo'. split; [|done]. unfold h1. by hlookup.
      + intros a Ha. rewrite !lookup_insert_ne by (intros ->; list_mem).
        apply Hframe1; intros ->; list_mem. }
  (* bookkeeping, and the release of the other metadata object *)
  set (rf := with_hash_set (hash_set r1'' ∪ hash_set r2)
               (with_ext_table (ext_table r1'' ∪ ext_table r2)
                  (with_previous_memory_used
                     (size_to_sizeclass
                        (size_t_add
                           (sizeclass_to_size (previous_memory_used r2))
                           (sizeclass_to_size (previous_memory_used r2))))
                     (with_current_memory_used
                        (size_t_add (current_memory_used r1'')
                                    (current_memory_used r2)) r1'')))).
  exists (delete other (<[reg := CRegion rf]> h2)), rf.
  split; [|split; [|split; [|split; [|split; [|split; [|split; [|split;
    [|split]]]]]]]].
  - unfold merge, merge_internal.
    rewrite (region_inv_get _ _ _ _ _ Hinv1).
    unfold Object.debug_is_iso, Object.get_class, Object.get_region,
      is_trace_region, get_obj, get_reg, Object.get_next.
    hrun. rewrite Hcl. hrun. rewrite Hoo. hrun.
    rewrite decide_True.
    2:{ intros Heq. apply Hthis2. rewrite Heq in HP2.
        destruct P2 as [|p P2]; simpl in HP2.
        - subst. list_mem.
        - destruct HP2 as [-> _]. list_mem. }
    rewrite Happ1. fold h1. cbn [mbind option_bind]. rewrite Hr2'.
    cbn [mbind option_bind]. rewrite Happ2. cbn [mbind option_bind].
    unfold ExternalReferenceTable.merge, RememberedSet.merge,
      Object.dealloc_cell, upd_reg, get_reg.
    hrun. done.
  - apply region_inv_delete_ne.
    + intros [->|Hin]%elem_of_cons; [done|].
      destruct (rings_is_obj _ _ _ _ _ _ (region_inv_rings _ _ _ _ _ Hinv2') Hin)
        as [x Hx%get_obj_Some]. congruence.
    + eapply region_inv_insert_equiv; [exact Hr1''| |done]. done.
  - by hlookup.
  - simpl. by rewrite Hc2.
  - done.
  - simpl. by rewrite Hh2.
  - simpl. by rewrite He2.
  - by hlookup.
  - apply obj_sat_iff in Ho2 as (x & Hx & Hxc). apply obj_sat_iff.
    exists x. split; [|done]. by hlookup.
  - intros a Ha. rewrite lookup_delete_ne by (intros ->; list_mem).
    rewrite lookup_insert_ne by (intros ->; list_mem). by apply Hframe2.
Qed.

Lemma merge_Some h into o h' :
  merge size_to_sizeclass sizeclass_to_size h into o = Some h' →
  ∃ reg other oo r2,
    get h into = Some reg ∧ h !! o = Some (CObject oo) ∧ o_class oo = ISO ∧
    o_next oo = other ∧ reg ≠ other ∧ h !! other = Some (CRegion r2).
Proof.
  unfold merge. intros H.
  rewrite (option_guard_decide (Object.debug_is_iso h o = true)) in H.
  destruct (decide (Object.debug_is_iso h o = true)); [|done].
  destruct (get h into) as [reg|]; [|done]. simpl in H.
  unfold Object.get_region in H.
  destruct (get_obj h o) as [oo|] eqn:Ho; [|done]. simpl in H.
  rewrite (option_guard_decide (o_class oo = ISO)) in H.
  destruct (decide (o_class oo = ISO)); [|done]. simpl in H.
  rewrite (option_guard_decide (reg ≠ o_next oo)) in H.
  destruct (decide (reg ≠ o_next oo)); [|done].
  rewrite (option_guard_decide (is_trace_region h (o_next oo) = true)) in H.
  destruct (decide (is_trace_region h (o_next oo) = true)) as [Ht|]; [|done].
  apply bool_decide_eq_true_1 in Ht as [r2 Hr2%get_reg_Some].
  apply get_obj_Some in Ho. eauto 10.
Qed.

Lemma merge_heap_inv h into o h' :
  heap_inv h →
  merge size_to_sizeclass sizeclass_to_size h into o = Some h' →
  heap_inv h'.
Proof.
  intros Hinv Hm.
  destruct (merge_Some _ _ _ _ Hm)
    as (reg & other & oo & r2 & Hget & Ho & Hcl & Hoo & Hne & Hr2).
  destruct (heap_inv_get _ _ _ Hinv Hget) as (P1 & S1 & Hinv1).
  pose proof Hinv as (Hnull & _ & Hisos).
  destruct (Hisos _ _ Ho Hcl) as (P2 & S2 & Hinv2). rewrite Hoo in Hinv2.
  destruct (region_inv_needs _ _ _ _ _ Hinv1) as [b1 Hb1].
  destruct (region_inv_needs _ _ _ _ _ Hinv2) as [b2 Hb2].
  destruct (region_inv_is_reg _ _ _ _ _ Hinv1) as [r1 Hr1%get_reg_Some].
  destruct (merge_spec h into o reg other P1 S1 P2 S2 r1 r2 b1 b2)
    as (h1 & r' & Heq & Hinv' & Hr' & _ & _ & _ & _ & Hother & _ & Hframe);
    [done..|].
  assert (h1 = h') as -> by congruence.
  eapply (heap_inv_update_closed
            (region_cells reg into P1 S1 ++ region_cells other o P2 S2));
    [done| | |done|exact Hinv'|].
  - apply closed_footprint_app; by apply closed_footprint_region.
  - rewrite Hframe; [done|]. intros [Hc|Hc]%elem_of_app.
    + destruct (region_cells_allocated _ _ _ _ _ _ Hinv1 Hc). congruence.
    + destruct (region_cells_allocated _ _ _ _ _ _ Hinv2 Hc). congruence.
  - intros a Ha. destruct (decide (a = other)) as [->|Hao]; [by right|].
    left. destruct (decide (b2 = b1)); list_mem.
Qed.

End MergeProofs.

(** ** [mark] *)

Lemma mark_rel_refl c : mark_rel c c.
Proof. destruct c as [o|r]; simpl; [by left|]. exists (hash_set r). by destruct r. Qed.

Lemma mark_rel_trans c1 c2 c3 : mark_rel c1 c2 → mark_rel c2 c3 → mark_rel c1 c3.
Proof.
  destruct c1 as [o1|r1], c2 as [o2|r2], c3 as [o3|r3]; simpl; try done.
  - intros [->|[H1 ->]] [->|[H2 ->]]; auto; simpl in *; congruence.
  - intros [s ->] [s' ->]. by exists s'.
Qed.

Lemma heap_mark_rel_refl h : heap_mark_rel h h.
Proof. intros a. destruct (h !! a); [apply mark_rel_refl|done]. Qed.

Lemma heap_mark_rel_trans h1 h2 h3 :
  heap_mark_rel h1 h2 → heap_mark_rel h2 h3 → heap_mark_rel h1 h3.
Proof.
  intros H12 H23 a. specialize (H12 a). specialize (H23 a).
  destruct (h1 !! a), (h2 !! a), (h3 !! a); try done.
  by eapply mark_rel_trans.
Qed.

Lemma heap_mark_rel_insert h a c c' :
  h !! a = Some c → mark_rel c c' → heap_mark_rel h (<[a := c']> h).
Proof.
  intros Ha Hrel b. destruct (decide (b = a)) as [->|Hne].
  - by rewrite lookup_insert_eq, Ha.
  - rewrite lookup_insert_ne by done.
    destruct (h !! b); [apply mark_rel_refl|done].
Qed.

Lemma mark_rel_ring_equiv c c' : mark_rel c c' → ring_equiv c c'.
Proof.
  destruct c as [o|r], c' as [o'|r']; simpl; try done.
  - intros [->|[Hc ->]]; [by apply (ring_equiv_refl (CObject o))|].
    unfold is_iso, is_mutable. simpl. rewrite Hc.
    repeat split; auto; try done.
  - intros [s ->]. done.
Qed.

Lemma RememberedSet_mark_rel h this p m h' m' :
  RememberedSet.mark h this p m = Some (h', m') → heap_mark_rel h h'.
Proof.
  unfold RememberedSet.mark. intros H.
  destruct (get_reg h this) as [r|] eqn:Hr; [|done]. simpl in H.
  apply get_reg_Some in Hr.
  destruct (hash_set r !! p) as [[]|]; simplify_eq;
    try apply heap_mark_rel_refl;
    (eapply heap_mark_rel_insert; [done|]); by eexists.
Qed.

Lemma Object_mark_rel h p h' :
  Object.mark h p = Some h' → heap_mark_rel h h'.
Proof.
  unfold Object.mark. intros H.
  destruct (get_obj h p) as [x|] eqn:Hx; [|done]. simpl in H.
  apply get_obj_Some in Hx.
  rewrite (option_guard_decide (o_class x = UNMARKED)) in H.
  destruct (decide (o_class x = UNMARKED)); [|done]. simplify_eq.
  eapply heap_mark_rel_insert; [done|]. simpl. by right.
Qed.

(** [mark] only flips unmarked objects to marked and updates remembered
    sets; it leaves the stack empty. *)
Lemma mark_loop_rel fuel h this dfs m h' dfs' m' :
  mark_loop fuel h this dfs m = Some (h', dfs', m') →
  heap_mark_rel h h' ∧ dfs' = [].
Proof.
  revert h dfs m. induction fuel as [|fuel IH]; intros h dfs m H.
  - destruct dfs; simpl in H; [|done]. simplify_eq.
    split; [apply heap_mark_rel_refl|done].
  - destruct dfs as [|p dfs]; simpl in H.
    { simplify_eq. split; [apply heap_mark_rel_refl|done]. }
    destruct (Object.get_class h p) as [cl|]; [|done]. simpl in H.
    destruct cl.
    + destruct (Object.mark h p) as [h1|] eqn:Hm; [|done]. simpl in H.
      destruct (Object.trace h1 p dfs) as [dfs1|]; [|done]. simpl in H.
      apply IH in H as [H ->]. split; [|done].
      eapply heap_mark_rel_trans; [|done]. by eapply Object_mark_rel.
    + by apply IH in H.
    + destruct (get_obj h p) as [x|]; [|done]. simpl in H.
      destruct (match decide (o_class x = SCC_PTR) with
                | left _ => Object.immutable fuel h (o_next x)
                | right _ => Some p end) as [p'|]; [|done].
      simpl in H.
      destruct (RememberedSet.mark h this p' m) as [[h1 m1]|] eqn:Hm;
        [|done]. simpl in H.
      apply IH in H as [H ->]. split; [|done].
      eapply heap_mark_rel_trans; [|done]. by eapply RememberedSet_mark_rel.
    + destruct (RememberedSet.mark h this p m) as [[h1 m1]|] eqn:Hm;
        [|done]. simpl in H.
      apply IH in H as [H ->]. split; [|done].
      eapply heap_mark_rel_trans; [|done]. by eapply RememberedSet_mark_rel.
    + by apply IH in H.
    + destruct (RememberedSet.mark h this p m) as [[h1 m1]|] eqn:Hm;
        [|done]. simpl in H.
      apply IH in H as [H ->]. split; [|done].
      eapply heap_mark_rel_trans; [|done]. by eapply RememberedSet_mark_rel.
Qed.

Lemma mark_rel_heap fuel h this o dfs m h' dfs' m' :
  mark fuel h this o dfs m = Some (h', dfs', m') →
  heap_mark_rel h h' ∧ dfs' = [].
Proof.
  unfold mark. intros H.
  destruct (Object.trace h o dfs) as [dfs1|]; [|done]. simpl in H.
  by eapply mark_loop_rel.
Qed.

Lemma heap_mark_rel_lookup h h' a c :
  heap_mark_rel h h' → h !! a = Some c →
  ∃ c', h' !! a = Some c' ∧ mark_rel c c'.
Proof.
  intros Hrel Ha. specialize (Hrel a). rewrite Ha in Hrel.
  destruct (h' !! a) as [c'|]; [eauto|done].
Qed.

Lemma heap_mark_rel_lookup_inv h h' a c' :
  heap_mark_rel h h' → h' !! a = Some c' →
  ∃ c, h !! a = Some c ∧ mark_rel c c'.
Proof.
  intros Hrel Ha. specialize (Hrel a). rewrite Ha in Hrel.
  destruct (h !! a) as [c|]; [eauto|done].
Qed.

Lemma heap_mark_rel_region_inv h h' this o P S :
  heap_mark_rel h h' → region_inv h this o P S → region_inv h' this o P S.
Proof.
  intros Hrel. apply region_inv_transfer. intros a c _ Hc.
  destruct (heap_mark_rel_lookup _ _ _ _ Hrel Hc) as (c' & Hc' & Hm).
  exists c'. split; [done|]. by apply mark_rel_ring_equiv.
Qed.

Lemma heap_mark_rel_heap_inv h h' :
  heap_mark_rel h h' → heap_inv h → heap_inv h'.
Proof.
  intros Hrel (Hnull & Hregs & Hisos). split; [|split].
  - specialize (Hrel nullptr). rewrite Hnull in Hrel.
    by destruct (h' !! nullptr).
  - intros this r' Hr'.
    destruct (heap_mark_rel_lookup_inv _ _ _ _ Hrel Hr') as (c & Hc & Hm).
    destruct c as [|r]; [done|].
    destruct (Hregs _ _ Hc) as (o & P & S & Hinv).
    exists o, P, S. by eapply heap_mark_rel_region_inv.
  - intros a x' Hx' Hiso.
    destruct (heap_mark_rel_lookup_inv _ _ _ _ Hrel Hx') as (c & Hc & Hm).
    destruct c as [x|]; [|done]. simpl in Hm.
    destruct Hm as [->|[Hu ->]]; [|done].
    destruct (Hisos _ _ Hc Hiso) as (P & S & Hinv).
    exists P, S. by eapply heap_mark_rel_region_inv.
Qed.
Lemma RememberedSet_mark_objects h this p m h' m' a x :
  RememberedSet.mark h this p m = Some (h', m') →
  h' !! a = Some (CObject x) ↔ h !! a = Some (CObject x).
Proof.
  unfold RememberedSet.mark. intros H.
  destruct (get_reg h this) as [r|] eqn:Hr; [|done]. simpl in H.
  apply get_reg_Some in Hr.
  destruct (hash_set r !! p) as [[]|]; simplify_eq; try done;
    (destruct (decide (a = this)) as [->|Hne];
      [rewrite lookup_insert_eq, Hr; split; congruence
      |by rewrite lookup_insert_ne]).
Qed.



(** ** [sweep] *)

Lemma sweep_unlink_assoc {A} in_secondary_ring this h prev p q
    (k : gmap N Cell → option A) :
  (h ← (if decide (prev = this ∧ in_secondary_ring = true)
        then upd_reg (with_next_not_root q) h this
        else Object.set_next h prev q);
   r ← get_reg h this;
   h ← (if decide (in_secondary_ring = true ∧ last_not_root r = p)
        then upd_reg (with_last_not_root prev) h this
        else Some h);
   k h) =
  (h ← sweep_unlink in_secondary_ring this h prev p q; k h).
Proof.
  unfold sweep_unlink.
  destruct (if decide (prev = this ∧ in_secondary_ring = true)
            then upd_reg (with_next_not_root q) h this
            else Object.set_next h prev q) as [h1|]; [|done]. simpl.
  destruct (get_reg h1 this) as [r|]; [|done]. simpl. done.
Qed.

Lemma sweep_loop_unfold fuel ring in_secondary_ring this o c prev p gc :
  sweep_loop (Datatypes.S fuel) ring in_secondary_ring this o c prev p gc =
  if decide (p = this) then Some (c, gc)
  else
    cls ← Object.get_class (heap c) p;
    match cls with
    | ISO =>
        guard (p = o);;
        n ← Object.get_next_any_mark (heap c) p;
        guard (n = this);;
        r ← Object.get_region (heap c) p;
        guard (r = this);;
        sz ← Object.size (heap c) p;
        h ← use_memory (heap c) this sz;
        Some (set_heap h c, gc)
    | MARKED =>
        sz ← Object.size (heap c) p;
        h ← use_memory (heap c) this sz;
        h ← Object.unmark h p;
        q ← Object.get_next h p;
        sweep_loop fuel ring in_secondary_ring this o (set_heap h c) p q gc
    | UNMARKED =>
        q ← Object.get_next (heap c) p;
        '(c, gc) ← sweep_dispose ring this o c p gc;
        h ← sweep_unlink in_secondary_ring this (heap c) prev p q;
        sweep_loop fuel ring in_secondary_ring this o (set_heap h c)
          prev q gc
    | _ => None
    end.
Proof.
  simpl. destruct (decide (p = this)); [done|].
  destruct (Object.get_class (heap c) p) as [[]|]; try done. simpl.
  destruct (Object.get_next (heap c) p); [|done]. simpl.
  unfold sweep_dispose, sweep_unlink. destruct ring; simpl.
  - destruct (Object.find_iso_fields c p o); [|done]. simpl.
    destruct (Object.has_finaliser _ p) as [[]|]; [| |done]; simpl.
    + destruct (Object.finalise _ p); [|done]. simpl.
      destruct (Object.set_next _ p gc); [|done]. simpl.
      apply sweep_unlink_assoc.
    + destruct (Object.set_next _ p gc); [|done]. simpl.
      apply sweep_unlink_assoc.
  - destruct (Object.has_possibly_iso_fields _ p) as [pif|]; [|done]. simpl.
    rewrite (option_guard_decide (pif = false)).
    destruct (decide (pif = false)); [|done].
    destruct (Object.has_ext_ref _ p) as [[]|]; [| |done]; simpl.
    + destruct (ExternalReferenceTable.erase _ this p); [|done]. simpl.
      destruct (Object.dealloc _ p); [|done]. simpl.
      apply sweep_unlink_assoc.
    + destruct (Object.dealloc _ p); [|done]. simpl.
      apply sweep_unlink_assoc.
Qed.

Lemma with_next_id x : with_next (o_next x) x = x.
Proof. by destruct x. Qed.

Lemma with_ext_table_id r : with_ext_table (ext_table r) r = r.
Proof. by destruct r. Qed.

Lemma with_last_not_root_id r : with_last_not_root (last_not_root r) r = r.
Proof. by destruct r. Qed.

Lemma sweep_dispose_finaliser this o c p gc xp :
  heap c !! p = Some (CObject xp) →
  ∃ c1,
    sweep_dispose FinaliserRing this o c p gc = Some (c1, p) ∧
    heap c1 = <[p := CObject (with_next gc xp)]> (heap c) ∧
    log c1 = log c ++
      (if desc_has_finaliser (o_descriptor xp) then [EvFinalise p] else []).
Proof.
  intros Hp. unfold sweep_dispose, Object.find_iso_fields,
    Object.has_finaliser, Object.finalise, Object.set_next, get_obj.
  hrun. destruct (desc_has_finaliser (o_descriptor xp)); hrun.
  - eexists. split; [done|]. done.
  - eexists. split; [done|]. simpl. by rewrite app_nil_r.
Qed.

Lemma sweep_dispose_nonfinaliser this o c p gc xp r c1 gc1 :
  heap c !! p = Some (CObject xp) →
  heap c !! this = Some (CRegion r) →
  sweep_dispose NonfinaliserRing this o c p gc = Some (c1, gc1) →
  gc1 = gc ∧
  (∃ s, heap c1 =
        delete p (<[this := CRegion (with_ext_table s r)]> (heap c))) ∧
  log c1 = log c ++ [EvDealloc p].
Proof.
  intros Hp Hr. unfold sweep_dispose, Object.has_possibly_iso_fields,
    Object.has_ext_ref, ExternalReferenceTable.erase, Object.dealloc,
    upd_reg, get_reg, get_obj.
  hrun. rewrite (option_guard_decide (_ = false)).
  destruct (decide (desc_has_possibly_iso_fields (o_descriptor xp) = false));
    [|done].
  destruct (o_ext_ref xp); hrun; intros; simplify_eq.
  - split; [done|]. split; [eauto|done].
  - split; [done|]. split; [|done]. exists (ext_table r).
    rewrite with_ext_table_id. by rewrite insert_id.
Qed.

Lemma sweep_unlink_this in_secondary_ring this h p q r :
  h !! this = Some (CRegion r) →
  sweep_unlink in_secondary_ring this h this p q =
    Some (<[this := CRegion
             (with_last_not_root
                (if decide (in_secondary_ring = true ∧ last_not_root r = p)
                 then this else last_not_root r)
                (if in_secondary_ring then with_next_not_root q r
                 else with_r_next q r))]> h).
Proof.
  intros Hr. unfold sweep_unlink, upd_reg, get_reg, Object.set_next.
  destruct in_secondary_ring; hrun.
  - destruct (decide (true = true ∧ last_not_root r = p)); hrun; [done|].
    by destruct r.
  - rewrite decide_False by (by intros [_ ?]). hrun. by destruct r.
Qed.

Lemma sweep_unlink_obj in_secondary_ring this h prev p q r xprev :
  h !! this = Some (CRegion r) →
  h !! prev = Some (CObject xprev) →
  sweep_unlink in_secondary_ring this h prev p q =
    Some (<[this := CRegion
             (with_last_not_root
                (if decide (in_secondary_ring = true ∧ last_not_root r = p)
                 then prev else last_not_root r) r)]>
          (<[prev := CObject (with_next q xprev)]> h)).
Proof.
  intros Hr Hprev. assert (prev ≠ this) by congruence.
  unfold sweep_unlink, upd_reg, get_reg, Object.set_next.
  rewrite decide_False by (by intros [? _]). hrun.
  destruct (decide (in_secondary_ring = true ∧ last_not_root r = p)); hrun.
  { done. }
  rewrite with_last_not_root_id. f_equal. symmetry. apply insert_id.
  by rewrite lookup_insert_ne.
Qed.
Lemma survivors_ext h h' l :
  (∀ a, a ∈ l → h' !! a = h !! a) → survivors h' l = survivors h l.
Proof.
  unfold survivors. induction l as [|b l IH]; intros Hext; [done|].
  rewrite !filter_cons, IH by (intros; apply Hext; by right).
  unfold Object.get_class, get_obj. by rewrite (Hext b) by left.
Qed.

Lemma unreachable_ext h h' l :
  (∀ a, a ∈ l → h' !! a = h !! a) → unreachable h' l = unreachable h l.
Proof.
  unfold unreachable. induction l as [|b l IH]; intros Hext; [done|].
  rewrite !filter_cons, IH by (intros; apply Hext; by right).
  unfold Object.get_class, get_obj. by rewrite (Hext b) by left.
Qed.

Lemma add_sizes_ext h h' l acc :
  (∀ a, a ∈ l → h' !! a = h !! a) → add_sizes h' l acc = add_sizes h l acc.
Proof.
  unfold add_sizes. revert acc. induction l as [|b l IH]; intros acc Hext;
    [done|].
  simpl. rewrite IH by (intros; apply Hext; by right).
  unfold obj_size, Object.size, get_obj. by rewrite (Hext b) by left.
Qed.

Lemma finalise_events_ext h h' l :
  (∀ a, a ∈ l → h' !! a = h !! a) →
  finalise_events h' l = finalise_events h l.
Proof.
  unfold finalise_events. induction l as [|b l IH]; intros Hext; [done|].
  rewrite !filter_cons.
  assert (Object.has_finaliser h' b = Object.has_finaliser h b) as ->.
  { unfold Object.has_finaliser, get_obj. by rewrite (Hext b) by left. }
  assert (∀ a, a ∈ l → h' !! a = h !! a) as Hext'
    by (intros; apply Hext; by right).
  destruct (decide (Object.has_finaliser h b = Some true)); simpl;
    [f_equal|]; by apply IH.
Qed.

Lemma sweep_loop_events_ext ring h h' l :
  (∀ a, a ∈ l → h' !! a = h !! a) →
  sweep_loop_events ring h' l = sweep_loop_events ring h l.
Proof. destruct ring; simpl; [apply finalise_events_ext|done]. Qed.

Lemma survivors_subseteq h l a : a ∈ survivors h l → a ∈ l.
Proof. unfold survivors. by intros [_ ?]%list_elem_of_filter. Qed.

Lemma unreachable_subseteq h l a : a ∈ unreachable h l → a ∈ l.
Proof. unfold unreachable. by intros [_ ?]%list_elem_of_filter. Qed.

Lemma survivors_cons_keep h a l :
  Object.get_class h a ≠ Some UNMARKED →
  survivors h (a :: l) = a :: survivors h l.
Proof. intros. unfold survivors. by rewrite filter_cons_True. Qed.

Lemma survivors_cons_drop h a l :
  Object.get_class h a = Some UNMARKED →
  survivors h (a :: l) = survivors h l.
Proof.
  intros H. unfold survivors. rewrite filter_cons_False; [done|].
  by intros ?.
Qed.

Lemma unreachable_cons_keep h a l :
  Object.get_class h a ≠ Some UNMARKED →
  unreachable h (a :: l) = unreachable h l.
Proof. intros. unfold unreachable. by rewrite filter_cons_False. Qed.

Lemma unreachable_cons_drop h a l :
  Object.get_class h a = Some UNMARKED →
  unreachable h (a :: l) = a :: unreachable h l.
Proof. intros H. unfold unreachable. by rewrite filter_cons_True. Qed.

Lemma last_or_cons d a l : last_or d (a :: l) = last_or a l.
Proof.
  destruct l as [|b l]; [done|].
  change (last_or d (a :: b :: l)) with (last_or d (b :: l)).
  by apply last_or_nonempty.
Qed.

Lemma lseg_this_nil h this r l :
  h !! this = Some (CRegion r) → lseg h this this l → l = [].
Proof.
  intros Hr. destruct l as [|a l]; [done|]. simpl. intros [<- H].
  by rewrite Hr in H.
Qed.

Lemma sweep_loop_post_nil ring (in_secondary_ring : bool) this c prev gc G r :
  heap c !! this = Some (CRegion r) →
  (prev = this ∧
     (if in_secondary_ring then next_not_root r else r_next r) = this) ∨
  (∃ xprev, heap c !! prev = Some (CObject xprev) ∧ o_next xprev = this) →
  (in_secondary_ring = true → last_not_root r = prev) →
  lseg (heap c) gc nullptr G →
  sweep_loop_post ring in_secondary_ring this (heap c) r prev [] G c c gc.
Proof.
  intros Hr Hprev Hlast HG.
  exists r. unfold survivors, unreachable. simpl.
  split; [done|]. split; [done|]. split; [done|]. split; [done|].
  split.
  { intros ->. destruct Hprev as [[_ Hp]|(x & Hx & _)]; [|congruence].
    destruct in_secondary_ring; done. }
  split.
  { intros Hne. destruct Hprev as [[? _]|(x & Hx & Hn)]; [done|].
    split; [done|]. split; [done|]. intros x' Hx'. simplify_eq.
    by rewrite with_next_id. }
  split.
  { destruct in_secondary_ring; [|done]. by apply Hlast. }
  split; [done|]. split; [by intros a x Ha%elem_of_nil|].
  split; [by destruct ring|]. split; [by intros _ a Ha%elem_of_nil|].
  split; [done|]. destruct ring; simpl; by rewrite app_nil_r.
Qed.

Lemma sweep_loop_spec ring (in_secondary_ring : bool) this o fuel :
  ∀ l c prev p gc G r c' gc',
    sweep_loop fuel ring in_secondary_ring this o c prev p gc =
      Some (c', gc') →
    heap c !! nullptr = None →
    heap c !! this = Some (CRegion r) →
    lseg (heap c) p this l →
    NoDup l →
    (prev = this ∧
       (if in_secondary_ring then next_not_root r else r_next r) = p) ∨
    (∃ xprev, heap c !! prev = Some (CObject xprev) ∧ o_next xprev = p ∧
              prev ∉ l) →
    (in_secondary_ring = true → last_not_root r = last_or prev l) →
    lseg (heap c) gc nullptr G →
    (∀ a, a ∈ G → (a ∉ l) ∧ a ≠ prev) →
    sweep_loop_post ring in_secondary_ring this (heap c) r prev l G c c' gc'.
Proof.
  induction fuel as [|fuel IH];
    intros l c prev p gc G r c' gc' H Hnull Hr Hl Hnd Hprev Hlast HG HGd.
  { (* out of fuel: the loop has to be at its end *)
    simpl in H. destruct (decide (p = this)) as [->|]; [|done].
    simplify_eq. apply (lseg_this_nil _ _ _ _ Hr) in Hl as ->.
    apply sweep_loop_post_nil; [done| |done|done].
    destruct Hprev as [?|(x & ? & ? & _)]; eauto. }
  rewrite sweep_loop_unfold in H.
  destruct (decide (p = this)) as [->|Hpt].
  { simplify_eq. apply (lseg_this_nil _ _ _ _ Hr) in Hl as ->.
    apply sweep_loop_post_nil; [done| |done|done].
    destruct Hprev as [?|(x & ? & ? & _)]; eauto. }
  destruct l as [|p' l]; [done|].
  apply lseg_cons in Hl as (<- & xp & Hp & Hl).
  apply NoDup_cons in Hnd as [Hpl Hnd].
  assert (this ∉ l) as Hthisl.
  { eapply lseg_not_reg; [exact Hl|]. exists r. by apply get_reg_Some. }
  assert (this ∉ G) as HthisG.
  { eapply lseg_not_reg; [exact HG|]. exists r. by apply get_reg_Some. }
  assert (p ∉ G) as HpG.
  { intros Hin. destruct (HGd p Hin) as [Hx _]. apply Hx. left. }
  assert (Object.get_class (heap c) p = Some (o_class xp)) as Hcl
    by (unfold Object.get_class, get_obj; by rewrite Hp).
  rewrite Hcl in H. cbn [mbind option_bind] in H.
  destruct (o_class xp) eqn:Hclass; try done.
  - (* UNMARKED *)
    unfold Object.get_next in H. rewrite Hp in H.
    cbn [mbind option_bind] in H.
    assert (prev ≠ p) as Hprevp.
    { destruct Hprev as [[-> _]|(x & _ & _ & Hx)]; [done|].
      intros ->. apply Hx. left. }
    assert (prev ∉ l) as Hprevl.
    { destruct Hprev as [[-> _]|(x & _ & _ & Hx)]; [done|].
      intros Hin. apply Hx. by right. }
    (* the object is disposed of *)
    assert (∃ c1 gc1 rE,
      sweep_dispose ring this o c p gc = Some (c1, gc1) ∧
      heap c1 !! this = Some (CRegion rE) ∧
      with_ext_table (ext_table r) rE = r ∧
      (∀ a, a ≠ p → a ≠ this → heap c1 !! a = heap c !! a) ∧
      lseg (heap c1) gc1 nullptr
        (match ring with FinaliserRing => p :: G | NonfinaliserRing => G end) ∧
      (ring = NonfinaliserRing → heap c1 !! p = None) ∧
      log c1 = log c ++ sweep_loop_events ring (heap c) [p])
      as (c1 & gc1 & rE & Hdisp & HrE & HrEr & Hfr1 & HG1 & Hdel & Hlog1).
    { destruct ring.
      - destruct (sweep_dispose_finaliser this o c p gc xp Hp)
          as (c1 & Heq & Hh1 & Hl1).
        exists c1, p, r. rewrite Hh1.
        split; [done|]. split; [by hlookup|].
        split; [apply with_ext_table_id|]. split.
        { intros a ? ?. by rewrite lookup_insert_ne. }
        split.
        { apply lseg_cons. split; [done|]. eexists.
          split; [apply lookup_insert_eq|]. simpl. by apply lseg_insert. }
        split; [done|]. rewrite Hl1. f_equal. simpl.
        unfold finalise_events. rewrite filter_cons, filter_nil.
        unfold Object.has_finaliser, get_obj. rewrite Hp. simpl.
        destruct (desc_has_finaliser (o_descriptor xp)); by simpl.
      - destruct (sweep_dispose NonfinaliserRing this o c p gc)
          as [[c1 gc1]|] eqn:Heq; [|done].
        destruct (sweep_dispose_nonfinaliser this o c p gc xp r c1 gc1
                    Hp Hr Heq) as (-> & [s Hh1] & Hl1).
        exists c1, gc, (with_ext_table s r). rewrite Hh1.
        split; [done|]. split; [by hlookup|].
        split; [by destruct r|]. split.
        { intros a ? ?. by rewrite lookup_delete_ne, lookup_insert_ne. }
        split; [by apply lseg_delete, lseg_insert|].
        split; [intros _; apply lookup_delete_eq|]. done. }
    rewrite Hdisp in H. cbn [mbind option_bind] in H.
    pose proof (f_equal r_next HrEr) as HE1.
    pose proof (f_equal next_not_root HrEr) as HE2.
    pose proof (f_equal last_not_root HrEr) as HE3.
    pose proof (f_equal current_memory_used HrEr) as HE4.
    pose proof (f_equal previous_memory_used HrEr) as HE5.
    pose proof (f_equal hash_set HrEr) as HE6.
    simpl in HE1, HE2, HE3, HE4, HE5, HE6.
    (* the object is unlinked *)
    assert (∃ h3 r3,
      sweep_unlink in_secondary_ring this (heap c1) prev p (o_next xp) =
        Some h3 ∧
      h3 !! this = Some (CRegion r3) ∧
      current_memory_used r3 = current_memory_used r ∧
      previous_memory_used r3 = previous_memory_used r ∧
      hash_set r3 = hash_set r ∧
      (prev = this →
         (if in_secondary_ring then next_not_root r3 else r_next r3) =
           o_next xp ∧
         (if in_secondary_ring then r_next r3 else next_not_root r3) =
         (if in_secondary_ring then r_next r else next_not_root r)) ∧
      (prev ≠ this →
         r_next r3 = r_next r ∧ next_not_root r3 = next_not_root r) ∧
      last_not_root r3 =
        (if decide (in_secondary_ring = true ∧ last_not_root r = p)
         then prev else last_not_root r) ∧
      (∀ a, a ≠ this → a ≠ prev → h3 !! a = heap c1 !! a) ∧
      (prev ≠ this → ∀ x, heap c !! prev = Some (CObject x) →
         h3 !! prev = Some (CObject (with_next (o_next xp) x))))
      as (h3 & r3 & Hunl & Hr3 & H3c & H3p & H3h & H3slot & H3slot' & H3last &
          Hfr3 & H3prev).
    { destruct Hprev as [[-> Hs]|(x & Hx & Hxn & Hxl)].
      - rewrite (sweep_unlink_this _ _ _ _ _ rE) by done.
        eexists _, _. split; [done|]. split; [apply lookup_insert_eq|].
        rewrite HE3.
        destruct in_secondary_ring; simpl;
          (split; [done|]; split; [done|]; split; [done|];
           split; [done|]; split; [done|]; split; [done|]; split; [|done];
           intros a ? ?; by rewrite lookup_insert_ne).
      - assert (prev ≠ this) as Hpt' by congruence.
        rewrite (sweep_unlink_obj _ _ _ _ _ _ rE x) by
          (done || (rewrite Hfr1; done)).
        eexists _, _. split; [done|]. split; [apply lookup_insert_eq|].
        rewrite HE3. simpl. split; [done|]. split; [done|]. split; [done|].
        split; [done|]. split; [done|]. split; [done|]. split.
        + intros a ? ?. by rewrite !lookup_insert_ne.
        + intros _ x' Hx'. assert (x' = x) as -> by congruence.
          rewrite lookup_insert_ne by done. apply lookup_insert_eq. }
    rewrite Hunl in H. cbn [mbind option_bind] in H.
    assert (∀ a, a ∈ l → h3 !! a = heap c !! a) as Hfrl.
    { intros a Ha. rewrite Hfr3, Hfr1; [done|by intros ->..]. }
    assert (∀ a, a ∈ match ring with
                     | FinaliserRing => p :: G
                     | NonfinaliserRing => G
                     end → (a ∉ l) ∧ a ≠ prev ∧ a ≠ this) as HG1d.
    { intros a Ha.
      assert (a = p ∨ a ∈ G) as [->|HaG].
      { destruct ring; [|by right]. by apply elem_of_cons in Ha. }
      - split; [done|]. split; [done|congruence].
      - destruct (HGd a HaG) as [Hal Hap]. split.
        + intros Hin. apply Hal. by right.
        + split; [done|]. by intros ->. }
    eapply (IH l (set_heap h3 c1) prev (o_next xp) gc1
              (match ring with
               | FinaliserRing => p :: G
               | NonfinaliserRing => G
               end) r3) in H;
      [|cbn [heap log set_heap]..].
    2:{ rewrite Hfr3, Hfr1; [done|congruence..|].
        destruct Hprev as [[-> _]|(x & Hx & _)]; congruence. }
    2:{ done. }
    2:{ by apply (lseg_frame (heap c)). }
    2:{ done. }
    2:{ destruct Hprev as [[-> Hs]|(x & Hx & Hxn & Hxl)].
        - left. split; [done|]. by apply H3slot.
        - right. assert (prev ≠ this) as Hpt' by congruence.
          eexists. split; [by apply H3prev|]. done. }
    2:{ intros Hs. rewrite H3last. specialize (Hlast Hs).
        rewrite last_or_cons in Hlast. destruct l as [|b l'].
        - rewrite decide_True by done. done.
        - rewrite decide_False.
          + rewrite Hlast. by apply last_or_nonempty.
          + intros [_ Heq]. apply Hpl. rewrite <- Heq, Hlast.
            by apply last_or_elem. }
    2:{ apply (lseg_frame (heap c1)); [|done]. intros a Ha.
        destruct (HG1d a Ha) as (_ & ? & ?). by apply Hfr3. }
    2:{ intros a Ha. destruct (HG1d a Ha) as (? & ? & _). done. }
    destruct H as (r' & Hr' & Hcmu & Hpmu & Hhs & Hslot & Hslot' & Hlast' &
                     Hlseg & Hsurv & Hgc & Hdead & Hframe & Hlog).
    cbn [heap log set_heap] in *.
    rewrite (survivors_ext _ _ _ Hfrl) in *.
    rewrite (unreachable_ext _ _ _ Hfrl) in *.
    unfold sweep_loop_post.
    rewrite survivors_cons_drop by (by rewrite Hcl).
    rewrite unreachable_cons_drop by (by rewrite Hcl).
    exists r'. split; [done|]. split.
    { rewrite Hcmu, H3c. apply add_sizes_ext.
      intros a Ha%survivors_subseteq. by apply Hfrl. }
    split; [congruence|]. split; [congruence|]. split.
    { intros ->. specialize (Hslot eq_refl).
      destruct (H3slot eq_refl) as [_ Hother].
      destruct in_secondary_ring; destruct Hslot; split; congruence. }
    split.
    { intros Hne. destruct (Hslot' Hne) as (Hrn & Hnn & Hpc).
      destruct (H3slot' Hne) as [Hrn3 Hnn3].
      split; [congruence|]. split; [congruence|]. intros x Hx.
      rewrite (Hpc _ (H3prev Hne x Hx)). done. }
    split.
    { rewrite Hlast'. destruct in_secondary_ring; [done|].
      rewrite H3last. rewrite decide_False; [done|]. by intros [? _]. }
    split; [done|]. split.
    { intros a x Ha Hx. apply Hsurv; [done|]. rewrite Hfrl; [done|].
      by eapply survivors_subseteq. }
    split.
    { destruct ring; [|done]. simpl. rewrite <- app_assoc. done. }
    split.
    { intros Hring a [->|Ha]%elem_of_cons; [|by apply Hdead].
      rewrite Hframe by done. rewrite Hfr3 by congruence. by apply Hdel. }
    split.
    { intros a Ha Hat Hap. rewrite Hframe; [|intros ?; apply Ha; by right|done..].
      rewrite Hfr3 by done. apply Hfr1; [|done]. intros ->. apply Ha. left. }
    rewrite Hlog, Hlog1, <- app_assoc. f_equal.
    rewrite (sweep_loop_events_ext ring (heap c) h3)
      by (intros a Ha%unreachable_subseteq; by apply Hfrl).
    destruct ring; simpl; [|done].
    unfold finalise_events. rewrite <- fmap_app. f_equal.
    rewrite !filter_cons, filter_nil.
    by destruct (decide (Object.has_finaliser (heap c) p = Some true)).
  - (* MARKED *)
    unfold Object.size, Object.unmark, Object.get_next, get_obj in H.
    rewrite Hp in H. cbn [mbind option_bind fmap option_fmap option_map] in H.
    rewrite (use_memory_spec _ _ r) in H by done.
    cbn [mbind option_bind] in H.
    rewrite lookup_insert_ne, Hp in H by congruence.
    cbn [mbind option_bind] in H.
    rewrite (option_guard_decide (o_class xp = MARKED)) in H.
    destruct (decide (o_class xp = MARKED)); [|done].
    cbn [mbind option_bind] in H. rewrite lookup_insert_eq in H.
    cbn [mbind option_bind] in H.
    set (r1 := with_current_memory_used
                 (size_t_add (current_memory_used r)
                    (desc_size (o_descriptor xp))) r) in *.
    set (h2 := <[p := CObject (with_class UNMARKED xp)]>
                 (<[this := CRegion r1]> (heap c))) in *.
    assert (∀ a, a ≠ p → a ≠ this → h2 !! a = heap c !! a) as Hfr2.
    { intros a ? ?. unfold h2. by rewrite !lookup_insert_ne. }
    assert (∀ a, a ∈ l → h2 !! a = heap c !! a) as Hfrl.
    { intros a Ha. apply Hfr2; by intros ->. }
    assert (prev ≠ p) as Hprevp.
    { destruct Hprev as [[-> _]|(x & _ & _ & Hx)]; [done|].
      intros ->. apply Hx. left. }
    eapply (IH l (set_heap h2 c) p (o_next xp) gc G r1) in H;
      [|cbn [heap log set_heap]..].
    2:{ rewrite Hfr2; [done|congruence..]. }
    2:{ unfold h2. by hlookup. }
    2:{ by apply (lseg_frame (heap c)). }
    2:{ done. }
    2:{ right. eexists. split; [unfold h2; by hlookup|]. done. }
    2:{ intros Hs. rewrite <- last_or_cons with (d := prev). by apply Hlast. }
    2:{ apply (lseg_frame (heap c)); [|done].
        intros a Ha. apply Hfr2; by intros ->. }
    2:{ intros a Ha. destruct (HGd a Ha) as [Hal Hap]. split.
        - intros Hin. apply Hal. by right.
        - by intros ->. }
    destruct H as (r' & Hr' & Hcmu & Hpmu & Hhs & _ & Hslot & Hlast' & Hlseg &
                     Hsurv & Hgc & Hdead & Hframe & Hlog).
    specialize (Hslot Hpt) as (Hrn & Hnn & Hpcell).
    cbn [heap log set_heap] in *.
    unfold r1 in Hrn, Hnn, Hpmu, Hhs, Hlast', Hcmu.
    simpl in Hrn, Hnn, Hpmu, Hhs, Hlast', Hcmu.
    rewrite (survivors_ext _ _ _ Hfrl) in *.
    rewrite (unreachable_ext _ _ _ Hfrl) in *.
    unfold sweep_loop_post.
    rewrite survivors_cons_keep by (rewrite Hcl; congruence).
    rewrite unreachable_cons_keep by (rewrite Hcl; congruence).
    exists r'. split; [done|]. split.
    { rewrite Hcmu.
      rewrite (add_sizes_ext (heap c) h2)
        by (intros a Ha%survivors_subseteq; by apply Hfrl).
      unfold add_sizes. simpl. f_equal.
      unfold obj_size, Object.size, get_obj. by rewrite Hp. }
    split; [done|]. split; [done|]. split.
    { intros ->. destruct Hprev as [[_ Hs]|(x & Hx & _)]; [|congruence].
      simpl. destruct in_secondary_ring; split; congruence. }
    split.
    { intros Hne. destruct Hprev as [[? _]|(x & Hx & Hxn & Hxl)]; [done|].
      split; [done|]. split; [done|]. intros x' Hx'.
      assert (x' = x) as -> by congruence. simpl.
      rewrite Hframe; [|intros ?; apply Hxl; by right|done|done].
      rewrite Hfr2 by done. rewrite Hx, <- Hxn. by rewrite with_next_id. }
    split.
    { destruct in_secondary_ring; [|done]. by rewrite last_or_cons. }
    split.
    { simpl. split; [done|].
      rewrite (Hpcell (with_class UNMARKED xp)) by (unfold h2; by hlookup).
      done. }
    split.
    { intros a x [->|Ha]%elem_of_cons Hx.
      - assert (x = xp) as -> by congruence.
        eexists. split; [apply Hpcell; unfold h2; by hlookup|].
        simpl. by rewrite decide_True.
      - apply Hsurv; [done|]. rewrite Hfrl; [done|].
        by eapply survivors_subseteq. }
    split; [done|]. split; [done|]. split.
    { intros a Ha Hat Hap. rewrite Hframe.
      - apply Hfr2; [|done]. intros ->. apply Ha. left.
      - intros Hin. apply Ha. by right.
      - done.
      - intros ->. apply Ha. left. }
    rewrite Hlog. f_equal.
    apply sweep_loop_events_ext. intros a Ha%unreachable_subseteq.
    by apply Hfrl.
  - (* ISO *)
    rewrite (option_guard_decide (p = o)) in H.
    destruct (decide (p = o)) as [->|]; [|done].
    unfold Object.get_next_any_mark, Object.get_next, Object.get_region,
      Object.size, get_obj in H.
    rewrite Hp in H. cbn [mbind option_bind fmap option_fmap option_map] in H.
    rewrite (option_guard_decide (o_next xp = this)) in H.
    destruct (decide (o_next xp = this)) as [Hn|]; [|done].
    rewrite (option_guard_decide (o_class xp = ISO)) in H.
    destruct (decide (o_class xp = ISO)); [|done].
    cbn [mbind option_bind] in H.
    rewrite (option_guard_decide (o_next xp = this)) in H.
    destruct (decide (o_next xp = this)); [|done].
    cbn [mbind option_bind] in H.
    rewrite (use_memory_spec _ _ r) in H by done.
    cbn [mbind option_bind] in H. injection H as <- <-.
    rewrite Hn in Hl. apply (lseg_this_nil _ _ _ _ Hr) in Hl as ->.
    unfold sweep_loop_post.
    rewrite survivors_cons_keep by (rewrite Hcl; congruence).
    rewrite unreachable_cons_keep by (rewrite Hcl; congruence).
    unfold survivors, unreachable. rewrite !filter_nil.
    eexists. split; [simpl; by hlookup|]. simpl.
    split.
    { unfold add_sizes, obj_size, Object.size, get_obj. simpl.
      by rewrite Hp. }
    split; [done|]. split; [done|]. split.
    { intros ->. destruct Hprev as [[_ Hs]|(x & Hx & _)]; [|congruence].
      destruct in_secondary_ring; done. }
    split.
    { intros Hne. destruct Hprev as [[? _]|(x & Hx & Hxn & _)]; [done|].
      split; [done|]. split; [done|]. intros x' Hx'. simplify_eq.
      rewrite lookup_insert_ne by done. by rewrite with_next_id. }
    split.
    { destruct in_secondary_ring; [|done]. by apply Hlast. }
    split.
    { split; [done|]. rewrite lookup_insert_ne by congruence. by rewrite Hp. }
    split.
    { intros a x ->%list_elem_of_singleton Hx.
      assert (x = xp) as -> by congruence.
      exists xp. rewrite lookup_insert_ne by congruence.
      split; [done|]. rewrite Hclass. by rewrite decide_False. }
    split.
    { destruct ring; simpl; by apply lseg_insert. }
    split; [by intros _ a Ha%elem_of_nil|].
    split.
    { intros a Ha Hat Hap. by rewrite lookup_insert_ne. }
    destruct ring; simpl; by rewrite app_nil_r.
Qed.

Lemma lseg_null_nil h l :
  h !! nullptr = None → lseg h nullptr nullptr l → l = [].
Proof.
  intros Hnull. destruct l as [|a l]; [done|]. simpl. intros [<- H].
  by rewrite Hnull in H.
Qed.

(** The second loop of [sweep_ring] deallocates exactly the deferred
    objects, in the order of the list. *)
Lemma free_deferred_spec fuel :
  ∀ c gc G c',
    free_deferred fuel c gc = Some c' →
    heap c !! nullptr = None →
    lseg (heap c) gc nullptr G →
    NoDup G →
    (∀ a, a ∈ G → heap c' !! a = None) ∧
    (∀ a, a ∉ G → heap c' !! a = heap c !! a) ∧
    log c' = log c ++ (EvDealloc <$> G).
Proof.
  induction fuel as [|fuel IH]; intros c gc G c' H Hnull HG Hnd.
  - simpl in H. destruct (decide (gc = nullptr)) as [->|]; [|done].
    injection H as <-. apply (lseg_null_nil _ _ Hnull) in HG as ->.
    split; [by intros a Ha%elem_of_nil|]. split; [done|].
    simpl. by rewrite app_nil_r.
  - simpl in H. destruct (decide (gc = nullptr)) as [->|Hne].
    { injection H as <-. apply (lseg_null_nil _ _ Hnull) in HG as ->.
      split; [by intros a Ha%elem_of_nil|]. split; [done|].
      simpl. by rewrite app_nil_r. }
    destruct G as [|p G]; [done|].
    apply lseg_cons in HG as (<- & xp & Hp & HG).
    apply NoDup_cons in Hnd as [HpG Hnd].
    unfold Object.get_next, Object.dealloc in H. rewrite Hp in H.
    cbn [mbind option_bind] in H.
    apply IH with (G := G) in H; cbn [heap log]; [| | |done].
    + destruct H as (Hdel & Hfr & Hlog). cbn [heap log] in *.
      split; [|split].
      * intros a [->|Ha]%elem_of_cons; [|by apply Hdel].
        rewrite Hfr by done. apply lookup_delete_eq.
      * intros a Ha. rewrite Hfr by (intros ?; apply Ha; by right).
        apply lookup_delete_ne. intros ->. apply Ha. left.
      * rewrite Hlog, <- app_assoc. done.
    + rewrite lookup_delete_ne; [done|]. congruence.
    + by apply lseg_delete.
Qed.

Lemma NoDup_filter_list (P : N → Prop) `{∀ x, Decision (P x)} (l : list N) :
  NoDup l → NoDup (filter P l).
Proof. apply NoDup_filter. Qed.

Lemma sweep_ring_spec fuel ring this c o c' P S r (bo : bool) :
  sweep_ring fuel ring this c o = Some c' →
  heap c !! nullptr = None →
  heap c !! this = Some (CRegion r) →
  rings (heap c) this o P S →
  obj_sat (needs bo) (heap c) o →
  let h := heap c in
  let l := swept_ring ring bo o P S in
  let s := survivors h l in
  let d := unreachable h l in
  ∃ r',
    heap c' !! this = Some (CRegion r') ∧
    current_memory_used r' = add_sizes h s (current_memory_used r) ∧
    previous_memory_used r' = previous_memory_used r ∧
    hash_set r' = hash_set r ∧
    (if swept_secondary ring bo
     then next_not_root r' = hd this s ∧ r_next r' = r_next r ∧
          last_not_root r' = last_or this s
     else r_next r' = hd this s ∧ next_not_root r' = next_not_root r ∧
          last_not_root r' = last_not_root r) ∧
    lseg (heap c') (hd this s) this s ∧
    (∀ a x, a ∈ s → h !! a = Some (CObject x) →
       ∃ x', heap c' !! a = Some (CObject x') ∧
             o_descriptor x' = o_descriptor x ∧
             o_fields x' = o_fields x ∧
             o_class x' =
               if decide (o_class x = MARKED) then UNMARKED else o_class x) ∧
    (∀ a, a ∈ d → heap c' !! a = None) ∧
    (∀ a, a ∉ l → a ≠ this → heap c' !! a = h !! a) ∧
    log c' = log c ++ sweep_ring_events ring h d.
Proof.
  intros H Hnull Hr Hrings Hbo h l s d.
  pose proof Hrings as (r0 & Hr0 & HP & HS & Hlast & Hnd)%rings_iff.
  assert (r0 = r) as -> by congruence.
  unfold sweep_ring in H.
  assert (Object.needs_finaliser_ring (heap c) o = Some bo) as Hn.
  { unfold obj_sat, get_obj, needs in Hbo. unfold Object.needs_finaliser_ring.
    destruct (heap c !! o) as [[x|]|]; try done. by rewrite Hbo. }
  rewrite Hn in H. cbn [mbind option_bind] in H.
  unfold get_reg in H. rewrite Hr in H. cbn [mbind option_bind] in H.
  fold (swept_secondary ring bo) in H.
  assert ((if swept_secondary ring bo then Some (next_not_root r)
           else Object.get_next (heap c) this) =
          Some (if swept_secondary ring bo then next_not_root r else r_next r))
    as Hp.
  { destruct (swept_secondary ring bo); [done|].
    unfold Object.get_next. by rewrite Hr. }
  rewrite Hp in H. cbn [mbind option_bind] in H. clear Hp.
  destruct (sweep_loop _ _ _ _ _ _ _ _ _) as [[c1 gc1]|] eqn:Hloop; [|done].
  cbn [mbind option_bind] in H.
  assert (lseg (heap c)
            (if swept_secondary ring bo then next_not_root r else r_next r)
            this l) as Hl.
  { unfold l, swept_ring. by destruct (swept_secondary ring bo). }
  assert (NoDup l) as Hndl.
  { unfold l, swept_ring. destruct (swept_secondary ring bo).
    - apply NoDup_app in Hnd as (_ & _ & Hnd). by apply NoDup_cons in Hnd as [_ ?].
    - replace (P ++ o :: S) with ((P ++ [o]) ++ S) in Hnd
        by (by rewrite <- app_assoc).
      by apply NoDup_app in Hnd as (? & _ & _). }
  eapply sweep_loop_spec with (l := l) (G := []) (r := r) in Hloop;
    [|done|done|done|done|by left| |done|by intros a Ha%elem_of_nil].
  2:{ intros Hsec. unfold l, swept_ring. by rewrite Hsec. }
  destruct Hloop as (r1 & Hr1 & Hcmu & Hpmu & Hhs & Hslot & _ & Hlast1 & Hs
                     & Hcells & Hgc & Hdead & Hfr & Hlog).
  specialize (Hslot eq_refl). rewrite app_nil_r in Hgc.
  fold h s d in Hcmu, Hslot, Hlast1, Hs, Hcells, Hgc, Hdead, Hfr, Hlog.
  assert (this ∉ l) as Hthis.
  { apply (lseg_not_reg _ _ _ _ _ Hl). unfold get_reg. by rewrite Hr. }
  assert (nullptr ∉ l) as Hnl.
  { intros Ha. destruct (lseg_is_obj _ _ _ _ _ Hl Ha) as [x Hx].
    unfold get_obj in Hx. by rewrite Hnull in Hx. }
  assert (nullptr ≠ this) as Hnt by (intros E; rewrite <- E, Hnull in Hr; done).
  destruct ring.
  - (* the finaliser ring: the deferred objects are deallocated now *)
    apply free_deferred_spec with (G := rev d) in H;
      [|rewrite Hfr; done|done|].
    2:{ apply NoDup_ListNoDup, List.NoDup_rev, NoDup_ListNoDup. unfold d, unreachable. by apply NoDup_filter. }
    destruct H as (Hdel & Hfr2 & Hlog2).
    assert (∀ a, a ∈ s → a ∉ rev d) as Hsd.
    { intros a Ha Hd. apply list_elem_of_In, in_rev, list_elem_of_In in Hd.
      unfold s, survivors in Ha. unfold d, unreachable in Hd.
      apply list_elem_of_filter in Ha as [? _].
      by apply list_elem_of_filter in Hd as [? _]. }
    assert (this ∉ rev d) as Htd.
    { intros Hd. apply list_elem_of_In, in_rev, list_elem_of_In in Hd.
      by apply unreachable_subseteq in Hd. }
    exists r1. split; [by rewrite Hfr2|]. do 3 (split; [done|]).
    split.
    { destruct (swept_secondary FinaliserRing bo); by destruct Hslot. }
    split; [apply (lseg_frame (heap c1)); [|done]; intros; by apply Hfr2, Hsd|].
    split.
    { intros a x Ha Hx. rewrite Hfr2 by by apply Hsd. by apply Hcells. }
    split.
    { intros a Ha. apply Hdel. apply list_elem_of_In. rewrite <- in_rev.
      by apply list_elem_of_In. }
    split.
    { intros a Ha Hat. rewrite Hfr2.
      - by apply Hfr.
      - intros Hd. apply list_elem_of_In, in_rev, list_elem_of_In in Hd.
        by apply unreachable_subseteq in Hd. }
    rewrite Hlog2, Hlog. simpl. by rewrite app_assoc.
  - injection H as <-. exists r1. do 4 (split; [done|]).
    split.
    { destruct (swept_secondary NonfinaliserRing bo); by destruct Hslot. }
    do 2 (split; [done|]). split; [by apply Hdead|]. split; [|done].
    intros a Ha Hat. by apply Hfr.
Qed.

Lemma survivors_app h l1 l2 :
  survivors h (l1 ++ l2) = survivors h l1 ++ survivors h l2.
Proof. apply filter_app. Qed.

Lemma unreachable_app h l1 l2 :
  unreachable h (l1 ++ l2) = unreachable h l1 ++ unreachable h l2.
Proof. apply filter_app. Qed.

Lemma survivors_iso h o : obj_sat is_iso h o → survivors h [o] = [o].
Proof.
  intros (x & Hx & Hc)%obj_sat_iff. apply survivors_cons_keep.
  unfold Object.get_class, get_obj. rewrite Hx. simpl.
  unfold is_iso in Hc. congruence.
Qed.

Lemma unreachable_iso h o : obj_sat is_iso h o → unreachable h [o] = [].
Proof.
  intros (x & Hx & Hc)%obj_sat_iff. apply unreachable_cons_keep.
  unfold Object.get_class, get_obj. rewrite Hx. simpl.
  unfold is_iso in Hc. congruence.
Qed.

Lemma NoDup_survivors h l : NoDup l → NoDup (survivors h l).
Proof. apply NoDup_filter. Qed.

Lemma NoDup_rings_sub (P S P' S' : list N) o :
  NoDup (P ++ o :: S) →
  NoDup P' → NoDup S' →
  (∀ a, a ∈ P' → a ∈ P) → (∀ a, a ∈ S' → a ∈ S) →
  NoDup (P' ++ o :: S').
Proof.
  intros Hnd HP' HS' HP HS.
  apply NoDup_app in Hnd as (_ & Hd & Hnd).
  apply NoDup_cons in Hnd as [HoS _].
  apply NoDup_app. split; [done|]. split.
  - intros a Ha [->|Ha']%elem_of_cons.
    + apply (Hd o); [by apply HP|left].
    + apply (Hd a); [by apply HP|right; by apply HS].
  - apply NoDup_cons. split; [|done]. intros Ha. by apply HoS, HS.
Qed.

(** One [sweep_ring] pass keeps the region well formed: the swept ring
    shrinks to its survivors and the other ring is untouched. *)
Lemma sweep_ring_region_inv fuel ring this c o c' P S (bo : bool) :
  sweep_ring fuel ring this c o = Some c' →
  heap c !! nullptr = None →
  region_inv (heap c) this o P S →
  obj_sat (needs bo) (heap c) o →
  let h := heap c in
  let sec := swept_secondary ring bo in
  region_inv (heap c') this o
    (if sec then P else survivors h P) (if sec then survivors h S else S) ∧
  heap c' !! nullptr = None ∧
  obj_sat (needs bo) (heap c') o.
Proof.
  intros H Hnull Hinv Hbo h sec.
  destruct (region_inv_elim _ _ _ _ _ Hinv)
    as (r & b & Hr & HP & HS & Hlast & Hnd & Hthis & Hiso & Hmut & Hb & HbP & HbS).
  assert (b = bo) as ->.
  { apply obj_sat_iff in Hb as (x & Hx & Hb), Hbo as (x' & Hx' & Hbo).
    unfold needs in *. congruence. }
  pose proof (sweep_ring_spec _ _ _ _ _ _ _ _ _ _ H Hnull Hr
                (region_inv_rings _ _ _ _ _ Hinv) Hbo) as Hpost.
  cbv zeta in Hpost. fold h in Hpost.
  destruct Hpost as (r' & Hr' & _ & _ & _ & Hslot & Hs & Hcells & _ & Hfr & _).
  set (l := swept_ring ring bo o P S) in *.
  set (P' := if sec then P else survivors h P).
  set (S' := if sec then survivors h S else S).
  assert (survivors h (P ++ [o]) = survivors h P ++ [o]) as HsP.
  { by rewrite survivors_app, survivors_iso. }
  assert (∀ a, a ∈ P' ++ o :: S' → a ∈ P ++ o :: S) as Hsub.
  { intros a. unfold P', S'. destruct sec; [|].
    - rewrite !elem_of_app, !elem_of_cons.
      intros [?|[?|?%survivors_subseteq]]; tauto.
    - rewrite !elem_of_app, !elem_of_cons.
      intros [?%survivors_subseteq|[?|?]]; tauto. }
  assert (∀ a, a ∈ P' ++ o :: S' →
            a ∈ survivors h l ∨ ((a ∉ l) ∧ a ≠ this)) as Hmem.
  { intros a Ha. assert (a ≠ this) by (intros ->; by apply Hthis, Hsub).
    revert Ha. unfold P', S', l, swept_ring. fold sec.
    apply NoDup_app in Hnd as (_ & Hd & Hnd).
    apply NoDup_cons in Hnd as [HoS _].
    destruct sec.
    - rewrite !elem_of_app, !elem_of_cons. intros [Ha|[->|Ha]]; [| |by left].
      + right. split; [|done]. intros Ha'. apply (Hd a Ha). by right.
      + by right.
    - rewrite HsP. rewrite !elem_of_app, !elem_of_cons, elem_of_nil.
      intros [Ha|[->|Ha]]; [by left; left|by left; right; left|].
      right. split; [|done]. intros [Ha'|[->|[]]]; [|done].
      apply (Hd a Ha'). by right. }
  assert (∀ a x, a ∈ P' ++ o :: S' → h !! a = Some (CObject x) →
            ∃ x', heap c' !! a = Some (CObject x') ∧
                  o_descriptor x' = o_descriptor x ∧
                  (o_class x' = o_class x ∨
                   (o_class x = MARKED ∧ o_class x' = UNMARKED))) as Hcell.
  { intros a x Ha Hx. destruct (Hmem a Ha) as [Hs'|[Hl Hat]].
    - destruct (Hcells a x Hs' Hx) as (x' & Hx' & Hd & _ & Hc).
      exists x'. split; [done|]. split; [done|].
      destruct (decide (o_class x = MARKED)); [by right|by left].
    - exists x. rewrite Hfr by done. eauto. }
  assert (∀ (Q : Object → Prop) a,
            (∀ x x', o_descriptor x' = o_descriptor x →
               (o_class x' = o_class x ∨
                  (o_class x = MARKED ∧ o_class x' = UNMARKED)) →
               Q x → Q x') →
            a ∈ P' ++ o :: S' → obj_sat Q h a → obj_sat Q (heap c') a) as Hsat.
  { intros Q a HQ Ha (x & Hx & Hq)%obj_sat_iff.
    destruct (Hcell a x Ha Hx) as (x' & Hx' & Hd & Hc).
    apply obj_sat_iff. exists x'. split; [done|]. by apply (HQ x). }
  assert (∀ b' : bool, ∀ x x', o_descriptor x' = o_descriptor x →
            (o_class x' = o_class x ∨
               (o_class x = MARKED ∧ o_class x' = UNMARKED)) →
            needs b' x → needs b' x') as Hneeds.
  { intros b' x x' Hd _. unfold needs. by rewrite Hd. }
  assert (heap c' !! nullptr = None) as Hnull'.
  { rewrite Hfr; [done| |].
    - intros Ha. assert (nullptr ∈ P ++ o :: S) as Ha'.
      { revert Ha. unfold l, swept_ring. destruct (swept_secondary ring bo);
          rewrite !elem_of_app, !elem_of_cons, ?elem_of_nil; tauto. }
      destruct (region_cells_allocated _ _ _ _ _ nullptr Hinv) as [? E];
        [by right|]. unfold h in *. by rewrite Hnull in E.
    - intros E. rewrite <- E in Hr. congruence. }
  split; [|split; [done|]].
  2:{ apply (Hsat (needs bo)); [apply Hneeds| |done].
      apply elem_of_app. right. left. }
  assert (NoDup (P' ++ o :: S')) as Hnd'.
  { apply (NoDup_rings_sub P S); [done| | | |].
    - unfold P'. apply NoDup_app in Hnd as (? & _ & _).
      destruct sec; [done|by apply NoDup_survivors].
    - unfold S'. apply NoDup_app in Hnd as (_ & _ & Hnd).
      apply NoDup_cons in Hnd as [_ ?].
      destruct sec; [by apply NoDup_survivors|done].
    - intros a Ha. unfold P' in Ha. destruct sec; [done|].
      by apply survivors_subseteq in Ha.
    - intros a Ha. unfold S' in Ha. destruct sec; [|done].
      by apply survivors_subseteq in Ha. }
  apply (region_inv_intro _ _ _ _ _ r' bo); [done| | | |done| | | | |].
  - (* the primary ring *)
    unfold P', l, swept_ring in *. fold sec in Hslot, Hs, Hfr. destruct sec.
    + destruct Hslot as (_ & -> & _). apply (lseg_frame h); [|done].
      intros a Ha. apply Hfr.
      * intros Ha'. apply NoDup_app in Hnd as (_ & Hd & Hnd).
        apply NoDup_cons in Hnd as [HoS _]. revert Ha.
        rewrite elem_of_app, elem_of_cons, elem_of_nil.
        intros [Ha|[->|[]]]; [|done]. apply (Hd a Ha). by right.
      * intros ->. apply Hthis. revert Ha.
        rewrite !elem_of_app, !elem_of_cons, elem_of_nil. tauto.
    + destruct Hslot as (-> & _ & _). by rewrite <- HsP.
  - (* the secondary ring *)
    unfold S', l, swept_ring in *. fold sec in Hslot, Hs, Hfr. destruct sec.
    + by destruct Hslot as (-> & _ & _).
    + destruct Hslot as (_ & -> & _). apply (lseg_frame h); [|done].
      intros a Ha. apply Hfr.
      * intros Ha'. apply NoDup_app in Hnd as (_ & Hd & Hnd).
        apply NoDup_cons in Hnd as [HoS _]. revert Ha'.
        rewrite elem_of_app, elem_of_cons, elem_of_nil.
        intros [Ha'|[->|[]]]; [|done]. apply (Hd a Ha'). by right.
      * intros ->. apply Hthis. rewrite elem_of_app, elem_of_cons. tauto.
  - unfold S', l, swept_ring in *. fold sec in Hslot. destruct sec.
    + by destruct Hslot as (_ & _ & ->).
    + destruct Hslot as (_ & _ & ->). done.
  - apply (Hsat is_iso); [|apply elem_of_app; right; left|done].
    intros x x' _ [Hc|[Hc _]]; unfold is_iso; congruence.
  - apply Forall_forall. intros a Ha.
    apply (Hsat is_mutable).
    + intros x x' _ [Hc|[_ Hc]]; unfold is_mutable; [by rewrite Hc|].
      rewrite Hc. by left.
    + revert Ha. rewrite !elem_of_app, elem_of_cons. tauto.
    + rewrite Forall_forall in Hmut. apply Hmut.
      assert (a ∈ P ++ o :: S) as Ha'
        by (apply Hsub; revert Ha; rewrite !elem_of_app, elem_of_cons; tauto).
      assert (a ≠ o); [|revert Ha'; rewrite !elem_of_app, elem_of_cons; tauto].
      intros ->. apply NoDup_app in Hnd' as (_ & Hd & Hnd').
      apply NoDup_cons in Hnd' as [HoS _].
      apply elem_of_app in Ha as [Ha|Ha]; [|done].
      apply (Hd o Ha). left.
  - apply (Hsat (needs bo)); [apply Hneeds|apply elem_of_app; right; left|done].
  - apply Forall_forall. intros a Ha.
    apply (Hsat (needs bo)); [apply Hneeds|apply elem_of_app; by left|].
    rewrite Forall_forall in HbP. apply HbP.
    unfold P' in Ha. destruct sec; [done|by apply survivors_subseteq in Ha].
  - apply Forall_forall. intros a Ha.
    apply (Hsat (needs (negb bo))); [apply Hneeds| |].
    + apply elem_of_app. right. by right.
    + rewrite Forall_forall in HbS. apply HbS.
      unfold S' in Ha. destruct sec; [by apply survivors_subseteq in Ha|done].
Qed.

Section SweepProofs.

Variable size_to_sizeclass : N → N.

Lemma swept_ring_cases ring bo o (P S : list N) :
  (swept_secondary ring bo = true ∧ swept_ring ring bo o P S = S) ∨
  (swept_secondary ring bo = false ∧ swept_ring ring bo o P S = P ++ [o]).
Proof. unfold swept_ring. destruct (swept_secondary ring bo); auto. Qed.

(** [sweep] leaves the region with the survivors of its two rings, in ring
    order, and nothing else of the heap is touched. *)
Lemma sweep_spec fuel this c o marked c' P S :
  sweep size_to_sizeclass fuel this c o marked = Some c' →
  heap c !! nullptr = None →
  region_inv (heap c) this o P S →
  let h := heap c in
  ∃ bo r',
    let l1 := swept_ring FinaliserRing bo o P S in
    let l2 := swept_ring NonfinaliserRing bo o P S in
    obj_sat (needs bo) h o ∧
    region_inv (heap c') this o (survivors h P) (survivors h S) ∧
    heap c' !! nullptr = None ∧
    heap c' !! this = Some (CRegion r') ∧
    current_memory_used r' =
      add_sizes h (survivors h l2) (add_sizes h (survivors h l1) 0) ∧
    previous_memory_used r' = size_to_sizeclass (current_memory_used r') ∧
    (∀ a x, a ∈ survivors h (P ++ o :: S) → h !! a = Some (CObject x) →
       ∃ x', heap c' !! a = Some (CObject x') ∧
             o_descriptor x' = o_descriptor x ∧
             o_fields x' = o_fields x ∧
             o_class x' =
               if decide (o_class x = MARKED) then UNMARKED else o_class x) ∧
    (∀ a, a ∈ unreachable h (P ++ o :: S) → heap c' !! a = None) ∧
    (∀ a, a ∉ region_cells this o P S → heap c' !! a = h !! a) ∧
    log c' = log c ++ sweep_ring_events FinaliserRing h (unreachable h l1)
                   ++ sweep_ring_events NonfinaliserRing h (unreachable h l2).
Proof.
  intros H Hnull Hinv h.
  destruct (region_inv_needs _ _ _ _ _ Hinv) as [bo Hbo].
  destruct (region_inv_elim _ _ _ _ _ Hinv)
    as (r & b & Hr & HP & HS & Hlast & Hnd & Hthis & Hiso & Hmut & _).
  exists bo. unfold sweep in H.
  set (h0 := <[this := CRegion (with_current_memory_used 0 r)]> (heap c)).
  assert (upd_reg (with_current_memory_used 0) (heap c) this = Some h0) as E0.
  { unfold upd_reg, get_reg. by rewrite Hr. }
  rewrite E0 in H. clear E0. cbn [mbind option_bind] in H.
  assert (∀ a, a ≠ this → h0 !! a = h !! a) as Hfr0.
  { intros a Ha. unfold h0. by rewrite lookup_insert_ne. }
  assert (region_inv h0 this o P S) as Hinv0.
  { eapply region_inv_insert_equiv; [done| |done]. done. }
  assert (h0 !! nullptr = None) as Hnull0.
  { rewrite Hfr0; [done|]. intros E. rewrite <- E in Hr. unfold h in *. congruence. }
  assert (obj_sat (needs bo) h0 o) as Hbo0.
  { eapply obj_sat_insert_reg; done. }
  destruct (sweep_ring fuel FinaliserRing this (set_heap h0 c) o)
    as [c1|] eqn:H1; [|done].
  cbn [mbind option_bind] in H.
  destruct (sweep_ring fuel NonfinaliserRing this c1 o)
    as [c2|] eqn:H2; [|done].
  cbn [mbind option_bind] in H.
  assert (h0 !! this = Some (CRegion (with_current_memory_used 0 r))) as Hr0
    by apply lookup_insert_eq.
  pose proof (sweep_ring_spec _ _ _ _ _ _ _ _ _ _ H1 Hnull0 Hr0
                (region_inv_rings _ _ _ _ _ Hinv0) Hbo0) as Hp1.
  pose proof (sweep_ring_region_inv _ _ _ _ _ _ _ _ _ H1 Hnull0 Hinv0 Hbo0)
    as (Hinv1 & Hnull1 & Hbo1).
  cbv zeta in Hp1. cbn [heap set_heap log] in Hp1, Hinv1.
  destruct Hp1 as (r1 & Hr1 & Hcmu1 & Hpmu1 & Hhs1 & _ & _ & Hcells1 & Hdead1
                   & Hfr1 & Hlog1).
  pose proof (sweep_ring_spec _ _ _ _ _ _ _ _ _ _ H2 Hnull1 Hr1
                (region_inv_rings _ _ _ _ _ Hinv1) Hbo1) as Hp2.
  pose proof (sweep_ring_region_inv _ _ _ _ _ _ _ _ _ H2 Hnull1 Hinv1 Hbo1)
    as (Hinv2 & Hnull2 & Hbo2).
  cbv zeta in Hp2.
  destruct Hp2 as (r2 & Hr2 & Hcmu2 & Hpmu2 & Hhs2 & _ & _ & Hcells2 & Hdead2
                   & Hfr2 & Hlog2).
  unfold RememberedSet.sweep_set, upd_reg, get_reg in H. rewrite Hr2 in H.
  cbn [mbind option_bind] in H. rewrite lookup_insert_eq in H.
  cbn [mbind option_bind] in H. rewrite insert_insert_eq in H.
  injection H as <-. cbn [heap set_heap log].
  set (r4 := with_previous_memory_used _ _).
  exists r4.
  set (l1 := swept_ring FinaliserRing bo o P S) in *.
  set (l2 := swept_ring NonfinaliserRing bo o P S).
  assert (∀ a, a ∈ P ++ o :: S ↔ a ∈ l1 ∨ a ∈ l2) as Hsplit.
  { intros a. unfold l1, l2, swept_ring, swept_secondary.
    destruct bo; simpl; rewrite !elem_of_app, !elem_of_cons, elem_of_nil; tauto. }
  assert (∀ a, a ∈ l1 → a ∉ l2) as Hdisj.
  { intros a. unfold l1, l2, swept_ring, swept_secondary.
    apply NoDup_app in Hnd as (_ & Hd & Hnd).
    apply NoDup_cons in Hnd as [HoS _].
    destruct bo; simpl; rewrite ?elem_of_app, ?elem_of_cons, ?elem_of_nil.
    - intros [Ha|[->|[]]] Ha'; [|done]. apply (Hd a Ha). by right.
    - intros Ha' [Ha|[->|[]]]; [|done]. apply (Hd a Ha). by right. }
  assert (∀ a, a ∈ l1 ∨ a ∈ l2 → a ≠ this) as Hnt.
  { intros a Ha%Hsplit ->. by apply Hthis. }
  assert (∀ a, a ∈ l1 ∨ a ∈ l2 → h0 !! a = h !! a) as E0.
  { intros a Ha. by apply Hfr0, Hnt. }
  assert (∀ a, a ∈ l2 → heap c1 !! a = h !! a) as E1.
  { intros a Ha. rewrite Hfr1; [apply E0; by right| |apply Hnt; by right].
    intros Ha'. by apply (Hdisj a). }
  assert (swept_ring NonfinaliserRing bo o
            (if swept_secondary FinaliserRing bo then P else survivors h0 P)
            (if swept_secondary FinaliserRing bo then survivors h0 S else S)
          = l2) as El2.
  { unfold l2. by destruct bo. }
  rewrite El2 in Hcmu2, Hcells2, Hdead2, Hfr2, Hlog2. clear El2.
  assert (region_inv (heap c2) this o (survivors h P) (survivors h S))
    as Hinv2'.
  { assert (survivors h0 P = survivors h P) as EP.
    { apply survivors_ext. intros a Ha. apply E0, Hsplit, elem_of_app. by left. }
    assert (survivors h0 S = survivors h S) as ES.
    { apply survivors_ext. intros a Ha. apply E0, Hsplit, elem_of_app.
      right. by right. }
    unfold l2 in E1. destruct bo; cbn [swept_secondary swept_ring negb] in *.
    - rewrite EP in Hinv2.
      by rewrite (survivors_ext h (heap c1) S) in Hinv2 by done.
    - rewrite ES in Hinv2.
      rewrite (survivors_ext h (heap c1) P) in Hinv2; [done|].
      intros a Ha. apply E1, elem_of_app. by left. }
  clear Hinv2 Hinv1.
  assert (survivors h0 l1 = survivors h l1) as Es1
    by (apply survivors_ext; intros; apply E0; by left).
  assert (unreachable h0 l1 = unreachable h l1) as Eu1
    by (apply unreachable_ext; intros; apply E0; by left).
  assert (survivors (heap c1) l2 = survivors h l2) as Es2
    by (by apply survivors_ext).
  assert (unreachable (heap c1) l2 = unreachable h l2) as Eu2
    by (by apply unreachable_ext).
  rewrite Es1 in Hcmu1, Hcells1. rewrite Eu1 in Hdead1, Hlog1.
  rewrite Es2 in Hcmu2, Hcells2. rewrite Eu2 in Hdead2, Hlog2.
  assert (∀ a, a ≠ this → <[this:=CRegion r4]> (heap c2) !! a = heap c2 !! a)
    as Hfr4 by (intros; by apply lookup_insert_ne).
  split; [done|]. split.
  { eapply region_inv_insert_equiv; [done| |done]. done. }
  split.
  { rewrite Hfr4; [done|]. intros E. rewrite <- E in Hr. unfold h in *.
    congruence. }
  split; [apply lookup_insert_eq|].
  split.
  { unfold r4. cbn [current_memory_used with_previous_memory_used with_hash_set].
    rewrite Hcmu2, Hcmu1. cbn [current_memory_used with_current_memory_used].
    rewrite (add_sizes_ext h (heap c1) (survivors h l2)).
    - f_equal. apply add_sizes_ext. intros a Ha%survivors_subseteq.
      apply E0. by left.
    - intros a Ha%survivors_subseteq. by apply E1. }
  split; [done|].
  split.
  { intros a x Ha Hx.
    assert (a ≠ this ∧ (a ∈ survivors h l1 ∨ a ∈ survivors h l2))
      as [Hat [Ha1|Ha2]].
    { unfold survivors in *. apply list_elem_of_filter in Ha as [Hc Ha].
      apply Hsplit in Ha. split; [by apply Hnt|].
      rewrite !list_elem_of_filter. tauto. }
    - destruct (Hcells1 a x Ha1) as (x' & Hx' & ?);
        [rewrite E0; [done|left; by apply survivors_subseteq in Ha1]|].
      exists x'. split; [|done]. rewrite Hfr4, Hfr2; [done| |done|done].
      apply survivors_subseteq in Ha1. by apply Hdisj.
    - destruct (Hcells2 a x Ha2) as (x' & Hx' & ?);
        [rewrite E1; [done|by apply survivors_subseteq in Ha2]|].
      exists x'. split; [|done]. by rewrite Hfr4. }
  split.
  { intros a Ha.
    assert (a ≠ this ∧ (a ∈ unreachable h l1 ∨ a ∈ unreachable h l2))
      as [Hat [Ha1|Ha2]].
    { unfold unreachable in *. apply list_elem_of_filter in Ha as [Hc Ha].
      apply Hsplit in Ha. split; [by apply Hnt|].
      rewrite !list_elem_of_filter. tauto. }
    - rewrite Hfr4, Hfr2; [by apply Hdead1| |done|done].
      apply unreachable_subseteq in Ha1. by apply Hdisj.
    - rewrite Hfr4 by done. by apply Hdead2. }
  split.
  { intros a Ha.
    assert (a ≠ this ∧ (a ∉ l1) ∧ (a ∉ l2)) as (Hat & Ha1 & Ha2).
    { split; [intros ->; apply Ha; unfold region_cells; left|].
      split; intros Ha'; apply Ha; unfold region_cells; right; apply Hsplit;
        tauto. }
    rewrite Hfr4, Hfr2, Hfr1 by done. cbn [heap set_heap]. by apply Hfr0. }
  rewrite Hlog2, Hlog1. cbn [log set_heap]. rewrite <- app_assoc. f_equal.
  f_equal.
  cbn [sweep_ring_events]. f_equal.
  apply finalise_events_ext; intros a Ha%unreachable_subseteq.
  apply E0; by left.
Qed.

End SweepProofs.

Section ReleaseProofs.

Variable size_to_sizeclass : N → N.

Lemma survivors_or_unreachable h l a :
  a ∈ l → a ∈ survivors h l ∨ a ∈ unreachable h l.
Proof.
  intros Ha. unfold survivors, unreachable. rewrite !list_elem_of_filter.
  destruct (decide (Object.get_class h a = Some UNMARKED)); tauto.
Qed.

Lemma survivor_is_marked h a x :
  Object.get_class h a ≠ Some UNMARKED → h !! a = Some (CObject x) →
  is_mutable x → o_class x = MARKED.
Proof.
  unfold Object.get_class, get_obj. intros Hc Hx. rewrite Hx in Hc.
  simpl in Hc. unfold is_mutable. intros [E|E]; [|done]. congruence.
Qed.

(** [sweep] preserves the heap invariant. *)
Lemma sweep_heap_inv fuel this c o marked c' P S :
  sweep size_to_sizeclass fuel this c o marked = Some c' →
  heap_inv (heap c) →
  region_inv (heap c) this o P S →
  heap_inv (heap c').
Proof.
  intros H Hh Hinv. pose proof Hh as (Hnull & _).
  destruct (sweep_spec _ _ _ _ _ _ _ _ _ H Hnull Hinv)
    as (bo & r' & _ & Hinv' & Hnull' & Hr' & _ & _ & Hcells & Hdead & Hfr & _).
  destruct (region_inv_elim _ _ _ _ _ Hinv)
    as (r & b & Hr & HP & HS & Hlast & Hnd & Hthis & Hiso & Hmut & _).
  apply (heap_inv_region_update (heap c) (heap c') this o P S o
           (survivors (heap c) P) (survivors (heap c) S) []);
    try done.
  - by intros a Ha%elem_of_nil.
  - intros a Ha. rewrite app_nil_r in Ha. by apply Hfr.
  - intros a ra Ha Hra. rewrite app_nil_r in Ha.
    apply elem_of_cons in Ha as [->|Ha]; [done|].
    destruct (survivors_or_unreachable (heap c) _ _ Ha) as [Hs|Hu].
    + destruct (region_cells_allocated _ _ _ _ _ a Hinv) as [[x|rx] Hx];
        [by right| |].
      * destruct (Hcells a x Hs Hx) as (x' & Hx' & _). congruence.
      * exfalso. destruct (rings_is_obj _ _ _ _ _ a (region_inv_rings _ _ _ _ _ Hinv) Ha)
          as [x Hx']. apply get_obj_Some in Hx'. congruence.
    + rewrite Hdead in Hra; done.
  - intros a oo Ha Hoo Hc. rewrite app_nil_r in Ha.
    apply elem_of_cons in Ha as [->|Ha]; [congruence|].
    destruct (decide (a = o)) as [|Hne]; [done|]. exfalso.
    assert (a ∈ P ++ S) as Hps
      by (revert Ha; rewrite !elem_of_app, elem_of_cons; tauto).
    destruct (survivors_or_unreachable (heap c) _ _ Ha) as [Hs|Hu].
    + rewrite Forall_forall in Hmut.
      apply Hmut, obj_sat_iff in Hps as (x & Hx & Hm).
      destruct (Hcells a x Hs Hx) as (x' & Hx' & _ & _ & Hc').
      assert (o_class x = MARKED) as Hmk.
      { apply (survivor_is_marked (heap c) a); [|done|done].
        unfold survivors in Hs. by apply list_elem_of_filter in Hs as [? _]. }
      rewrite decide_True in Hc' by done. congruence.
    + rewrite Hdead in Hoo; done.
Qed.

(** [release_internal] frees the metadata object and the iso of the
    region, touches nothing outside the region, and preserves the heap
    invariant.  Its first event is the finaliser of the iso. *)
Lemma release_internal_spec fuel this c o c' P S :
  release_internal size_to_sizeclass fuel this c o = Some c' →
  heap_inv (heap c) →
  region_inv (heap c) this o P S →
  heap_inv (heap c') ∧
  heap c' !! this = None ∧ heap c' !! o = None ∧
  (∀ a, a ∉ region_cells this o P S → heap c' !! a = heap c !! a) ∧
  ∃ evs, log c' = log c ++ EvFinalise o :: evs.
Proof.
  intros H Hh Hinv. unfold release_internal in H.
  rewrite (option_guard_decide (Object.debug_is_iso (heap c) o = true)) in H.
  destruct (decide (Object.debug_is_iso (heap c) o = true)); [|done].
  cbn [mbind option_bind] in H.
  destruct (region_inv_elim _ _ _ _ _ Hinv)
    as (r & b & Hr & HP & HS & Hlast & Hnd & Hthis & Hiso & Hmut & _).
  pose proof Hiso as (xo & Hxo & Hco)%obj_sat_iff.
  destruct (Object.find_iso_fields c o o) as [cA|] eqn:HA; [|done].
  cbn [mbind option_bind] in H.
  assert (heap cA = heap c ∧ log cA = log c) as [HhA HlA].
  { unfold Object.find_iso_fields, get_obj in HA. rewrite Hxo in HA.
    cbn [mbind option_bind] in HA. by injection HA as <-. }
  destruct (Object.finalise cA o) as [c1|] eqn:HB; [|done].
  cbn [mbind option_bind] in H.
  assert (heap c1 = heap c ∧ log c1 = log c ++ [EvFinalise o]) as [Hc1 Hl1].
  { unfold Object.finalise, get_obj in HB. rewrite HhA, Hxo in HB.
    cbn [mbind option_bind] in HB. injection HB as <-. cbn [heap log].
    by rewrite HlA. }
  destruct (sweep size_to_sizeclass fuel this c1 o 0) as [c2|] eqn:Hsw;
    [|done].
  cbn [mbind option_bind] in H.
  pose proof Hh as (Hnull & _).
  assert (heap_inv (heap c2)) as Hh2.
  { eapply sweep_heap_inv; [done| |]; by rewrite Hc1. }
  rewrite <- Hc1 in Hnull, Hinv.
  destruct (sweep_spec _ _ _ _ _ _ _ _ _ Hsw Hnull Hinv)
    as (bo & r' & _ & Hinv2 & Hnull2 & Hr2 & _ & _ & Hcells & Hdead & Hfr
        & Hlog).
  cbv zeta in Hlog. rewrite Hc1 in Hinv, Hinv2, Hcells, Hdead, Hfr, Hlog.
  rewrite Hl1 in Hlog.
  unfold Object.dealloc in H. rewrite Hr2 in H. cbn [mbind option_bind heap] in H.
  assert (o ≠ this) as Hot.
  { intros ->. apply Hthis, elem_of_app. right. left. }
  destruct (region_inv_elim _ _ _ _ _ Hinv2)
    as (r2 & b2 & _ & _ & _ & _ & Hnd2 & Hthis2 & Hiso2 & Hmut2 & _).
  pose proof Hiso2 as (xo2 & Hxo2 & Hco2)%obj_sat_iff.
  rewrite lookup_delete_ne, Hxo2 in H by done.
  cbn [mbind option_bind heap log f_stack collect_stack] in H.
  injection H as <-. cbn [heap log].
  set (h' := delete o (delete this (heap c2))).
  assert (∀ a, a ≠ this → a ≠ o → h' !! a = heap c2 !! a) as Hfr'.
  { intros a ??. unfold h'. by rewrite !lookup_delete_ne. }
  assert (h' !! this = None) as Hdt.
  { unfold h'. rewrite lookup_delete_ne by done. apply lookup_delete_eq. }
  assert (h' !! o = None) as Hdo by apply lookup_delete_eq.
  split; [|split; [done|split; [done|split]]].
  - apply (heap_inv_preserved
             (region_cells this o (survivors (heap c) P) (survivors (heap c) S))
             (heap c2)); [done| | | | |].
    + unfold h'. rewrite !lookup_delete_None. tauto.
    + intros a Ha. apply Hfr'; intros ->; apply Ha; unfold region_cells.
      * left.
      * right. apply elem_of_app. right. left.
    + apply closed_footprint_region, Hinv2.
    + intros a ra Ha Hra. exfalso.
      apply elem_of_cons in Ha as [->|Ha]; [congruence|].
      destruct (decide (a = o)) as [->|Hne]; [congruence|].
      assert (a ≠ this) as Hat by (intros ->; by apply Hthis2).
      rewrite Hfr' in Hra by done.
      destruct (rings_is_obj _ _ _ _ _ a (region_inv_rings _ _ _ _ _ Hinv2) Ha)
        as [x Hx]. apply get_obj_Some in Hx. congruence.
    + intros a oo Ha Hoo Hc. exfalso.
      apply elem_of_cons in Ha as [->|Ha]; [congruence|].
      destruct (decide (a = o)) as [->|Hne]; [congruence|].
      assert (a ≠ this) as Hat by (intros ->; by apply Hthis2).
      rewrite Hfr' in Hoo by done.
      rewrite Forall_forall in Hmut2.
      assert (a ∈ survivors (heap c) P ++ survivors (heap c) S) as Ha'
        by (revert Ha; rewrite !elem_of_app, elem_of_cons; tauto).
      apply Hmut2, obj_sat_iff in Ha' as (x & Hx & Hm).
      assert (x = oo) as -> by congruence.
      destruct Hm as [Hm|Hm]; congruence.
  - intros a Ha. rewrite Hfr', Hfr; [done|done| |].
    + intros ->. apply Ha. left.
    + intros ->. apply Ha. right. apply elem_of_app. right. left.
  - rewrite Hlog. cbn [log]. rewrite <- !app_assoc. eexists. by f_equal.
Qed.

Lemma region_cells_disjoint h r1 o1 P1 S1 r2 o2 P2 S2 a :
  region_inv h r1 o1 P1 S1 → region_inv h r2 o2 P2 S2 → r1 ≠ r2 →
  a ∈ region_cells r1 o1 P1 S1 → a ∉ region_cells r2 o2 P2 S2.
Proof.
  intros H1 H2 Hne Ha1 Ha2.
  pose proof (region_inv_rings _ _ _ _ _ H1) as R1.
  pose proof (region_inv_rings _ _ _ _ _ H2) as R2.
  destruct (region_inv_is_reg _ _ _ _ _ H1) as [x1 Hx1].
  destruct (region_inv_is_reg _ _ _ _ _ H2) as [x2 Hx2].
  apply get_reg_Some in Hx1, Hx2.
  apply elem_of_cons in Ha1 as [->|Ha1], Ha2 as [->|Ha2]; [done| | |].
  - destruct (rings_is_obj _ _ _ _ _ _ R2 Ha2) as [x Hx].
    apply get_obj_Some in Hx. congruence.
  - destruct (rings_is_obj _ _ _ _ _ _ R1 Ha1) as [x Hx].
    apply get_obj_Some in Hx. congruence.
  - by apply Hne, (rings_disjoint h r1 o1 P1 S1 r2 o2 P2 S2 a).
Qed.

(** The cascade that releases the unreachable sub-regions preserves the
    heap invariant and leaves the collected region [reg] alone. *)
Lemma release_unreachable_spec fuel reg :
  ∀ c c',
    release_unreachable size_to_sizeclass fuel reg c = Some c' →
    heap_inv (heap c) →
    heap_inv (heap c') ∧
    (∀ o P S a, region_inv (heap c) reg o P S →
       a ∈ region_cells reg o P S → heap c' !! a = heap c !! a) ∧
    (∀ a, heap c !! a = None → heap c' !! a = None) ∧
    ∃ evs, log c' = log c ++ evs.
Proof.
  induction fuel as [|fuel IH]; intros c c' H Hh.
  - simpl in H. destruct (collect_stack c); [|done]. injection H as <-.
    do 3 (split; [done|]). exists []. by rewrite app_nil_r.
  - simpl in H. destruct (collect_stack c) as [|o rest].
    { injection H as <-.
      do 3 (split; [done|]). exists []. by rewrite app_nil_r. }
    cbn [heap] in H.
    rewrite (option_guard_decide (Object.debug_is_iso (heap c) o = true)) in H.
    destruct (decide (Object.debug_is_iso (heap c) o = true)) as [Hiso|];
      [|done].
    cbn [mbind option_bind] in H.
    destruct (Object.get_region (heap c) o) as [r|] eqn:Hreg; [|done].
    cbn [mbind option_bind] in H.
    rewrite (option_guard_decide (r ≠ reg)) in H.
    destruct (decide (r ≠ reg)) as [Hne|]; [|done].
    cbn [mbind option_bind] in H.
    destruct (is_trace_region (heap c) r) eqn:Htr; [|done].
    match type of H with
    | context [release_internal _ _ _ ?c0 _] => set (c0' := c0) in H
    end.
    destruct (release_internal size_to_sizeclass fuel r c0' o) as [c1|] eqn:Hrel;
      [|done].
    cbn [mbind option_bind] in H.
    assert (get (heap c) o = Some r) as Hget.
    { unfold get. rewrite option_guard_True by done.
      cbn [mbind option_bind]. rewrite Hreg. cbn [mbind option_bind].
      by rewrite option_guard_True by done. }
    destruct (heap_inv_get _ _ _ Hh Hget) as (P' & S' & Hinv').
    destruct (release_internal_spec _ _ _ _ _ _ _ Hrel Hh Hinv')
      as (Hh1 & _ & _ & Hfr1 & evs1 & Hlog1).
    cbn [heap log c0'] in Hfr1, Hlog1.
    destruct (IH _ _ H Hh1) as (Hh' & Hfr' & Hnone' & evs & Hlog').
    split; [done|]. split; [|split].
    2:{ intros a Ha. apply Hnone'. rewrite Hfr1; [done|]. intros Hin.
        destruct (region_cells_allocated _ _ _ _ _ a Hinv' Hin). congruence. }
    + intros oR P S a HinvR Ha.
      assert (∀ b, b ∈ region_cells reg oR P S → heap c1 !! b = heap c !! b)
        as Hfr.
      { intros b Hb. apply Hfr1.
        by apply (region_cells_disjoint (heap c) reg oR P S r o P' S'). }
      rewrite (Hfr' oR P S a); [by apply Hfr| |done].
      by apply (region_inv_frame (heap c)).
    + exists ((EvFinalise o :: evs1) ++ evs).
      rewrite Hlog', Hlog1. by rewrite <- app_assoc.
Qed.

Lemma sum_sizes_app h l1 l2 :
  sum_sizes h (l1 ++ l2) = (sum_sizes h l1 + sum_sizes h l2)%N.
Proof.
  unfold sum_sizes. induction l1 as [|a l1 IH]; simpl; [done|].
  rewrite IH. lia.
Qed.

Lemma size_t_modulus_pos : (0 < size_t_modulus)%N.
Proof. done. Qed.

Lemma add_sizes_sum h l acc :
  add_sizes h l acc =
  if decide (l = []) then acc
  else ((acc + sum_sizes h l) mod size_t_modulus)%N.
Proof.
  unfold add_sizes. revert acc. induction l as [|a l IH]; intros acc; [done|].
  rewrite decide_False by done. simpl. rewrite IH.
  unfold size_t_add. destruct (decide (l = [])) as [->|_].
  - simpl. by rewrite N.add_0_r.
  - fold (sum_sizes h l).
    rewrite N.Div0.add_mod_idemp_l. f_equal. lia.
Qed.

Lemma add_sizes_sum_mod h l acc :
  (acc < size_t_modulus)%N →
  add_sizes h l acc = ((acc + sum_sizes h l) mod size_t_modulus)%N.
Proof.
  intros Hacc. rewrite add_sizes_sum. destruct (decide (l = [])) as [->|]; [|done].
  simpl. rewrite N.add_0_r. by rewrite N.mod_small.
Qed.

Lemma add_sizes_twice h l1 l2 :
  add_sizes h l2 (add_sizes h l1 0) =
  ((sum_sizes h l1 + sum_sizes h l2) mod size_t_modulus)%N.
Proof.
  rewrite (add_sizes_sum_mod h l1 0) by done. rewrite N.add_0_l.
  rewrite add_sizes_sum_mod by (apply N.mod_upper_bound; done).
  by rewrite N.Div0.add_mod_idemp_l.
Qed.

Lemma swept_rings_sum h (bo : bool) o P S :
  obj_sat is_iso h o →
  (sum_sizes h (survivors h (swept_ring FinaliserRing bo o P S)) +
   sum_sizes h (survivors h (swept_ring NonfinaliserRing bo o P S)))%N =
  sum_sizes h (survivors h P ++ o :: survivors h S).
Proof.
  intros Hiso.
  assert (survivors h (P ++ [o]) = survivors h P ++ [o]) as E
    by (by rewrite survivors_app, survivors_iso).
  change (o :: survivors h S) with ([o] ++ survivors h S).
  rewrite app_assoc, (sum_sizes_app h (survivors h P ++ [o])).
  destruct bo; cbn [swept_ring swept_secondary negb]; rewrite E; lia.
Qed.

(** What [gc] returns: the collected region holds the survivors of the
    mark phase in ring order, its byte counter is their total size, and
    the heap is well formed. *)
Lemma gc_spec fuel h o c' :
  gc size_to_sizeclass fuel h o = Some c' →
  heap_inv h →
  ∃ reg P S h1 f marked r',
    get h o = Some reg ∧
    region_inv h reg o P S ∧
    mark fuel h reg o [] 0 = Some (h1, f, marked) ∧
    region_inv h1 reg o P S ∧
    heap_inv (heap c') ∧
    region_inv (heap c') reg o (survivors h1 P) (survivors h1 S) ∧
    heap c' !! reg = Some (CRegion r') ∧
    current_memory_used r' =
      (sum_sizes h1 (survivors h1 P ++ o :: survivors h1 S)
         mod size_t_modulus)%N ∧
    previous_memory_used r' = size_to_sizeclass (current_memory_used r') ∧
    (∀ a x, a ∈ survivors h1 (P ++ o :: S) → h1 !! a = Some (CObject x) →
       ∃ x', heap c' !! a = Some (CObject x') ∧
             o_descriptor x' = o_descriptor x ∧
             o_fields x' = o_fields x ∧
             o_class x' =
               if decide (o_class x = MARKED) then UNMARKED else o_class x) ∧
    (∀ a, a ∈ unreachable h1 (P ++ o :: S) → heap c' !! a = None).
Proof.
  intros H Hh. unfold gc in H.
  rewrite (option_guard_decide (Object.debug_is_iso h o = true)) in H.
  destruct (decide (Object.debug_is_iso h o = true)); [|done].
  cbn [mbind option_bind] in H.
  destruct (get h o) as [reg|] eqn:Hget; [|done].
  cbn [mbind option_bind] in H.
  destruct (mark fuel h reg o [] 0) as [[[h1 f] marked]|] eqn:Hmark; [|done].
  cbn [mbind option_bind] in H.
  destruct (sweep size_to_sizeclass fuel reg (mkCollector h1 f [] []) o marked)
    as [c2|] eqn:Hsw; [|done].
  cbn [mbind option_bind] in H.
  destruct (heap_inv_get _ _ _ Hh Hget) as (P & S & Hinv).
  destruct (mark_rel_heap _ _ _ _ _ _ _ _ _ Hmark) as [Hrel _].
  pose proof (heap_mark_rel_heap_inv _ _ Hrel Hh) as Hh1.
  pose proof (heap_mark_rel_region_inv _ _ _ _ _ _ Hrel Hinv) as Hinv1.
  pose proof Hh1 as (Hnull1 & _).
  pose proof (sweep_heap_inv _ _ _ _ _ _ _ _ Hsw Hh1 Hinv1) as Hh2.
  destruct (sweep_spec _ _ _ _ _ _ _ _ _ Hsw Hnull1 Hinv1)
    as (bo & r2 & _ & Hinv2 & Hnull2 & Hr2 & Hcmu & Hpmu & Hcells & Hdead
        & Hfr & _).
  cbn [heap] in Hinv2, Hcmu, Hcells, Hdead, Hfr.
  destruct (release_unreachable_spec _ _ _ _ H Hh2)
    as (Hh' & Hfr0 & Hnone & _).
  pose proof (λ a, Hfr0 _ _ _ a Hinv2) as Hfr'. clear Hfr0.
  exists reg, P, S, h1, f, marked, r2.
  do 5 (split; [done|]).
  split; [by apply (region_inv_frame (heap c2))|].
  split; [rewrite Hfr'; [done|left]|].
  split.
  { rewrite Hcmu, add_sizes_twice, swept_rings_sum; [done|].
    by destruct (region_inv_elim _ _ _ _ _ Hinv1)
      as (? & ? & _ & _ & _ & _ & _ & _ & ? & _). }
  split; [done|]. split.
  - intros a x Ha Hx. rewrite Hfr'; [by apply Hcells|].
    right. revert Ha. rewrite survivors_app. unfold survivors at 2.
    rewrite filter_cons. fold (survivors h1 S).
    destruct (decide (Object.get_class h1 o ≠ Some UNMARKED)) as [|Hn]; [done|].
    exfalso. apply Hn.
    destruct (region_inv_elim _ _ _ _ _ Hinv1)
      as (? & ? & _ & _ & _ & _ & _ & _ & (xo & Hxo & Hc)%obj_sat_iff & _).
    unfold Object.get_class, get_obj. rewrite Hxo. simpl. unfold is_iso in Hc.
    congruence.
  - intros a Ha. by apply Hnone, Hdead.
Qed.

End ReleaseProofs.

Lemma store_heap_inv h a fs h' :
  heap_inv h → store h a fs = Some h' → heap_inv h'.
Proof.
  intros (Hnull & Hregs & Hisos) H. unfold store, upd_obj in H.
  destruct (get_obj h a) as [x|] eqn:Hx; [|done]. injection H as <-.
  apply get_obj_Some in Hx.
  assert (ring_equiv (CObject x) (CObject (with_fields fs x))) as He by done.
  split; [|split].
  - rewrite lookup_insert_ne; [done|]. congruence.
  - intros this r Hr.
    destruct (decide (this = a)) as [->|Hne];
      [by rewrite lookup_insert_eq in Hr|].
    rewrite lookup_insert_ne in Hr by done.
    destruct (Hregs _ _ Hr) as (o & P & S & Hinv). exists o, P, S.
    by apply (region_inv_insert_equiv h a (CObject x)).
  - intros b y Hy Hc.
    destruct (decide (b = a)) as [->|Hne].
    + rewrite lookup_insert_eq in Hy. injection Hy as <-.
      destruct (Hisos _ _ Hx Hc) as (P & S & Hinv). exists P, S.
      by apply (region_inv_insert_equiv h a (CObject x)).
    + rewrite lookup_insert_ne in Hy by done.
      destruct (Hisos _ _ Hy Hc) as (P & S & Hinv). exists P, S.
      by apply (region_inv_insert_equiv h a (CObject x)).
Qed.

Lemma heap_inv_empty : heap_inv ∅.
Proof.
  split; [done|]. split.
  - intros this r Hr. by rewrite lookup_empty in Hr.
  - intros a o Ho. by rewrite lookup_empty in Ho.
Qed.

Section ReachableProofs.

Variable size_to_sizeclass : N → N.
Variable sizeclass_to_size : N → N.

Lemma gc_heap_inv fuel h o c :
  heap_inv h → gc size_to_sizeclass fuel h o = Some c → heap_inv (heap c).
Proof.
  intros Hh H.
  by destruct (gc_spec _ _ _ _ _ H Hh)
    as (? & ? & ? & ? & ? & ? & ? & _ & _ & _ & _ & ? & _).
Qed.

(** Every reachable heap is well formed. *)
Lemma reachable_heap_inv h :
  reachable size_to_sizeclass sizeclass_to_size h → heap_inv h.
Proof.
  induction 1.
  - apply heap_inv_empty.
  - by eapply create_heap_inv.
  - by eapply alloc_heap_inv.
  - by eapply swap_root_heap_inv.
  - by eapply merge_heap_inv.
  - by eapply gc_heap_inv.
  - by eapply store_heap_inv.
Qed.

End ReachableProofs.

(** ** Termination: the loops return when the fuel covers the ring *)

Lemma sweep_dispose_nonfinaliser_total this o c p gc xp r :
  heap c !! p = Some (CObject xp) →
  heap c !! this = Some (CRegion r) →
  desc_has_possibly_iso_fields (o_descriptor xp) = false →
  ∃ c1, sweep_dispose NonfinaliserRing this o c p gc = Some (c1, gc).
Proof.
  intros Hp Hr Hpif. assert (p ≠ this) as Hne by congruence.
  unfold sweep_dispose, Object.has_possibly_iso_fields,
    Object.has_ext_ref, ExternalReferenceTable.erase, Object.dealloc,
    upd_reg, get_reg, get_obj.
  rewrite Hp. simpl. rewrite Hpif. simpl.
  destruct (o_ext_ref xp); simpl.
  - rewrite Hr. simpl. rewrite lookup_insert_ne by done. rewrite Hp. simpl.
    eauto.
  - rewrite Hp. simpl. eauto.
Qed.

Lemma sweep_loop_total ring (in_secondary_ring : bool) this o :
  ∀ l fuel c prev p gc r,
    (length l ≤ fuel)%nat →
    heap c !! this = Some (CRegion r) →
    lseg (heap c) p this l →
    NoDup l →
    prev = this ∨ (is_Some (get_obj (heap c) prev) ∧ prev ∉ l) →
    Forall (sweepable ring this o (heap c)) l →
    is_Some (sweep_loop fuel ring in_secondary_ring this o c prev p gc).
Proof.
  induction l as [|p' l IH]; intros fuel c prev p gc r Hfuel Hr Hl Hnd Hprev Hsw.
  { simpl in Hl. subst p. destruct fuel; simpl; by rewrite decide_True. }
  destruct fuel as [|fuel]; [simpl in Hfuel; lia|].
  simpl in Hfuel. assert (length l ≤ fuel)%nat as Hfuel' by lia.
  apply lseg_cons in Hl as (<- & xp & Hp & Hl).
  apply NoDup_cons in Hnd as [Hpl Hnd].
  apply Forall_cons in Hsw as [(xp' & Hp' & Hcls & Hpif) Hsw].
  assert (xp' = xp) as -> by congruence. clear Hp'.
  assert (p ≠ this) as Hpt by congruence.
  assert (this ∉ l) as Hthisl.
  { eapply lseg_not_reg; [exact Hl|]. exists r. by apply get_reg_Some. }
  assert (prev ≠ p) as Hprevp.
  { destruct Hprev as [->|[_ Hx]]; [done|]. intros ->. apply Hx. left. }
  assert (prev ∉ l) as Hprevl.
  { destruct Hprev as [->|[_ Hx]]; [done|]. intros Hin. apply Hx. by right. }
  rewrite sweep_loop_unfold. rewrite decide_False by done.
  assert (Object.get_class (heap c) p = Some (o_class xp)) as Hcl
    by (unfold Object.get_class, get_obj; by rewrite Hp).
  rewrite Hcl. cbn [mbind option_bind].
  destruct Hcls as [Hu|[Hm|(Hi & -> & Hn)]].
  - (* UNMARKED *)
    rewrite Hu. unfold Object.get_next. rewrite Hp. cbn [mbind option_bind].
    assert (∃ c1 gc1 rE,
      sweep_dispose ring this o c p gc = Some (c1, gc1) ∧
      heap c1 !! this = Some (CRegion rE) ∧
      (∀ a, a ≠ p → a ≠ this → heap c1 !! a = heap c !! a))
      as (c1 & gc1 & rE & Hdisp & HrE & Hfr1).
    { destruct ring.
      - destruct (sweep_dispose_finaliser this o c p gc xp Hp)
          as (c1 & Heq & Hh1 & _).
        exists c1, p, r. rewrite Hh1. split; [done|].
        split; [by rewrite lookup_insert_ne|].
        intros a ? ?. by rewrite lookup_insert_ne.
      - destruct (sweep_dispose_nonfinaliser_total this o c p gc xp r Hp Hr)
          as [c1 Heq]; [by apply Hpif|].
        destruct (sweep_dispose_nonfinaliser this o c p gc xp r c1 gc
                    Hp Hr Heq) as (_ & [s Hh1] & _).
        exists c1, gc, (with_ext_table s r). rewrite Hh1.
        split; [done|].
        split; [rewrite lookup_delete_ne by done; apply lookup_insert_eq|].
        intros a ? ?. by rewrite lookup_delete_ne, lookup_insert_ne. }
    rewrite Hdisp. cbn [mbind option_bind].
    assert (∃ h3 r3,
      sweep_unlink in_secondary_ring this (heap c1) prev p (o_next xp) =
        Some h3 ∧
      h3 !! this = Some (CRegion r3) ∧
      (∀ a, a ≠ this → a ≠ prev → h3 !! a = heap c1 !! a) ∧
      (prev ≠ this → is_Some (get_obj h3 prev)))
      as (h3 & r3 & Hunl & Hr3 & Hfr3 & H3prev).
    { destruct Hprev as [->|[[x Hx%get_obj_Some] _]].
      - rewrite (sweep_unlink_this _ _ _ _ _ rE) by done.
        eexists _, _. split; [done|]. split; [apply lookup_insert_eq|].
        split; [|done]. intros a ? ?. by rewrite lookup_insert_ne.
      - assert (prev ≠ this) as Hpt' by congruence.
        rewrite (sweep_unlink_obj _ _ _ _ _ _ rE x) by
          (done || (rewrite Hfr1; done)).
        eexists _, _. split; [done|]. split; [apply lookup_insert_eq|].
        split.
        + intros a ? ?. by rewrite !lookup_insert_ne.
        + intros _. eexists. apply get_obj_Some.
          rewrite lookup_insert_ne by done. apply lookup_insert_eq. }
    rewrite Hunl. cbn [mbind option_bind].
    assert (∀ a, a ∈ l → h3 !! a = heap c !! a) as Hfrl.
    { intros a Ha. rewrite Hfr3, Hfr1; [done|by intros ->..]. }
    apply (IH fuel (set_heap h3 c1) prev (o_next xp) gc1 r3);
      cbn [heap set_heap]; [done|done| |done| |].
    + by apply (lseg_frame (heap c)).
    + destruct (decide (prev = this)) as [|Hne]; [by left|]. right.
      split; [by apply H3prev|done].
    + apply Forall_forall. intros a Ha.
      rewrite Forall_forall in Hsw. destruct (Hsw a Ha) as (x & Hx & Hrest).
      exists x. by rewrite Hfrl.
  - (* MARKED *)
    rewrite Hm.
    unfold Object.size, Object.unmark, Object.get_next, get_obj.
    rewrite Hp. cbn [mbind option_bind fmap option_fmap option_map].
    rewrite (use_memory_spec _ _ r) by done. cbn [mbind option_bind].
    rewrite lookup_insert_ne, Hp by congruence. cbn [mbind option_bind].
    rewrite (option_guard_decide (o_class xp = MARKED)).
    rewrite decide_True by done.
    cbn [mbind option_bind]. rewrite lookup_insert_eq.
    cbn [mbind option_bind].
    eapply (IH fuel _ p (o_next xp) gc); cbn [heap set_heap]; [done| | |done| |].
    + rewrite lookup_insert_ne by done. apply lookup_insert_eq.
    + apply (lseg_frame (heap c)); [|done]. intros a Ha.
      rewrite !lookup_insert_ne; [done|by intros ->..].
    + right. split; [|done]. eexists. apply get_obj_Some.
      apply lookup_insert_eq.
    + apply Forall_forall. intros a Ha.
      rewrite Forall_forall in Hsw. destruct (Hsw a Ha) as (x & Hx & Hrest).
      exists x. rewrite !lookup_insert_ne; [done|by intros ->..].
  - (* ISO *)
    rewrite Hi. rewrite (option_guard_decide (o = o)).
    rewrite decide_True by done. cbn [mbind option_bind].
    unfold Object.get_next_any_mark, Object.get_next, Object.get_region,
      Object.size, get_obj.
    rewrite Hp. cbn [mbind option_bind fmap option_fmap option_map].
    rewrite (option_guard_decide (o_next xp = this)).
    rewrite decide_True by done. cbn [mbind option_bind].
    rewrite (option_guard_decide (o_class xp = ISO)).
    rewrite decide_True by done. cbn [mbind option_bind].
    rewrite (option_guard_decide (o_next xp = this)).
    rewrite decide_True by done. cbn [mbind option_bind].
    rewrite (use_memory_spec _ _ r) by done. cbn [mbind option_bind]. done.
Qed.

Lemma free_deferred_total :
  ∀ G fuel c gc,
    (length G ≤ fuel)%nat →
    lseg (heap c) gc nullptr G →
    NoDup G → nullptr ∉ G →
    is_Some (free_deferred fuel c gc).
Proof.
  induction G as [|p G IH]; intros fuel c gc Hfuel HG Hnd Hnull.
  { simpl in HG. subst gc. destruct fuel; simpl; eauto. }
  destruct fuel as [|fuel]; [simpl in Hfuel; lia|]. simpl in Hfuel.
  apply lseg_cons in HG as (<- & xp & Hp & HG).
  apply NoDup_cons in Hnd as [HpG Hnd].
  simpl. rewrite decide_False by (intros ->; apply Hnull; left).
  unfold Object.get_next, Object.dealloc. rewrite Hp.
  cbn [mbind option_bind].
  apply IH; cbn [heap]; [lia| |done|].
  - by apply lseg_delete.
  - intros Hin. apply Hnull. by right.
Qed.
Lemma region_inv_sweepable ring h this o P S (bo : bool) :
  region_inv h this o P S →
  obj_sat (needs bo) h o →
  sweep_ready h (swept_ring ring bo o P S) →
  Forall (sweepable ring this o h) (swept_ring ring bo o P S).
Proof.
  intros Hinv Hbo Hready.
  destruct (region_inv_elim _ _ _ _ _ Hinv)
    as (r & b & Hr & HP & HS & Hlast & Hnd & Hthis & Hiso & Hmut & Hb & HbP & HbS).
  assert (b = bo) as ->.
  { apply obj_sat_iff in Hb as (x & Hx & Hb), Hbo as (x' & Hx' & Hbo).
    unfold needs in *. congruence. }
  apply lseg_snoc in HP as (_ & xo & Hxo & Hno).
  apply obj_sat_iff in Hiso as (xo' & Hxo' & Hco).
  assert (xo' = xo) as -> by congruence. unfold is_iso in Hco.
  rewrite Forall_forall in Hmut, HbP, HbS.
  assert (∀ a, a ∈ swept_ring ring bo o P S → a ∈ P ++ o :: S) as Hsub.
  { intros a. unfold swept_ring.
    destruct (swept_secondary ring bo);
      rewrite !elem_of_app, !elem_of_cons, ?elem_of_nil; tauto. }
  assert (∀ a x, a ∈ swept_ring ring bo o P S → ring = NonfinaliserRing →
            h !! a = Some (CObject x) →
            desc_needs_finaliser_ring (o_descriptor x) = false) as Hneed.
  { intros a x Ha -> Hx. unfold swept_ring, swept_secondary in Ha.
    destruct bo.
    - apply HbS, obj_sat_iff in Ha as (x' & Hx' & Hn).
      assert (x' = x) as -> by congruence. done.
    - apply elem_of_app in Ha as [Ha|Ha].
      + apply HbP, obj_sat_iff in Ha as (x' & Hx' & Hn).
        assert (x' = x) as -> by congruence. done.
      + apply list_elem_of_singleton in Ha as ->.
        apply obj_sat_iff in Hbo as (x' & Hx' & Hn).
        assert (x' = x) as -> by congruence. done. }
  apply Forall_forall. intros a Ha. pose proof (Hsub a Ha) as Ha'.
  destruct (decide (a = o)) as [->|Hne].
  - exists xo. split; [done|]. split; [tauto|].
    intros Hring Hu. congruence.
  - assert (a ∈ P ++ S) as HaPS.
    { revert Ha'. rewrite !elem_of_app, elem_of_cons. tauto. }
    apply Hmut, obj_sat_iff in HaPS as (x & Hx & Hm).
    exists x. split; [done|]. split; [destruct Hm; tauto|].
    intros Hring Hu. apply (Hready a x Ha Hx Hu). by eapply Hneed.
Qed.

Lemma sweep_ring_total fuel ring this c o P S (bo : bool) :
  heap c !! nullptr = None →
  region_inv (heap c) this o P S →
  obj_sat (needs bo) (heap c) o →
  sweep_ready (heap c) (swept_ring ring bo o P S) →
  (length (swept_ring ring bo o P S) ≤ fuel)%nat →
  is_Some (sweep_ring fuel ring this c o).
Proof.
  intros Hnull Hinv Hbo Hready Hfuel.
  pose proof (region_inv_sweepable ring _ _ _ _ _ _ Hinv Hbo Hready) as Hsw.
  pose proof (region_inv_rings _ _ _ _ _ Hinv) as Hrings.
  pose proof Hrings as (r & Hr & HP & HS & Hlast & Hnd)%rings_iff.
  set (l := swept_ring ring bo o P S) in *.
  unfold sweep_ring.
  assert (Object.needs_finaliser_ring (heap c) o = Some bo) as Hn.
  { unfold obj_sat, get_obj, needs in Hbo. unfold Object.needs_finaliser_ring.
    destruct (heap c !! o) as [[x|]|]; try done. by rewrite Hbo. }
  rewrite Hn. cbn [mbind option_bind].
  unfold get_reg. rewrite Hr. cbn [mbind option_bind].
  fold (swept_secondary ring bo).
  assert ((if swept_secondary ring bo then Some (next_not_root r)
           else Object.get_next (heap c) this) =
          Some (if swept_secondary ring bo then next_not_root r else r_next r))
    as Hp.
  { destruct (swept_secondary ring bo); [done|].
    unfold Object.get_next. by rewrite Hr. }
  rewrite Hp. cbn [mbind option_bind]. clear Hp.
  assert (lseg (heap c)
            (if swept_secondary ring bo then next_not_root r else r_next r)
            this l) as Hl.
  { unfold l, swept_ring. by destruct (swept_secondary ring bo). }
  assert (NoDup l) as Hndl.
  { unfold l, swept_ring. destruct (swept_secondary ring bo).
    - apply NoDup_app in Hnd as (_ & _ & Hnd). by apply NoDup_cons in Hnd as [_ ?].
    - replace (P ++ o :: S) with ((P ++ [o]) ++ S) in Hnd
        by (by rewrite <- app_assoc).
      by apply NoDup_app in Hnd as (? & _ & _). }
  destruct (sweep_loop_total ring (swept_secondary ring bo) this o l fuel c
              this _ nullptr r Hfuel Hr Hl Hndl (or_introl eq_refl) Hsw)
    as [[c1 gc1] Hloop].
  rewrite Hloop. cbn [mbind option_bind].
  destruct ring; [|done].
  eapply sweep_loop_spec with (l := l) (G := []) (r := r) in Hloop;
    [|done|done|done|done|by left| |done|by intros a Ha%elem_of_nil].
  2:{ intros Hsec. unfold l, swept_ring. by rewrite Hsec. }
  destruct Hloop as (r1 & Hr1 & _ & _ & _ & _ & _ & _ & _ & _ & Hgc & _).
  rewrite app_nil_r in Hgc.
  assert (nullptr ∉ l) as Hnl.
  { intros Ha. destruct (lseg_is_obj _ _ _ _ _ Hl Ha) as [x Hx].
    unfold get_obj in Hx. by rewrite Hnull in Hx. }
  apply (free_deferred_total (rev (unreachable (heap c) l))); [|done| |].
  - rewrite length_rev. unfold unreachable.
    etrans; [apply length_filter|done].
  - apply NoDup_ListNoDup, List.NoDup_rev, NoDup_ListNoDup.
    unfold unreachable. by apply NoDup_filter.
  - intros Hd. apply list_elem_of_In, in_rev, list_elem_of_In in Hd.
    by apply unreachable_subseteq in Hd.
Qed.

Section TotalSweep.

Variable size_to_sizeclass : N → N.

Lemma sweep_total fuel this c o marked P S :
  heap c !! nullptr = None →
  region_inv (heap c) this o P S →
  sweep_ready (heap c) (P ++ o :: S) →
  (length (P ++ o :: S) ≤ fuel)%nat →
  is_Some (sweep size_to_sizeclass fuel this c o marked).
Proof.
  intros Hnull Hinv Hready Hfuel. set (h := heap c) in *.
  destruct (region_inv_needs _ _ _ _ _ Hinv) as [bo Hbo].
  destruct (region_inv_elim _ _ _ _ _ Hinv)
    as (r & b & Hr & HP & HS & Hlast & Hnd & Hthis & Hiso & Hmut & _).
  unfold sweep.
  set (h0 := <[this := CRegion (with_current_memory_used 0 r)]> (heap c)).
  assert (upd_reg (with_current_memory_used 0) (heap c) this = Some h0) as E0.
  { unfold upd_reg, get_reg. fold h. by rewrite Hr. }
  rewrite E0. clear E0. cbn [mbind option_bind].
  assert (∀ a, a ≠ this → h0 !! a = h !! a) as Hfr0.
  { intros a Ha. unfold h0. by rewrite lookup_insert_ne. }
  assert (region_inv h0 this o P S) as Hinv0.
  { eapply region_inv_insert_equiv; [done| |done]. done. }
  assert (h0 !! nullptr = None) as Hnull0.
  { rewrite Hfr0; [done|]. intros E. rewrite <- E in Hr. congruence. }
  assert (obj_sat (needs bo) h0 o) as Hbo0.
  { eapply obj_sat_insert_reg; done. }
  assert (∀ ring, length (swept_ring ring bo o P S) ≤ fuel)%nat as Hlen.
  { intros ring. etrans; [|exact Hfuel]. unfold swept_ring.
    destruct (swept_secondary ring bo); rewrite !length_app; simpl; lia. }
  assert (∀ ring a, a ∈ swept_ring ring bo o P S → a ∈ P ++ o :: S) as Hsub.
  { intros ring a. unfold swept_ring.
    destruct (swept_secondary ring bo);
      rewrite !elem_of_app, !elem_of_cons, ?elem_of_nil; tauto. }
  set (l1 := swept_ring FinaliserRing bo o P S) in *.
  set (l2 := swept_ring NonfinaliserRing bo o P S) in *.
  assert (sweep_ready h0 l1) as Hready0.
  { intros a x Ha Hx. apply (Hready a x (Hsub _ a Ha)).
    rewrite <- Hfr0; [done|]. intros ->. by apply Hthis, (Hsub FinaliserRing). }
  destruct (sweep_ring_total fuel FinaliserRing this (set_heap h0 c) o P S bo
              Hnull0 Hinv0 Hbo0 Hready0 (Hlen _)) as [c1 H1].
  rewrite H1. cbn [mbind option_bind].
  assert (h0 !! this = Some (CRegion (with_current_memory_used 0 r))) as Hr0
    by apply lookup_insert_eq.
  pose proof (sweep_ring_spec _ _ _ _ _ _ _ _ _ _ H1 Hnull0 Hr0
                (region_inv_rings _ _ _ _ _ Hinv0) Hbo0) as Hp1.
  pose proof (sweep_ring_region_inv _ _ _ _ _ _ _ _ _ H1 Hnull0 Hinv0 Hbo0)
    as (Hinv1 & Hnull1 & Hbo1).
  cbv zeta in Hp1. cbn [heap set_heap log] in Hp1, Hinv1.
  destruct Hp1 as (r1 & Hr1 & _ & _ & _ & _ & _ & _ & _ & Hfr1 & _).
  fold l1 in Hfr1.
  set (P1 := if swept_secondary FinaliserRing bo then P else survivors h0 P)
    in *.
  set (S1 := if swept_secondary FinaliserRing bo then survivors h0 S else S)
    in *.
  assert (swept_ring NonfinaliserRing bo o P1 S1 = l2) as El2.
  { unfold l2, P1, S1. by destruct bo. }
  assert (∀ a, a ∈ l2 → a ∉ l1) as Hdisj.
  { intros a. unfold l1, l2, swept_ring, swept_secondary.
    apply NoDup_app in Hnd as (_ & Hd & Hnd).
    apply NoDup_cons in Hnd as [HoS _].
    destruct bo; simpl; rewrite ?elem_of_app, ?elem_of_cons, ?elem_of_nil.
    - intros Ha' [Ha|[->|[]]]; [|done]. apply (Hd a Ha). by right.
    - intros [Ha|[->|[]]] Ha'; [|done]. apply (Hd a Ha). by right. }
  assert (sweep_ready (heap c1) (swept_ring NonfinaliserRing bo o P1 S1))
    as Hready1.
  { rewrite El2. intros a x Ha Hx.
    assert (a ≠ this) as Hat
      by (intros ->; by apply Hthis, (Hsub NonfinaliserRing)).
    apply (Hready a x (Hsub _ a Ha)).
    rewrite <- Hfr0 by done. rewrite <- Hfr1; [done|by apply Hdisj|done]. }
  assert (length (swept_ring NonfinaliserRing bo o P1 S1) ≤ fuel)%nat as Hlen1.
  { rewrite El2. apply Hlen. }
  destruct (sweep_ring_total fuel NonfinaliserRing this c1 o P1 S1 bo
              Hnull1 Hinv1 Hbo1 Hready1 Hlen1) as [c2 H2].
  rewrite H2. cbn [mbind option_bind].
  pose proof (sweep_ring_spec _ _ _ _ _ _ _ _ _ _ H2 Hnull1 Hr1
                (region_inv_rings _ _ _ _ _ Hinv1) Hbo1) as Hp2.
  cbv zeta in Hp2. destruct Hp2 as (r2 & Hr2 & _).
  unfold RememberedSet.sweep_set, upd_reg, get_reg. rewrite Hr2.
  cbn [mbind option_bind]. rewrite lookup_insert_eq.
  cbn [mbind option_bind]. done.
Qed.

Lemma release_internal_total fuel this c o P S :
  heap c !! nullptr = None →
  region_inv (heap c) this o P S →
  sweep_ready (heap c) (P ++ o :: S) →
  (length (P ++ o :: S) ≤ fuel)%nat →
  is_Some (release_internal size_to_sizeclass fuel this c o).
Proof.
  intros Hnull Hinv Hready Hfuel. unfold release_internal.
  destruct (region_inv_elim _ _ _ _ _ Hinv)
    as (r & b & Hr & HP & HS & Hlast & Hnd & Hthis & Hiso & Hmut & _).
  pose proof Hiso as (xo & Hxo & Hco)%obj_sat_iff. unfold is_iso in Hco.
  assert (Object.debug_is_iso (heap c) o = true) as Hdi.
  { unfold Object.debug_is_iso, Object.get_class, get_obj. rewrite Hxo.
    simpl. rewrite Hco. by apply bool_decide_eq_true. }
  rewrite (option_guard_decide (Object.debug_is_iso (heap c) o = true)).
  rewrite decide_True by done. cbn [mbind option_bind].
  unfold Object.find_iso_fields at 1, get_obj. rewrite Hxo.
  cbn [mbind option_bind].
  unfold Object.finalise at 1, get_obj. cbn [heap]. rewrite Hxo.
  cbn [mbind option_bind].
  match goal with |- is_Some (mbind _ (sweep _ _ _ ?c1 _ _)) =>
    set (cc := c1) end.
  destruct (sweep_total fuel this cc o 0 P S) as [c2 Hsw]; [done..|].
  rewrite Hsw. cbn [mbind option_bind].
  destruct (sweep_spec _ _ _ _ _ _ _ _ _ Hsw Hnull Hinv)
    as (bo & r' & _ & Hinv2 & Hnull2 & Hr2 & _).
  unfold Object.dealloc. rewrite Hr2. cbn [mbind option_bind heap].
  assert (o ≠ this) as Hot.
  { intros ->. apply Hthis, elem_of_app. right. left. }
  destruct (region_inv_elim _ _ _ _ _ Hinv2)
    as (r2 & b2 & _ & _ & _ & _ & _ & _ & Hiso2 & _).
  pose proof Hiso2 as (xo2 & Hxo2 & Hco2)%obj_sat_iff.
  rewrite lookup_delete_ne, Hxo2 by done. done.
Qed.

End TotalSweep.

(** * The claims of the specification *)

Lemma ex_h4_reachable :
  reachable ex_size_to_sizeclass ex_sizeclass_to_size ex_h4.
Proof.
  apply (reachable_alloc _ _ ex_h3 1 5 ex_dF); [|by vm_compute].
  apply (reachable_alloc _ _ ex_h2 1 4 ex_dN); [|by vm_compute].
  apply (reachable_alloc _ _ ex_h1 1 3 ex_dF); [|by vm_compute].
  apply (reachable_create _ _ ∅ 1 2 ex_dN); [|by vm_compute].
  apply reachable_empty.
Defined.

Section Claims.

Variable size_to_sizeclass : N → N.
Variable sizeclass_to_size : N → N.

Lemma needs_finaliser_ring_obj h a (b : bool) :
  obj_sat (needs b) h a → Object.needs_finaliser_ring h a = Some b.
Proof.
  intros (x & Hx & Hb)%obj_sat_iff. unfold Object.needs_finaliser_ring.
  rewrite Hx. unfold needs in Hb. by rewrite Hb.
Qed.

(** C1: in every heap that [create], [alloc], [swap_root] and [merge]
    (and [gc]) build, every object met on the two rings of a region
    obeys the ring-partition law: it lies in the primary ring exactly
    when its [needs_finaliser_ring] equals that of the iso, and in the
    secondary ring exactly when it differs. *)
Theorem C1_ring_partition_law h this :
  reachable size_to_sizeclass sizeclass_to_size h →
  is_trace_region h this = true →
  ∃ o P S,
    rings h this o P S ∧
    ∀ a, a ∈ P ++ o :: S →
      (a ∈ P ++ [o] ↔
         Object.needs_finaliser_ring h a = Object.needs_finaliser_ring h o) ∧
      (a ∈ S ↔
         Object.needs_finaliser_ring h a ≠ Object.needs_finaliser_ring h o).
Proof.
  intros Hreach Htr. apply reachable_heap_inv in Hreach as (_ & Hregs & _).
  unfold is_trace_region in Htr. apply bool_decide_eq_true in Htr as [r Hr].
  apply get_reg_Some in Hr.
  destruct (Hregs _ _ Hr) as (o & P & S & Hinv). exists o, P, S.
  split; [by apply region_inv_rings|].
  destruct (region_inv_elim _ _ _ _ _ Hinv)
    as (_ & b & _ & _ & _ & _ & Hnd & _ & _ & _ & Hb & HbP & HbS).
  rewrite Forall_forall in HbP, HbS.
  rewrite (needs_finaliser_ring_obj _ _ _ Hb).
  apply NoDup_app in Hnd as (_ & Hd & Hnd).
  apply NoDup_cons in Hnd as [HoS _].
  assert (∀ a, a ∈ P ++ [o] → Object.needs_finaliser_ring h a = Some b) as H1.
  { intros a [Ha|[->|[]%elem_of_nil]%elem_of_cons]%elem_of_app;
      apply needs_finaliser_ring_obj; [by apply HbP|done]. }
  assert (∀ a, a ∈ S → Object.needs_finaliser_ring h a = Some (negb b)) as H2.
  { intros a Ha. by apply needs_finaliser_ring_obj, HbS. }
  intros a Ha.
  assert (a ∈ P ++ [o] ∨ a ∈ S) as Hcase.
  { revert Ha. rewrite !elem_of_app, !elem_of_cons, elem_of_nil. tauto. }
  split; split.
  - apply H1.
  - intros E. destruct Hcase as [|Ha']; [done|].
    rewrite (H2 a Ha') in E. by destruct b.
  - intros Ha'. rewrite (H2 a Ha'). by destruct b.
  - intros E. destruct Hcase as [Ha'|]; [|done].
    by rewrite (H1 a Ha') in E.
Qed.

(** C2: in every reachable heap, that is after [create], [alloc],
    [swap_root], [merge] and [gc], the primary ring of a region ends with
    its iso: the ring runs from the header through the non-iso objects
    [P] to the iso [o], whose next link is the header. *)
Theorem C2_iso_is_last_of_primary_ring h this :
  reachable size_to_sizeclass sizeclass_to_size h →
  is_trace_region h this = true →
  ∃ r o P,
    h !! this = Some (CRegion r) ∧
    lseg h (r_next r) this (P ++ [o]) ∧
    Object.debug_is_iso h o = true ∧
    Object.get_next_any_mark h o = Some this ∧
    Object.get_region h o = Some this ∧
    Forall (λ a, Object.debug_is_iso h a = false) P.
Proof.
  intros Hreach Htr. apply reachable_heap_inv in Hreach as (_ & Hregs & _).
  unfold is_trace_region in Htr. apply bool_decide_eq_true in Htr as [r Hr].
  apply get_reg_Some in Hr.
  destruct (Hregs _ _ Hr) as (o & P & S & Hinv).
  destruct (region_inv_elim _ _ _ _ _ Hinv)
    as (r' & b & Hr' & HP & _ & _ & _ & _ & Hiso & Hmut & _).
  assert (r' = r) as -> by congruence.
  exists r, o, P. do 2 (split; [done|]).
  pose proof Hiso as (x & Hx & Hc)%obj_sat_iff. unfold is_iso in Hc.
  pose proof (region_inv_iso_next _ _ _ _ _ _ Hinv Hx) as Hn.
  split; [|split; [|split]].
  - unfold Object.debug_is_iso, Object.get_class, get_obj. rewrite Hx. simpl.
    rewrite Hc. by apply bool_decide_eq_true.
  - unfold Object.get_next_any_mark, Object.get_next. by rewrite Hx, Hn.
  - unfold Object.get_region, get_obj. rewrite Hx. simpl.
    rewrite option_guard_True by done. simpl. by rewrite Hn.
  - apply Forall_forall. intros a Ha. rewrite Forall_forall in Hmut.
    assert (obj_sat is_mutable h a) as (y & Hy & Hm)%obj_sat_iff
      by (apply Hmut, elem_of_app; by left).
    unfold Object.debug_is_iso, Object.get_class, get_obj. rewrite Hy. simpl.
    apply bool_decide_eq_false. destruct Hm as [Hm|Hm]; rewrite Hm; congruence.
Qed.

End Claims.

Lemma C1_ring_partition_law_witness :
  reachable ex_size_to_sizeclass ex_sizeclass_to_size ex_h4 ∧
  is_trace_region ex_h4 2 = true ∧
  ∃ o P S,
    rings ex_h4 2 o P S ∧
    ∀ a, a ∈ P ++ o :: S →
      (a ∈ P ++ [o] ↔
         Object.needs_finaliser_ring ex_h4 a =
         Object.needs_finaliser_ring ex_h4 o) ∧
      (a ∈ S ↔
         Object.needs_finaliser_ring ex_h4 a ≠
         Object.needs_finaliser_ring ex_h4 o).
Proof.
  split; [exact ex_h4_reachable|]. split; [by vm_compute|].
  apply (C1_ring_partition_law ex_size_to_sizeclass ex_sizeclass_to_size).
  - exact ex_h4_reachable.
  - by vm_compute.
Defined.

Lemma C2_iso_is_last_of_primary_ring_witness :
  reachable ex_size_to_sizeclass ex_sizeclass_to_size ex_h4 ∧
  is_trace_region ex_h4 2 = true ∧
  ∃ r o P,
    ex_h4 !! 2%N = Some (CRegion r) ∧
    lseg ex_h4 (r_next r) 2 (P ++ [o]) ∧
    Object.debug_is_iso ex_h4 o = true ∧
    Object.get_next_any_mark ex_h4 o = Some 2%N ∧
    Object.get_region ex_h4 o = Some 2%N ∧
    Forall (λ a, Object.debug_is_iso ex_h4 a = false) P.
Proof.
  split; [exact ex_h4_reachable|]. split; [by vm_compute|].
  apply (C2_iso_is_last_of_primary_ring
           ex_size_to_sizeclass ex_sizeclass_to_size).
  - exact ex_h4_reachable.
  - by vm_compute.
Defined.




(** C4: the sweep of the finaliser ring runs the finaliser of every
    unreachable (unmarked) object that has one during the traversal of
    the ring, and deallocates the unreachable objects only afterwards,
    from the deferred list: in the event log all the finaliser calls of
    the ring come before every deallocation, so a finaliser runs while the
    other dead objects of the ring are still allocated. *)
Theorem C4_finalisers_before_deallocation fuel this c o c' P S (bo : bool) :
  heap c !! nullptr = None →
  rings (heap c) this o P S →
  obj_sat (needs bo) (heap c) o →
  sweep_ring fuel FinaliserRing this c o = Some c' →
  let d := unreachable (heap c) (swept_ring FinaliserRing bo o P S) in
  log c' =
    log c ++
    (EvFinalise <$>
       filter (λ a, Object.has_finaliser (heap c) a = Some true) d) ++
    (EvDealloc <$> rev d) ∧
  ∀ a, a ∈ d → heap c' !! a = None.
Proof.
  intros Hnull Hrings Hbo H d.
  pose proof Hrings as (r & Hr & _)%rings_iff.
  destruct (sweep_ring_spec _ _ _ _ _ _ _ _ _ _ H Hnull Hr Hrings Hbo)
    as (r' & _ & _ & _ & _ & _ & _ & _ & Hdead & _ & Hlog).
  split; [exact Hlog|exact Hdead].
Qed.

Lemma C4_finalisers_before_deallocation_witness :
  heap ex_c4 !! nullptr = None ∧
  rings (heap ex_c4) 2 1 [4%N] [5%N; 3%N] ∧
  obj_sat (needs false) (heap ex_c4) 1 ∧
  ∃ c',
    sweep_ring 10 FinaliserRing 2 ex_c4 1 = Some c' ∧
    log c' = [EvFinalise 5; EvFinalise 3; EvDealloc 3; EvDealloc 5] ∧
    (let d := unreachable (heap ex_c4)
                (swept_ring FinaliserRing false 1 [4%N] [5%N; 3%N]) in
     log c' =
       log ex_c4 ++
       (EvFinalise <$>
          filter (λ a, Object.has_finaliser (heap ex_c4) a = Some true) d) ++
       (EvDealloc <$> rev d) ∧
     ∀ a, a ∈ d → heap c' !! a = None).
Proof.
  assert (heap ex_c4 !! nullptr = None) as Hnull by (vm_compute; reflexivity).
  assert (rings (heap ex_c4) 2 1 [4%N] [5%N; 3%N]) as Hrings.
  { apply (proj2 (rings_iff (heap ex_c4) 2 1 [4%N] [5%N; 3%N])). eexists.
    split; [vm_compute; reflexivity|].
    repeat (split; [vm_compute; repeat split; reflexivity|]).
    apply (bool_decide_unpack _). vm_compute. exact I. }
  assert (obj_sat (needs false) (heap ex_c4) 1) as Hbo
    by (vm_compute; reflexivity).
  split; [exact Hnull|]. split; [exact Hrings|]. split; [exact Hbo|].
  destruct (sweep_ring 10 FinaliserRing 2 ex_c4 1) as [c'|] eqn:Hs;
    [|vm_compute in Hs; discriminate Hs].
  exists c'. split; [reflexivity|]. split.
  - vm_compute in Hs. injection Hs as <-. reflexivity.
  - exact (C4_finalisers_before_deallocation 10 2 ex_c4 1 c' [4%N] [5%N; 3%N]
             false Hnull Hrings Hbo Hs).
Defined.
Lemma ex_m4_reachable :
  reachable ex_size_to_sizeclass ex_sizeclass_to_size ex_m4.
Proof.
  apply (reachable_store _ _ ex_m3 4 [3%N; 7%N]);
    [|vm_compute; reflexivity].
  apply (reachable_store _ _ ex_m2 1 [4%N]); [|vm_compute; reflexivity].
  apply (reachable_alloc _ _ ex_m1 7 9 ex_dN); [|vm_compute; reflexivity].
  apply (reachable_create _ _ ex_h4 7 8 ex_dN); [|vm_compute; reflexivity].
  exact ex_h4_reachable.
Defined.

Lemma sum_sizes_ext h h' l :
  (∀ a, a ∈ l → obj_size h' a = obj_size h a) →
  sum_sizes h' l = sum_sizes h l.
Proof.
  unfold sum_sizes. induction l as [|a l IH]; intros Hext; [done|].
  simpl. rewrite IH by (intros; apply Hext; by right).
  rewrite Hext; [done|left].
Qed.

Lemma heap_inv_rings h this o P S :
  heap_inv h → rings h this o P S → region_inv h this o P S.
Proof.
  intros (_ & Hregs & _) Hrings.
  pose proof Hrings as (r & Hr & _)%rings_iff.
  destruct (Hregs _ _ Hr) as (o' & P' & S' & Hinv).
  destruct (rings_unique _ _ _ _ _ _ _ _ Hrings (region_inv_rings _ _ _ _ _ Hinv))
    as (-> & -> & ->).
  done.
Qed.

Section ClaimsGc.

Variable size_to_sizeclass : N → N.
Variable sizeclass_to_size : N → N.

(** C5: after [gc] returns, [current_memory_used] of the collected region
    is the sum of the sizes of its surviving objects, which are the iso
    and the objects that the mark phase marked, in the 64-bit arithmetic
    of [size_t]: it is that sum whenever the sum is below [2^64]. *)
Theorem C5_memory_used_after_gc fuel h o c' :
  reachable size_to_sizeclass sizeclass_to_size h →
  gc size_to_sizeclass fuel h o = Some c' →
  ∃ this P S h1 f marked r',
    rings h this o P S ∧
    mark fuel h this o [] 0 = Some (h1, f, marked) ∧
    rings (heap c') this o (survivors h1 P) (survivors h1 S) ∧
    heap c' !! this = Some (CRegion r') ∧
    let live := survivors h1 P ++ o :: survivors h1 S in
    current_memory_used r' =
      (sum_sizes (heap c') live mod size_t_modulus)%N ∧
    ((sum_sizes (heap c') live < size_t_modulus)%N →
     current_memory_used r' = sum_sizes (heap c') live).
Proof.
  intros Hreach H. apply reachable_heap_inv in Hreach.
  destruct (gc_spec _ _ _ _ _ H Hreach)
    as (this & P & S & h1 & f & marked & r' & _ & Hinv & Hmark & Hinv1 & _
        & Hinv' & Hr' & Hcmu & _ & Hcells & _).
  exists this, P, S, h1, f, marked, r'.
  split; [by apply region_inv_rings|]. split; [done|].
  split; [by apply region_inv_rings|]. split; [done|].
  cbv zeta.
  assert (sum_sizes (heap c') (survivors h1 P ++ o :: survivors h1 S) =
          sum_sizes h1 (survivors h1 P ++ o :: survivors h1 S)) as E.
  { apply sum_sizes_ext. intros a Ha.
    destruct (region_inv_elim _ _ _ _ _ Hinv1)
      as (_ & _ & _ & _ & _ & _ & _ & _ & Hiso & _).
    assert (a ∈ survivors h1 (P ++ o :: S)) as Ha'.
    { change (o :: S) with ([o] ++ S).
      rewrite !survivors_app, (survivors_iso _ _ Hiso). exact Ha. }
    destruct (rings_is_obj _ _ _ _ _ a (region_inv_rings _ _ _ _ _ Hinv1))
      as [x Hx]; [by apply survivors_subseteq in Ha'|].
    apply get_obj_Some in Hx.
    destruct (Hcells a x Ha' Hx) as (x' & Hx' & Hd & _).
    unfold obj_size, Object.size, get_obj. rewrite Hx, Hx'. simpl.
    by rewrite Hd. }
  rewrite E. split; [done|]. intros Hlt. rewrite Hcmu.
  by apply N.mod_small.
Qed.

End ClaimsGc.

Lemma C5_memory_used_after_gc_witness :
  reachable ex_size_to_sizeclass ex_sizeclass_to_size ex_m4 ∧
  ∃ c',
    gc ex_size_to_sizeclass 10 ex_m4 1 = Some c' ∧
    ∃ this P S h1 f marked r',
      rings ex_m4 this 1 P S ∧
      mark 10 ex_m4 this 1 [] 0 = Some (h1, f, marked) ∧
      rings (heap c') this 1 (survivors h1 P) (survivors h1 S) ∧
      heap c' !! this = Some (CRegion r') ∧
      let live := survivors h1 P ++ 1%N :: survivors h1 S in
      current_memory_used r' =
        (sum_sizes (heap c') live mod size_t_modulus)%N ∧
      ((sum_sizes (heap c') live < size_t_modulus)%N →
       current_memory_used r' = sum_sizes (heap c') live).
Proof.
  split; [exact ex_m4_reachable|].
  destruct (gc ex_size_to_sizeclass 10 ex_m4 1) as [c'|] eqn:Hgc;
    [|vm_compute in Hgc; discriminate Hgc].
  exists c'. split; [reflexivity|].
  exact (C5_memory_used_after_gc ex_size_to_sizeclass ex_sizeclass_to_size
           10 ex_m4 1 c' ex_m4_reachable Hgc).
Defined.

Lemma heap_inv_insert_region h a r r' :
  h !! a = Some (CRegion r) →
  ring_equiv (CRegion r) (CRegion r') →
  heap_inv h → heap_inv (<[a := CRegion r']> h).
Proof.
  intros Ha He (Hnull & Hregs & Hisos). split; [|split].
  - rewrite lookup_insert_ne; [done|]. congruence.
  - intros this x Hx.
    assert (∃ y, h !! this = Some (CRegion y)) as [y Hy].
    { destruct (decide (this = a)) as [->|Hne]; [by eauto|].
      rewrite lookup_insert_ne in Hx by done. eauto. }
    destruct (Hregs _ _ Hy) as (o & P & S & Hinv). exists o, P, S.
    by apply (region_inv_insert_equiv h a (CRegion r)).
  - intros b y Hy Hc.
    destruct (decide (b = a)) as [->|Hne];
      [by rewrite lookup_insert_eq in Hy|].
    rewrite lookup_insert_ne in Hy by done.
    destruct (Hisos _ _ Hy Hc) as (P & S & Hinv). exists P, S.
    by apply (region_inv_insert_equiv h a (CRegion r)).
Qed.

Section ClaimsMerge.

Variable size_to_sizeclass : N → N.
Variable sizeclass_to_size : N → N.

Lemma merge_previous_memory_used h into o h' :
  heap_inv h →
  merge size_to_sizeclass sizeclass_to_size h into o = Some h' →
  ∃ this other r ro r',
    get h into = Some this ∧ Object.get_region h o = Some other ∧
    h !! this = Some (CRegion r) ∧ h !! other = Some (CRegion ro) ∧
    h' !! this = Some (CRegion r') ∧
    previous_memory_used r' =
      size_to_sizeclass
        (size_t_add (sizeclass_to_size (previous_memory_used ro))
                    (sizeclass_to_size (previous_memory_used ro))).
Proof.
  intros Hh H.
  destruct (merge_Some _ _ _ _ _ _ H)
    as (reg & other & oo & r2 & Hget & Hoo & Hc & Hn & Hne & Hr2).
  destruct (heap_inv_get _ _ _ Hh Hget) as (P1 & S1 & Hinv1).
  pose proof Hh as (_ & _ & Hisos).
  destruct (Hisos _ _ Hoo Hc) as (P2 & S2 & Hinv2). rewrite Hn in Hinv2.
  destruct (region_inv_needs _ _ _ _ _ Hinv1) as [b1 Hb1].
  destruct (region_inv_needs _ _ _ _ _ Hinv2) as [b2 Hb2].
  destruct (region_inv_is_reg _ _ _ _ _ Hinv1) as [r1 Hr1].
  apply get_reg_Some in Hr1.
  destruct (merge_spec size_to_sizeclass sizeclass_to_size
              _ _ _ _ _ _ _ _ _ _ _ _ _ Hinv1 Hinv2 Hne Hb1 Hb2 Hr1 Hr2)
    as (h'' & r' & Hm & _ & Hr' & _ & Hpmu & _).
  assert (h'' = h') as -> by congruence.
  exists reg, other, r1, r2, r'. split; [done|]. split.
  { unfold Object.get_region, get_obj. rewrite Hoo. simpl.
    rewrite option_guard_True by done. simpl. by rewrite Hn. }
  done.
Qed.

(** C6: [merge] sets the [previous_memory_used] of the receiving region to
    the size class of [sizeclass_to_size (previous_memory_used other)]
    added to itself, where [other] is the donated region; the
    [previous_memory_used] of the receiving region does not enter: with
    any other value [n] in its place the merge gives the same result. *)
Theorem C6_merge_previous_memory_used h into o h' :
  reachable size_to_sizeclass sizeclass_to_size h →
  merge size_to_sizeclass sizeclass_to_size h into o = Some h' →
  ∃ this other r ro r',
    get h into = Some this ∧ Object.get_region h o = Some other ∧
    h !! this = Some (CRegion r) ∧ h !! other = Some (CRegion ro) ∧
    h' !! this = Some (CRegion r') ∧
    previous_memory_used r' =
      size_to_sizeclass
        (size_t_add (sizeclass_to_size (previous_memory_used ro))
                    (sizeclass_to_size (previous_memory_used ro))) ∧
    ∀ n hn,
      upd_reg (with_previous_memory_used n) h this = Some hn →
      ∃ hn' rn',
        merge size_to_sizeclass sizeclass_to_size hn into o = Some hn' ∧
        hn' !! this = Some (CRegion rn') ∧
        previous_memory_used rn' = previous_memory_used r'.
Proof.
  intros Hreach H. apply reachable_heap_inv in Hreach as Hh.
  destruct (merge_previous_memory_used _ _ _ _ Hh H)
    as (this & other & r & ro & r' & Hget & Hreg & Hr & Hro & Hr' & Hpmu).
  exists this, other, r, ro, r'. do 6 (split; [done|]).
  intros n hn Hn. unfold upd_reg, get_reg in Hn. rewrite Hr in Hn.
  injection Hn as <-.
  set (hn := <[this := CRegion (with_previous_memory_used n r)]> h).
  assert (heap_inv hn) as Hhn.
  { by apply (heap_inv_insert_region h this r). }
  destruct (merge_Some _ _ _ _ _ _ H)
    as (reg & other' & oo & r2 & Hget' & Hoo & Hc & Hnx & Hne & Hr2).
  assert (reg = this) as -> by congruence.
  assert (other' = other) as ->.
  { unfold Object.get_region, get_obj in Hreg. rewrite Hoo in Hreg.
    simpl in Hreg. rewrite option_guard_True in Hreg by done.
    simpl in Hreg. congruence. }
  assert (r2 = ro) as -> by congruence.
  destruct (heap_inv_get _ _ _ Hh Hget) as (P1 & S1 & Hinv1).
  pose proof Hh as (_ & _ & Hisos).
  destruct (Hisos _ _ Hoo Hc) as (P2 & S2 & Hinv2). rewrite Hnx in Hinv2.
  destruct (region_inv_needs _ _ _ _ _ Hinv1) as [b1 Hb1].
  destruct (region_inv_needs _ _ _ _ _ Hinv2) as [b2 Hb2].
  assert (∀ t oo' P S, region_inv h t oo' P S → region_inv hn t oo' P S)
    as Htr.
  { intros t oo' P S. by apply (region_inv_insert_equiv h this (CRegion r)). }
  assert (hn !! other = Some (CRegion ro)) as Hro'.
  { unfold hn. by rewrite lookup_insert_ne. }
  destruct (merge_spec size_to_sizeclass sizeclass_to_size
              hn into o this other P1 S1 P2 S2
              (with_previous_memory_used n r) ro b1 b2)
    as (hn' & rn' & Hm & _ & Hrn' & _ & Hpmu' & _);
    [by apply Htr|by apply Htr|done| | |apply lookup_insert_eq|done|].
  - by apply (obj_sat_insert_reg _ h _ this r).
  - by apply (obj_sat_insert_reg _ h _ this r).
  - exists hn', rn'. split; [done|]. split; [done|]. by rewrite Hpmu', Hpmu.
Qed.

End ClaimsMerge.

Lemma ex_m2_reachable :
  reachable ex_size_to_sizeclass ex_sizeclass_to_size ex_m2.
Proof.
  apply (reachable_alloc _ _ ex_m1 7 9 ex_dN); [|vm_compute; reflexivity].
  apply (reachable_create _ _ ex_h4 7 8 ex_dN); [|vm_compute; reflexivity].
  exact ex_h4_reachable.
Defined.

Lemma ex_g1_reachable :
  reachable ex_size_to_sizeclass ex_sizeclass_to_size ex_g1.
Proof.
  destruct (gc ex_size_to_sizeclass 10 ex_m2 7) as [c|] eqn:Hgc;
    [|vm_compute in Hgc; discriminate Hgc].
  replace ex_g1 with (heap c) by (unfold ex_g1; rewrite Hgc; reflexivity).
  exact (reachable_gc _ _ 10 ex_m2 7 c ex_m2_reachable Hgc).
Defined.

Lemma C6_merge_previous_memory_used_witness :
  reachable ex_size_to_sizeclass ex_sizeclass_to_size ex_g1 ∧
  ∃ h',
    merge ex_size_to_sizeclass ex_sizeclass_to_size ex_g1 1 7 = Some h' ∧
    ∃ this other r ro r',
      get ex_g1 1 = Some this ∧ Object.get_region ex_g1 7 = Some other ∧
      ex_g1 !! this = Some (CRegion r) ∧ ex_g1 !! other = Some (CRegion ro) ∧
      h' !! this = Some (CRegion r') ∧
      previous_memory_used r' =
        ex_size_to_sizeclass
          (size_t_add (ex_sizeclass_to_size (previous_memory_used ro))
                      (ex_sizeclass_to_size (previous_memory_used ro))) ∧
      ∀ n hn,
        upd_reg (with_previous_memory_used n) ex_g1 this = Some hn →
        ∃ hn' rn',
          merge ex_size_to_sizeclass ex_sizeclass_to_size hn 1 7 = Some hn' ∧
          hn' !! this = Some (CRegion rn') ∧
          previous_memory_used rn' = previous_memory_used r'.
Proof.
  split; [exact ex_g1_reachable|].
  destruct (merge ex_size_to_sizeclass ex_sizeclass_to_size ex_g1 1 7)
    as [h'|] eqn:Hm; [|vm_compute in Hm; discriminate Hm].
  exists h'. split; [reflexivity|].
  exact (C6_merge_previous_memory_used
           ex_size_to_sizeclass ex_sizeclass_to_size ex_g1 1 7 h'
           ex_g1_reachable Hm).
Defined.

Lemma split_at_app n (C D : list N) :
  n ∉ C → split_at n (C ++ n :: D) = (C, D).
Proof.
  induction C as [|a C IH]; intros Hn; simpl.
  - by rewrite decide_True.
  - rewrite decide_False.
    + rewrite IH; [done|]. intros ?. apply Hn. by right.
    + intros ->. apply Hn. left.
Qed.

Lemma NoDup_split_unique (x : N) (A B A' B' : list N) :
  NoDup (A ++ x :: B) → A ++ x :: B = A' ++ x :: B' → A = A' ∧ B = B'.
Proof.
  revert A'. induction A as [|a A IH]; intros A' Hnd E.
  - destruct A' as [|a' A']; simpl in E.
    + by injection E.
    + injection E as <- E. exfalso. simpl in Hnd.
      apply NoDup_cons in Hnd as [Hx _]. apply Hx. rewrite E.
      apply elem_of_app. right. left.
  - destruct A' as [|a' A']; simpl in E.
    + injection E as -> E. exfalso. simpl in Hnd.
      apply NoDup_cons in Hnd as [Hx _]. apply Hx.
      apply elem_of_app. right. left.
    + injection E as <- E. simpl in Hnd.
      apply NoDup_cons in Hnd as [_ Hnd].
      destruct (IH A' Hnd E) as [-> ->]. done.
Qed.

Lemma swap_root_unfold h this prev next P S :
  region_inv h this prev P S → next ∈ P ++ S →
  swap_root h prev next = swap_root_internal h this prev next.
Proof.
  intros Hinv Hnext.
  destruct (region_inv_elim _ _ _ _ _ Hinv)
    as (r & b & Hr & HP & HS & Hlast & Hnd & Hthis & Hiso & Hmut & _).
  pose proof Hiso as (x & Hx & Hc)%obj_sat_iff. unfold is_iso in Hc.
  rewrite Forall_forall in Hmut.
  pose proof (Hmut next Hnext) as (y & Hy & Hm)%obj_sat_iff.
  assert (prev ≠ next) as Hne.
  { intros <-. apply NoDup_app in Hnd as (_ & Hd & Hnd).
    apply NoDup_cons in Hnd as [HoS _].
    apply elem_of_app in Hnext as [Ha|Ha]; [|done]. apply (Hd prev Ha). left. }
  assert (this ≠ next) as Hne'.
  { intros <-. apply Hthis. revert Hnext.
    rewrite !elem_of_app, elem_of_cons. tauto. }
  unfold swap_root. rewrite option_guard_True by done.
  cbn [mbind option_bind].
  rewrite option_guard_True.
  2:{ unfold Object.debug_is_iso, Object.get_class, get_obj. rewrite Hx.
      simpl. rewrite Hc. by apply bool_decide_eq_true. }
  cbn [mbind option_bind].
  rewrite option_guard_True.
  2:{ unfold Object.debug_is_mutable, Object.get_class, get_obj. rewrite Hy.
      simpl. apply bool_decide_eq_true. unfold is_mutable in Hm.
      destruct Hm as [->| ->]; auto. }
  cbn [mbind option_bind].
  pose proof (region_inv_iso_next _ _ _ _ _ _ Hinv Hx) as Hn.
  unfold Object.get_region, get_obj. rewrite Hx. cbn [mbind option_bind].
  rewrite option_guard_True by done. cbn [mbind option_bind].
  rewrite Hn. rewrite option_guard_True by done. cbn [mbind option_bind].
  by rewrite (region_inv_get _ _ _ _ _ Hinv).
Qed.

Lemma lseg_hd h p q l : lseg h p q l → p = hd q l.
Proof. destruct l as [|a l]; [done|]. by intros [-> _]. Qed.

Lemma rings_pointers h this o P S r :
  rings h this o P S → h !! this = Some (CRegion r) →
  r_next r = hd this (P ++ [o]) ∧ next_not_root r = hd this S ∧
  last_not_root r = last_or this S.
Proof.
  intros (r' & Hr' & HP & HS & Hlast & _)%rings_iff Hr.
  assert (r' = r) as -> by congruence.
  split; [by apply lseg_hd in HP|]. split; [by apply lseg_hd in HS|done].
Qed.

Lemma rotate_to_last_app n (C D : list N) :
  n ∉ C → rotate_to_last n (C ++ n :: D) = (D ++ C) ++ [n].
Proof.
  intros Hn. unfold rotate_to_last. rewrite split_at_app by done.
  by rewrite app_assoc.
Qed.

(** The two swaps of [swap_root (prev, next)] and [swap_root (next, prev)]
    succeed, and give back the primary ring; the secondary ring comes back
    rotated when [next] lies in it. *)
Lemma swap_root_twice h this prev next P S :
  heap_inv h → region_inv h this prev P S → next ∈ P ++ S →
  ∃ h1 h2,
    swap_root h prev next = Some h1 ∧
    swap_root h1 next prev = Some h2 ∧
    region_inv h2 this prev P
      (if decide (next ∈ S) then rotate_to_last next S else S).
Proof.
  intros Hh Hinv Hnext. pose proof Hh as (Hnull & _).
  destruct (swap_root_internal_spec h this prev next P S Hnull Hinv Hnext)
    as (h1 & P1 & S1 & Hs1 & Hinv1 & _ & _ & Hcase1).
  assert (swap_root h prev next = Some h1) as Hsw1
    by (by rewrite (swap_root_unfold h this prev next P S)).
  pose proof (swap_root_heap_inv _ _ _ _ Hh Hsw1) as Hh1.
  pose proof Hh1 as (Hnull1 & _).
  destruct (region_inv_elim _ _ _ _ _ Hinv)
    as (_ & _ & _ & _ & _ & _ & Hnd & _).
  destruct (region_inv_elim _ _ _ _ _ Hinv1)
    as (_ & _ & _ & _ & _ & _ & Hnd1 & _).
  pose proof Hnd as Hnd0.
  apply NoDup_app in Hnd as (HndP & Hd & Hnd).
  apply NoDup_cons in Hnd as [HoS HndS].
  assert (prev ∈ P1 ++ S1) as Hprev.
  { destruct Hcase1 as [(A & B & -> & -> & ->)|(C & D & -> & -> & ->)];
      rewrite !elem_of_app, ?elem_of_cons; [left; right; by left|].
    right. right. by left. }
  destruct (swap_root_internal_spec h1 this next prev P1 S1 Hnull1 Hinv1 Hprev)
    as (h2 & P2 & S2 & Hs2 & Hinv2 & _ & _ & Hcase2).
  assert (swap_root h1 next prev = Some h2) as Hsw2
    by (by rewrite (swap_root_unfold h1 this next prev P1 S1)).
  exists h1, h2. do 2 (split; [done|]).
  apply NoDup_app in Hnd1 as (HndP1 & _ & Hnd1).
  apply NoDup_cons in Hnd1 as [_ HndS1].
  destruct Hcase1 as [(A & B & -> & -> & ->)|(C & D & -> & -> & ->)].
  - (* [next] is in the primary ring *)
    rewrite decide_False.
    2:{ intros HnS. apply (Hd next); [|by right].
        apply elem_of_app. right. left. }
    destruct Hcase2 as [(A' & B' & E & -> & ->)|(C' & D' & -> & _)].
    + destruct (NoDup_split_unique prev B A A' B' HndP1 E) as [<- <-]. done.
    + exfalso. apply HoS. apply elem_of_app. right. left.
  - (* [next] is in the secondary ring *)
    rewrite decide_True by (apply elem_of_app; right; left).
    assert (next ∉ C) as HnC.
    { apply NoDup_app in HndS as (_ & HdS & _). intros Hn.
      apply (HdS next Hn). left. }
    rewrite rotate_to_last_app by done.
    destruct Hcase2 as [(A' & B' & E & _)|(C' & D' & E & -> & ->)].
    + exfalso. apply HoS.
      assert (prev ∈ D ++ C) as Hin
        by (rewrite E; apply elem_of_app; right; left).
      revert Hin. rewrite !elem_of_app, elem_of_cons. tauto.
    + destruct (NoDup_split_unique prev P [] C' D' HndS1 E) as [<- <-]. done.
Qed.

Section ClaimsSwap.

Variable size_to_sizeclass : N → N.
Variable sizeclass_to_size : N → N.

(** C7 (amended): for the iso [prev] of a region and an interior mutable
    [next] of the same region, [swap_root (prev, next)] followed by
    [swap_root (next, prev)] succeeds and restores the iso, the primary
    ring with its order, and the ring invariants.  The secondary ring and
    the pointers [next_not_root] and [last_not_root] are restored when
    [next] lies in the primary ring or is [last_not_root]; when [next]
    lies elsewhere in the secondary ring, that ring comes back rotated,
    with [next] as its last element. *)
Theorem C7_swap_root_round_trip h this prev next P S :
  reachable size_to_sizeclass sizeclass_to_size h →
  rings h this prev P S → next ∈ P ++ S →
  ∃ h1 h2 r r2,
    swap_root h prev next = Some h1 ∧
    swap_root h1 next prev = Some h2 ∧
    h !! this = Some (CRegion r) ∧ h2 !! this = Some (CRegion r2) ∧
    region_inv h2 this prev P
      (if decide (next ∈ S) then rotate_to_last next S else S) ∧
    r_next r2 = r_next r ∧
    (next ∈ P ∨ last_not_root r = next →
       region_inv h2 this prev P S ∧
       next_not_root r2 = next_not_root r ∧
       last_not_root r2 = last_not_root r) ∧
    (next ∈ S → last_not_root r2 = next).
Proof.
  intros Hreach Hrings Hnext. apply reachable_heap_inv in Hreach as Hh.
  pose proof (heap_inv_rings _ _ _ _ _ Hh Hrings) as Hinv.
  destruct (swap_root_twice h this prev next P S Hh Hinv Hnext)
    as (h1 & h2 & Hsw1 & Hsw2 & Hinv2).
  pose proof Hrings as (r & Hr & _)%rings_iff.
  pose proof (region_inv_rings _ _ _ _ _ Hinv2) as Hrings2.
  pose proof Hrings2 as (r2 & Hr2 & _)%rings_iff.
  exists h1, h2, r, r2. do 5 (split; [done|]).
  destruct (rings_pointers _ _ _ _ _ _ Hrings Hr) as (Hn & Hnn & Hl).
  destruct (rings_pointers _ _ _ _ _ _ Hrings2 Hr2) as (Hn2 & Hnn2 & Hl2).
  split; [by rewrite Hn, Hn2|].
  destruct (region_inv_elim _ _ _ _ _ Hinv)
    as (_ & _ & _ & _ & _ & _ & Hnd & _).
  apply NoDup_app in Hnd as (HndP & Hd & Hnd).
  apply NoDup_cons in Hnd as [HoS HndS].
  split.
  - intros Hcase.
    assert ((if decide (next ∈ S) then rotate_to_last next S else S) = S)
      as E.
    { destruct (decide (next ∈ S)) as [HnS|]; [|done].
      destruct Hcase as [HnP|Hlast].
      { exfalso. apply (Hd next HnP). by right. }
      apply list_elem_of_split in HnS as (C & D & ->).
      assert (next ∉ C) as HnC.
      { apply NoDup_app in HndS as (_ & HdS & _). intros Hn'.
        apply (HdS next Hn'). left. }
      rewrite rotate_to_last_app by done.
      destruct D as [|t D] using rev_ind; [done|]. exfalso.
      rewrite Hl in Hlast.
      change (C ++ next :: D ++ [t]) with (C ++ (next :: D) ++ [t]) in Hlast.
      rewrite app_assoc, last_or_snoc in Hlast. subst t.
      apply NoDup_app in HndS as (_ & _ & HndS).
      apply NoDup_cons in HndS as [Hx _]. apply Hx.
      apply elem_of_app. right. left. }
    rewrite E in Hinv2, Hnn2, Hl2.
    split; [done|]. split; congruence.
  - intros HnS. rewrite Hl2. rewrite decide_True by done.
    apply list_elem_of_split in HnS as (C & D & ->).
    assert (next ∉ C) as HnC.
    { apply NoDup_app in HndS as (_ & HdS & _). intros Hn'.
      apply (HdS next Hn'). left. }
    rewrite rotate_to_last_app by done. apply last_or_snoc.
Qed.

End ClaimsSwap.

Lemma ex_h4_rings : rings ex_h4 2 1 [4%N] [5%N; 3%N].
Proof.
  apply (proj2 (rings_iff ex_h4 2 1 [4%N] [5%N; 3%N])). eexists.
  split; [vm_compute; reflexivity|].
  repeat (split; [vm_compute; repeat split; reflexivity|]).
  apply (bool_decide_unpack _). vm_compute. exact I.
Defined.

(** C7 (as stated) fails: in the region with primary ring [4; 1] and
    secondary ring [5; 3], swapping the root from [1] to [5] and back
    leaves the secondary ring as [3; 5]. *)
Lemma C7_round_trip_counterexample :
  ¬ (∀ h this prev next P S h1 h2,
       reachable ex_size_to_sizeclass ex_sizeclass_to_size h →
       rings h this prev P S → next ∈ P ++ S →
       swap_root h prev next = Some h1 →
       swap_root h1 next prev = Some h2 →
       rings h2 this prev P S).
Proof.
  intros H.
  specialize (H ex_h4 2%N 1%N 5%N [4%N] [5%N; 3%N] ex_s1 ex_s2
                ex_h4_reachable ex_h4_rings).
  assert (rings ex_s2 2 1 [4%N] [5%N; 3%N]) as Hr.
  { apply H.
    - apply (bool_decide_unpack _). vm_compute. exact I.
    - vm_compute. reflexivity.
    - vm_compute. reflexivity. }
  clear H. apply (proj1 (rings_iff _ _ _ _ _)) in Hr as (r & Hr & _ & HS & _).
  vm_compute in Hr. injection Hr as <-. vm_compute in HS.
  destruct HS as [HS _]. discriminate HS.
Qed.

Lemma C7_swap_root_round_trip_witness :
  reachable ex_size_to_sizeclass ex_sizeclass_to_size ex_h4 ∧
  rings ex_h4 2 1 [4%N] [5%N; 3%N] ∧
  5%N ∈ [4%N] ++ [5%N; 3%N] ∧
  ∃ h1 h2 r r2,
    swap_root ex_h4 1 5 = Some h1 ∧
    swap_root h1 5 1 = Some h2 ∧
    ex_h4 !! 2%N = Some (CRegion r) ∧ h2 !! 2%N = Some (CRegion r2) ∧
    region_inv h2 2 1 [4%N]
      (if decide (5%N ∈ [5%N; 3%N]) then rotate_to_last 5 [5%N; 3%N]
       else [5%N; 3%N]) ∧
    r_next r2 = r_next r ∧
    (5%N ∈ [4%N] ∨ last_not_root r = 5%N →
       region_inv h2 2 1 [4%N] [5%N; 3%N] ∧
       next_not_root r2 = next_not_root r ∧
       last_not_root r2 = last_not_root r) ∧
    (5%N ∈ [5%N; 3%N] → last_not_root r2 = 5%N).
Proof.
  assert (5%N ∈ [4%N] ++ [5%N; 3%N]) as Hin
    by (apply (bool_decide_unpack _); vm_compute; exact I).
  split; [exact ex_h4_reachable|]. split; [exact ex_h4_rings|].
  split; [exact Hin|].
  exact (C7_swap_root_round_trip ex_size_to_sizeclass ex_sizeclass_to_size
           ex_h4 2 1 5 [4%N] [5%N; 3%N] ex_h4_reachable ex_h4_rings Hin).
Defined.
Section ClaimsMergeRings.

Variable size_to_sizeclass : N → N.
Variable sizeclass_to_size : N → N.

(** C8: after [merge (into, o)], where [o] is the iso of another trace
    region, [o] is an ordinary interior object of the region of [into]:
    the donated primary chain, which ends with [o], is spliced at the
    head of the ring of [into] that matches the finaliser need of [o]
    (the primary ring when [o] and [into] agree, the secondary ring
    otherwise), and the kind of [o] is no longer ISO. *)
Theorem C8_merged_iso_becomes_interior h into o h' :
  reachable size_to_sizeclass sizeclass_to_size h →
  merge size_to_sizeclass sizeclass_to_size h into o = Some h' →
  ∃ this other P1 S1 P2 S2 (b1 b2 : bool),
    rings h this into P1 S1 ∧ rings h other o P2 S2 ∧ this ≠ other ∧
    Object.needs_finaliser_ring h into = Some b1 ∧
    Object.needs_finaliser_ring h o = Some b2 ∧
    rings h' this into
      (if decide (b2 = b1) then (P2 ++ [o]) ++ P1 else S2 ++ P1)
      (if decide (b2 = b1) then S2 ++ S1 else (P2 ++ [o]) ++ S1) ∧
    Object.debug_is_iso h' o = false ∧
    Object.debug_is_mutable h' o = true ∧
    Object.debug_is_iso h' into = true ∧
    h' !! other = None.
Proof.
  intros Hreach H. apply reachable_heap_inv in Hreach as Hh.
  destruct (merge_Some _ _ _ _ _ _ H)
    as (reg & other & oo & r2 & Hget & Hoo & Hc & Hn & Hne & Hr2).
  destruct (heap_inv_get _ _ _ Hh Hget) as (P1 & S1 & Hinv1).
  pose proof Hh as (_ & _ & Hisos).
  destruct (Hisos _ _ Hoo Hc) as (P2 & S2 & Hinv2). rewrite Hn in Hinv2.
  destruct (region_inv_needs _ _ _ _ _ Hinv1) as [b1 Hb1].
  destruct (region_inv_needs _ _ _ _ _ Hinv2) as [b2 Hb2].
  destruct (region_inv_is_reg _ _ _ _ _ Hinv1) as [r1 Hr1].
  apply get_reg_Some in Hr1.
  destruct (merge_spec size_to_sizeclass sizeclass_to_size
              _ _ _ _ _ _ _ _ _ _ _ _ _ Hinv1 Hinv2 Hne Hb1 Hb2 Hr1 Hr2)
    as (h'' & r' & Hm & Hinv' & _ & _ & _ & _ & _ & Hother & Ho & _).
  assert (h'' = h') as -> by congruence.
  exists reg, other, P1, S1, P2, S2, b1, b2.
  split; [by apply region_inv_rings|]. split; [by apply region_inv_rings|].
  split; [done|].
  split; [by apply needs_finaliser_ring_obj|].
  split; [by apply needs_finaliser_ring_obj|].
  split; [by apply region_inv_rings|].
  apply obj_sat_iff in Ho as (x & Hx & Hcx).
  split; [|split; [|split; [|done]]].
  - unfold Object.debug_is_iso, Object.get_class, get_obj. rewrite Hx. simpl.
    rewrite Hcx. by apply bool_decide_eq_false.
  - unfold Object.debug_is_mutable, Object.get_class, get_obj. rewrite Hx.
    simpl. rewrite Hcx. apply bool_decide_eq_true. by left.
  - destruct (region_inv_elim _ _ _ _ _ Hinv')
      as (_ & _ & _ & _ & _ & _ & _ & _ & (y & Hy & Hcy)%obj_sat_iff & _).
    unfold Object.debug_is_iso, Object.get_class, get_obj. rewrite Hy. simpl.
    unfold is_iso in Hcy. rewrite Hcy. by apply bool_decide_eq_true.
Qed.

End ClaimsMergeRings.

Lemma C8_merged_iso_becomes_interior_witness :
  reachable ex_size_to_sizeclass ex_sizeclass_to_size ex_m2 ∧
  ∃ h',
    merge ex_size_to_sizeclass ex_sizeclass_to_size ex_m2 1 7 = Some h' ∧
    rings h' 2 1 [9%N; 7%N; 4%N] [5%N; 3%N] ∧
    ∃ this other P1 S1 P2 S2 (b1 b2 : bool),
      rings ex_m2 this 1 P1 S1 ∧ rings ex_m2 other 7 P2 S2 ∧ this ≠ other ∧
      Object.needs_finaliser_ring ex_m2 1 = Some b1 ∧
      Object.needs_finaliser_ring ex_m2 7 = Some b2 ∧
      rings h' this 1
        (if decide (b2 = b1) then (P2 ++ [7%N]) ++ P1 else S2 ++ P1)
        (if decide (b2 = b1) then S2 ++ S1 else (P2 ++ [7%N]) ++ S1) ∧
      Object.debug_is_iso h' 7 = false ∧
      Object.debug_is_mutable h' 7 = true ∧
      Object.debug_is_iso h' 1 = true ∧
      h' !! other = None.
Proof.
  split; [exact ex_m2_reachable|].
  destruct (merge ex_size_to_sizeclass ex_sizeclass_to_size ex_m2 1 7)
    as [h'|] eqn:Hm; [|vm_compute in Hm; discriminate Hm].
  exists h'. split; [reflexivity|]. split.
  - vm_compute in Hm. injection Hm as <-.
    apply (proj2 (rings_iff _ 2 1 [9%N; 7%N; 4%N] [5%N; 3%N])). eexists.
    split; [vm_compute; reflexivity|].
    repeat (split; [vm_compute; repeat split; reflexivity|]).
    apply (bool_decide_unpack _). vm_compute. exact I.
  - exact (C8_merged_iso_becomes_interior
             ex_size_to_sizeclass ex_sizeclass_to_size ex_m2 1 7 h'
             ex_m2_reachable Hm).
Defined.
Lemma allocs_spec this in_ (bo : bool) l :
  ∀ h P S h',
    heap_inv h → region_inv h this in_ P S → obj_sat (needs bo) h in_ →
    allocs h in_ l = Some h' →
    heap_inv h' ∧
    region_inv h' this in_
      (rev (filter (λ od, desc_needs_finaliser_ring od.2 = bo) l).*1 ++ P)
      (rev (filter (λ od, desc_needs_finaliser_ring od.2 ≠ bo) l).*1 ++ S) ∧
    obj_sat (needs bo) h' in_.
Proof.
  induction l as [|[o d] l IH]; intros h P S h' Hh Hinv Hbo H.
  - simpl in H. injection H as <-. done.
  - simpl in H. destruct (alloc h in_ o d) as [h1|] eqn:Ha; [|done].
    cbn [mbind option_bind] in H.
    destruct (alloc_Some _ _ _ _ _ Ha) as (reg & Hget & Hfresh).
    assert (reg = this) as ->.
    { rewrite (region_inv_get _ _ _ _ _ Hinv) in Hget. congruence. }
    destruct (region_inv_is_reg _ _ _ _ _ Hinv) as [r Hr].
    apply get_reg_Some in Hr.
    destruct (alloc_spec h in_ this o d P S r bo Hinv Hr Hbo Hfresh)
      as (r' & oo' & Ha' & Hinv1 & _).
    rewrite Ha in Ha'. injection Ha' as ->.
    pose proof (alloc_heap_inv _ _ _ _ _ Hh Ha) as Hh1.
    assert (obj_sat (needs bo) (<[this:=CRegion r']> (<[o:=CObject oo']> h))
              in_) as Hbo1.
    { apply obj_sat_iff in Hbo as (x & Hx & Hb). apply obj_sat_iff.
      exists x. split; [|done]. destruct Hfresh as [_ Hfo].
      rewrite !lookup_insert_ne; [done| |]; congruence. }
    destruct (IH _ _ _ _ Hh1 Hinv1 Hbo1 H) as (Hh' & Hinv' & Hbo').
    split; [done|]. split; [|done].
    rewrite !filter_cons. cbn [snd].
    destruct (decide (desc_needs_finaliser_ring d = bo)) as [E|E].
    + rewrite decide_False by (intros ?; done).
      rewrite fmap_cons. cbn [fst rev]. rewrite <- app_assoc. exact Hinv'.
    + rewrite decide_True by done.
      rewrite fmap_cons. cbn [fst rev]. rewrite <- app_assoc. exact Hinv'.
Qed.

Lemma sublist_filter_mono {A} (P : A → Prop) `{∀ x, Decision (P x)} l1 l2 :
  l1 `sublist_of` l2 → filter P l1 `sublist_of` filter P l2.
Proof.
  induction 1 as [|x l1 l2 _ IH|x l1 l2 _ IH].
  - done.
  - rewrite !filter_cons. destruct (decide (P x)); [by apply sublist_skip|done].
  - rewrite filter_cons. destruct (decide (P x)); [by apply sublist_cons|done].
Qed.

Lemma filter_ext_in {A} (P Q : A → Prop) `{∀ x, Decision (P x)}
    `{∀ x, Decision (Q x)} (l : list A) :
  (∀ a, a ∈ l → P a ↔ Q a) → filter P l = filter Q l.
Proof.
  induction l as [|a l IH]; intros Hext; [done|].
  rewrite !filter_cons.
  rewrite IH by (intros b Hb; apply Hext; by right).
  destruct (decide (P a)) as [HP|HP], (decide (Q a)) as [HQ|HQ]; try done.
  - destruct HQ. by apply (Hext a); [left|].
  - destruct HP. by apply (Hext a); [left|].
Qed.

Section HistoryProofs.

Variable size_to_sizeclass : N → N.
Variable sizeclass_to_size : N → N.

Lemma ring_history_inv in_ h L :
  ring_history size_to_sizeclass sizeclass_to_size in_ h L →
  reachable size_to_sizeclass sizeclass_to_size h ∧
  ∃ this P S,
    rings h this in_ P S ∧
    P `sublist_of` L ∧ S `sublist_of` L ∧ L ≡ₚ P ++ S.
Proof.
  induction 1 as [h this P S Hreach Hrings
                 |h L o d h' _ [Hreach (this & P & S & Hrings & HP & HS & HL)] Ha
                 |h L o other P2 S2 h' _
                    [Hreach (this & P & S & Hrings & HP & HS & HL)] Hr2 Hm
                 |h L fuel c _ [Hreach (this & P & S & Hrings & HP & HS & HL)] Hgc
                 |h L a fs h' _ [Hreach (this & P & S & Hrings & HP & HS & HL)] Hst
                 |h L this0 h' _ [Hreach (this & P & S & Hrings & HP & HS & HL)]
                    Hreach' Hget Hfr].
  - split; [done|]. exists this, P, S. split; [done|].
    split; [by apply sublist_inserts_r|]. split; [by apply sublist_inserts_l|done].
  - (* alloc *)
    split; [by eapply reachable_alloc|].
    apply reachable_heap_inv in Hreach as Hh.
    pose proof (heap_inv_rings _ _ _ _ _ Hh Hrings) as Hinv.
    destruct (alloc_Some _ _ _ _ _ Ha) as (reg & Hget & Hfresh).
    assert (reg = this) as ->.
    { rewrite (region_inv_get _ _ _ _ _ Hinv) in Hget. congruence. }
    destruct (region_inv_is_reg _ _ _ _ _ Hinv) as [r Hr].
    apply get_reg_Some in Hr.
    destruct (region_inv_needs _ _ _ _ _ Hinv) as [bo Hbo].
    destruct (alloc_spec h in_ this o d P S r bo Hinv Hr Hbo Hfresh)
      as (r' & oo' & Ha' & Hinv1 & _).
    rewrite Ha in Ha'. injection Ha' as ->.
    apply region_inv_rings in Hinv1.
    destruct (decide (desc_needs_finaliser_ring d = bo)).
    + exists this, (o :: P), S. split; [done|].
      split; [by apply sublist_skip|]. split; [by apply sublist_cons|].
      by rewrite HL.
    + exists this, P, (o :: S). split; [done|].
      split; [by apply sublist_cons|]. split; [by apply sublist_skip|].
      rewrite HL. by rewrite Permutation_middle.
  - (* merge *)
    split; [by eapply reachable_merge|].
    apply reachable_heap_inv in Hreach as Hh.
    pose proof (heap_inv_rings _ _ _ _ _ Hh Hrings) as Hinv1.
    pose proof (heap_inv_rings _ _ _ _ _ Hh Hr2) as Hinv2.
    destruct (merge_Some _ _ _ _ _ _ Hm)
      as (reg & other' & oo & r2 & Hget & Hoo & Hc & Hn & Hne & Hrr2).
    assert (reg = this) as ->.
    { rewrite (region_inv_get _ _ _ _ _ Hinv1) in Hget. congruence. }
    assert (other' = other) as ->.
    { pose proof (region_inv_get _ _ _ _ _ Hinv2) as Hg.
      destruct (get_Some _ _ _ Hg) as (oo' & rr & Hoo' & _ & Hnn & _).
      congruence. }
    destruct (region_inv_needs _ _ _ _ _ Hinv1) as [b1 Hb1].
    destruct (region_inv_needs _ _ _ _ _ Hinv2) as [b2 Hb2].
    destruct (region_inv_is_reg _ _ _ _ _ Hinv1) as [r1 Hr1].
    apply get_reg_Some in Hr1.
    destruct (merge_spec size_to_sizeclass sizeclass_to_size
                _ _ _ _ _ _ _ _ _ _ _ _ _ Hinv1 Hinv2 Hne Hb1 Hb2 Hr1 Hrr2)
      as (h'' & r' & Hm' & Hinv' & _).
    assert (h'' = h') as -> by congruence.
    apply region_inv_rings in Hinv'.
    eexists this, _, _. split; [exact Hinv'|].
    destruct (decide (b2 = b1)).
    + split.
      { apply sublist_app; [|done].
        apply sublist_app; [done|]. apply sublist_skip, sublist_nil_l. }
      split.
      { apply sublist_app; [|done].
        apply sublist_inserts_l, sublist_cons. done. }
      rewrite HL. solve_Permutation.
    + split.
      { apply sublist_app; [|done].
        apply sublist_inserts_l, sublist_cons. done. }
      split.
      { apply sublist_app; [|done].
        apply sublist_app; [done|]. apply sublist_skip, sublist_nil_l. }
      rewrite HL. solve_Permutation.
  - (* gc *)
    split; [by eapply reachable_gc|].
    apply reachable_heap_inv in Hreach as Hh.
    pose proof (heap_inv_rings _ _ _ _ _ Hh Hrings) as Hinv.
    destruct (gc_spec _ _ _ _ _ Hgc Hh)
      as (reg & P0 & S0 & h1 & f & marked & r' & Hget & Hinv0 & Hmark & Hinv1
          & _ & Hinvc & _ & _ & _ & Hcells & Hdead).
    assert (reg = this) as ->.
    { rewrite (region_inv_get _ _ _ _ _ Hinv) in Hget. congruence. }
    destruct (region_inv_unique _ _ _ _ _ _ _ _ Hinv Hinv0) as (_ & <- & <-).
    set (present := λ a : N, is_Some (heap c !! a)).
    assert (∀ a, a ∈ P ++ S →
              Object.get_class h1 a ≠ Some UNMARKED ↔ present a) as Hpres.
    { intros a Ha.
      assert (a ∈ P ++ in_ :: S) as Ha'
        by (revert Ha; rewrite !elem_of_app, elem_of_cons; tauto).
      split.
      - intros Hc.
        destruct (rings_is_obj h1 this in_ P S a
                    (region_inv_rings _ _ _ _ _ Hinv1) Ha') as [x Hx].
        apply get_obj_Some in Hx.
        destruct (Hcells a x) as (x' & Hx' & _); [|done|by eexists].
        unfold survivors. by apply list_elem_of_filter.
      - intros [y Hy] Hc. rewrite Hdead in Hy; [done|].
        unfold unreachable. by apply list_elem_of_filter. }
    assert (survivors h1 P = filter present P) as EP.
    { unfold survivors. apply filter_ext_in. intros a Ha. apply Hpres.
      apply elem_of_app. by left. }
    assert (survivors h1 S = filter present S) as ES.
    { unfold survivors. apply filter_ext_in. intros a Ha. apply Hpres.
      apply elem_of_app. by right. }
    apply region_inv_rings in Hinvc. rewrite EP, ES in Hinvc.
    exists this, (filter present P), (filter present S).
    split; [done|]. split; [by apply sublist_filter_mono|].
    split; [by apply sublist_filter_mono|].
    rewrite HL. by rewrite filter_app.
  - (* store *)
    split; [by eapply reachable_store|].
    exists this, P, S. split; [|done].
    apply reachable_heap_inv in Hreach as Hh.
    pose proof (heap_inv_rings _ _ _ _ _ Hh Hrings) as Hinv.
    unfold store, upd_obj in Hst.
    destruct (get_obj h a) as [x|] eqn:Hx; [|done]. injection Hst as <-.
    apply get_obj_Some in Hx. apply region_inv_rings.
    by apply (region_inv_insert_equiv h a (CObject x)).
  - (* a step that changes no cell of the region *)
    split; [done|]. exists this, P, S. split; [|done].
    apply reachable_heap_inv in Hreach as Hh.
    pose proof (heap_inv_rings _ _ _ _ _ Hh Hrings) as Hinv.
    assert (this0 = this) as ->.
    { rewrite (region_inv_get _ _ _ _ _ Hinv) in Hget. congruence. }
    apply region_inv_rings. apply (region_inv_frame h); [|done].
    intros a Ha. apply Hfr. unfold region_cells in Ha.
    revert Ha. rewrite !elem_of_cons, elem_of_app, elem_of_cons.
    intros [->|[Ha|[->|Ha]]]; [tauto|right; right|tauto|right; right];
      rewrite HL, elem_of_app; tauto.
Qed.

End HistoryProofs.

Section ClaimsAppend.

Variable size_to_sizeclass : N → N.
Variable sizeclass_to_size : N → N.

(** C9 (amended): [append] splices at the head of the target ring, so,
    as long as [swap_root] is not applied to the region, each ring lists
    its objects in reverse order of insertion.  In every history of the
    region without [swap_root], with [L] the objects inserted and still
    present, the latest first: the two rings are subsequences of [L] that
    together hold exactly the objects of [L]; the latest object of [L] is
    the head of its ring (the header link for the primary ring,
    [next_not_root] for the secondary ring); and [last_not_root] is the
    last object of the secondary ring, the earliest inserted that is
    still present.  A further sequence [l] of allocations puts the new
    objects in front, in reverse order of insertion; allocating [B] and
    then further objects into an empty secondary ring leaves
    [last_not_root] at [B]. *)
Theorem C9_append_splices_at_head in_ h L :
  ring_history size_to_sizeclass sizeclass_to_size in_ h L →
  ∃ this P S r,
    rings h this in_ P S ∧ h !! this = Some (CRegion r) ∧
    P `sublist_of` L ∧ S `sublist_of` L ∧ L ≡ₚ P ++ S ∧
    r_next r = hd this (P ++ [in_]) ∧
    next_not_root r = hd this S ∧
    last_not_root r = last_or this S ∧
    (∀ o L', L = o :: L' → r_next r = o ∨ next_not_root r = o) ∧
    (∀ (bo : bool) l h',
       Object.needs_finaliser_ring h in_ = Some bo →
       allocs h in_ l = Some h' →
       let same := filter (λ od, desc_needs_finaliser_ring od.2 = bo) l in
       let other := filter (λ od, desc_needs_finaliser_ring od.2 ≠ bo) l in
       ∃ r',
         h' !! this = Some (CRegion r') ∧
         rings h' this in_ (rev same.*1 ++ P) (rev other.*1 ++ S) ∧
         r_next r' = hd this ((rev same.*1 ++ P) ++ [in_]) ∧
         next_not_root r' = hd this (rev other.*1 ++ S) ∧
         last_not_root r' = last_or this (rev other.*1 ++ S) ∧
         (S = [] → ∀ B dB rest, other = (B, dB) :: rest →
                   last_not_root r' = B)).
Proof.
  intros Hrun.
  destruct (ring_history_inv _ _ _ _ _ Hrun)
    as (Hreach & this & P & S & Hrings & HP & HS & HL).
  pose proof Hrings as (r & Hr & _ & _ & _ & Hnd)%rings_iff.
  destruct (rings_pointers _ _ _ _ _ _ Hrings Hr) as (E1 & E2 & E3).
  exists this, P, S, r. do 8 (split; [done|]). split; last first.
  { intros bo l h' Hn H same other.
    apply reachable_heap_inv in Hreach as Hh.
    pose proof (heap_inv_rings _ _ _ _ _ Hh Hrings) as Hinv.
    assert (obj_sat (needs bo) h in_) as Hbo.
    { destruct (region_inv_needs _ _ _ _ _ Hinv) as [b Hb].
      rewrite (needs_finaliser_ring_obj _ _ _ Hb) in Hn. congruence. }
    destruct (allocs_spec this in_ bo l h P S h' Hh Hinv Hbo H)
      as (_ & Hinv' & _).
    fold same other in Hinv'.
    pose proof (region_inv_rings _ _ _ _ _ Hinv') as Hrings'.
    pose proof Hrings' as (r' & Hr' & _)%rings_iff.
    exists r'. split; [done|]. split; [done|].
    destruct (rings_pointers _ _ _ _ _ _ Hrings' Hr') as (F1 & F2 & F3).
    do 3 (split; [done|]).
    intros -> B dB rest E. rewrite F3, E, app_nil_r.
    rewrite fmap_cons. cbn [fst rev]. apply last_or_snoc. }
  intros o L' ->.
  assert (NoDup (o :: L')) as HndL.
  { rewrite HL. apply NoDup_app in Hnd as (HndP & Hd & HndS).
    apply NoDup_cons in HndS as [_ HndS]. apply NoDup_app.
    split; [done|]. split; [|done]. intros a Ha Ha'. apply (Hd a Ha).
    by right. }
  apply NoDup_cons in HndL as [HoL _].
  assert (o ∈ P ++ S) as Ho by (rewrite <- HL; left).
  apply elem_of_app in Ho as [Ho|Ho].
  - left. rewrite E1.
    apply sublist_cons_r in HP as [HP|(P' & -> & _)]; [|done].
    destruct HoL. by apply (elem_of_sublist P).
  - right. rewrite E2.
    apply sublist_cons_r in HS as [HS|(S' & -> & _)]; [|done].
    destruct HoL. by apply (elem_of_sublist S).
Qed.

End ClaimsAppend.

Lemma ex_h1_reachable :
  reachable ex_size_to_sizeclass ex_sizeclass_to_size ex_h1.
Proof.
  apply (reachable_create _ _ ∅ 1 2 ex_dN); [|vm_compute; reflexivity].
  apply reachable_empty.
Defined.

Lemma ex_h1_rings : rings ex_h1 2 1 [] [].
Proof.
  apply (proj2 (rings_iff ex_h1 2 1 [] [])). eexists.
  split; [vm_compute; reflexivity|].
  repeat (split; [vm_compute; repeat split; reflexivity|]).
  apply (bool_decide_unpack _). vm_compute. exact I.
Defined.

(** C9 (as stated) fails: [swap_root] relinks the rings.  In the region
    created with the iso [1], the allocations of [3], [4] and [5] leave
    the secondary ring as [5; 3]; after [swap_root (1, 5)] and
    [swap_root (5, 1)] the secondary ring is [3; 5] and [last_not_root]
    is [5], although [3] was inserted before [5]. *)
Lemma C9_reverse_insertion_order_counterexample :
  ¬ (∀ h this in_ P S (bo : bool) l h1 next h2 h3,
       reachable ex_size_to_sizeclass ex_sizeclass_to_size h →
       rings h this in_ P S →
       Object.needs_finaliser_ring h in_ = Some bo →
       allocs h in_ l = Some h1 →
       swap_root h1 in_ next = Some h2 →
       swap_root h2 next in_ = Some h3 →
       rings h3 this in_
         (rev (filter (λ od, desc_needs_finaliser_ring od.2 = bo) l).*1 ++ P)
         (rev (filter (λ od, desc_needs_finaliser_ring od.2 ≠ bo) l).*1 ++ S))
  ∧
  ¬ (∀ h this in_ P S (bo : bool) l h1 next h2 h3 r,
       reachable ex_size_to_sizeclass ex_sizeclass_to_size h →
       rings h this in_ P S →
       Object.needs_finaliser_ring h in_ = Some bo →
       allocs h in_ l = Some h1 →
       swap_root h1 in_ next = Some h2 →
       swap_root h2 next in_ = Some h3 →
       h3 !! this = Some (CRegion r) →
       last_not_root r =
         last_or this
           (rev (filter (λ od, desc_needs_finaliser_ring od.2 ≠ bo) l).*1
            ++ S)).
Proof.
  assert (Object.needs_finaliser_ring ex_h1 1 = Some false) as Hn
    by (vm_compute; reflexivity).
  assert (allocs ex_h1 1 [(3%N, ex_dF); (4%N, ex_dN); (5%N, ex_dF)]
          = Some ex_h4) as Ha by (vm_compute; reflexivity).
  assert (swap_root ex_h4 1 5 = Some ex_s1) as Hs1
    by (vm_compute; reflexivity).
  assert (swap_root ex_s1 5 1 = Some ex_s2) as Hs2
    by (vm_compute; reflexivity).
  split.
  - intros H.
    pose proof (H ex_h1 2%N 1%N [] [] false
                  [(3%N, ex_dF); (4%N, ex_dN); (5%N, ex_dF)]
                  ex_h4 5%N ex_s1 ex_s2
                  ex_h1_reachable ex_h1_rings Hn Ha Hs1 Hs2) as Hr.
    clear H.
    apply (proj1 (rings_iff _ _ _ _ _)) in Hr as (r & Hr & _ & HS & _).
    vm_compute in Hr. injection Hr as <-. vm_compute in HS.
    destruct HS as [HS _]. discriminate HS.
  - intros H.
    destruct (ex_s2 !! 2%N) as [[x|r]|] eqn:Hr;
      [vm_compute in Hr; discriminate Hr| |vm_compute in Hr; discriminate Hr].
    pose proof (H ex_h1 2%N 1%N [] [] false
                  [(3%N, ex_dF); (4%N, ex_dN); (5%N, ex_dF)]
                  ex_h4 5%N ex_s1 ex_s2 r
                  ex_h1_reachable ex_h1_rings Hn Ha Hs1 Hs2 Hr) as Hl.
    clear H. vm_compute in Hr. injection Hr as <-.
    vm_compute in Hl. discriminate Hl.
Qed.

Lemma ex_h4_history :
  ring_history ex_size_to_sizeclass ex_sizeclass_to_size 1 ex_h4
    [5%N; 4%N; 3%N].
Proof.
  apply (history_alloc _ _ 1 ex_h3 [4%N; 3%N] 5 ex_dF);
    [|vm_compute; reflexivity].
  apply (history_alloc _ _ 1 ex_h2 [3%N] 4 ex_dN);
    [|vm_compute; reflexivity].
  apply (history_alloc _ _ 1 ex_h1 [] 3 ex_dF);
    [|vm_compute; reflexivity].
  exact (history_start _ _ 1 ex_h1 2 [] [] ex_h1_reachable ex_h1_rings).
Defined.

Lemma ex_r2_history :
  ring_history ex_size_to_sizeclass ex_sizeclass_to_size 1 ex_r2 [5%N].
Proof.
  assert (ring_history ex_size_to_sizeclass ex_sizeclass_to_size 1 ex_r1
            [5%N; 4%N; 3%N]) as H1.
  { apply (history_store _ _ 1 ex_h4 _ 1 [5%N]);
      [exact ex_h4_history|vm_compute; reflexivity]. }
  destruct (gc ex_size_to_sizeclass 10 ex_r1 1) as [c|] eqn:Hgc;
    [|vm_compute in Hgc; discriminate Hgc].
  pose proof (history_gc _ _ 1 ex_r1 _ 10 c H1 Hgc) as H2.
  assert (heap c = ex_r2) as E1.
  { unfold ex_r2. rewrite Hgc. reflexivity. }
  assert (filter (λ a, is_Some (heap c !! a)) [5%N; 4%N; 3%N] = [5%N]) as E2.
  { vm_compute in Hgc. injection Hgc as <-. vm_compute. reflexivity. }
  rewrite E2, E1 in H2. exact H2.
Defined.

Lemma C9_append_splices_at_head_witness :
  ring_history ex_size_to_sizeclass ex_sizeclass_to_size 1 ex_h4
    [5%N; 4%N; 3%N] ∧
  ring_history ex_size_to_sizeclass ex_sizeclass_to_size 1 ex_r2 [5%N] ∧
  (∃ r, rings ex_h4 2 1 [4%N] [5%N; 3%N] ∧
        ex_h4 !! 2%N = Some (CRegion r) ∧
        r_next r = 4%N ∧ next_not_root r = 5%N ∧ last_not_root r = 3%N) ∧
  (∃ r, rings ex_r2 2 1 [] [5%N] ∧
        ex_r2 !! 2%N = Some (CRegion r) ∧
        r_next r = 1%N ∧ next_not_root r = 5%N ∧ last_not_root r = 5%N) ∧
  (∃ this P S r,
     rings ex_h4 this 1 P S ∧ ex_h4 !! this = Some (CRegion r) ∧
     P `sublist_of` [5%N; 4%N; 3%N] ∧ S `sublist_of` [5%N; 4%N; 3%N] ∧
     [5%N; 4%N; 3%N] ≡ₚ P ++ S ∧
     r_next r = hd this (P ++ [1%N]) ∧
     next_not_root r = hd this S ∧
     last_not_root r = last_or this S ∧
     (∀ o L', [5%N; 4%N; 3%N] = o :: L' →
              r_next r = o ∨ next_not_root r = o) ∧
     (∀ (bo : bool) l h',
        Object.needs_finaliser_ring ex_h4 1 = Some bo →
        allocs ex_h4 1 l = Some h' →
        let same := filter (λ od, desc_needs_finaliser_ring od.2 = bo) l in
        let other := filter (λ od, desc_needs_finaliser_ring od.2 ≠ bo) l in
        ∃ r',
          h' !! this = Some (CRegion r') ∧
          rings h' this 1 (rev same.*1 ++ P) (rev other.*1 ++ S) ∧
          r_next r' = hd this ((rev same.*1 ++ P) ++ [1%N]) ∧
          next_not_root r' = hd this (rev other.*1 ++ S) ∧
          last_not_root r' = last_or this (rev other.*1 ++ S) ∧
          (S = [] → ∀ B dB rest, other = (B, dB) :: rest →
                    last_not_root r' = B))) ∧
  (∃ this P S r,
     rings ex_r2 this 1 P S ∧ ex_r2 !! this = Some (CRegion r) ∧
     P `sublist_of` [5%N] ∧ S `sublist_of` [5%N] ∧
     [5%N] ≡ₚ P ++ S ∧
     r_next r = hd this (P ++ [1%N]) ∧
     next_not_root r = hd this S ∧
     last_not_root r = last_or this S ∧
     (∀ o L', [5%N] = o :: L' → r_next r = o ∨ next_not_root r = o) ∧
     (∀ (bo : bool) l h',
        Object.needs_finaliser_ring ex_r2 1 = Some bo →
        allocs ex_r2 1 l = Some h' →
        let same := filter (λ od, desc_needs_finaliser_ring od.2 = bo) l in
        let other := filter (λ od, desc_needs_finaliser_ring od.2 ≠ bo) l in
        ∃ r',
          h' !! this = Some (CRegion r') ∧
          rings h' this 1 (rev same.*1 ++ P) (rev other.*1 ++ S) ∧
          r_next r' = hd this ((rev same.*1 ++ P) ++ [1%N]) ∧
          next_not_root r' = hd this (rev other.*1 ++ S) ∧
          last_not_root r' = last_or this (rev other.*1 ++ S) ∧
          (S = [] → ∀ B dB rest, other = (B, dB) :: rest →
                    last_not_root r' = B))).
Proof.
  split; [exact ex_h4_history|]. split; [exact ex_r2_history|].
  split.
  { eexists. split; [exact ex_h4_rings|].
    split; [vm_compute; reflexivity|].
    repeat split; vm_compute; reflexivity. }
  split.
  { eexists. split.
    - apply (proj2 (rings_iff ex_r2 2 1 [] [5%N])). eexists.
      split; [vm_compute; reflexivity|].
      repeat (split; [vm_compute; repeat split; reflexivity|]).
      apply (bool_decide_unpack _). vm_compute. exact I.
    - split; [vm_compute; reflexivity|].
      repeat split; vm_compute; reflexivity. }
  split.
  - exact (C9_append_splices_at_head
             ex_size_to_sizeclass ex_sizeclass_to_size 1 ex_h4
             [5%N; 4%N; 3%N] ex_h4_history).
  - exact (C9_append_splices_at_head
             ex_size_to_sizeclass ex_sizeclass_to_size 1 ex_r2
             [5%N] ex_r2_history).
Defined.

Lemma EvFinalise_in_sweep_events h d1 d2 p :
  EvFinalise p ∈ sweep_ring_events FinaliserRing h d1 ++
                 sweep_ring_events NonfinaliserRing h d2 ↔
  p ∈ d1 ∧ Object.has_finaliser h p = Some true.
Proof.
  unfold sweep_ring_events, finalise_events.
  rewrite !elem_of_app, !list_elem_of_fmap. split.
  - intros [[(q & E & Hq)|(q & E & _)]|(q & E & _)]; try discriminate E.
    injection E as ->. apply list_elem_of_filter in Hq as [? ?]. done.
  - intros [Hp Hf]. left. left. exists p. split; [done|].
    by apply list_elem_of_filter.
Qed.

Section ClaimsRelease.

Variable size_to_sizeclass : N → N.
Variable sizeclass_to_size : N → N.

(** C10: [release_internal] calls [finalise] on the iso of the region
    whatever [has_finaliser] says of it: given fuel for the objects of
    the region, and no unmarked object without finaliser ring that may
    hold an iso (the assertion of the sweep), it returns, and its first
    event is the finaliser of the iso; so is the first event of every
    run that returns.  [sweep] calls [finalise] on an object exactly when
    the object is an unreachable object of the finaliser ring whose
    [has_finaliser] is true, and never on the iso. *)
Theorem C10_release_finalises_iso_unconditionally fuel this c o P S
    (bo : bool) :
  reachable size_to_sizeclass sizeclass_to_size (heap c) →
  rings (heap c) this o P S →
  Object.needs_finaliser_ring (heap c) o = Some bo →
  (sweep_ready (heap c) (P ++ o :: S) →
   (length (P ++ o :: S) ≤ fuel)%nat →
   ∃ c' evs, release_internal size_to_sizeclass fuel this c o = Some c' ∧
             log c' = log c ++ EvFinalise o :: evs) ∧
  (∀ c', release_internal size_to_sizeclass fuel this c o = Some c' →
     ∃ evs, log c' = log c ++ EvFinalise o :: evs) ∧
  (∀ marked c', sweep size_to_sizeclass fuel this c o marked = Some c' →
     ∃ evs, log c' = log c ++ evs ∧
       (EvFinalise o ∉ evs) ∧
       ∀ p, EvFinalise p ∈ evs ↔
            p ∈ unreachable (heap c) (swept_ring FinaliserRing bo o P S) ∧
            Object.has_finaliser (heap c) p = Some true).
Proof.
  intros Hreach Hrings Hn. apply reachable_heap_inv in Hreach as Hh.
  pose proof (heap_inv_rings _ _ _ _ _ Hh Hrings) as Hinv. split; [|split].
  - intros Hready Hfuel. pose proof Hh as (Hnull & _).
    destruct (release_internal_total size_to_sizeclass fuel this c o P S
                Hnull Hinv Hready Hfuel) as [c' H].
    destruct (release_internal_spec _ _ _ _ _ _ _ _ H Hh Hinv)
      as (_ & _ & _ & _ & evs & Hlog). by exists c', evs.
  - intros c' H.
    destruct (release_internal_spec _ _ _ _ _ _ _ _ H Hh Hinv)
      as (_ & _ & _ & _ & Hlog). exact Hlog.
  - intros marked c' H. pose proof Hh as (Hnull & _).
    destruct (sweep_spec _ _ _ _ _ _ _ _ _ H Hnull Hinv)
      as (bo' & r' & Hbo' & _ & _ & _ & _ & _ & _ & _ & _ & Hlog).
    cbv zeta in Hlog.
    assert (bo' = bo) as ->.
    { rewrite (needs_finaliser_ring_obj _ _ _ Hbo') in Hn. congruence. }
    eexists. split; [exact Hlog|].
    assert (∀ p, EvFinalise p ∈
              sweep_ring_events FinaliserRing (heap c)
                (unreachable (heap c) (swept_ring FinaliserRing bo o P S)) ++
              sweep_ring_events NonfinaliserRing (heap c)
                (unreachable (heap c) (swept_ring NonfinaliserRing bo o P S)) ↔
              p ∈ unreachable (heap c) (swept_ring FinaliserRing bo o P S) ∧
              Object.has_finaliser (heap c) p = Some true) as Hiff
      by (intros p; apply EvFinalise_in_sweep_events).
    split; [|exact Hiff].
    intros [Ho _]%Hiff. unfold unreachable in Ho.
    apply list_elem_of_filter in Ho as [Hc _].
    destruct (region_inv_elim _ _ _ _ _ Hinv)
      as (_ & _ & _ & _ & _ & _ & _ & _ & (x & Hx & Hcx)%obj_sat_iff & _).
    unfold Object.get_class, get_obj in Hc. rewrite Hx in Hc. simpl in Hc.
    unfold is_iso in Hcx. congruence.
Qed.

End ClaimsRelease.

Lemma ex_h4_sweep_ready : sweep_ready ex_h4 ([4%N] ++ 1%N :: [5%N; 3%N]).
Proof.
  intros a x Ha Hx Hu Hnf. simpl in Ha.
  repeat (apply elem_of_cons in Ha as [->|Ha]).
  5:{ apply elem_of_nil in Ha. destruct Ha. }
  all: vm_compute in Hx.
  all: injection Hx as <-.
  all: first [reflexivity | discriminate Hnf | discriminate Hu].
Qed.

Lemma C10_release_finalises_iso_unconditionally_witness :
  reachable ex_size_to_sizeclass ex_sizeclass_to_size (heap ex_c4) ∧
  rings (heap ex_c4) 2 1 [4%N] [5%N; 3%N] ∧
  Object.needs_finaliser_ring (heap ex_c4) 1 = Some false ∧
  Object.has_finaliser (heap ex_c4) 1 = Some false ∧
  sweep_ready (heap ex_c4) ([4%N] ++ 1%N :: [5%N; 3%N]) ∧
  (length ([4%N] ++ 1%N :: [5%N; 3%N]) ≤ 4)%nat ∧
  (∃ c' evs, release_internal ex_size_to_sizeclass 4 2 ex_c4 1 = Some c' ∧
             log c' = log ex_c4 ++ EvFinalise 1 :: evs) ∧
  (∃ c', release_internal ex_size_to_sizeclass 4 2 ex_c4 1 = Some c' ∧
         log c' = [EvFinalise 1; EvFinalise 5; EvFinalise 3; EvDealloc 3;
                   EvDealloc 5; EvDealloc 4; EvDealloc 2; EvDealloc 1]) ∧
  (∃ c', sweep ex_size_to_sizeclass 4 2 ex_c4 1 0 = Some c' ∧
         log c' = [EvFinalise 5; EvFinalise 3; EvDealloc 3; EvDealloc 5;
                   EvDealloc 4]) ∧
  (∀ c', release_internal ex_size_to_sizeclass 4 2 ex_c4 1 = Some c' →
     ∃ evs, log c' = log ex_c4 ++ EvFinalise 1 :: evs) ∧
  (∀ marked c', sweep ex_size_to_sizeclass 4 2 ex_c4 1 marked = Some c' →
     ∃ evs, log c' = log ex_c4 ++ evs ∧
       (EvFinalise 1 ∉ evs) ∧
       ∀ p, EvFinalise p ∈ evs ↔
            p ∈ unreachable (heap ex_c4)
                  (swept_ring FinaliserRing false 1 [4%N] [5%N; 3%N]) ∧
            Object.has_finaliser (heap ex_c4) p = Some true).
Proof.
  assert (Object.needs_finaliser_ring (heap ex_c4) 1 = Some false) as Hn
    by (vm_compute; reflexivity).
  assert (length ([4%N] ++ 1%N :: [5%N; 3%N]) ≤ 4)%nat as Hfuel
    by (simpl; lia).
  destruct (C10_release_finalises_iso_unconditionally
              ex_size_to_sizeclass ex_sizeclass_to_size 4 2 ex_c4 1
              [4%N] [5%N; 3%N] false ex_h4_reachable ex_h4_rings Hn)
    as (Hret & Hrel & Hsweep).
  split; [exact ex_h4_reachable|]. split; [exact ex_h4_rings|].
  split; [exact Hn|]. split; [vm_compute; reflexivity|].
  split; [exact ex_h4_sweep_ready|]. split; [exact Hfuel|].
  split; [exact (Hret ex_h4_sweep_ready Hfuel)|].
  split; [eexists; split; vm_compute; reflexivity|].
  split; [eexists; split; vm_compute; reflexivity|].
  split; [exact Hrel|exact Hsweep].
Defined.

(** * Further properties of the region operations *)

Lemma iterator_new_Both h r : iterator_new Both h r = iterator_begin h r.
Proof. done. Qed.

Lemma iterator_next_Both h reg ptr :
  iterator_next Both h reg ptr = iterator_incr h reg ptr.
Proof. done. Qed.

Lemma rings_null_notin h this o P S :
  h !! nullptr = None → rings h this o P S → nullptr ∉ P ++ o :: S.
Proof.
  intros Hnull Hrings Hin.
  destruct (rings_is_obj _ _ _ _ _ _ Hrings Hin) as [x Hx].
  apply get_obj_Some in Hx. congruence.
Qed.

Lemma iterate_null fuel type h reg :
  iterate fuel type h reg nullptr = Some [].
Proof. by destruct fuel. Qed.

(** The loop over both rings visits the rest of the region in order. *)
Lemma iterate_Both h this o P S fuel :
  h !! nullptr = None → region_inv h this o P S →
  ∀ L2 L1, P ++ o :: S = L1 ++ L2 → length L2 ≤ fuel →
    iterate fuel Both h this (hd nullptr L2) = Some L2.
Proof.
  intros Hnull Hinv.
  pose proof (rings_null_notin _ _ _ _ _ Hnull (region_inv_rings _ _ _ _ _ Hinv))
    as Hnn.
  induction fuel as [|fuel IH]; intros L2 L1 E Hlen.
  - destruct L2; [|simpl in Hlen; lia]. simpl. first [done | by rewrite decide_True].
  - destruct L2 as [|p L2].
    { simpl. first [done | by rewrite decide_True]. }
    cbn [hd iterate]. rewrite decide_False.
    2:{ intros ->. apply Hnn. rewrite E. apply elem_of_app. right. left. }
    rewrite iterator_next_Both.
    rewrite (iterator_incr_spec h this o P S L1 p L2 Hinv E).
    cbn [mbind option_bind].
    rewrite (IH L2 (L1 ++ [p])).
    + done.
    + by rewrite <- app_assoc.
    + simpl in Hlen. lia.
Qed.

(** The loop of a single-ring iterator visits the rest of the ring. *)
Lemma iterate_ring (type : IteratorType) h this r fuel :
  type ≠ Both → h !! nullptr = None → h !! this = Some (CRegion r) →
  ∀ l p, lseg h p this l → length l ≤ fuel →
    iterate fuel type h this (hd nullptr l) = Some l.
Proof.
  intros Hty Hnull Hr.
  induction fuel as [|fuel IH]; intros l p Hl Hlen.
  - destruct l; [|simpl in Hlen; lia]. simpl. first [done | by rewrite decide_True].
  - destruct l as [|a l].
    { simpl. first [done | by rewrite decide_True]. }
    apply lseg_cons in Hl as (-> & x & Hx & Hl).
    cbn [hd iterate]. rewrite decide_False by congruence.
    unfold iterator_next, Object.get_next_any_mark, Object.get_next.
    rewrite Hx. cbn [mbind option_bind].
    pose proof (lseg_hd _ _ _ _ Hl) as Hhd.
    destruct l as [|b l].
    + simpl in Hhd. rewrite decide_False by (intros ?; done).
      destruct type; try done; cbn [mbind option_bind];
        by rewrite iterate_null.
    + simpl in Hhd. pose proof Hl as Hl'.
      apply lseg_cons in Hl' as (_ & y & Hy & _).
      rewrite decide_True by (rewrite Hhd; intros E'; rewrite E' in Hy; congruence).
      cbn [mbind option_bind].
      rewrite Hhd. change b with (hd nullptr (b :: l)) at 1.
      rewrite (IH (b :: l) b); [done| |simpl in *; lia].
      by rewrite Hhd in Hl.
Qed.

Section ExtraIterators.

Variable size_to_sizeclass : N → N.
Variable sizeclass_to_size : N → N.

(** X1: the iterator over both rings visits every object of the region
    exactly once: first the primary ring in ring order, ending with the
    iso, then the secondary ring in ring order. *)
Theorem X1_iterator_visits_both_rings h this o P S :
  reachable size_to_sizeclass sizeclass_to_size h →
  rings h this o P S →
  iterator_objects Both h this = Some (P ++ o :: S) ∧ NoDup (P ++ o :: S).
Proof.
  intros Hreach Hrings. apply reachable_heap_inv in Hreach as Hh.
  pose proof Hh as (Hnull & _).
  pose proof (heap_inv_rings _ _ _ _ _ Hh Hrings) as Hinv.
  destruct (region_inv_elim _ _ _ _ _ Hinv)
    as (r & b & Hr & HP & _ & _ & Hnd & Hthis & _).
  split; [|done].
  unfold iterator_objects, iterator_new, Object.get_next. rewrite Hr.
  cbn [mbind option_bind].
  pose proof (lseg_hd _ _ _ _ HP) as Hhd.
  assert (r_next r = hd nullptr (P ++ o :: S)) as E.
  { rewrite Hhd. by destruct P. }
  rewrite decide_False.
  2:{ rewrite E. intros E'. apply Hthis. rewrite <- E'.
      destruct P; simpl; left. }
  rewrite E. apply (iterate_Both h this o P S _ Hnull Hinv _ []); [done|].
  pose proof (rings_length _ _ _ _ _ Hrings) as Hlen. simpl in Hlen. lia.
Qed.

(** X2: the typed iterators each visit one ring: [NoFinaliser] visits, in
    ring order, the ring of the objects that do not need the finaliser
    ring and [NeedsFinaliser] the ring of those that do, that is the
    primary ring (with the iso) or the secondary ring according to the
    iso; an empty secondary ring gives an empty iteration. *)
Theorem X2_typed_iterators_visit_one_ring h this o P S (bo : bool) :
  reachable size_to_sizeclass sizeclass_to_size h →
  rings h this o P S →
  Object.needs_finaliser_ring h o = Some bo →
  iterator_objects NoFinaliser h this =
    Some (if bo then S else P ++ [o]) ∧
  iterator_objects NeedsFinaliser h this =
    Some (if bo then P ++ [o] else S) ∧
  Forall (λ a, Object.needs_finaliser_ring h a = Some false)
    (if bo then S else P ++ [o]) ∧
  Forall (λ a, Object.needs_finaliser_ring h a = Some true)
    (if bo then P ++ [o] else S).
Proof.
  intros Hreach Hrings Hn. apply reachable_heap_inv in Hreach as Hh.
  pose proof Hh as (Hnull & _).
  pose proof (heap_inv_rings _ _ _ _ _ Hh Hrings) as Hinv.
  destruct (region_inv_elim _ _ _ _ _ Hinv)
    as (r & b & Hr & HP & HS & _ & Hnd & Hthis & _ & _ & Hb & HbP & HbS).
  assert (b = bo) as ->.
  { rewrite (needs_finaliser_ring_obj _ _ _ Hb) in Hn. congruence. }
  pose proof (rings_length _ _ _ _ _ Hrings) as Hlen. simpl in Hlen.
  rewrite length_app in Hlen. simpl in Hlen.
  assert (Forall (λ a, Object.needs_finaliser_ring h a = Some bo) (P ++ [o]))
    as HfP.
  { apply Forall_app. split.
    - eapply Forall_impl; [exact HbP|]. intros a Ha.
      by apply needs_finaliser_ring_obj.
    - apply Forall_singleton. by apply needs_finaliser_ring_obj. }
  assert (Forall (λ a, Object.needs_finaliser_ring h a = Some (negb bo)) S)
    as HfS.
  { eapply Forall_impl; [exact HbS|]. intros a Ha.
    by apply needs_finaliser_ring_obj. }
  pose proof (lseg_hd _ _ _ _ HP) as HhdP.
  pose proof (lseg_hd _ _ _ _ HS) as HhdS.
  assert (∃ q, r_next r = q ∧ q ≠ this ∧ hd nullptr (P ++ [o]) = q ∧
               Object.needs_finaliser_ring h q = Some bo) as (q & Hq & Hqt & Hqh & Hqn).
  { exists (r_next r). split; [done|].
    assert (r_next r ∈ P ++ [o]) as Hin.
    { rewrite HhdP. destruct P; simpl; left. }
    split; [|split].
    - intros E. apply Hthis. rewrite <- E. revert Hin.
      rewrite !elem_of_app, !elem_of_cons, elem_of_nil. tauto.
    - rewrite HhdP. by destruct P.
    - rewrite Forall_forall in HfP. by apply HfP. }
  assert (∀ type, type ≠ Both →
            iterate (Datatypes.S (size h)) type h this q = Some (P ++ [o]))
    as HiP.
  { intros type Hty. rewrite <- Hqh.
    apply (iterate_ring type h this r _ Hty Hnull Hr _ (r_next r) HP).
    rewrite length_app. simpl. lia. }
  assert (∀ type, type ≠ Both →
            iterate (Datatypes.S (size h)) type h this
              (if decide (next_not_root r = this) then nullptr
               else next_not_root r) = Some S) as HiS.
  { intros type Hty. destruct (decide (next_not_root r = this)) as [E|E].
    - rewrite E in HS. apply (lseg_this_nil _ _ _ _ Hr) in HS as ->. done.
    - replace (next_not_root r) with (hd nullptr S).
      + apply (iterate_ring type h this r _ Hty Hnull Hr _ (next_not_root r) HS).
        lia.
      + rewrite HhdS. destruct S; [|done]. simpl in HhdS. congruence. }
  unfold iterator_objects, iterator_new, Object.get_next, get_reg.
  rewrite Hr. cbn [mbind option_bind]. rewrite Hq, Hqn.
  cbn [mbind option_bind].
  destruct bo; cbn [negb].
  - split; [by apply HiS|]. split.
    { rewrite decide_False by done. by apply HiP. }
    split; [exact HfS|exact HfP].
  - split.
    { rewrite decide_False by done. by apply HiP. }
    split; [by apply HiS|]. split; [exact HfP|exact HfS].
Qed.

End ExtraIterators.

Lemma X1_iterator_visits_both_rings_witness :
  reachable ex_size_to_sizeclass ex_sizeclass_to_size ex_h4 ∧
  rings ex_h4 2 1 [4%N] [5%N; 3%N] ∧
  iterator_objects Both ex_h4 2 = Some [4%N; 1%N; 5%N; 3%N] ∧
  NoDup [4%N; 1%N; 5%N; 3%N].
Proof.
  split; [exact ex_h4_reachable|]. split; [exact ex_h4_rings|].
  exact (X1_iterator_visits_both_rings
           ex_size_to_sizeclass ex_sizeclass_to_size ex_h4 2 1
           [4%N] [5%N; 3%N] ex_h4_reachable ex_h4_rings).
Defined.

Lemma X2_typed_iterators_visit_one_ring_witness :
  reachable ex_size_to_sizeclass ex_sizeclass_to_size ex_h4 ∧
  rings ex_h4 2 1 [4%N] [5%N; 3%N] ∧
  Object.needs_finaliser_ring ex_h4 1 = Some false ∧
  iterator_objects NoFinaliser ex_h4 2 = Some [4%N; 1%N] ∧
  iterator_objects NeedsFinaliser ex_h4 2 = Some [5%N; 3%N] ∧
  Forall (λ a, Object.needs_finaliser_ring ex_h4 a = Some false)
    [4%N; 1%N] ∧
  Forall (λ a, Object.needs_finaliser_ring ex_h4 a = Some true)
    [5%N; 3%N].
Proof.
  assert (Object.needs_finaliser_ring ex_h4 1 = Some false) as Hn
    by (vm_compute; reflexivity).
  split; [exact ex_h4_reachable|]. split; [exact ex_h4_rings|].
  split; [exact Hn|].
  exact (X2_typed_iterators_visit_one_ring
           ex_size_to_sizeclass ex_sizeclass_to_size ex_h4 2 1
           [4%N] [5%N; 3%N] false ex_h4_reachable ex_h4_rings Hn).
Defined.
Section ExtraMembership.

Variable size_to_sizeclass : N → N.
Variable sizeclass_to_size : N → N.

(** X3: [debug_is_in_region] decides membership in the region: it
    returns true for the objects on either ring of the region (the iso
    included) and false for everything else, objects of other regions
    and the null pointer included. *)
Theorem X3_debug_is_in_region_decides_membership h this o P S x :
  reachable size_to_sizeclass sizeclass_to_size h →
  rings h this o P S →
  debug_is_in_region h this x = Some (bool_decide (x ∈ P ++ o :: S)).
Proof.
  intros Hreach Hrings. apply reachable_heap_inv in Hreach as Hh.
  pose proof Hh as (Hnull & _).
  apply debug_is_in_region_spec; [done|]. by apply heap_inv_rings.
Qed.

End ExtraMembership.

Lemma ex_m4_rings : rings ex_m4 2 1 [4%N] [5%N; 3%N].
Proof.
  apply (proj2 (rings_iff ex_m4 2 1 [4%N] [5%N; 3%N])). eexists.
  split; [vm_compute; reflexivity|].
  repeat (split; [vm_compute; repeat split; reflexivity|]).
  apply (bool_decide_unpack _). vm_compute. exact I.
Defined.

Lemma X3_debug_is_in_region_decides_membership_witness :
  reachable ex_size_to_sizeclass ex_sizeclass_to_size ex_m4 ∧
  rings ex_m4 2 1 [4%N] [5%N; 3%N] ∧
  debug_is_in_region ex_m4 2 9 =
    Some (bool_decide (9%N ∈ [4%N] ++ 1%N :: [5%N; 3%N])) ∧
  debug_is_in_region ex_m4 2 9 = Some false ∧
  debug_is_in_region ex_m4 2 3 = Some true.
Proof.
  split; [exact ex_m4_reachable|]. split; [exact ex_m4_rings|].
  split; [|split; vm_compute; reflexivity].
  exact (X3_debug_is_in_region_decides_membership
           ex_size_to_sizeclass ex_sizeclass_to_size ex_m4 2 1
           [4%N] [5%N; 3%N] 9 ex_m4_reachable ex_m4_rings).
Defined.
(** X4: [create] builds a region that holds just the new iso: the
    primary ring is the iso alone, the secondary ring is empty (both
    [next_not_root] and [last_not_root] point to the metadata object),
    [get] of the iso is the new metadata object, the size of the
    descriptor is charged to [current_memory_used], and no other cell of
    the heap changes. *)
Theorem X4_create_builds_singleton_region h o reg d h' :
  create h o reg d = Some h' →
  rings h' reg o [] [] ∧
  get h' o = Some reg ∧
  Object.debug_is_iso h' o = true ∧
  Object.size h' o = Some (desc_size d) ∧
  (∃ r', h' !! reg = Some (CRegion r') ∧
         r_next r' = o ∧ next_not_root r' = reg ∧ last_not_root r' = reg ∧
         current_memory_used r' = (desc_size d mod size_t_modulus)%N ∧
         previous_memory_used r' = 0%N) ∧
  h !! o = None ∧ h !! reg = None ∧
  ∀ a, a ≠ o → a ≠ reg → h' !! a = h !! a.
Proof.
  intros H. destruct (create_Some _ _ _ _ _ H) as (Hfo & Hfr & Hne).
  rewrite (create_spec h o reg d Hfo Hfr Hne) in H. injection H as <-.
  pose proof (create_region_inv h o reg d Hfo Hfr Hne) as Hinv.
  split; [by apply region_inv_rings|].
  split; [by apply (region_inv_get _ _ _ _ _ Hinv)|].
  split.
  { unfold Object.debug_is_iso, Object.get_class, get_obj.
    rewrite lookup_insert_eq. done. }
  split.
  { unfold Object.size, get_obj. by rewrite lookup_insert_eq. }
  split.
  { eexists. split.
    - rewrite lookup_insert_ne by done. apply lookup_insert_eq.
    - simpl. unfold size_t_add. by rewrite N.add_0_l. }
  destruct Hfo as [_ Hfo], Hfr as [_ Hfr].
  split; [done|]. split; [done|].
  intros a Hao Har. by rewrite !lookup_insert_ne.
Qed.

Lemma X4_create_builds_singleton_region_witness :
  create ex_h4 7 8 ex_dN = Some ex_m1 ∧
  rings ex_m1 8 7 [] [] ∧
  get ex_m1 7 = Some 8%N ∧
  Object.debug_is_iso ex_m1 7 = true ∧
  Object.size ex_m1 7 = Some (desc_size ex_dN) ∧
  (∃ r', ex_m1 !! 8%N = Some (CRegion r') ∧
         r_next r' = 7%N ∧ next_not_root r' = 8%N ∧ last_not_root r' = 8%N ∧
         current_memory_used r' = (desc_size ex_dN mod size_t_modulus)%N ∧
         previous_memory_used r' = 0%N) ∧
  ex_h4 !! 7%N = None ∧ ex_h4 !! 8%N = None ∧
  ∀ a, a ≠ 7%N → a ≠ 8%N → ex_m1 !! a = ex_h4 !! a.
Proof.
  assert (create ex_h4 7 8 ex_dN = Some ex_m1) as H
    by (vm_compute; reflexivity).
  split; [exact H|].
  exact (X4_create_builds_singleton_region ex_h4 7 8 ex_dN ex_m1 H).
Defined.

Section ExtraAlloc.

Variable size_to_sizeclass : N → N.
Variable sizeclass_to_size : N → N.

(** X5: [alloc] into the region of the iso [in_] adds the new object,
    unmarked and without fields, to the region, charges the size of its
    descriptor to [current_memory_used] in 64-bit arithmetic, and leaves
    [previous_memory_used], the remembered set, the external reference
    table and every other cell of the heap as they were. *)
Theorem X5_alloc_accounting h in_ o d h' :
  reachable size_to_sizeclass sizeclass_to_size h →
  alloc h in_ o d = Some h' →
  ∃ this r r' x,
    get h in_ = Some this ∧
    h !! this = Some (CRegion r) ∧ h' !! this = Some (CRegion r') ∧
    current_memory_used r' =
      size_t_add (current_memory_used r) (desc_size d) ∧
    previous_memory_used r' = previous_memory_used r ∧
    hash_set r' = hash_set r ∧ ext_table r' = ext_table r ∧
    h !! o = None ∧ h' !! o = Some (CObject x) ∧
    o_class x = UNMARKED ∧ o_descriptor x = d ∧ o_fields x = [] ∧
    debug_is_in_region h' this o = Some true ∧
    ∀ a, a ≠ this → a ≠ o → h' !! a = h !! a.
Proof.
  intros Hreach H. apply reachable_heap_inv in Hreach as Hh.
  destruct (alloc_Some _ _ _ _ _ H) as (this & Hget & Hfresh).
  destruct (heap_inv_get _ _ _ Hh Hget) as (P & S & Hinv).
  destruct (region_inv_is_reg _ _ _ _ _ Hinv) as [r Hr].
  apply get_reg_Some in Hr.
  destruct (region_inv_needs _ _ _ _ _ Hinv) as [bo Hbo].
  destruct (alloc_spec h in_ this o d P S r bo Hinv Hr Hbo Hfresh)
    as (r' & x & Ha & Hinv' & Hcmu & Hpmu & Hhs & Het & Hc & Hd & Hf).
  rewrite H in Ha. injection Ha as ->.
  assert (o ≠ this) as Hot.
  { destruct Hfresh as [_ Hfo]. congruence. }
  exists this, r, r', x. do 2 (split; [done|]).
  split; [apply lookup_insert_eq|]. do 4 (split; [done|]).
  split; [by destruct Hfresh|].
  split; [rewrite lookup_insert_ne by done; apply lookup_insert_eq|].
  do 3 (split; [done|]).
  split.
  - assert (heap_inv (<[this:=CRegion r']> (<[o:=CObject x]> h))) as Hh'.
    { eapply alloc_heap_inv; [exact Hh|exact H]. }
    pose proof Hh' as (Hnull' & _).
    rewrite (debug_is_in_region_spec _ _ _ _ _ o Hnull' Hinv').
    f_equal. apply bool_decide_eq_true.
    destruct (decide (desc_needs_finaliser_ring d = bo));
      rewrite !elem_of_app, !elem_of_cons; tauto.
  - intros a Hat Hao. by rewrite !lookup_insert_ne.
Qed.

End ExtraAlloc.

Lemma X5_alloc_accounting_witness :
  reachable ex_size_to_sizeclass ex_sizeclass_to_size ex_h3 ∧
  alloc ex_h3 1 5 ex_dF = Some ex_h4 ∧
  ∃ this r r' x,
    get ex_h3 1 = Some this ∧
    ex_h3 !! this = Some (CRegion r) ∧ ex_h4 !! this = Some (CRegion r') ∧
    current_memory_used r' =
      size_t_add (current_memory_used r) (desc_size ex_dF) ∧
    previous_memory_used r' = previous_memory_used r ∧
    hash_set r' = hash_set r ∧ ext_table r' = ext_table r ∧
    ex_h3 !! 5%N = None ∧ ex_h4 !! 5%N = Some (CObject x) ∧
    o_class x = UNMARKED ∧ o_descriptor x = ex_dF ∧ o_fields x = [] ∧
    debug_is_in_region ex_h4 this 5 = Some true ∧
    ∀ a, a ≠ this → a ≠ 5%N → ex_h4 !! a = ex_h3 !! a.
Proof.
  assert (reachable ex_size_to_sizeclass ex_sizeclass_to_size ex_h3) as Hr.
  { apply (reachable_alloc _ _ ex_h2 1 4 ex_dN); [|vm_compute; reflexivity].
    apply (reachable_alloc _ _ ex_h1 1 3 ex_dF); [|vm_compute; reflexivity].
    exact ex_h1_reachable. }
  assert (alloc ex_h3 1 5 ex_dF = Some ex_h4) as H
    by (vm_compute; reflexivity).
  split; [exact Hr|]. split; [exact H|].
  exact (X5_alloc_accounting ex_size_to_sizeclass ex_sizeclass_to_size
           ex_h3 1 5 ex_dF ex_h4 Hr H).
Defined.
Section ExtraSwapRoot.

Variable size_to_sizeclass : N → N.
Variable sizeclass_to_size : N → N.

(** X6: [swap_root (prev, next)] makes [next] the iso of the region and
    [prev] a mutable interior object: the region keeps exactly the same
    objects, its rings are well formed around the new iso, and no cell
    outside the region changes. *)
Theorem X6_swap_root_promotes_next h prev next h' :
  reachable size_to_sizeclass sizeclass_to_size h →
  swap_root h prev next = Some h' →
  ∃ this P S P' S',
    rings h this prev P S ∧ next ∈ P ++ S ∧
    rings h' this next P' S' ∧
    P' ++ next :: S' ≡ₚ P ++ prev :: S ∧
    get h' next = Some this ∧
    Object.debug_is_iso h' prev = false ∧
    Object.debug_is_mutable h' prev = true ∧
    ∀ a, a ∉ region_cells this prev P S → h' !! a = h !! a.
Proof.
  intros Hreach H. apply reachable_heap_inv in Hreach as Hh.
  pose proof Hh as (Hnull & _).
  destruct (swap_root_Some _ _ _ _ H) as (Hne & this & Hget & Hint).
  destruct (heap_inv_get _ _ _ Hh Hget) as (P & S & Hinv).
  pose proof (swap_root_internal_in _ _ _ _ _ _ _ Hnull Hinv Hint) as Hin.
  assert (next ∈ P ++ S) as Hin'.
  { revert Hin. rewrite !elem_of_app, elem_of_cons. intros [?|[?|?]]; auto.
    congruence. }
  destruct (swap_root_internal_spec h this prev next P S Hnull Hinv Hin')
    as (h'' & P' & S' & Hs & Hinv' & Hfr & Hperm & _).
  assert (h'' = h') as -> by congruence.
  exists this, P, S, P', S'.
  split; [by apply region_inv_rings|]. split; [done|].
  split; [by apply region_inv_rings|].
  unfold region_cells in Hperm. apply Permutation_cons_inv in Hperm.
  split; [done|]. split; [by apply (region_inv_get _ _ _ _ _ Hinv')|].
  assert (prev ∈ P' ++ S') as Hprev.
  { assert (prev ∈ P' ++ next :: S') as Hp.
    { rewrite Hperm. apply elem_of_app. right. left. }
    revert Hp. rewrite !elem_of_app, elem_of_cons. intros [?|[?|?]]; auto.
    congruence. }
  destruct (region_inv_elim _ _ _ _ _ Hinv')
    as (_ & _ & _ & _ & _ & _ & _ & _ & _ & Hmut & _).
  rewrite Forall_forall in Hmut.
  pose proof (Hmut prev Hprev) as (x & Hx & Hm)%obj_sat_iff.
  split; [|split; [|done]].
  - unfold Object.debug_is_iso, Object.get_class, get_obj. rewrite Hx. simpl.
    apply bool_decide_eq_false. destruct Hm as [-> | ->]; congruence.
  - unfold Object.debug_is_mutable, Object.get_class, get_obj. rewrite Hx.
    simpl. apply bool_decide_eq_true. destruct Hm as [-> | ->]; auto.
Qed.


End ExtraSwapRoot.

Lemma X6_swap_root_promotes_next_witness :
  reachable ex_size_to_sizeclass ex_sizeclass_to_size ex_h4 ∧
  swap_root ex_h4 1 5 = Some ex_s1 ∧
  rings ex_s1 2 5 [3%N] [4%N; 1%N] ∧
  ∃ this P S P' S',
    rings ex_h4 this 1 P S ∧ 5%N ∈ P ++ S ∧
    rings ex_s1 this 5 P' S' ∧
    P' ++ 5%N :: S' ≡ₚ P ++ 1%N :: S ∧
    get ex_s1 5 = Some this ∧
    Object.debug_is_iso ex_s1 1 = false ∧
    Object.debug_is_mutable ex_s1 1 = true ∧
    ∀ a, a ∉ region_cells this 1 P S → ex_s1 !! a = ex_h4 !! a.
Proof.
  assert (swap_root ex_h4 1 5 = Some ex_s1) as H by (vm_compute; reflexivity).
  split; [exact ex_h4_reachable|]. split; [exact H|]. split.
  - apply (proj2 (rings_iff ex_s1 2 5 [3%N] [4%N; 1%N])). eexists.
    split; [vm_compute; reflexivity|].
    repeat (split; [vm_compute; repeat split; reflexivity|]).
    apply (bool_decide_unpack _). vm_compute. exact I.
  - exact (X6_swap_root_promotes_next
             ex_size_to_sizeclass ex_sizeclass_to_size ex_h4 1 5 ex_s1
             ex_h4_reachable H).
Defined.

Section ExtraMerge.

Variable size_to_sizeclass : N → N.
Variable sizeclass_to_size : N → N.

(** X8: in a heap that keeps the heap invariant, [merge (into, o)] moves
    every object of the region of [o], the iso [o] included, into the
    region of [into]: the rings of [into] hold the objects of both
    regions, [current_memory_used] is the sum of the two counters in
    64-bit arithmetic, the remembered set and the external reference
    table of [into] become the unions of those of the two regions, the
    metadata object of the donated region is deallocated, and no cell
    outside the two regions changes. *)
Theorem X8_merge_unites_regions h into o h' :
  heap_inv h →
  merge size_to_sizeclass sizeclass_to_size h into o = Some h' →
  ∃ this other P1 S1 P2 S2 P' S' r1 r2 r',
    rings h this into P1 S1 ∧ rings h other o P2 S2 ∧
    rings h' this into P' S' ∧
    P' ++ S' ≡ₚ (P1 ++ S1) ++ (P2 ++ o :: S2) ∧
    h !! this = Some (CRegion r1) ∧ h !! other = Some (CRegion r2) ∧
    h' !! this = Some (CRegion r') ∧
    current_memory_used r' =
      size_t_add (current_memory_used r1) (current_memory_used r2) ∧
    hash_set r' = hash_set r1 ∪ hash_set r2 ∧
    ext_table r' = ext_table r1 ∪ ext_table r2 ∧
    h' !! other = None ∧
    ∀ a, a ∉ region_cells this into P1 S1 ++ region_cells other o P2 S2 →
         h' !! a = h !! a.
Proof.
  intros Hh H.
  destruct (merge_Some _ _ _ _ _ _ H)
    as (reg & other & oo & r2 & Hget & Hoo & Hc & Hn & Hne & Hr2).
  destruct (heap_inv_get _ _ _ Hh Hget) as (P1 & S1 & Hinv1).
  pose proof Hh as (_ & _ & Hisos).
  destruct (Hisos _ _ Hoo Hc) as (P2 & S2 & Hinv2). rewrite Hn in Hinv2.
  destruct (region_inv_needs _ _ _ _ _ Hinv1) as [b1 Hb1].
  destruct (region_inv_needs _ _ _ _ _ Hinv2) as [b2 Hb2].
  destruct (region_inv_is_reg _ _ _ _ _ Hinv1) as [r1 Hr1].
  apply get_reg_Some in Hr1.
  destruct (merge_spec size_to_sizeclass sizeclass_to_size
              _ _ _ _ _ _ _ _ _ _ _ _ _ Hinv1 Hinv2 Hne Hb1 Hb2 Hr1 Hr2)
    as (h'' & r' & Hm & Hinv' & Hr' & Hcmu & _ & Hhs & Het & Hother & _ & Hfr).
  assert (h'' = h') as -> by congruence.
  exists reg, other, P1, S1, P2, S2.
  exists (if decide (b2 = b1) then (P2 ++ [o]) ++ P1 else S2 ++ P1).
  exists (if decide (b2 = b1) then S2 ++ S1 else (P2 ++ [o]) ++ S1).
  exists r1, r2, r'.
  split; [by apply region_inv_rings|]. split; [by apply region_inv_rings|].
  split; [by apply region_inv_rings|].
  split; [destruct (decide (b2 = b1)); solve_Permutation|].
  done.
Qed.

(** X9: [merge (into, o)] succeeds exactly when [into] and [o] are the
    isos of two different trace regions; merging a region into itself, or
    an object that is not an iso, stops on an assertion. *)
Theorem X9_merge_succeeds_iff h into o :
  reachable size_to_sizeclass sizeclass_to_size h →
  is_Some (merge size_to_sizeclass sizeclass_to_size h into o) ↔
  ∃ this other, get h into = Some this ∧ get h o = Some other ∧ this ≠ other.
Proof.
  intros Hreach. apply reachable_heap_inv in Hreach as Hh. split.
  - intros [h' H].
    destruct (merge_Some _ _ _ _ _ _ H)
      as (reg & other & oo & r2 & Hget & Hoo & Hc & Hn & Hne & Hr2).
    exists reg, other. split; [done|]. split; [|done].
    pose proof Hh as (_ & _ & Hisos).
    destruct (Hisos _ _ Hoo Hc) as (P2 & S2 & Hinv2). rewrite Hn in Hinv2.
    by apply (region_inv_get _ _ _ _ _ Hinv2).
  - intros (this & other & Hget1 & Hget2 & Hne).
    destruct (heap_inv_get _ _ _ Hh Hget1) as (P1 & S1 & Hinv1).
    destruct (heap_inv_get _ _ _ Hh Hget2) as (P2 & S2 & Hinv2).
    destruct (region_inv_needs _ _ _ _ _ Hinv1) as [b1 Hb1].
    destruct (region_inv_needs _ _ _ _ _ Hinv2) as [b2 Hb2].
    destruct (region_inv_is_reg _ _ _ _ _ Hinv1) as [r1 Hr1].
    destruct (region_inv_is_reg _ _ _ _ _ Hinv2) as [r2 Hr2].
    apply get_reg_Some in Hr1, Hr2.
    destruct (merge_spec size_to_sizeclass sizeclass_to_size
                _ _ _ _ _ _ _ _ _ _ _ _ _ Hinv1 Hinv2 Hne Hb1 Hb2 Hr1 Hr2)
      as (h' & _ & Hm & _).
    by exists h'.
Qed.

End ExtraMerge.

Lemma ex_e1_heap_inv : heap_inv ex_e1.
Proof.
  destruct (ex_m2 !! 2%N) as [[x|r]|] eqn:Hr;
    [vm_compute in Hr; discriminate Hr| |vm_compute in Hr; discriminate Hr].
  assert (ex_e1 =
      <[2%N := CRegion (with_ext_table {[4%N]}
                           (with_hash_set {[20%N := false]} r))]> ex_m2) as E.
  { unfold ex_e1, upd_reg, get_reg. rewrite Hr. reflexivity. }
  rewrite E.
  apply (heap_inv_insert_region ex_m2 2 r); [exact Hr| |].
  - simpl. repeat split; reflexivity.
  - exact (reachable_heap_inv _ _ _ ex_m2_reachable).
Qed.

Lemma ex_e2_heap_inv : heap_inv ex_e2.
Proof.
  destruct (ex_e1 !! 8%N) as [[x|r]|] eqn:Hr;
    [vm_compute in Hr; discriminate Hr| |vm_compute in Hr; discriminate Hr].
  assert (ex_e2 =
      <[8%N := CRegion (with_ext_table {[9%N]}
                           (with_hash_set {[21%N := false]} r))]> ex_e1) as E.
  { unfold ex_e2, upd_reg, get_reg. rewrite Hr. reflexivity. }
  rewrite E.
  apply (heap_inv_insert_region ex_e1 8 r); [exact Hr| |].
  - simpl. repeat split; reflexivity.
  - exact ex_e1_heap_inv.
Qed.

Lemma X8_merge_unites_regions_witness :
  heap_inv ex_e2 ∧
  ∃ h',
    merge ex_size_to_sizeclass ex_sizeclass_to_size ex_e2 1 7 = Some h' ∧
    (∃ r', h' !! 2%N = Some (CRegion r') ∧
           hash_set r' = {[20%N := false; 21%N := false]} ∧
           ext_table r' = {[4%N; 9%N]}) ∧
    ∃ this other P1 S1 P2 S2 P' S' r1 r2 r',
      rings ex_e2 this 1 P1 S1 ∧ rings ex_e2 other 7 P2 S2 ∧
      rings h' this 1 P' S' ∧
      P' ++ S' ≡ₚ (P1 ++ S1) ++ (P2 ++ 7%N :: S2) ∧
      ex_e2 !! this = Some (CRegion r1) ∧
      ex_e2 !! other = Some (CRegion r2) ∧
      h' !! this = Some (CRegion r') ∧
      current_memory_used r' =
        size_t_add (current_memory_used r1) (current_memory_used r2) ∧
      hash_set r' = hash_set r1 ∪ hash_set r2 ∧
      ext_table r' = ext_table r1 ∪ ext_table r2 ∧
      h' !! other = None ∧
      ∀ a, a ∉ region_cells this 1 P1 S1 ++ region_cells other 7 P2 S2 →
           h' !! a = ex_e2 !! a.
Proof.
  split; [exact ex_e2_heap_inv|].
  destruct (merge ex_size_to_sizeclass ex_sizeclass_to_size ex_e2 1 7)
    as [h'|] eqn:Hm; [|vm_compute in Hm; discriminate Hm].
  exists h'. split; [reflexivity|]. split.
  { pose proof Hm as Hm'. vm_compute in Hm'. injection Hm' as <-.
    eexists. split; [vm_compute; reflexivity|].
    split; vm_compute; reflexivity. }
  exact (X8_merge_unites_regions
           ex_size_to_sizeclass ex_sizeclass_to_size ex_e2 1 7 h'
           ex_e2_heap_inv Hm).
Defined.

Lemma X9_merge_succeeds_iff_witness :
  reachable ex_size_to_sizeclass ex_sizeclass_to_size ex_m2 ∧
  merge ex_size_to_sizeclass ex_sizeclass_to_size ex_m2 1 1 = None ∧
  merge ex_size_to_sizeclass ex_sizeclass_to_size ex_m2 1 9 = None ∧
  (is_Some (merge ex_size_to_sizeclass ex_sizeclass_to_size ex_m2 1 7) ↔
   ∃ this other,
     get ex_m2 1 = Some this ∧ get ex_m2 7 = Some other ∧ this ≠ other).
Proof.
  split; [exact ex_m2_reachable|].
  split; [vm_compute; reflexivity|]. split; [vm_compute; reflexivity|].
  exact (X9_merge_succeeds_iff
           ex_size_to_sizeclass ex_sizeclass_to_size ex_m2 1 7
           ex_m2_reachable).
Defined.
Lemma traced_nil h a : ¬ traced h [] a.
Proof. induction 1 as [a Ha|]; [by apply elem_of_nil in Ha|done]. Qed.

Lemma traced_seeds h s1 s2 a :
  (∀ b, b ∈ s1 → b ∈ s2) → traced h s1 a → traced h s2 a.
Proof.
  intros Hs. induction 1 as [a Ha|a x q _ IH Hx Hc Hq].
  - apply traced_seed. by apply Hs.
  - by apply (traced_field h s2 a x q).
Qed.

Lemma traced_ext h h' seed a :
  (∀ b x, h !! b = Some (CObject x) → h' !! b = Some (CObject x)) →
  traced h seed a → traced h' seed a.
Proof.
  intros Hext. induction 1 as [a Ha|a x q _ IH Hx Hc Hq].
  - by apply traced_seed.
  - apply (traced_field h' seed a x q); auto.
Qed.

Lemma traced_skip h p dfs a :
  Object.get_class h p ≠ Some UNMARKED →
  traced h (p :: dfs) a → a = p ∨ traced h dfs a.
Proof.
  intros Hp. induction 1 as [a Ha|a x q _ IH Hx Hc Hq].
  - apply elem_of_cons in Ha as [->|Ha]; [by left|].
    right. by apply traced_seed.
  - right. destruct IH as [->|IH].
    + exfalso. apply Hp. unfold Object.get_class, get_obj. rewrite Hx.
      simpl. by rewrite Hc.
    + by apply (traced_field h dfs a x q).
Qed.

Lemma traced_mark_step h p xp dfs a :
  h !! p = Some (CObject xp) → o_class xp = UNMARKED →
  traced h (p :: dfs) a ↔
  a = p ∨
  traced (<[p := CObject (with_class MARKED xp)]> h)
    (rev (o_fields xp) ++ dfs) a.
Proof.
  intros Hp Hc. split.
  - induction 1 as [a Ha|a x q _ IH Hx Hcx Hq].
    + apply elem_of_cons in Ha as [->|Ha]; [by left|].
      right. apply traced_seed, elem_of_app. by right.
    + right. destruct (decide (a = p)) as [->|Hne].
      * assert (x = xp) as -> by congruence.
        apply traced_seed, elem_of_app. left.
        apply list_elem_of_In. rewrite <- in_rev. by apply list_elem_of_In.
      * destruct IH as [->|IH]; [done|].
        apply (traced_field _ _ a x q); [done| |done|done].
        by rewrite lookup_insert_ne.
  - intros [->|H]; [apply traced_seed; left|].
    induction H as [a Ha|a x q _ IH Hx Hcx Hq].
    + apply elem_of_app in Ha as [Ha|Ha].
      * apply (traced_field _ _ p xp a); [apply traced_seed; left|done|done|].
        apply list_elem_of_In, in_rev, list_elem_of_In. exact Ha.
      * apply traced_seed. by right.
    + destruct (decide (a = p)) as [->|Hne].
      * rewrite lookup_insert_eq in Hx. injection Hx as <-. done.
      * rewrite lookup_insert_ne in Hx by done.
        by apply (traced_field _ _ a x q).
Qed.
(** [mark_loop] flips to MARKED exactly the unmarked objects that it
    traces from its stack, and changes no other object. *)
Lemma mark_loop_exact this fuel :
  ∀ h dfs m h' f m',
    mark_loop fuel h this dfs m = Some (h', f, m') →
    ∀ a x, h !! a = Some (CObject x) →
      (o_class x = UNMARKED → traced h dfs a →
         h' !! a = Some (CObject (with_class MARKED x))) ∧
      (o_class x ≠ UNMARKED ∨ ¬ traced h dfs a →
         h' !! a = Some (CObject x)).
Proof.
  induction fuel as [|fuel IH]; intros h dfs m h' f m' H a x Hx.
  { destruct dfs; [|done]. simpl in H. injection H as <- _ _.
    split; [|done]. intros _ Ht. by apply traced_nil in Ht. }
  destruct dfs as [|p dfs].
  { simpl in H. injection H as <- _ _.
    split; [|done]. intros _ Ht. by apply traced_nil in Ht. }
  cbn [mark_loop] in H.
  destruct (Object.get_class h p) as [c|] eqn:Hc; [|done].
  cbn [mbind option_bind] in H.
  assert (∀ h1 m1,
            (∀ b y, h1 !! b = Some (CObject y) ↔ h !! b = Some (CObject y)) →
            c ≠ UNMARKED →
            mark_loop fuel h1 this dfs m1 = Some (h', f, m') →
            (o_class x = UNMARKED → traced h (p :: dfs) a →
               h' !! a = Some (CObject (with_class MARKED x))) ∧
            (o_class x ≠ UNMARKED ∨ ¬ traced h (p :: dfs) a →
               h' !! a = Some (CObject x))) as Hskip.
  { intros h1 m1 Hobj Hcu H1.
    assert (h1 !! a = Some (CObject x)) as Hx1 by (by apply Hobj).
    destruct (IH _ _ _ _ _ _ H1 a x Hx1) as [IH1 IH2]. split.
    - intros Hu Ht. apply IH1; [done|].
      apply traced_skip in Ht as [->|Ht].
      + exfalso. unfold Object.get_class, get_obj in Hc. rewrite Hx in Hc.
        simpl in Hc. congruence.
      + eapply traced_ext; [|exact Ht]. intros b y. apply Hobj.
      + rewrite Hc. congruence.
    - intros [Hu|Hnt]; apply IH2; [by left|]. right. intros Ht. apply Hnt.
      apply (traced_seeds h dfs); [intros; by right|].
      eapply traced_ext; [|exact Ht]. intros b y. apply Hobj. }
  destruct c.
  - (* UNMARKED *)
    unfold Object.get_class in Hc.
    destruct (get_obj h p) as [xp|] eqn:Hp; [|done].
    apply get_obj_Some in Hp. simpl in Hc. injection Hc as Hc.
    unfold Object.mark, get_obj in H. rewrite Hp in H.
    cbn [mbind option_bind] in H.
    rewrite option_guard_True in H by done. cbn [mbind option_bind] in H.
    unfold Object.trace, get_obj in H. rewrite lookup_insert_eq in H.
    cbn [mbind option_bind o_fields with_class] in H.
    pose proof (IH _ _ _ _ _ _ H) as IH'.
    pose proof (traced_mark_step h p xp dfs a Hp Hc) as Hstep.
    destruct (decide (a = p)) as [->|Hne].
    + assert (x = xp) as -> by congruence.
      destruct (IH' p (with_class MARKED xp)) as [_ IH2];
        [apply lookup_insert_eq|].
      split.
      * intros _ _. apply IH2. by left.
      * intros [Hu|Hnt]; [done|]. exfalso. apply Hnt, traced_seed. left.
    + destruct (IH' a x) as [IH1 IH2]; [by rewrite lookup_insert_ne|].
      split.
      * intros Hu Ht. apply IH1; [done|].
        apply Hstep in Ht as [?|Ht]; done.
      * intros [Hu|Hnt]; apply IH2; [by left|]. right. intros Ht.
        apply Hnt, Hstep. by right.
  - (* MARKED *) by apply (Hskip h m).
  - (* SCC_PTR *)
    destruct (Object.immutable (S fuel) h p) as [root|]; [|done].
    cbn [mbind option_bind] in H.
    destruct (RememberedSet.mark h this root m) as [[h1 m1]|] eqn:Hm;
      [|done].
    cbn [mbind option_bind] in H.
    apply (Hskip h1 m1); [|done|done].
    intros b y. by apply (RememberedSet_mark_objects h this root m h1 m1).
  - (* RC *)
    destruct (RememberedSet.mark h this p m) as [[h1 m1]|] eqn:Hm; [|done].
    cbn [mbind option_bind] in H.
    apply (Hskip h1 m1); [|done|done].
    intros b y. by apply (RememberedSet_mark_objects h this p m h1 m1).
  - (* ISO *) by apply (Hskip h m).
  - (* COWN *)
    destruct (RememberedSet.mark h this p m) as [[h1 m1]|] eqn:Hm; [|done].
    cbn [mbind option_bind] in H.
    apply (Hskip h1 m1); [|done|done].
    intros b y. by apply (RememberedSet_mark_objects h this p m h1 m1).
Qed.

(** [mark] flips to MARKED exactly the unmarked objects traced from the
    fields of the iso. *)
Lemma mark_exact fuel h this o xo h' f m :
  h !! o = Some (CObject xo) →
  mark fuel h this o [] 0 = Some (h', f, m) →
  ∀ a x, h !! a = Some (CObject x) →
    (o_class x = UNMARKED → traced h (o_fields xo) a →
       h' !! a = Some (CObject (with_class MARKED x))) ∧
    (o_class x ≠ UNMARKED ∨ ¬ traced h (o_fields xo) a →
       h' !! a = Some (CObject x)).
Proof.
  intros Ho H a x Hx. unfold mark, Object.trace, get_obj in H.
  rewrite Ho in H. cbn [mbind option_bind] in H. rewrite app_nil_r in H.
  destruct (mark_loop_exact this fuel _ _ _ _ _ _ H a x Hx) as [H1 H2].
  assert (∀ b, b ∈ rev (o_fields xo) ↔ b ∈ o_fields xo) as Hrev.
  { intros b. split; intros Hb.
    - by apply list_elem_of_In, in_rev, list_elem_of_In in Hb.
    - apply list_elem_of_In. rewrite <- in_rev. by apply list_elem_of_In. }
  split.
  - intros Hu Ht. apply H1; [done|].
    eapply traced_seeds; [|exact Ht]. intros b. apply Hrev.
  - intros [Hu|Hnt]; apply H2; [by left|]. right. intros Ht. apply Hnt.
    eapply traced_seeds; [|exact Ht]. intros b. apply Hrev.
Qed.


Lemma mark_work_insert h p c c' :
  h !! p = Some c →
  (mark_work (<[p := c']> h) + mark_weight c =
   mark_work h + mark_weight c')%nat.
Proof.
  intros Hp. unfold mark_work.
  rewrite <- (insert_delete_eq h p c').
  rewrite <- (insert_delete_id h p c) at 2 by done.
  rewrite !map_to_list_insert by apply lookup_delete_eq.
  rewrite !fmap_cons. simpl. lia.
Qed.

Lemma mark_work_mark h p x :
  h !! p = Some (CObject x) → o_class x = UNMARKED →
  (mark_work (<[p := CObject (with_class MARKED x)]> h) + length (o_fields x)
   = mark_work h)%nat.
Proof.
  intros Hp Hc.
  pose proof (mark_work_insert h p _ (CObject (with_class MARKED x)) Hp) as E.
  simpl in E. rewrite decide_True in E by done. lia.
Qed.

Lemma mark_work_region h p r r' :
  h !! p = Some (CRegion r) →
  mark_work (<[p := CRegion r']> h) = mark_work h.
Proof.
  intros Hp.
  pose proof (mark_work_insert h p _ (CRegion r') Hp) as E.
  simpl in E. lia.
Qed.

Lemma immutable_mono h k k' a r :
  (k ≤ k')%nat → Object.immutable k h a = Some r →
  Object.immutable k' h a = Some r.
Proof.
  revert k' a. induction k as [|k IH]; intros k' a Hle H; [done|].
  destruct k' as [|k']; [lia|]. simpl in *.
  destruct (get_obj h a) as [x|]; [|done]. simpl in *.
  destruct (decide (o_class x = SCC_PTR)); [|done].
  apply IH; [lia|done].
Qed.

Lemma immutable_mark_rel h h' k a :
  heap_mark_rel h h' → Object.immutable k h' a = Object.immutable k h a.
Proof.
  intros Hrel. revert a. induction k as [|k IH]; intros a; [done|]. simpl.
  specialize (Hrel a). unfold get_obj.
  destruct (h !! a) as [[x|r]|], (h' !! a) as [[x'|r']|]; try done; simpl.
  destruct Hrel as [->|[Hu ->]].
  - destruct (decide (o_class x = SCC_PTR)); [apply IH|done].
  - simpl. rewrite !decide_False by congruence. done.
Qed.

Lemma markable_mark_rel k h h' q :
  heap_mark_rel h h' → markable k h q → markable k h' q.
Proof.
  intros Hrel (y & Hy & Himm). pose proof (Hrel q) as Hq.
  rewrite Hy in Hq. destruct (h' !! q) as [[y'|r']|] eqn:Hy'; try done.
  exists y'. split; [done|]. intros Hc.
  rewrite (immutable_mark_rel h h') by done. apply Himm.
  destruct Hq as [->|[Hu ->]]; [done|]. simpl in Hc. done.
Qed.
Lemma mark_loop_total this k :
  ∀ fuel h dfs marked,
    is_Some (get_reg h this) →
    (∀ q, traced h dfs q → markable k h q) →
    (length dfs + mark_work h + k ≤ fuel)%nat →
    is_Some (mark_loop fuel h this dfs marked).
Proof.
  induction fuel as [|fuel IH]; intros h dfs marked [r Hr] Hok Hfuel.
  { destruct dfs; [done|simpl in Hfuel; lia]. }
  destruct dfs as [|p dfs]; [done|]. simpl in Hfuel.
  apply get_reg_Some in Hr.
  destruct (Hok p) as (y & Hy & Himm); [apply traced_seed; left|].
  assert (p ≠ this) as Hpt by congruence.
  cbn [mark_loop]. unfold Object.get_class at 1, get_obj. rewrite Hy.
  cbn [mbind option_bind fmap option_fmap option_map].
  assert (∀ q, traced h dfs q → markable k h q) as Hok'.
  { intros q Hq. apply Hok. eapply traced_seeds; [|exact Hq].
    intros b Hb. by right. }
  assert (∀ p' m,
    is_Some ('(h, marked) ← RememberedSet.mark h this p' m;
             mark_loop fuel h this dfs marked)) as Hrem.
  { intros p' m. unfold RememberedSet.mark, get_reg. rewrite Hr.
    cbn [mbind option_bind].
    assert (is_Some (mark_loop fuel h this dfs m)) as H1.
    { apply IH; [exists r; by apply get_reg_Some|done|lia]. }
    set (r' := with_hash_set (<[p' := true]> (hash_set r)) r).
    assert (is_Some (mark_loop fuel (<[this := CRegion r']> h) this dfs
                       (size_t_add m 1))) as H2.
    { apply IH.
      - eexists. apply get_reg_Some, lookup_insert_eq.
      - intros q Hq. apply (markable_mark_rel k h).
        { apply heap_mark_rel_insert with (c := CRegion r); [done|].
          simpl. by eexists. }
        apply Hok'. eapply traced_ext; [|exact Hq].
        intros b x Hb. destruct (decide (b = this)) as [->|Hne].
        + by rewrite lookup_insert_eq in Hb.
        + by rewrite lookup_insert_ne in Hb.
      - rewrite (mark_work_region _ _ r) by done. lia. }
    destruct (hash_set r !! p') as [[]|]; cbn [mbind option_bind]; done. }
  destruct (o_class y) eqn:Hc.
  - (* UNMARKED *)
    unfold Object.mark, Object.trace, get_obj. rewrite Hy.
    cbn [mbind option_bind].
    rewrite (option_guard_decide (o_class y = UNMARKED)).
    rewrite decide_True by done. cbn [mbind option_bind].
    rewrite lookup_insert_eq. cbn [mbind option_bind].
    pose proof (mark_work_mark h p y Hy Hc) as Hw.
    apply IH.
    + exists r. apply get_reg_Some. by rewrite lookup_insert_ne.
    + intros q Hq. apply (markable_mark_rel k h).
      { apply heap_mark_rel_insert with (c := CObject y); [done|].
        simpl. by right. }
      apply Hok. apply (traced_mark_step h p y dfs q Hy Hc). by right.
    + rewrite length_app, length_rev. simpl. lia.
  - (* MARKED *) apply IH; [exists r; by apply get_reg_Some|done|lia].
  - (* SCC_PTR *)
    destruct (Himm eq_refl) as [p' Hp'].
    rewrite (immutable_mono h k (Datatypes.S fuel) p p') by (lia || done).
    cbn [mbind option_bind]. apply Hrem.
  - apply Hrem.
  - (* ISO *) apply IH; [exists r; by apply get_reg_Some|done|lia].
  - apply Hrem.
Qed.

Lemma mark_total fuel k h this o xo :
  h !! o = Some (CObject xo) →
  is_Some (get_reg h this) →
  (∀ q, traced h (o_fields xo) q → markable k h q) →
  (length (o_fields xo) + mark_work h + k ≤ fuel)%nat →
  is_Some (mark fuel h this o [] 0).
Proof.
  intros Ho Hr Hok Hfuel. unfold mark, Object.trace, get_obj. rewrite Ho.
  cbn [mbind option_bind]. rewrite app_nil_r. apply mark_loop_total with k.
  - done.
  - intros q Hq. apply Hok. eapply traced_seeds; [|exact Hq].
    intros b Hb. by apply list_elem_of_In, in_rev, list_elem_of_In in Hb.
  - rewrite length_rev. lia.
Qed.

(** X10: given fuel for the pointers it has to pop (the fields of the
    iso and of the unmarked objects, and [k] more), and when every
    pointer it reaches refers to an object ([k] bounds the resolution of
    a pointer into a strongly connected component), [mark] returns with
    an empty stack, and it has flipped to MARKED exactly the unmarked
    objects that can be reached from the fields of the iso through the
    fields of unmarked objects; every other object is as it was: it
    neither misses a reachable object nor marks an unreachable one. *)
Theorem X10_mark_marks_exactly_the_reachable fuel k h this o xo :
  h !! o = Some (CObject xo) →
  is_Some (get_reg h this) →
  (∀ q, traced h (o_fields xo) q → markable k h q) →
  (length (o_fields xo) + mark_work h + k ≤ fuel)%nat →
  ∃ h' m,
    mark fuel h this o [] 0 = Some (h', [], m) ∧
    ∀ a x, h !! a = Some (CObject x) →
      (o_class x = UNMARKED → traced h (o_fields xo) a →
         h' !! a = Some (CObject (with_class MARKED x))) ∧
      (o_class x ≠ UNMARKED ∨ ¬ traced h (o_fields xo) a →
         h' !! a = Some (CObject x)).
Proof.
  intros Ho Hr Hok Hfuel.
  destruct (mark_total fuel k h this o xo Ho Hr Hok Hfuel)
    as [[[h' f] m] H].
  destruct (mark_rel_heap _ _ _ _ _ _ _ _ _ H) as [_ ->].
  exists h', m. split; [done|]. by apply (mark_exact fuel h this o xo h' [] m).
Qed.

Lemma ex_m4_traced q : traced ex_m4 [4%N] q → q ∈ [4%N; 3%N; 7%N].
Proof.
  induction 1 as [q Hq|b x q _ IH Hx Hc Hq].
  - apply list_elem_of_singleton in Hq as ->. left.
  - repeat (apply elem_of_cons in IH as [->|IH]).
    4:{ apply elem_of_nil in IH. destruct IH. }
    all: vm_compute in Hx.
    all: injection Hx as <-.
    all: simpl in Hc, Hq.
    all: try discriminate Hc.
    + repeat (apply elem_of_cons in Hq as [->|Hq]).
      * right. left.
      * right. right. left.
      * apply elem_of_nil in Hq. destruct Hq.
    + apply elem_of_nil in Hq. destruct Hq.
Qed.

Lemma ex_m4_markable q : traced ex_m4 [4%N] q → markable 0 ex_m4 q.
Proof.
  intros Hq%ex_m4_traced.
  repeat (apply elem_of_cons in Hq as [->|Hq]).
  4:{ apply elem_of_nil in Hq. destruct Hq. }
  all: eexists.
  all: split; [vm_compute; reflexivity|].
  all: intros Hc.
  all: simpl in Hc.
  all: discriminate Hc.
Qed.

Lemma X10_mark_marks_exactly_the_reachable_witness :
  ∃ xo,
    ex_m4 !! 1%N = Some (CObject xo) ∧
    is_Some (get_reg ex_m4 2) ∧
    (∀ q, traced ex_m4 (o_fields xo) q → markable 0 ex_m4 q) ∧
    (length (o_fields xo) + mark_work ex_m4 + 0 ≤ 3)%nat ∧
    ∃ h' m,
      mark 3 ex_m4 2 1 [] 0 = Some (h', [], m) ∧
      Object.get_class h' 4 = Some MARKED ∧
      Object.get_class h' 3 = Some MARKED ∧
      Object.get_class h' 5 = Some UNMARKED ∧
      Object.get_class h' 9 = Some UNMARKED ∧
      ∀ a x, ex_m4 !! a = Some (CObject x) →
        (o_class x = UNMARKED → traced ex_m4 (o_fields xo) a →
           h' !! a = Some (CObject (with_class MARKED x))) ∧
        (o_class x ≠ UNMARKED ∨ ¬ traced ex_m4 (o_fields xo) a →
           h' !! a = Some (CObject x)).
Proof.
  destruct (ex_m4 !! 1%N) as [[xo|r]|] eqn:Ho;
    [|vm_compute in Ho; discriminate Ho|vm_compute in Ho; discriminate Ho].
  assert (o_fields xo = [4%N]) as Hf.
  { pose proof Ho as Ho'. vm_compute in Ho'. injection Ho' as <-. reflexivity. }
  assert (is_Some (get_reg ex_m4 2)) as Hr.
  { eexists. vm_compute. reflexivity. }
  assert (∀ q, traced ex_m4 (o_fields xo) q → markable 0 ex_m4 q) as Hok.
  { rewrite Hf. exact ex_m4_markable. }
  assert (length (o_fields xo) + mark_work ex_m4 + 0 ≤ 3)%nat as Hfuel.
  { rewrite Hf. vm_compute. lia. }
  exists xo. split; [reflexivity|]. split; [exact Hr|]. split; [exact Hok|].
  split; [exact Hfuel|].
  destruct (X10_mark_marks_exactly_the_reachable 3 0 ex_m4 2 1 xo
              Ho Hr Hok Hfuel) as (h' & m & Hm & Hex).
  exists h', m. split; [exact Hm|].
  split; [vm_compute in Hm; injection Hm as <- _; vm_compute; reflexivity|].
  split; [vm_compute in Hm; injection Hm as <- _; vm_compute; reflexivity|].
  split; [vm_compute in Hm; injection Hm as <- _; vm_compute; reflexivity|].
  split; [vm_compute in Hm; injection Hm as <- _; vm_compute; reflexivity|].
  exact Hex.
Defined.

Lemma release_unreachable_collect size_to_sizeclass fuel reg :
  ∀ c c',
    release_unreachable size_to_sizeclass fuel reg c = Some c' →
    collect_stack c' = [].
Proof.
  induction fuel as [|fuel IH]; intros c c' H; simpl in H.
  - destruct (collect_stack c) eqn:E; [|done]. by injection H as <-.
  - destruct (collect_stack c) as [|o rest] eqn:E; [by injection H as <-|].
    cbn [heap] in H.
    destruct (guard (Object.debug_is_iso (heap c) o = true)); [|done].
    cbn [mbind option_bind] in H.
    destruct (Object.get_region (heap c) o) as [r|]; [|done].
    cbn [mbind option_bind] in H.
    destruct (guard (r ≠ reg)); [|done]. cbn [mbind option_bind] in H.
    destruct (is_trace_region (heap c) r); [|done].
    destruct (release_internal _ _ _ _ _) as [c1|]; [|done].
    cbn [mbind option_bind] in H. by apply (IH c1).
Qed.

Section ExtraGc.

Variable size_to_sizeclass : N → N.
Variable sizeclass_to_size : N → N.

(** [gc] frees exactly the garbage of the region: an unmarked
    interior object that can be reached from the fields of the iso
    through the fields of unmarked objects survives, with its descriptor
    and fields and unmarked again; one that cannot be reached is
    deallocated; the iso itself survives as the iso. *)
Lemma gc_exact fuel h o c' this P S xo :
  reachable size_to_sizeclass sizeclass_to_size h →
  rings h this o P S →
  h !! o = Some (CObject xo) →
  gc size_to_sizeclass fuel h o = Some c' →
  (∃ xo', heap c' !! o = Some (CObject xo') ∧ o_class xo' = ISO ∧
          o_descriptor xo' = o_descriptor xo ∧ o_fields xo' = o_fields xo) ∧
  ∀ a x, a ∈ P ++ S → h !! a = Some (CObject x) → o_class x = UNMARKED →
    (traced h (o_fields xo) a →
       ∃ x', heap c' !! a = Some (CObject x') ∧ o_class x' = UNMARKED ∧
             o_descriptor x' = o_descriptor x ∧ o_fields x' = o_fields x) ∧
    (¬ traced h (o_fields xo) a → heap c' !! a = None).
Proof.
  intros Hreach Hrings Ho H. apply reachable_heap_inv in Hreach as Hh.
  pose proof (heap_inv_rings _ _ _ _ _ Hh Hrings) as Hinv.
  destruct (gc_spec _ _ _ _ _ H Hh)
    as (reg & P0 & S0 & h1 & f & marked & r' & Hget & Hinv0 & Hmark & Hinv1
        & _ & _ & _ & _ & _ & Hcells & Hdead).
  assert (reg = this) as ->.
  { rewrite (region_inv_get _ _ _ _ _ Hinv) in Hget. congruence. }
  destruct (region_inv_unique _ _ _ _ _ _ _ _ Hinv Hinv0) as (_ & <- & <-).
  pose proof (mark_exact _ _ _ _ _ _ _ _ Ho Hmark) as Hex.
  destruct (region_inv_elim _ _ _ _ _ Hinv)
    as (_ & _ & _ & _ & _ & _ & _ & _ & (xo0 & Hxo0 & Hco)%obj_sat_iff & _).
  assert (xo0 = xo) as -> by congruence. unfold is_iso in Hco.
  split.
  - destruct (Hex o xo Ho) as [_ Hkeep].
    assert (h1 !! o = Some (CObject xo)) as Ho1
      by (apply Hkeep; left; congruence).
    destruct (Hcells o xo) as (xo' & Hxo' & Hd & Hf & Hc); [|done|].
    { unfold survivors. apply list_elem_of_filter. split.
      - unfold Object.get_class, get_obj. rewrite Ho1. simpl. congruence.
      - apply elem_of_app. right. left. }
    exists xo'. split; [done|]. split; [|done].
    rewrite Hc. rewrite decide_False by congruence. done.
  - intros a x Ha Hx Hu.
    destruct (Hex a x Hx) as [Hmk Hkeep].
    assert (a ∈ P ++ o :: S) as Ha'.
    { revert Ha. rewrite !elem_of_app, elem_of_cons. tauto. }
    split.
    + intros Ht. specialize (Hmk Hu Ht).
      destruct (Hcells a (with_class MARKED x)) as (x' & Hx' & Hd & Hf & Hc);
        [|done|].
      { unfold survivors. apply list_elem_of_filter. split; [|done].
        unfold Object.get_class, get_obj. rewrite Hmk. simpl. congruence. }
      exists x'. split; [done|]. rewrite Hc.
      rewrite decide_True by done. done.
    + intros Hnt. apply Hdead. unfold unreachable.
      apply list_elem_of_filter. split; [|done].
      unfold Object.get_class, get_obj. rewrite (Hkeep (or_intror Hnt)).
      simpl. by rewrite Hu.
Qed.


(** X12: when [gc] returns, the stack of sub-regions to release is empty,
    every object left on the rings of the collected region is unmarked,
    [previous_memory_used] is the size class of the new
    [current_memory_used], and the heap is well formed again: every
    metadata object that is left heads two well-formed rings. *)
Theorem X12_gc_leaves_clean_region fuel h o c' :
  reachable size_to_sizeclass sizeclass_to_size h →
  gc size_to_sizeclass fuel h o = Some c' →
  collect_stack c' = [] ∧
  (∃ this r' P' S',
     get (heap c') o = Some this ∧ rings (heap c') this o P' S' ∧
     heap c' !! this = Some (CRegion r') ∧
     Forall (λ a, Object.get_class (heap c') a = Some UNMARKED) (P' ++ S') ∧
     previous_memory_used r' = size_to_sizeclass (current_memory_used r')) ∧
  ∀ reg, is_trace_region (heap c') reg = true →
         ∃ oi Pi Si, rings (heap c') reg oi Pi Si.
Proof.
  intros Hreach H. apply reachable_heap_inv in Hreach as Hh.
  destruct (gc_spec _ _ _ _ _ H Hh)
    as (reg & P & S & h1 & f & marked & r' & Hget & Hinv & Hmark & Hinv1
        & Hh' & Hinv' & Hr' & _ & Hpmu & Hcells & _).
  split.
  { unfold gc in H.
    destruct (guard (Object.debug_is_iso h o = true)); [|done].
    cbn [mbind option_bind] in H. rewrite Hget in H.
    cbn [mbind option_bind] in H. rewrite Hmark in H.
    cbn [mbind option_bind] in H.
    destruct (sweep _ _ _ _ _ _) as [c2|]; [|done].
    cbn [mbind option_bind] in H.
    by apply (release_unreachable_collect _ _ _ _ _ H). }
  split.
  - exists reg, r', (survivors h1 P), (survivors h1 S).
    split; [by apply (region_inv_get _ _ _ _ _ Hinv')|].
    split; [by apply region_inv_rings|]. split; [done|]. split; [|done].
    destruct (region_inv_elim _ _ _ _ _ Hinv1)
      as (_ & _ & _ & _ & _ & _ & _ & _ & _ & Hmut & _).
    rewrite Forall_forall in Hmut. apply Forall_forall. intros a Ha.
    assert (a ∈ survivors h1 (P ++ S)) as Hs by (by rewrite survivors_app).
    pose proof (survivors_subseteq _ _ _ Hs) as Hin.
    pose proof (Hmut a Hin) as (x & Hx & Hm)%obj_sat_iff.
    destruct (Hcells a x) as (x' & Hx' & _ & _ & Hc); [|done|].
    { unfold survivors in *. apply list_elem_of_filter in Hs as [Hc _].
      apply list_elem_of_filter. split; [done|]. revert Hin.
      rewrite !elem_of_app, elem_of_cons. tauto. }
    assert (o_class x = MARKED) as Hmk.
    { apply (survivor_is_marked h1 a); [|done|done].
      unfold survivors in Hs. by apply list_elem_of_filter in Hs as [? _]. }
    rewrite decide_True in Hc by done.
    unfold Object.get_class, get_obj. rewrite Hx'. simpl. by rewrite Hc.
  - intros reg' Htr. unfold is_trace_region in Htr.
    apply bool_decide_eq_true in Htr as [rr Hrr]. apply get_reg_Some in Hrr.
    destruct Hh' as (_ & Hregs & _).
    destruct (Hregs _ _ Hrr) as (oi & Pi & Si & Hi).
    exists oi, Pi, Si. by apply region_inv_rings.
Qed.

End ExtraGc.

Lemma X12_gc_leaves_clean_region_witness :
  reachable ex_size_to_sizeclass ex_sizeclass_to_size ex_m4 ∧
  ∃ c',
    gc ex_size_to_sizeclass 10 ex_m4 1 = Some c' ∧
    collect_stack c' = [] ∧
    (∃ this r' P' S',
       get (heap c') 1 = Some this ∧ rings (heap c') this 1 P' S' ∧
       heap c' !! this = Some (CRegion r') ∧
       Forall (λ a, Object.get_class (heap c') a = Some UNMARKED)
         (P' ++ S') ∧
       previous_memory_used r' =
         ex_size_to_sizeclass (current_memory_used r')) ∧
    ∀ reg, is_trace_region (heap c') reg = true →
           ∃ oi Pi Si, rings (heap c') reg oi Pi Si.
Proof.
  split; [exact ex_m4_reachable|].
  destruct (gc ex_size_to_sizeclass 10 ex_m4 1) as [c'|] eqn:Hgc;
    [|vm_compute in Hgc; discriminate Hgc].
  exists c'. split; [reflexivity|].
  exact (X12_gc_leaves_clean_region
           ex_size_to_sizeclass ex_sizeclass_to_size 10 ex_m4 1 c'
           ex_m4_reachable Hgc).
Defined.
Section ExtraInvariants.

Variable size_to_sizeclass : N → N.
Variable sizeclass_to_size : N → N.

(** X13: in every heap that the region operations build, an object of
    kind ISO is the root of exactly one well-formed trace region: [get]
    succeeds on it, no other object has the same region, and the objects
    on its rings are on the rings of no other region. *)
Theorem X13_every_iso_roots_one_region h a :
  reachable size_to_sizeclass sizeclass_to_size h →
  Object.debug_is_iso h a = true →
  ∃ this P S,
    get h a = Some this ∧ rings h this a P S ∧
    (∀ b, get h b = Some this → b = a) ∧
    (∀ reg o' P' S' x, rings h reg o' P' S' →
       x ∈ P ++ a :: S → x ∈ P' ++ o' :: S' → reg = this).
Proof.
  intros Hreach Hiso. apply reachable_heap_inv in Hreach as Hh.
  pose proof Hh as (_ & _ & Hisos).
  unfold Object.debug_is_iso, Object.get_class in Hiso.
  apply bool_decide_eq_true in Hiso.
  destruct (get_obj h a) as [x|] eqn:Hx; [|done].
  apply get_obj_Some in Hx. simpl in Hiso. injection Hiso as Hc.
  destruct (Hisos _ _ Hx Hc) as (P & S & Hinv).
  exists (o_next x), P, S.
  split; [by apply (region_inv_get _ _ _ _ _ Hinv)|].
  split; [by apply region_inv_rings|]. split.
  - intros b Hb. destruct (heap_inv_get _ _ _ Hh Hb) as (P' & S' & Hinv').
    by destruct (region_inv_unique _ _ _ _ _ _ _ _ Hinv' Hinv) as (? & _).
  - intros reg o' P' S' y Hrings Hy Hy'.
    apply (rings_disjoint h reg o' P' S' (o_next x) a P S y); try done.
    by apply region_inv_rings.
Qed.

Lemma release_internal_teardown fuel this c o c' P S :
  reachable size_to_sizeclass sizeclass_to_size (heap c) →
  rings (heap c) this o P S →
  release_internal size_to_sizeclass fuel this c o = Some c' →
  heap c' !! this = None ∧ heap c' !! o = None ∧
  (∀ a, a ∈ P ++ S → Object.get_class (heap c) a = Some UNMARKED →
        heap c' !! a = None) ∧
  (∀ a, a ∉ region_cells this o P S → heap c' !! a = heap c !! a) ∧
  (∀ reg oi Pi Si, reg ≠ this → rings (heap c) reg oi Pi Si →
        rings (heap c') reg oi Pi Si).
Proof.
  intros Hreach Hrings H. apply reachable_heap_inv in Hreach as Hh.
  pose proof (heap_inv_rings _ _ _ _ _ Hh Hrings) as Hinv.
  destruct (release_internal_spec _ _ _ _ _ _ _ _ H Hh Hinv)
    as (Hh' & Hthis & Ho & Hfr & _).
  do 2 (split; [done|]). split; [|split; [done|]].
  - intros a Ha Hc. unfold release_internal in H.
    destruct (guard (Object.debug_is_iso (heap c) o = true)); [|done].
    cbn [mbind option_bind] in H.
    destruct (Object.find_iso_fields c o o) as [cA|] eqn:HA; [|done].
    cbn [mbind option_bind] in H.
    assert (heap cA = heap c) as HhA.
    { unfold Object.find_iso_fields in HA.
      destruct (get_obj (heap c) o); [|done]. by injection HA as <-. }
    destruct (Object.finalise cA o) as [c1|] eqn:HB; [|done].
    cbn [mbind option_bind] in H.
    assert (heap c1 = heap c) as Hc1.
    { unfold Object.finalise in HB.
      destruct (get_obj (heap cA) o); [|done]. by injection HB as <-. }
    destruct (sweep size_to_sizeclass fuel this c1 o 0) as [c2|] eqn:Hsw;
      [|done].
    cbn [mbind option_bind] in H.
    pose proof Hh as (Hnull & _). rewrite <- Hc1 in Hnull, Hinv.
    destruct (sweep_spec _ _ _ _ _ _ _ _ _ Hsw Hnull Hinv)
      as (_ & _ & _ & _ & _ & _ & _ & _ & _ & Hdead & _).
    rewrite Hc1 in Hdead.
    assert (heap c2 !! a = None) as Hnone.
    { apply Hdead. unfold unreachable. apply list_elem_of_filter.
      split; [done|]. revert Ha. rewrite !elem_of_app, elem_of_cons. tauto. }
    unfold Object.dealloc in H.
    destruct (heap c2 !! this); [|done]. cbn [mbind option_bind heap] in H.
    destruct (delete this (heap c2) !! o); [|done].
    cbn [mbind option_bind heap] in H. injection H as <-. cbn [heap].
    rewrite !lookup_delete_None. tauto.
  - intros reg oi Pi Si Hne Hri.
    pose proof (heap_inv_rings _ _ _ _ _ Hh Hri) as Hinvi.
    apply region_inv_rings. apply (region_inv_frame (heap c)); [|done].
    intros a Ha. apply Hfr.
    by apply (region_cells_disjoint (heap c) reg oi Pi Si this o P S).
Qed.

(** X14: [release_internal] tears the region down and nothing else:
    given fuel for the objects of the region, and no unmarked object
    without finaliser ring that may hold an iso (the assertion of the
    sweep), it returns, the metadata object and the iso are deallocated,
    and so is every unmarked object of the two rings; no cell outside the
    region changes, and every other region keeps its rings. *)
Theorem X14_release_internal_tears_down_region fuel this c o P S :
  reachable size_to_sizeclass sizeclass_to_size (heap c) →
  rings (heap c) this o P S →
  sweep_ready (heap c) (P ++ o :: S) →
  (length (P ++ o :: S) ≤ fuel)%nat →
  ∃ c',
    release_internal size_to_sizeclass fuel this c o = Some c' ∧
    heap c' !! this = None ∧ heap c' !! o = None ∧
    (∀ a, a ∈ P ++ S → Object.get_class (heap c) a = Some UNMARKED →
          heap c' !! a = None) ∧
    (∀ a, a ∉ region_cells this o P S → heap c' !! a = heap c !! a) ∧
    (∀ reg oi Pi Si, reg ≠ this → rings (heap c) reg oi Pi Si →
          rings (heap c') reg oi Pi Si).
Proof.
  intros Hreach Hrings Hready Hfuel.
  apply reachable_heap_inv in Hreach as Hh. pose proof Hh as (Hnull & _).
  pose proof (heap_inv_rings _ _ _ _ _ Hh Hrings) as Hinv.
  destruct (release_internal_total size_to_sizeclass fuel this c o P S
              Hnull Hinv Hready Hfuel) as [c' H].
  exists c'. split; [done|].
  by apply (release_internal_teardown fuel).
Qed.

End ExtraInvariants.

(** X15: the sweep of the ring of the objects that need no finaliser
    calls no finaliser: its only events are the deallocations of the
    unmarked objects of the ring, one by one in ring order, and it
    touches no cell outside that ring and the metadata object. *)
Theorem X15_nonfinaliser_sweep_frees_at_once fuel this c o c' P S
    (bo : bool) :
  heap c !! nullptr = None →
  rings (heap c) this o P S →
  obj_sat (needs bo) (heap c) o →
  sweep_ring fuel NonfinaliserRing this c o = Some c' →
  let l := swept_ring NonfinaliserRing bo o P S in
  log c' = log c ++ (EvDealloc <$> unreachable (heap c) l) ∧
  (∀ a, a ∈ unreachable (heap c) l → heap c' !! a = None) ∧
  (∀ a, a ∉ l → a ≠ this → heap c' !! a = heap c !! a).
Proof.
  intros Hnull Hrings Hbo H l.
  pose proof Hrings as (r & Hr & _)%rings_iff.
  destruct (sweep_ring_spec _ _ _ _ _ _ _ _ _ _ H Hnull Hr Hrings Hbo)
    as (r' & _ & _ & _ & _ & _ & _ & _ & Hdead & Hfr & Hlog).
  split; [exact Hlog|]. split; [exact Hdead|exact Hfr].
Qed.

Lemma X13_every_iso_roots_one_region_witness :
  reachable ex_size_to_sizeclass ex_sizeclass_to_size ex_m4 ∧
  Object.debug_is_iso ex_m4 7 = true ∧
  get ex_m4 7 = Some 8%N ∧
  ∃ this P S,
    get ex_m4 7 = Some this ∧ rings ex_m4 this 7 P S ∧
    (∀ b, get ex_m4 b = Some this → b = 7%N) ∧
    (∀ reg o' P' S' x, rings ex_m4 reg o' P' S' →
       x ∈ P ++ 7%N :: S → x ∈ P' ++ o' :: S' → reg = this).
Proof.
  assert (Object.debug_is_iso ex_m4 7 = true) as Hiso
    by (vm_compute; reflexivity).
  split; [exact ex_m4_reachable|]. split; [exact Hiso|].
  split; [vm_compute; reflexivity|].
  exact (X13_every_iso_roots_one_region
           ex_size_to_sizeclass ex_sizeclass_to_size ex_m4 7
           ex_m4_reachable Hiso).
Defined.

Lemma X14_release_internal_tears_down_region_witness :
  reachable ex_size_to_sizeclass ex_sizeclass_to_size (heap ex_c4) ∧
  rings (heap ex_c4) 2 1 [4%N] [5%N; 3%N] ∧
  sweep_ready (heap ex_c4) ([4%N] ++ 1%N :: [5%N; 3%N]) ∧
  (length ([4%N] ++ 1%N :: [5%N; 3%N]) ≤ 4)%nat ∧
  ∃ c',
    release_internal ex_size_to_sizeclass 4 2 ex_c4 1 = Some c' ∧
    heap c' = ∅ ∧
    heap c' !! 2%N = None ∧ heap c' !! 1%N = None ∧
    (∀ a, a ∈ [4%N] ++ [5%N; 3%N] →
          Object.get_class (heap ex_c4) a = Some UNMARKED →
          heap c' !! a = None) ∧
    (∀ a, a ∉ region_cells 2 1 [4%N] [5%N; 3%N] →
          heap c' !! a = heap ex_c4 !! a) ∧
    (∀ reg oi Pi Si, reg ≠ 2%N → rings (heap ex_c4) reg oi Pi Si →
          rings (heap c') reg oi Pi Si).
Proof.
  assert (length ([4%N] ++ 1%N :: [5%N; 3%N]) ≤ 4)%nat as Hfuel
    by (simpl; lia).
  split; [exact ex_h4_reachable|]. split; [exact ex_h4_rings|].
  split; [exact ex_h4_sweep_ready|]. split; [exact Hfuel|].
  destruct (X14_release_internal_tears_down_region
              ex_size_to_sizeclass ex_sizeclass_to_size 4 2 ex_c4 1
              [4%N] [5%N; 3%N] ex_h4_reachable ex_h4_rings
              ex_h4_sweep_ready Hfuel) as (c' & Hr & Hrest).
  exists c'. split; [exact Hr|].
  split; [vm_compute in Hr; injection Hr as <-; vm_compute; reflexivity|].
  exact Hrest.
Defined.

Lemma X15_nonfinaliser_sweep_frees_at_once_witness :
  heap ex_c4 !! nullptr = None ∧
  rings (heap ex_c4) 2 1 [4%N] [5%N; 3%N] ∧
  obj_sat (needs false) (heap ex_c4) 1 ∧
  ∃ c',
    sweep_ring 10 NonfinaliserRing 2 ex_c4 1 = Some c' ∧
    log c' = [EvDealloc 4] ∧
    (let l := swept_ring NonfinaliserRing false 1 [4%N] [5%N; 3%N] in
     log c' = log ex_c4 ++ (EvDealloc <$> unreachable (heap ex_c4) l) ∧
     (∀ a, a ∈ unreachable (heap ex_c4) l → heap c' !! a = None) ∧
     (∀ a, a ∉ l → a ≠ 2%N → heap c' !! a = heap ex_c4 !! a)).
Proof.
  assert (heap ex_c4 !! nullptr = None) as Hnull by (vm_compute; reflexivity).
  assert (obj_sat (needs false) (heap ex_c4) 1) as Hbo
    by (vm_compute; reflexivity).
  split; [exact Hnull|]. split; [exact ex_h4_rings|]. split; [exact Hbo|].
  destruct (sweep_ring 10 NonfinaliserRing 2 ex_c4 1) as [c'|] eqn:Hs;
    [|vm_compute in Hs; discriminate Hs].
  exists c'. split; [reflexivity|]. split.
  - vm_compute in Hs. injection Hs as <-. reflexivity.
  - exact (X15_nonfinaliser_sweep_frees_at_once 10 2 ex_c4 1 c'
             [4%N] [5%N; 3%N] false Hnull ex_h4_rings Hbo Hs).
Defined.

Lemma same_payload_refl c : same_payload c c.
Proof. by destruct c. Qed.

Lemma swap_root_internal_payload h this oroot nroot P S h' :
  h !! nullptr = None →
  region_inv h this oroot P S →
  nroot ∈ P ++ S →
  swap_root_internal h this oroot nroot = Some h' →
  ∀ a c, h !! a = Some c → ∃ c', h' !! a = Some c' ∧ same_payload c c'.
Proof.
  intros Hnull Hinv Hin H a c Hc.
  destruct (region_inv_is_reg _ _ _ _ _ Hinv) as [r Hr%get_reg_Some].
  destruct (rings_is_obj h this oroot P S oroot) as [oo Ho%get_obj_Some];
    [by apply region_inv_rings|list_mem|].
  destruct (rings_is_obj h this oroot P S nroot) as [on Hn%get_obj_Some];
    [by apply region_inv_rings|list_mem|].
  assert (∀ k v, h !! k = Some v → same_payload v v) as Hrefl
    by (intros; apply same_payload_refl).
  apply elem_of_app in Hin as [Hin|Hin].
  - apply list_elem_of_split in Hin as (A & B & ->).
    destruct (swap_root_internal_same h this oroot nroot A B S r oo on)
      as [Heq _]; [done..|].
    rewrite Heq in H. injection H as <-.
      lookup_cases a;
        first [by (exists c; split; [done|apply same_payload_refl])
              |by (assert (c = CObject on) as -> by congruence;
                   eexists; split; [reflexivity|done])
              |by (assert (c = CRegion r) as -> by congruence;
                   eexists; split; [reflexivity|done])
              |by (assert (c = CObject oo) as -> by congruence;
                   eexists; split; [reflexivity|done])].
  - apply list_elem_of_split in Hin as (C & D & ->).
    destruct D as [|d D] using rev_ind.
    + destruct (swap_root_internal_last h this oroot nroot P C r oo on)
        as [Heq _]; [done..|].
      rewrite Heq in H. injection H as <-.
      lookup_cases a;
        first [by (exists c; split; [done|apply same_payload_refl])
              |by (assert (c = CObject on) as -> by congruence;
                   eexists; split; [reflexivity|done])
              |by (assert (c = CRegion r) as -> by congruence;
                   eexists; split; [reflexivity|done])
              |by (assert (c = CObject oo) as -> by congruence;
                   eexists; split; [reflexivity|done])].
    + clear IHD.
      destruct (rings_is_obj h this oroot P (C ++ nroot :: D ++ [d]) d)
        as [ot Ht%get_obj_Some]; [by apply region_inv_rings|list_mem|].
      destruct (swap_root_internal_mid h this oroot nroot P C D d r oo on ot)
        as [Heq _]; [done..|].
      rewrite Heq in H. injection H as <-.
      lookup_cases a;
        first [by (exists c; split; [done|apply same_payload_refl])
              |by (assert (c = CObject on) as -> by congruence;
                   eexists; split; [reflexivity|done])
              |by (assert (c = CRegion r) as -> by congruence;
                   eexists; split; [reflexivity|done])
              |by (assert (c = CObject oo) as -> by congruence;
                   eexists; split; [reflexivity|done])
              |by (assert (c = CObject ot) as -> by congruence;
                   eexists; split; [reflexivity|done])].
Qed.

Section ExtraSwapPayload.

Variable size_to_sizeclass : N → N.
Variable sizeclass_to_size : N → N.

(** X16: [swap_root] only relinks the rings and changes kinds: every
    object keeps its descriptor, its fields and its external-reference
    flag, and every metadata object keeps its memory counters, its
    remembered set and its external reference table; no cell is
    allocated or freed. *)
Theorem X16_swap_root_keeps_payload h prev next h' :
  reachable size_to_sizeclass sizeclass_to_size h →
  swap_root h prev next = Some h' →
  (∀ a c, h !! a = Some c → ∃ c', h' !! a = Some c' ∧ same_payload c c') ∧
  (∀ a, h !! a = None → h' !! a = None).
Proof.
  intros Hreach H. apply reachable_heap_inv in Hreach as Hh.
  pose proof Hh as (Hnull & _).
  destruct (swap_root_Some _ _ _ _ H) as (Hne & this & Hget & Hint).
  destruct (heap_inv_get _ _ _ Hh Hget) as (P & S & Hinv).
  pose proof (swap_root_internal_in _ _ _ _ _ _ _ Hnull Hinv Hint) as Hin.
  assert (next ∈ P ++ S) as Hin'.
  { revert Hin. rewrite !elem_of_app, elem_of_cons. intros [?|[?|?]]; auto.
    congruence. }
  split.
  - by apply (swap_root_internal_payload h this prev next P S h').
  - intros a Ha.
    destruct (swap_root_internal_spec h this prev next P S Hnull Hinv Hin')
      as (h'' & P' & S' & Hs & _ & Hfr & _).
    assert (h'' = h') as -> by congruence.
    rewrite Hfr; [done|]. intros Hcell.
    destruct (region_cells_allocated _ _ _ _ _ a Hinv Hcell). congruence.
Qed.

End ExtraSwapPayload.

Lemma X16_swap_root_keeps_payload_witness :
  reachable ex_size_to_sizeclass ex_sizeclass_to_size ex_h4 ∧
  swap_root ex_h4 1 5 = Some ex_s1 ∧
  (∀ a c, ex_h4 !! a = Some c →
          ∃ c', ex_s1 !! a = Some c' ∧ same_payload c c') ∧
  (∀ a, ex_h4 !! a = None → ex_s1 !! a = None).
Proof.
  assert (swap_root ex_h4 1 5 = Some ex_s1) as H by (vm_compute; reflexivity).
  split; [exact ex_h4_reachable|]. split; [exact H|].
  exact (X16_swap_root_keeps_payload
           ex_size_to_sizeclass ex_sizeclass_to_size ex_h4 1 5 ex_s1
           ex_h4_reachable H).
Defined.

Lemma get_class_insert_ne h a c X :
  X ≠ a → Object.get_class (<[a := c]> h) X = Object.get_class h X.
Proof.
  intros. unfold Object.get_class, get_obj. by rewrite lookup_insert_ne.
Qed.

Lemma sweep_unlink_frame sec this h prev p q h2 r :
  h !! this = Some (CRegion r) →
  sweep_unlink sec this h prev p q = Some h2 →
  (∀ b, b ≠ this → b ≠ prev → h2 !! b = h !! b) ∧
  (∃ r2, h2 !! this = Some (CRegion r2)) ∧
  (∀ X, Object.get_class h2 X = Object.get_class h X).
Proof.
  intros Hr H.
  assert (∀ h1 : gmap N Cell,
            (∀ b, b ≠ this → b ≠ prev → h1 !! b = h !! b) →
            (∃ r1, h1 !! this = Some (CRegion r1)) →
            (∀ X, Object.get_class h1 X = Object.get_class h X) →
            (r1 ← get_reg h1 this;
             if decide (sec = true ∧ last_not_root r1 = p)
             then upd_reg (with_last_not_root prev) h1 this
             else Some h1) = Some h2 →
            (∀ b, b ≠ this → b ≠ prev → h2 !! b = h !! b) ∧
            (∃ r2, h2 !! this = Some (CRegion r2)) ∧
            (∀ X, Object.get_class h2 X = Object.get_class h X)) as Hstep.
  { intros h1 Hfr [r1 Hr1] Hcl H1. unfold get_reg in H1. rewrite Hr1 in H1.
    cbn [mbind option_bind] in H1.
    destruct (decide (sec = true ∧ last_not_root r1 = p)).
    - unfold upd_reg, get_reg in H1. rewrite Hr1 in H1.
      cbn [mbind option_bind] in H1. injection H1 as <-.
      split; [|split].
      + intros b Hb1 Hb2. rewrite lookup_insert_ne by done. by apply Hfr.
      + eexists. apply lookup_insert_eq.
      + intros X. rewrite <- Hcl. unfold Object.get_class, get_obj.
        destruct (decide (X = this)) as [->|];
          [by rewrite lookup_insert_eq, Hr1|by rewrite lookup_insert_ne].
    - injection H1 as <-. eauto. }
  unfold sweep_unlink in H.
  destruct (if decide (prev = this ∧ sec = true)
            then upd_reg (with_next_not_root q) h this
            else Object.set_next h prev q) as [h1|] eqn:E1; [|done].
  cbn [mbind option_bind] in H. apply (Hstep h1); [| | |done].
  - intros b Hb1 Hb2.
    destruct (decide (prev = this ∧ sec = true)) as [[-> ->]|Hn].
    + unfold upd_reg, get_reg in E1. rewrite Hr in E1.
      cbn [mbind option_bind] in E1. injection E1 as <-.
      by rewrite lookup_insert_ne.
    + unfold Object.set_next in E1.
      destruct (h !! prev) as [[xp|rp]|]; [| |done]; injection E1 as <-;
        by rewrite lookup_insert_ne.
  - destruct (decide (prev = this ∧ sec = true)) as [[-> ->]|Hn].
    + unfold upd_reg, get_reg in E1. rewrite Hr in E1.
      cbn [mbind option_bind] in E1. injection E1 as <-.
      eexists. apply lookup_insert_eq.
    + unfold Object.set_next in E1.
      destruct (h !! prev) as [[xp|rp]|] eqn:Hp; [| |done];
        injection E1 as <-.
      * assert (prev ≠ this) by congruence. exists r.
        by rewrite lookup_insert_ne.
      * destruct (decide (prev = this)) as [->|].
        -- eexists. apply lookup_insert_eq.
        -- exists r. by rewrite lookup_insert_ne.
  - intros X. unfold Object.get_class, get_obj.
    destruct (decide (prev = this ∧ sec = true)) as [[-> ->]|Hn].
    + unfold upd_reg, get_reg in E1. rewrite Hr in E1.
      cbn [mbind option_bind] in E1. injection E1 as <-.
      destruct (decide (X = this)) as [->|];
        [by rewrite lookup_insert_eq, Hr|by rewrite lookup_insert_ne].
    + unfold Object.set_next in E1.
      destruct (h !! prev) as [[xp|rp]|] eqn:Hp; [| |done];
        injection E1 as <-.
      * destruct (decide (X = prev)) as [->|];
          [by rewrite lookup_insert_eq, Hp|by rewrite lookup_insert_ne].
      * destruct (decide (X = prev)) as [->|];
          [by rewrite lookup_insert_eq, Hp|by rewrite lookup_insert_ne].
Qed.

Lemma sweep_dispose_collect ring this o c p gc c1 gc1 xp r :
  heap c !! p = Some (CObject xp) →
  heap c !! this = Some (CRegion r) →
  sweep_dispose ring this o c p gc = Some (c1, gc1) →
  (∀ b, b ≠ p → b ≠ this → heap c1 !! b = heap c !! b) ∧
  (∃ r1, heap c1 !! this = Some (CRegion r1)) ∧
  (∀ X, X ≠ p → Object.get_class (heap c1) X = Object.get_class (heap c) X) ∧
  collect_stack c1 =
    match ring with
    | FinaliserRing =>
        rev (filter (λ q, q ≠ o ∧ Object.get_class (heap c) q = Some ISO)
               (o_fields xp))
    | NonfinaliserRing => []
    end ++ collect_stack c.
Proof.
  intros Hp Hr H. assert (p ≠ this) as Hne by congruence.
  destruct ring.
  - unfold sweep_dispose in H.
    destruct (Object.find_iso_fields c p o) as [cA|] eqn:HA; [|done].
    cbn [mbind option_bind] in H.
    unfold Object.find_iso_fields, get_obj in HA. rewrite Hp in HA.
    cbn [mbind option_bind] in HA. injection HA as <-. cbn [heap] in H.
    destruct (Object.has_finaliser (heap c) p) as [hf|]; [|done].
    cbn [mbind option_bind] in H.
    match type of H with
    | context [if hf then Object.finalise ?cA p else _] =>
        destruct (if hf then Object.finalise cA p else Some cA)
          as [cB|] eqn:HB; [|done];
        assert (heap cB = heap cA ∧ collect_stack cB = collect_stack cA)
          as [HhB HsB]
    end.
    { destruct hf; [|by injection HB as <-].
      unfold Object.finalise in HB. cbn [heap] in HB.
      destruct (get_obj (heap c) p); [|done]. by injection HB as <-. }
    cbn [mbind option_bind] in H. cbn [heap collect_stack] in HhB, HsB.
    destruct (Object.set_next (heap cB) p gc) as [h1|] eqn:HS; [|done].
    cbn [mbind option_bind] in H. injection H as <- _.
    cbn [heap collect_stack set_heap]. rewrite HsB.
    unfold Object.set_next in HS. rewrite HhB, Hp in HS. injection HS as <-.
    split; [intros b Hb _; by rewrite lookup_insert_ne|].
    split; [exists r; by rewrite lookup_insert_ne|].
    split; [intros X HX; by apply get_class_insert_ne|done].
  - destruct (sweep_dispose_nonfinaliser _ _ _ _ _ _ _ _ _ Hp Hr H)
      as (_ & [s Hh] & _).
    assert (collect_stack c1 = collect_stack c) as Hst.
    { unfold sweep_dispose in H.
      destruct (Object.has_possibly_iso_fields (heap c) p); [|done].
      cbn [mbind option_bind] in H.
      destruct (guard (b = false)); [|done]. cbn [mbind option_bind] in H.
      destruct (Object.has_ext_ref (heap c) p) as [er|]; [|done].
      cbn [mbind option_bind] in H.
      destruct (if er then ExternalReferenceTable.erase (heap c) this p
                else Some (heap c)) as [h1|]; [|done].
      cbn [mbind option_bind] in H. unfold Object.dealloc in H.
      cbn [heap set_heap] in H. destruct (h1 !! p); [|done].
      cbn [mbind option_bind] in H. by injection H as <- _. }
    rewrite Hh. split; [|split; [|split; [|done]]].
    + intros b Hb1 Hb2. by rewrite lookup_delete_ne, lookup_insert_ne.
    + eexists. rewrite lookup_delete_ne by done. apply lookup_insert_eq.
    + intros X HX. unfold Object.get_class, get_obj.
      rewrite lookup_delete_ne by done.
      destruct (decide (X = this)) as [->|];
        [by rewrite lookup_insert_eq, Hr|by rewrite lookup_insert_ne].
Qed.

(** The collect stack through the loop of [sweep_ring]: it only grows, and
    in the finaliser ring the loop pushes the isos of other regions that
    the fields of the unmarked objects point to. *)
Lemma sweep_loop_collect ring sec this o fuel :
  ∀ l c prev p gc c' gc',
    sweep_loop fuel ring sec this o c prev p gc = Some (c', gc') →
    is_Some (get_reg (heap c) this) →
    lseg (heap c) p this l → NoDup l → prev ∉ l →
    (∃ s, collect_stack c' = s ++ collect_stack c) ∧
    (ring = FinaliserRing →
     ∀ a x X, a ∈ l → heap c !! a = Some (CObject x) →
       o_class x = UNMARKED → X ∈ o_fields x → X ≠ o →
       Object.get_class (heap c) X = Some ISO → X ∈ collect_stack c').
Proof.
  induction fuel as [|fuel IH];
    intros l c prev p gc c' gc' H [r Hr%get_reg_Some] Hl Hnd Hprev.
  { simpl in H. destruct (decide (p = this)) as [->|]; [|done].
    injection H as <- <-. apply (lseg_this_nil _ _ _ _ Hr) in Hl as ->.
    split; [by exists []|]. intros _ a x X Ha. by apply elem_of_nil in Ha. }
  rewrite sweep_loop_unfold in H.
  destruct (decide (p = this)) as [->|Hpt].
  { injection H as <- <-. apply (lseg_this_nil _ _ _ _ Hr) in Hl as ->.
    split; [by exists []|]. intros _ a x X Ha. by apply elem_of_nil in Ha. }
  destruct l as [|p' l]; [simpl in Hl; congruence|].
  apply lseg_cons in Hl as (<- & xp & Hp & Hl).
  apply NoDup_cons in Hnd as [Hpl Hnd].
  assert (this ∉ l) as Htl.
  { apply (lseg_not_reg _ _ _ _ _ Hl). unfold get_reg. by rewrite Hr. }
  unfold Object.get_class at 1 in H. unfold get_obj at 1 in H.
  rewrite Hp in H. cbn [fmap option_fmap option_map mbind option_bind] in H.
  destruct (o_class xp) eqn:Hc; try done.
  - (* UNMARKED *)
    unfold Object.get_next at 1 in H. rewrite Hp in H.
    cbn [mbind option_bind] in H.
    destruct (sweep_dispose ring this o c p gc) as [[c1 gc1]|] eqn:Hd;
      [|done].
    cbn [mbind option_bind] in H.
    destruct (sweep_dispose_collect _ _ _ _ _ _ _ _ _ _ Hp Hr Hd)
      as (Hfr1 & [r1 Hr1] & Hcl1 & Hst1).
    destruct (sweep_unlink sec this (heap c1) prev p (o_next xp))
      as [h2|] eqn:Hu; [|done].
    cbn [mbind option_bind] in H.
    destruct (sweep_unlink_frame _ _ _ _ _ _ _ _ Hr1 Hu)
      as (Hfr2 & [r2 Hr2] & Hcl2).
    assert (∀ b, b ∈ l → h2 !! b = heap c !! b) as Hfr.
    { intros b Hb. rewrite Hfr2, Hfr1; [done| | | |]; intros ->; done
        || (by apply Hprev; right). }
    destruct (IH l (set_heap h2 c1) prev (o_next xp) gc1 c' gc' H) as [Hs Hx].
    + exists r2. by apply get_reg_Some.
    + by apply (lseg_frame (heap c)).
    + done.
    + intros ?. apply Hprev. by right.
    + cbn [collect_stack set_heap heap] in Hs, Hx.
      destruct Hs as [s Hs]. split.
      { rewrite Hs, Hst1. eexists. by rewrite app_assoc. }
      intros -> a x X Ha Hxa Hu' HX Hne HXiso.
      apply elem_of_cons in Ha as [->|Ha].
      * assert (x = xp) as -> by congruence.
        rewrite Hs, Hst1. apply elem_of_app. right. apply elem_of_app. left.
        apply list_elem_of_In. rewrite <- in_rev. apply list_elem_of_In.
        by apply list_elem_of_filter.
      * apply (Hx eq_refl a x X); try done.
        -- by rewrite Hfr.
        -- rewrite Hcl2, Hcl1; [done|]. intros ->.
           unfold Object.get_class, get_obj in HXiso. rewrite Hp in HXiso.
           simpl in HXiso. congruence.
  - (* MARKED *)
    unfold Object.size at 1 in H. unfold get_obj at 1 in H. rewrite Hp in H.
    cbn [fmap option_fmap option_map mbind option_bind] in H.
    rewrite (use_memory_spec _ _ _ _ Hr) in H. cbn [mbind option_bind] in H.
    unfold Object.unmark, get_obj in H.
    rewrite lookup_insert_ne, Hp in H by done.
    cbn [mbind option_bind] in H. rewrite option_guard_True in H by done.
    cbn [mbind option_bind] in H.
    unfold Object.get_next at 1 in H. rewrite lookup_insert_eq in H.
    cbn [mbind option_bind with_class o_next] in H.
    match type of H with
    | sweep_loop _ _ _ _ _ (set_heap ?hh _) _ _ _ = _ => set (h2 := hh) in H
    end.
    assert (∀ b, b ∈ l → h2 !! b = heap c !! b) as Hfr.
    { intros b Hb. unfold h2. rewrite !lookup_insert_ne; [done| |];
        intros ->; done. }
    destruct (IH l (set_heap h2 c) p (o_next xp) gc c' gc' H) as [Hs Hx].
    + eexists. apply get_reg_Some. unfold h2. cbn [heap set_heap].
      rewrite lookup_insert_ne by done. apply lookup_insert_eq.
    + by apply (lseg_frame (heap c)).
    + done.
    + done.
    + cbn [collect_stack set_heap heap] in Hs, Hx. split; [done|].
      intros -> a x X Ha Hxa Hu' HX Hne HXiso.
      apply elem_of_cons in Ha as [->|Ha]; [congruence|].
      apply (Hx eq_refl a x X); try done; [by rewrite Hfr|].
      unfold h2. rewrite !get_class_insert_ne; [done| |].
      * intros ->. unfold Object.get_class, get_obj in HXiso.
        rewrite Hr in HXiso. done.
      * intros ->. unfold Object.get_class, get_obj in HXiso.
        rewrite Hp in HXiso. simpl in HXiso. congruence.
  - (* ISO *)
    destruct (guard (p = o)); [|done]. cbn [mbind option_bind] in H.
    unfold Object.get_next_any_mark, Object.get_next in H. rewrite Hp in H.
    cbn [mbind option_bind] in H.
    destruct (guard (o_next xp = this)) as [En|]; [|done].
    cbn [mbind option_bind] in H.
    destruct (Object.get_region (heap c) p) as [n0|]; [|done].
    cbn [mbind option_bind] in H.
    destruct (guard (n0 = this)); [|done]. cbn [mbind option_bind] in H.
    destruct (Object.size (heap c) p) as [n1|]; [|done].
    cbn [mbind option_bind] in H.
    destruct (use_memory (heap c) this n1); [|done].
    cbn [mbind option_bind] in H. injection H as <- <-.
    cbn [collect_stack set_heap]. split; [by exists []|].
    intros _ a x X Ha Hxa Hu' HX Hne HXiso. exfalso.
    apply elem_of_cons in Ha as [->|Ha]; [congruence|].
    rewrite En in Hl. apply (lseg_this_nil _ _ _ _ Hr) in Hl as ->.
    by apply elem_of_nil in Ha.
Qed.

Lemma free_deferred_collect fuel :
  ∀ c gc c', free_deferred fuel c gc = Some c' →
             collect_stack c' = collect_stack c.
Proof.
  induction fuel as [|fuel IH]; intros c gc c' H; simpl in H.
  - destruct (decide (gc = nullptr)); [|done]. by injection H as <-.
  - destruct (decide (gc = nullptr)); [by injection H as <-|].
    destruct (Object.get_next (heap c) gc); [|done].
    cbn [mbind option_bind] in H. unfold Object.dealloc in H.
    destruct (heap c !! gc); [|done]. cbn [mbind option_bind] in H.
    by rewrite (IH _ _ _ H).
Qed.

Lemma sweep_ring_collect fuel ring this c o c' P S (bo : bool) :
  sweep_ring fuel ring this c o = Some c' →
  rings (heap c) this o P S →
  obj_sat (needs bo) (heap c) o →
  (∃ s, collect_stack c' = s ++ collect_stack c) ∧
  (ring = FinaliserRing →
   ∀ a x X, a ∈ swept_ring FinaliserRing bo o P S →
     heap c !! a = Some (CObject x) →
     o_class x = UNMARKED → X ∈ o_fields x → X ≠ o →
     Object.get_class (heap c) X = Some ISO → X ∈ collect_stack c').
Proof.
  intros H Hrings Hbo.
  pose proof Hrings as (r & Hr & HP & HS & Hlast & Hnd)%rings_iff.
  unfold sweep_ring in H.
  rewrite (needs_finaliser_ring_obj _ _ _ Hbo) in H.
  cbn [mbind option_bind] in H.
  unfold get_reg in H. rewrite Hr in H. cbn [mbind option_bind] in H.
  fold (swept_secondary ring bo) in H.
  assert ((if swept_secondary ring bo then Some (next_not_root r)
           else Object.get_next (heap c) this) =
          Some (if swept_secondary ring bo then next_not_root r else r_next r))
    as Hp.
  { destruct (swept_secondary ring bo); [done|].
    unfold Object.get_next. by rewrite Hr. }
  rewrite Hp in H. cbn [mbind option_bind] in H. clear Hp.
  destruct (sweep_loop _ _ _ _ _ _ _ _ _) as [[c1 gc1]|] eqn:Hloop; [|done].
  cbn [mbind option_bind] in H.
  set (l := swept_ring ring bo o P S).
  assert (lseg (heap c)
            (if swept_secondary ring bo then next_not_root r else r_next r)
            this l) as Hl.
  { unfold l, swept_ring. by destruct (swept_secondary ring bo). }
  assert (NoDup l) as Hndl.
  { unfold l, swept_ring. destruct (swept_secondary ring bo).
    - apply NoDup_app in Hnd as (_ & _ & Hnd).
      by apply NoDup_cons in Hnd as [_ ?].
    - replace (P ++ o :: S) with ((P ++ [o]) ++ S) in Hnd
        by (by rewrite <- app_assoc).
      by apply NoDup_app in Hnd as (? & _ & _). }
  assert (this ∉ l) as Hthis.
  { apply (lseg_not_reg _ _ _ _ _ Hl). unfold get_reg. by rewrite Hr. }
  destruct (sweep_loop_collect _ _ _ _ _ l _ _ _ _ _ _ Hloop) as [Hs Hx];
    [exists r; by apply get_reg_Some|done..|].
  assert (collect_stack c' = collect_stack c1) as E.
  { destruct ring; [by apply free_deferred_collect in H|by injection H as <-]. }
  rewrite E. split; [done|]. intros ->. exact (Hx eq_refl).
Qed.

Section CollectProofs.

Variable size_to_sizeclass : N → N.

Lemma sweep_collect fuel this c o marked c' P S (bo : bool) :
  sweep size_to_sizeclass fuel this c o marked = Some c' →
  heap c !! nullptr = None →
  region_inv (heap c) this o P S →
  obj_sat (needs bo) (heap c) o →
  (∃ s, collect_stack c' = s ++ collect_stack c) ∧
  ∀ a x X, a ∈ swept_ring FinaliserRing bo o P S →
    heap c !! a = Some (CObject x) →
    o_class x = UNMARKED → X ∈ o_fields x → X ≠ o →
    Object.get_class (heap c) X = Some ISO → X ∈ collect_stack c'.
Proof.
  intros H Hnull Hinv Hbo.
  destruct (region_inv_elim _ _ _ _ _ Hinv)
    as (r & b & Hr & _ & _ & _ & _ & Hthis & _).
  unfold sweep in H.
  set (h0 := <[this := CRegion (with_current_memory_used 0 r)]> (heap c)).
  assert (upd_reg (with_current_memory_used 0) (heap c) this = Some h0) as E0.
  { unfold upd_reg, get_reg. by rewrite Hr. }
  rewrite E0 in H. clear E0. cbn [mbind option_bind] in H.
  assert (∀ a, a ≠ this → h0 !! a = heap c !! a) as Hfr0.
  { intros a Ha. unfold h0. by rewrite lookup_insert_ne. }
  assert (region_inv h0 this o P S) as Hinv0.
  { eapply region_inv_insert_equiv; [done| |done]. done. }
  assert (h0 !! nullptr = None) as Hnull0.
  { rewrite Hfr0; [done|]. intros E. rewrite <- E in Hr. congruence. }
  assert (obj_sat (needs bo) h0 o) as Hbo0.
  { eapply obj_sat_insert_reg; done. }
  destruct (sweep_ring fuel FinaliserRing this (set_heap h0 c) o)
    as [c1|] eqn:H1; [|done].
  cbn [mbind option_bind] in H.
  destruct (sweep_ring fuel NonfinaliserRing this c1 o)
    as [c2|] eqn:H2; [|done].
  cbn [mbind option_bind] in H.
  destruct (sweep_ring_collect _ _ _ _ _ _ _ _ _ H1
              (region_inv_rings _ _ _ _ _ Hinv0) Hbo0) as [[s1 Hs1] Hx1].
  destruct (sweep_ring_region_inv _ _ _ _ _ _ _ _ _ H1 Hnull0 Hinv0 Hbo0)
    as (Hinv1 & Hnull1 & Hbo1).
  destruct (sweep_ring_collect _ _ _ _ _ _ _ _ _ H2
              (region_inv_rings _ _ _ _ _ Hinv1) Hbo1) as [[s2 Hs2] _].
  assert (collect_stack c' = collect_stack c2) as E.
  { destruct (RememberedSet.sweep_set (heap c2) this marked); [|done].
    cbn [mbind option_bind] in H. destruct (get_reg g this); [|done].
    cbn [mbind option_bind] in H. destruct (upd_reg _ g this); [|done].
    cbn [mbind option_bind] in H. by injection H as <-. }
  cbn [collect_stack set_heap heap] in Hs1, Hx1.
  split.
  { exists (s2 ++ s1). by rewrite E, Hs2, Hs1, app_assoc. }
  intros a x X Ha Hxa Hu HX Hne HXiso.
  rewrite E, Hs2. apply elem_of_app. right.
  assert (a ≠ this) as Hat.
  { intros ->. apply Hthis. revert Ha. unfold swept_ring.
    destruct (swept_secondary FinaliserRing bo);
      rewrite !elem_of_app, !elem_of_cons, ?elem_of_nil; tauto. }
  apply (Hx1 eq_refl a x X); try done.
  - by rewrite Hfr0.
  - unfold h0. rewrite get_class_insert_ne; [done|]. intros ->.
    unfold Object.get_class, get_obj in HXiso. by rewrite Hr in HXiso.
Qed.

Lemma release_internal_collect fuel this c o c' P S :
  release_internal size_to_sizeclass fuel this c o = Some c' →
  heap c !! nullptr = None →
  region_inv (heap c) this o P S →
  ∃ s, collect_stack c' = s ++ collect_stack c.
Proof.
  intros H Hnull Hinv. unfold release_internal in H.
  destruct (guard (Object.debug_is_iso (heap c) o = true)); [|done].
  cbn [mbind option_bind] in H.
  destruct (Object.find_iso_fields c o o) as [cA|] eqn:HA; [|done].
  cbn [mbind option_bind] in H.
  assert (heap cA = heap c ∧ ∃ s, collect_stack cA = s ++ collect_stack c)
    as [HhA [sA HsA]].
  { unfold Object.find_iso_fields in HA.
    destruct (get_obj (heap c) o); [|done]. injection HA as <-.
    split; [done|]. by eexists. }
  destruct (Object.finalise cA o) as [c1|] eqn:HB; [|done].
  cbn [mbind option_bind] in H.
  assert (heap c1 = heap c ∧ collect_stack c1 = collect_stack cA)
    as [Hc1 Hs1].
  { unfold Object.finalise in HB.
    destruct (get_obj (heap cA) o); [|done]. by injection HB as <-. }
  destruct (sweep size_to_sizeclass fuel this c1 o 0) as [c2|] eqn:Hsw;
    [|done].
  cbn [mbind option_bind] in H.
  destruct (region_inv_needs _ _ _ _ _ Hinv) as [bo Hbo].
  rewrite <- Hc1 in Hnull, Hinv, Hbo.
  destruct (sweep_collect _ _ _ _ _ _ _ _ _ Hsw Hnull Hinv Hbo)
    as [[s2 Hs2] _].
  unfold Object.dealloc in H.
  destruct (heap c2 !! this); [|done]. cbn [mbind option_bind heap] in H.
  destruct (delete this (heap c2) !! o); [|done].
  cbn [mbind option_bind heap] in H. injection H as <-.
  cbn [collect_stack]. exists (s2 ++ sA).
  by rewrite Hs2, Hs1, HsA, app_assoc.
Qed.

(** The loop of [gc] releases every iso that is on the collect stack. *)
Lemma release_unreachable_frees fuel reg :
  ∀ c c',
    release_unreachable size_to_sizeclass fuel reg c = Some c' →
    heap_inv (heap c) →
    ∀ X, X ∈ collect_stack c → heap c' !! X = None.
Proof.
  induction fuel as [|fuel IH]; intros c c' H Hh X HX.
  - simpl in H. destruct (collect_stack c); [|done].
    by apply elem_of_nil in HX.
  - pose proof H as H0. simpl in H.
    destruct (collect_stack c) as [|o rest] eqn:Est;
      [by apply elem_of_nil in HX|].
    cbn [heap] in H.
    rewrite (option_guard_decide (Object.debug_is_iso (heap c) o = true)) in H.
    destruct (decide (Object.debug_is_iso (heap c) o = true)) as [Hiso|];
      [|done].
    cbn [mbind option_bind] in H.
    destruct (Object.get_region (heap c) o) as [r|] eqn:Hreg; [|done].
    cbn [mbind option_bind] in H.
    rewrite (option_guard_decide (r ≠ reg)) in H.
    destruct (decide (r ≠ reg)) as [Hne|]; [|done].
    cbn [mbind option_bind] in H.
    destruct (is_trace_region (heap c) r) eqn:Htr; [|done].
    match type of H with
    | context [release_internal _ _ _ ?c0 _] => set (c0' := c0) in H
    end.
    destruct (release_internal size_to_sizeclass fuel r c0' o) as [c1|] eqn:Hrel;
      [|done].
    cbn [mbind option_bind] in H.
    assert (get (heap c) o = Some r) as Hget.
    { unfold get. rewrite option_guard_True by done.
      cbn [mbind option_bind]. rewrite Hreg. cbn [mbind option_bind].
      by rewrite option_guard_True by done. }
    destruct (heap_inv_get _ _ _ Hh Hget) as (P' & S' & Hinv').
    destruct (release_internal_spec _ _ _ _ _ _ _ _ Hrel Hh Hinv')
      as (Hh1 & _ & Ho1 & _ & _).
    pose proof Hh as (Hnull & _).
    destruct (release_internal_collect _ _ _ _ _ _ _ Hrel Hnull Hinv')
      as [s Hs].
    cbn [collect_stack c0'] in Hs.
    destruct (release_unreachable_spec _ _ _ _ _ H Hh1) as (_ & _ & Hnone & _).
    apply elem_of_cons in HX as [->|HX].
    + by apply Hnone.
    + apply (IH c1 c' H Hh1). rewrite Hs. apply elem_of_app. by right.
Qed.

End CollectProofs.

Section ExtraCascade.

Variable size_to_sizeclass : N → N.
Variable sizeclass_to_size : N → N.

(** X17: [gc] releases the unreachable sub-regions: when an unreachable
    (unmarked, not traced) object of the ring that needs finalisers has a
    field that points to the iso [X] of another region, [X] is pushed on
    the collect stack by the sweep and its region is released by the loop
    of [gc], so [X] is deallocated when [gc] returns. *)
Theorem X17_gc_releases_unreachable_subregions
    fuel h o c' this P S xo p xp X :
  reachable size_to_sizeclass sizeclass_to_size h →
  rings h this o P S →
  h !! o = Some (CObject xo) →
  gc size_to_sizeclass fuel h o = Some c' →
  p ∈ P ++ S →
  h !! p = Some (CObject xp) →
  o_class xp = UNMARKED →
  desc_needs_finaliser_ring (o_descriptor xp) = true →
  ¬ traced h (o_fields xo) p →
  X ∈ o_fields xp → X ≠ o →
  Object.debug_is_iso h X = true →
  heap c' !! X = None.
Proof.
  intros Hreach Hrings Ho H Hp Hxp Hu Hneed Hnt HX Hne HXiso.
  apply reachable_heap_inv in Hreach as Hh.
  pose proof (heap_inv_rings _ _ _ _ _ Hh Hrings) as Hinv.
  unfold gc in H.
  destruct (guard (Object.debug_is_iso h o = true)); [|done].
  cbn [mbind option_bind] in H.
  rewrite (region_inv_get _ _ _ _ _ Hinv) in H. cbn [mbind option_bind] in H.
  destruct (mark fuel h this o [] 0) as [[[h1 f] marked]|] eqn:Hmark; [|done].
  cbn [mbind option_bind] in H.
  destruct (sweep size_to_sizeclass fuel this (mkCollector h1 f [] []) o marked)
    as [c2|] eqn:Hsw; [|done].
  cbn [mbind option_bind] in H.
  destruct (mark_rel_heap _ _ _ _ _ _ _ _ _ Hmark) as [Hrel _].
  pose proof (heap_mark_rel_heap_inv _ _ Hrel Hh) as Hh1.
  pose proof (heap_mark_rel_region_inv _ _ _ _ _ _ Hrel Hinv) as Hinv1.
  pose proof Hh1 as (Hnull1 & _).
  pose proof (sweep_heap_inv _ _ _ _ _ _ _ _ _ Hsw Hh1 Hinv1) as Hh2.
  pose proof (mark_exact _ _ _ _ _ _ _ _ Ho Hmark) as Hex.
  (* the dead object and the iso it points to are as before the mark *)
  assert (h1 !! p = Some (CObject xp)) as Hxp1.
  { destruct (Hex p xp Hxp) as [_ Hk]. apply Hk. by right. }
  unfold Object.debug_is_iso, Object.get_class in HXiso.
  apply bool_decide_eq_true in HXiso.
  destruct (get_obj h X) as [xX|] eqn:HxX; [|done].
  apply get_obj_Some in HxX. simpl in HXiso. injection HXiso as HcX.
  assert (h1 !! X = Some (CObject xX)) as HxX1.
  { destruct (Hex X xX HxX) as [_ Hk]. apply Hk. left. congruence. }
  (* the iso of the region and the ring of [p] *)
  destruct (region_inv_elim _ _ _ _ _ Hinv1)
    as (_ & b & _ & _ & _ & _ & Hnd & _ & _ & _ & Hb & HbP & HbS).
  assert (p ∈ swept_ring FinaliserRing b o P S) as Hring.
  { rewrite Forall_forall in HbP, HbS.
    assert (∀ bb, obj_sat (needs bb) h1 p → bb = true) as Hpn.
    { intros bb (y & Hy & Hyb)%obj_sat_iff. unfold needs in Hyb.
      assert (y = xp) as -> by congruence. congruence. }
    unfold swept_ring, swept_secondary.
    apply elem_of_app in Hp as [Hp|Hp].
    - specialize (Hpn _ (HbP p Hp)). subst b. simpl.
      apply elem_of_app. by left.
    - specialize (Hpn _ (HbS p Hp)). destruct b; [done|]. done. }
  destruct (sweep_collect _ _ _ _ _ _ _ _ _ _ Hsw Hnull1 Hinv1 Hb)
    as [_ Hpush].
  cbn [heap] in Hpush.
  assert (X ∈ collect_stack c2) as Hstack.
  { apply (Hpush p xp X); try done.
    unfold Object.get_class, get_obj. rewrite HxX1. simpl. by rewrite HcX. }
  by apply (release_unreachable_frees _ _ _ _ _ H Hh2).
Qed.

End ExtraCascade.

Lemma ex_k1_reachable :
  reachable ex_size_to_sizeclass ex_sizeclass_to_size ex_k1.
Proof.
  apply (reachable_store _ _ ex_m2 5 [7%N]); [|vm_compute; reflexivity].
  exact ex_m2_reachable.
Defined.

Lemma X17_gc_releases_unreachable_subregions_witness :
  ∃ xo xp c',
    reachable ex_size_to_sizeclass ex_sizeclass_to_size ex_k1 ∧
    rings ex_k1 2 1 [4%N] [5%N; 3%N] ∧
    ex_k1 !! 1%N = Some (CObject xo) ∧
    gc ex_size_to_sizeclass 10 ex_k1 1 = Some c' ∧
    5%N ∈ [4%N] ++ [5%N; 3%N] ∧
    ex_k1 !! 5%N = Some (CObject xp) ∧
    o_class xp = UNMARKED ∧
    desc_needs_finaliser_ring (o_descriptor xp) = true ∧
    ¬ traced ex_k1 (o_fields xo) 5 ∧
    7%N ∈ o_fields xp ∧ 7%N ≠ 1%N ∧
    Object.debug_is_iso ex_k1 7 = true ∧
    heap c' !! 7%N = None ∧
    log c' = [EvFinalise 5; EvFinalise 3; EvDealloc 3; EvDealloc 5;
              EvDealloc 4; EvFinalise 7; EvDealloc 9; EvDealloc 8;
              EvDealloc 7].
Proof.
  destruct (ex_k1 !! 1%N) as [[xo|r]|] eqn:Ho;
    [|vm_compute in Ho; discriminate Ho|vm_compute in Ho; discriminate Ho].
  destruct (ex_k1 !! 5%N) as [[xp|r]|] eqn:Hp;
    [|vm_compute in Hp; discriminate Hp|vm_compute in Hp; discriminate Hp].
  destruct (gc ex_size_to_sizeclass 10 ex_k1 1) as [c'|] eqn:Hgc;
    [|vm_compute in Hgc; discriminate Hgc].
  exists xo, xp, c'.
  assert (rings ex_k1 2 1 [4%N] [5%N; 3%N]) as Hrings.
  { apply (proj2 (rings_iff ex_k1 2 1 [4%N] [5%N; 3%N])). eexists.
    split; [vm_compute; reflexivity|].
    repeat (split; [vm_compute; repeat split; reflexivity|]).
    apply (bool_decide_unpack _). vm_compute. exact I. }
  assert (5%N ∈ [4%N] ++ [5%N; 3%N]) as Hin
    by (apply (bool_decide_unpack _); vm_compute; exact I).
  assert (o_class xp = UNMARKED) as Hu
    by (vm_compute in Hp; injection Hp as <-; reflexivity).
  assert (desc_needs_finaliser_ring (o_descriptor xp) = true) as Hneed
    by (vm_compute in Hp; injection Hp as <-; reflexivity).
  assert (¬ traced ex_k1 (o_fields xo) 5) as Hnt.
  { vm_compute in Ho. injection Ho as <-. simpl. apply traced_nil. }
  assert (7%N ∈ o_fields xp) as HX.
  { vm_compute in Hp. injection Hp as <-. simpl. left. }
  assert (7%N ≠ 1%N) as Hne by discriminate.
  assert (Object.debug_is_iso ex_k1 7 = true) as Hiso
    by (vm_compute; reflexivity).
  split; [exact ex_k1_reachable|]. split; [exact Hrings|].
  split; [reflexivity|]. split; [reflexivity|]. split; [exact Hin|].
  split; [reflexivity|]. split; [exact Hu|]. split; [exact Hneed|].
  split; [exact Hnt|]. split; [exact HX|]. split; [exact Hne|].
  split; [exact Hiso|]. split.
  - exact (X17_gc_releases_unreachable_subregions
             ex_size_to_sizeclass ex_sizeclass_to_size 10 ex_k1 1 c' 2
             [4%N] [5%N; 3%N] xo 5 xp 7 ex_k1_reachable Hrings Ho Hgc
             Hin Hp Hu Hneed Hnt HX Hne Hiso).
  - vm_compute in Hgc. injection Hgc as <-. reflexivity.
Defined.

(** X18: [mark] only flips kinds and records in the remembered set: it
    returns with an empty stack, allocates and frees nothing, every
    object keeps its link, descriptor and fields (its kind either stays
    or goes from UNMARKED to MARKED), and a metadata object changes in
    its remembered set only. *)
Theorem X18_mark_changes_only_marks fuel h this o h' f m :
  mark fuel h this o [] 0 = Some (h', f, m) →
  f = [] ∧
  (∀ a, h !! a = None ↔ h' !! a = None) ∧
  (∀ a x, h !! a = Some (CObject x) →
     h' !! a = Some (CObject x) ∨
     (o_class x = UNMARKED ∧ h' !! a = Some (CObject (with_class MARKED x)))) ∧
  (∀ a r, h !! a = Some (CRegion r) →
     ∃ s, h' !! a = Some (CRegion (with_hash_set s r))).
Proof.
  intros H. destruct (mark_rel_heap _ _ _ _ _ _ _ _ _ H) as [Hrel ->].
  split; [done|]. split; [|split].
  - intros a. specialize (Hrel a).
    destruct (h !! a), (h' !! a); try done.
  - intros a x Hx. specialize (Hrel a). rewrite Hx in Hrel.
    destruct (h' !! a) as [[x'|]|]; try done. simpl in Hrel.
    destruct Hrel as [->|[Hu ->]]; auto.
  - intros a r Hr. specialize (Hrel a). rewrite Hr in Hrel.
    destruct (h' !! a) as [[|r']|]; try done. simpl in Hrel.
    destruct Hrel as [s ->]. eauto.
Qed.

Lemma X18_mark_changes_only_marks_witness :
  ∃ h' f m,
    mark 10 ex_m4 2 1 [] 0 = Some (h', f, m) ∧
    f = [] ∧
    (∀ a, ex_m4 !! a = None ↔ h' !! a = None) ∧
    (∀ a x, ex_m4 !! a = Some (CObject x) →
       h' !! a = Some (CObject x) ∨
       (o_class x = UNMARKED ∧
        h' !! a = Some (CObject (with_class MARKED x)))) ∧
    (∀ a r, ex_m4 !! a = Some (CRegion r) →
       ∃ s, h' !! a = Some (CRegion (with_hash_set s r))).
Proof.
  destruct (mark 10 ex_m4 2 1 [] 0) as [[[h' f] m]|] eqn:Hm;
    [|vm_compute in Hm; discriminate Hm].
  exists h', f, m. split; [reflexivity|].
  exact (X18_mark_changes_only_marks 10 ex_m4 2 1 h' f m Hm).
Defined.

Lemma filter_all {A} (P : A → Prop) `{∀ x, Decision (P x)} (l : list A) :
  (∀ a, a ∈ l → P a) → filter P l = l.
Proof.
  induction l as [|a l IH]; intros Hall; [done|].
  rewrite filter_cons_True by (apply Hall; left).
  rewrite IH; [done|]. intros b Hb. apply Hall. by right.
Qed.

Lemma traced_in_cells h cells seed a :
  isolated h cells →
  (∀ s, s ∈ seed → s ∈ cells ∨ obj_sat (λ y, o_class y ≠ UNMARKED) h s) →
  traced h seed a →
  a ∈ cells ∨ obj_sat (λ y, o_class y ≠ UNMARKED) h a.
Proof.
  intros Hiso Hseed. induction 1 as [a Ha|b x q _ IH Hx Hc Hq].
  - by apply Hseed.
  - destruct IH as [Hb|(y & Hy & Hny)%obj_sat_iff].
    + by apply (Hiso b x q).
    + assert (y = x) as -> by congruence. done.
Qed.

Section ExtraGcTwice.

Variable size_to_sizeclass : N → N.
Variable sizeclass_to_size : N → N.

(** X19: collecting twice frees nothing more.  In a heap that keeps the
    region discipline (the fields of the objects of the region point into
    the region or to objects that are not unmarked mutables) and whose
    interior objects are unmarked, a second [gc] right after a first one
    leaves the rings of the region exactly as the first one left them. *)
Theorem X19_gc_twice_frees_nothing_more fuel fuel' h o c1 c2 this P S :
  reachable size_to_sizeclass sizeclass_to_size h →
  rings h this o P S →
  isolated h (region_cells this o P S) →
  Forall (λ a, Object.get_class h a = Some UNMARKED) (P ++ S) →
  gc size_to_sizeclass fuel h o = Some c1 →
  gc size_to_sizeclass fuel' (heap c1) o = Some c2 →
  ∃ P1 S1,
    rings (heap c1) this o P1 S1 ∧ rings (heap c2) this o P1 S1 ∧
    (∀ a, a ∈ P1 ++ S1 → a ∈ P ++ S).
Proof.
  intros Hreach Hrings Hisol Hall H1 H2.
  pose proof (reachable_gc _ _ _ _ _ _ Hreach H1) as Hreach1.
  apply reachable_heap_inv in Hreach as Hh.
  apply reachable_heap_inv in Hreach1 as Hh1.
  pose proof (heap_inv_rings _ _ _ _ _ Hh Hrings) as Hinv.
  destruct (region_inv_elim _ _ _ _ _ Hinv)
    as (r0 & _ & Hr0 & _ & _ & _ & Hnd & Hthis & (xo & Ho & Hco)%obj_sat_iff & _).
  unfold is_iso in Hco. rewrite Forall_forall in Hall.
  (* the first collection *)
  destruct (gc_spec _ _ _ _ _ H1 Hh)
    as (reg & P0 & S0 & hm & f & marked & r' & Hget & Hinv0 & Hmark & Hinvm
        & _ & Hinv1 & _ & _ & _ & Hcells & _).
  assert (reg = this) as ->.
  { rewrite (region_inv_get _ _ _ _ _ Hinv) in Hget. congruence. }
  destruct (region_inv_unique _ _ _ _ _ _ _ _ Hinv Hinv0) as (_ & <- & <-).
  pose proof (mark_exact _ _ _ _ _ _ _ _ Ho Hmark) as Hex.
  set (P1 := survivors hm P) in *. set (S1 := survivors hm S) in *.
  assert (∀ a, a ∈ P1 ++ S1 → a ∈ P ++ S) as Hsub.
  { intros a. unfold P1, S1. rewrite !elem_of_app.
    intros [?%survivors_subseteq|?%survivors_subseteq]; tauto. }
  (* the objects that the first collection keeps *)
  assert (∀ a x, a ∈ P ++ S → h !! a = Some (CObject x) →
            traced h (o_fields xo) a →
            ∃ x', heap c1 !! a = Some (CObject x') ∧ o_class x' = UNMARKED ∧
                  o_fields x' = o_fields x) as Hkeep.
  { intros a x Ha Hx Ht.
    assert (o_class x = UNMARKED) as Hu.
    { specialize (Hall a Ha). unfold Object.get_class, get_obj in Hall.
      rewrite Hx in Hall. simpl in Hall. congruence. }
    destruct (Hex a x Hx) as [Hmk _]. specialize (Hmk Hu Ht).
    destruct (Hcells a (with_class MARKED x)) as (x' & Hx' & _ & Hf & Hc);
      [|done|].
    { unfold survivors. apply list_elem_of_filter. split.
      - unfold Object.get_class, get_obj. rewrite Hmk. simpl. congruence.
      - revert Ha. rewrite !elem_of_app, elem_of_cons. tauto. }
    exists x'. split; [done|]. rewrite Hc, decide_True by done. done. }
  assert (∀ a, a ∈ P1 ++ S1 → ¬ ¬ traced h (o_fields xo) a) as Htr.
  { intros a Ha Hnt. pose proof (Hsub a Ha) as Ha'.
    assert (Object.get_class hm a ≠ Some UNMARKED) as Hc.
    { revert Ha. unfold P1, S1, survivors.
      rewrite elem_of_app, !list_elem_of_filter. tauto. }
    destruct (rings_is_obj h this o P S a Hrings) as [x Hx];
      [revert Ha'; rewrite !elem_of_app, elem_of_cons; tauto|].
    apply get_obj_Some in Hx.
    destruct (Hex a x Hx) as [_ Hk]. specialize (Hk (or_intror Hnt)).
    apply Hc. unfold Object.get_class, get_obj. rewrite Hk. simpl.
    specialize (Hall a Ha'). unfold Object.get_class, get_obj in Hall.
    by rewrite Hx in Hall. }
  (* the iso after the first collection *)
  assert (hm !! o = Some (CObject xo)) as Hmo.
  { destruct (Hex o xo Ho) as [_ Hk]. apply Hk. left. congruence. }
  destruct (Hcells o xo) as (xo1 & Ho1 & _ & Hf1 & _); [|done|].
  { unfold survivors. apply list_elem_of_filter. split.
    - unfold Object.get_class, get_obj. rewrite Hmo. simpl. congruence.
    - rewrite elem_of_app, elem_of_cons. tauto. }
  (* what is traced before the first collection is traced after it *)
  assert (∀ a, traced h (o_fields xo) a → traced (heap c1) (o_fields xo1) a)
    as Htrans.
  { rewrite Hf1. induction 1 as [a Ha|b x q Hb IH Hx Hc Hq].
    - by apply traced_seed.
    - destruct (traced_in_cells h (region_cells this o P S) (o_fields xo) b
        Hisol) as [Hin|(y & Hy & Hny)%obj_sat_iff]; [|done| |].
      + intros s Hs. apply (Hisol o xo s); [|done|done].
        unfold region_cells. rewrite elem_of_cons, elem_of_app, elem_of_cons.
        tauto.
      + assert (b ∈ P ++ S) as HbPS.
        { unfold region_cells in Hin.
          rewrite elem_of_cons, elem_of_app, elem_of_cons in Hin.
          rewrite elem_of_app.
          destruct Hin as [->|[?|[->|?]]]; [|tauto| |tauto].
          - congruence.
          - congruence. }
        destruct (Hkeep b x HbPS Hx Hb) as (x' & Hx' & Hu' & Hf').
        apply (traced_field _ _ b x' q); [done|done|done|by rewrite Hf'].
      + assert (y = x) as -> by congruence. done. }
  (* the second collection *)
  destruct (gc_spec _ _ _ _ _ H2 Hh1)
    as (reg & P0 & S0 & hm2 & f2 & marked2 & r2 & Hget2 & Hinv0' & Hmark2 & _
        & _ & Hinv2 & _).
  assert (reg = this) as ->.
  { rewrite (region_inv_get _ _ _ _ _ Hinv1) in Hget2. congruence. }
  destruct (region_inv_unique _ _ _ _ _ _ _ _ Hinv1 Hinv0') as (_ & <- & <-).
  pose proof (mark_exact _ _ _ _ _ _ _ _ Ho1 Hmark2) as Hex2.
  assert (∀ a, a ∈ P1 ++ S1 → Object.get_class hm2 a ≠ Some UNMARKED) as Hm2.
  { intros a Ha Hc. apply (Htr a Ha). intros Ht.
    pose proof (Hsub a Ha) as Ha'.
    destruct (rings_is_obj h this o P S a Hrings) as [x Hx];
      [revert Ha'; rewrite !elem_of_app, elem_of_cons; tauto|].
    apply get_obj_Some in Hx.
    destruct (Hkeep a x Ha' Hx Ht) as (x' & Hx' & Hu' & _).
    destruct (Hex2 a x' Hx') as [Hmk _].
    specialize (Hmk Hu' (Htrans a Ht)).
    unfold Object.get_class, get_obj in Hc. rewrite Hmk in Hc. done. }
  exists P1, S1. split; [apply Hinv1|]. split; [|done].
  replace (survivors hm2 P1) with P1 in Hinv2.
  2: { symmetry. apply filter_all. intros a Ha. apply Hm2.
       rewrite elem_of_app. tauto. }
  replace (survivors hm2 S1) with S1 in Hinv2.
  2: { symmetry. apply filter_all. intros a Ha. apply Hm2.
       rewrite elem_of_app. tauto. }
  apply Hinv2.
Qed.

End ExtraGcTwice.

Lemma ex_m4_isolated : isolated ex_m4 (region_cells 2 1 [4%N] [5%N; 3%N]).
Proof.
  intros p x q Hp Hx Hq. unfold region_cells in Hp. simpl in Hp.
  repeat (apply elem_of_cons in Hp as [->|Hp]).
  6:{ apply elem_of_nil in Hp. destruct Hp. }
  all: vm_compute in Hx.
  all: try discriminate Hx.
  all: injection Hx as <-.
  all: simpl in Hq.
  all: repeat (apply elem_of_cons in Hq as [->|Hq]).
  all: try (apply elem_of_nil in Hq; destruct Hq).
  - left. apply (bool_decide_unpack _). vm_compute. exact I.
  - right. vm_compute. discriminate.
  - left. apply (bool_decide_unpack _). vm_compute. exact I.
Qed.

Lemma X19_gc_twice_frees_nothing_more_witness :
  reachable ex_size_to_sizeclass ex_sizeclass_to_size ex_m4 ∧
  rings ex_m4 2 1 [4%N] [5%N; 3%N] ∧
  isolated ex_m4 (region_cells 2 1 [4%N] [5%N; 3%N]) ∧
  Forall (λ a, Object.get_class ex_m4 a = Some UNMARKED)
    ([4%N] ++ [5%N; 3%N]) ∧
  ∃ c1 c2,
    gc ex_size_to_sizeclass 10 ex_m4 1 = Some c1 ∧
    gc ex_size_to_sizeclass 10 (heap c1) 1 = Some c2 ∧
    ∃ P1 S1,
      rings (heap c1) 2 1 P1 S1 ∧ rings (heap c2) 2 1 P1 S1 ∧
      (∀ a, a ∈ P1 ++ S1 → a ∈ [4%N] ++ [5%N; 3%N]).
Proof.
  assert (Forall (λ a, Object.get_class ex_m4 a = Some UNMARKED)
            ([4%N] ++ [5%N; 3%N])) as Hall.
  { simpl. repeat (apply Forall_cons; split; [vm_compute; reflexivity|]).
    apply Forall_nil_2. }
  split; [exact ex_m4_reachable|]. split; [exact ex_m4_rings|].
  split; [exact ex_m4_isolated|]. split; [exact Hall|].
  destruct (gc ex_size_to_sizeclass 10 ex_m4 1) as [c1|] eqn:H1;
    [|vm_compute in H1; discriminate H1].
  destruct (gc ex_size_to_sizeclass 10 (heap c1) 1) as [c2|] eqn:H2.
  2:{ vm_compute in H1. injection H1 as <-. vm_compute in H2.
      discriminate H2. }
  exists c1, c2. split; [reflexivity|]. split; [exact H2|].
  exact (X19_gc_twice_frees_nothing_more
           ex_size_to_sizeclass ex_sizeclass_to_size 10 10 ex_m4 1 c1 c2 2
           [4%N] [5%N; 3%N] ex_m4_reachable ex_m4_rings ex_m4_isolated Hall
           H1 H2).
Defined.

(** The collect stack through the loop of [sweep_ring], the other way
    round: the loop pushes nothing but the isos of other regions that the
    fields of the unmarked objects of the finaliser ring point to. *)
Lemma sweep_loop_collect_only ring sec this o fuel :
  ∀ l c prev p gc c' gc',
    sweep_loop fuel ring sec this o c prev p gc = Some (c', gc') →
    is_Some (get_reg (heap c) this) →
    lseg (heap c) p this l → NoDup l → prev ∉ l →
    ∀ X, X ∈ collect_stack c' →
      X ∈ collect_stack c ∨
      (ring = FinaliserRing ∧
       ∃ a x, a ∈ l ∧ heap c !! a = Some (CObject x) ∧
         o_class x = UNMARKED ∧ X ∈ o_fields x ∧ X ≠ o ∧
         Object.get_class (heap c) X = Some ISO).
Proof.
  induction fuel as [|fuel IH];
    intros l c prev p gc c' gc' H [r Hr%get_reg_Some] Hl Hnd Hprev X HX.
  { simpl in H. destruct (decide (p = this)) as [->|]; [|done].
    injection H as <- <-. by left. }
  rewrite sweep_loop_unfold in H.
  destruct (decide (p = this)) as [->|Hpt].
  { injection H as <- <-. by left. }
  destruct l as [|p' l]; [simpl in Hl; congruence|].
  apply lseg_cons in Hl as (<- & xp & Hp & Hl).
  apply NoDup_cons in Hnd as [Hpl Hnd].
  assert (this ∉ l) as Htl.
  { apply (lseg_not_reg _ _ _ _ _ Hl). unfold get_reg. by rewrite Hr. }
  unfold Object.get_class at 1 in H. unfold get_obj at 1 in H.
  rewrite Hp in H. cbn [fmap option_fmap option_map mbind option_bind] in H.
  destruct (o_class xp) eqn:Hc; try done.
  - (* UNMARKED *)
    unfold Object.get_next at 1 in H. rewrite Hp in H.
    cbn [mbind option_bind] in H.
    destruct (sweep_dispose ring this o c p gc) as [[c1 gc1]|] eqn:Hd;
      [|done].
    cbn [mbind option_bind] in H.
    destruct (sweep_dispose_collect _ _ _ _ _ _ _ _ _ _ Hp Hr Hd)
      as (Hfr1 & [r1 Hr1] & Hcl1 & Hst1).
    destruct (sweep_unlink sec this (heap c1) prev p (o_next xp))
      as [h2|] eqn:Hu; [|done].
    cbn [mbind option_bind] in H.
    destruct (sweep_unlink_frame _ _ _ _ _ _ _ _ Hr1 Hu)
      as (Hfr2 & [r2 Hr2] & Hcl2).
    assert (∀ b, b ∈ l → h2 !! b = heap c !! b) as Hfr.
    { intros b Hb. rewrite Hfr2, Hfr1; [done| | | |]; intros ->; done
        || (by apply Hprev; right). }
    destruct (IH l (set_heap h2 c1) prev (o_next xp) gc1 c' gc' H) with X
      as [Hin|(-> & a & x & Ha & Hxa & Hu' & HXf & Hne & HXiso)].
    + exists r2. by apply get_reg_Some.
    + by apply (lseg_frame (heap c)).
    + done.
    + intros ?. apply Hprev. by right.
    + done.
    + cbn [collect_stack set_heap] in Hin. rewrite Hst1 in Hin.
      apply elem_of_app in Hin as [Hin|Hin]; [|by left].
      destruct ring; [|by apply elem_of_nil in Hin]. right. split; [done|].
      apply list_elem_of_In, in_rev, list_elem_of_In in Hin.
      apply list_elem_of_filter in Hin as [[Hne HXiso] HXf].
      exists p, xp. split; [left|]. done.
    + cbn [heap set_heap] in Hxa, HXiso. right. split; [done|].
      exists a, x. split; [by right|]. rewrite Hfr in Hxa by done.
      split; [done|]. split; [done|]. split; [done|]. split; [done|].
      rewrite Hcl2 in HXiso.
      destruct (decide (X = p)) as [->|HXp]; [|by rewrite Hcl1 in HXiso].
      exfalso.
      destruct (sweep_dispose_finaliser this o c p gc xp Hp)
        as (c1' & Heq & Hh1 & _).
      rewrite Hd in Heq. injection Heq as <- _.
      unfold Object.get_class, get_obj in HXiso.
      rewrite Hh1, lookup_insert_eq in HXiso. simpl in HXiso. congruence.
  - (* MARKED *)
    unfold Object.size at 1 in H. unfold get_obj at 1 in H. rewrite Hp in H.
    cbn [fmap option_fmap option_map mbind option_bind] in H.
    rewrite (use_memory_spec _ _ _ _ Hr) in H. cbn [mbind option_bind] in H.
    unfold Object.unmark, get_obj in H.
    rewrite lookup_insert_ne, Hp in H by done.
    cbn [mbind option_bind] in H. rewrite option_guard_True in H by done.
    cbn [mbind option_bind] in H.
    unfold Object.get_next at 1 in H. rewrite lookup_insert_eq in H.
    cbn [mbind option_bind with_class o_next] in H.
    match type of H with
    | sweep_loop _ _ _ _ _ (set_heap ?hh _) _ _ _ = _ => set (h2 := hh) in H
    end.
    assert (∀ b, b ∈ l → h2 !! b = heap c !! b) as Hfr.
    { intros b Hb. unfold h2. rewrite !lookup_insert_ne; [done| |];
        intros ->; done. }
    destruct (IH l (set_heap h2 c) p (o_next xp) gc c' gc' H) with X
      as [Hin|(-> & a & x & Ha & Hxa & Hu' & HXf & Hne & HXiso)].
    + eexists. apply get_reg_Some. unfold h2. cbn [heap set_heap].
      rewrite lookup_insert_ne by done. apply lookup_insert_eq.
    + by apply (lseg_frame (heap c)).
    + done.
    + done.
    + done.
    + by left.
    + cbn [heap set_heap] in Hxa, HXiso. right. split; [done|].
      exists a, x. split; [by right|]. rewrite Hfr in Hxa by done.
      do 4 (split; [done|]).
      unfold h2 in HXiso.
      destruct (decide (X = p)) as [->|HXp].
      { unfold Object.get_class, get_obj in HXiso.
        rewrite lookup_insert_eq in HXiso. simpl in HXiso. congruence. }
      rewrite get_class_insert_ne in HXiso by done.
      destruct (decide (X = this)) as [->|HXt].
      { unfold Object.get_class, get_obj in HXiso.
        rewrite lookup_insert_eq in HXiso. simpl in HXiso. congruence. }
      by rewrite get_class_insert_ne in HXiso.
  - (* ISO *)
    destruct (guard (p = o)); [|done]. cbn [mbind option_bind] in H.
    unfold Object.get_next_any_mark, Object.get_next in H. rewrite Hp in H.
    cbn [mbind option_bind] in H.
    destruct (guard (o_next xp = this)) as [En|]; [|done].
    cbn [mbind option_bind] in H.
    destruct (Object.get_region (heap c) p) as [n0|]; [|done].
    cbn [mbind option_bind] in H.
    destruct (guard (n0 = this)); [|done]. cbn [mbind option_bind] in H.
    destruct (Object.size (heap c) p) as [n1|]; [|done].
    cbn [mbind option_bind] in H.
    destruct (use_memory (heap c) this n1); [|done].
    cbn [mbind option_bind] in H. injection H as <- <-.
    cbn [collect_stack set_heap] in HX. by left.
Qed.

Lemma sweep_ring_collect_only fuel ring this c o c' P S (bo : bool) :
  sweep_ring fuel ring this c o = Some c' →
  rings (heap c) this o P S →
  obj_sat (needs bo) (heap c) o →
  ∀ X, X ∈ collect_stack c' →
    X ∈ collect_stack c ∨
    (ring = FinaliserRing ∧
     ∃ a x, a ∈ swept_ring FinaliserRing bo o P S ∧
       heap c !! a = Some (CObject x) ∧
       o_class x = UNMARKED ∧ X ∈ o_fields x ∧ X ≠ o ∧
       Object.get_class (heap c) X = Some ISO).
Proof.
  intros H Hrings Hbo X HX.
  pose proof Hrings as (r & Hr & HP & HS & Hlast & Hnd)%rings_iff.
  unfold sweep_ring in H.
  rewrite (needs_finaliser_ring_obj _ _ _ Hbo) in H.
  cbn [mbind option_bind] in H.
  unfold get_reg in H. rewrite Hr in H. cbn [mbind option_bind] in H.
  fold (swept_secondary ring bo) in H.
  assert ((if swept_secondary ring bo then Some (next_not_root r)
           else Object.get_next (heap c) this) =
          Some (if swept_secondary ring bo then next_not_root r else r_next r))
    as Hp.
  { destruct (swept_secondary ring bo); [done|].
    unfold Object.get_next. by rewrite Hr. }
  rewrite Hp in H. cbn [mbind option_bind] in H. clear Hp.
  destruct (sweep_loop _ _ _ _ _ _ _ _ _) as [[c1 gc1]|] eqn:Hloop; [|done].
  cbn [mbind option_bind] in H.
  set (l := swept_ring ring bo o P S).
  assert (lseg (heap c)
            (if swept_secondary ring bo then next_not_root r else r_next r)
            this l) as Hl.
  { unfold l, swept_ring. by destruct (swept_secondary ring bo). }
  assert (NoDup l) as Hndl.
  { unfold l, swept_ring. destruct (swept_secondary ring bo).
    - apply NoDup_app in Hnd as (_ & _ & Hnd).
      by apply NoDup_cons in Hnd as [_ ?].
    - replace (P ++ o :: S) with ((P ++ [o]) ++ S) in Hnd
        by (by rewrite <- app_assoc).
      by apply NoDup_app in Hnd as (? & _ & _). }
  assert (this ∉ l) as Hthis.
  { apply (lseg_not_reg _ _ _ _ _ Hl). unfold get_reg. by rewrite Hr. }
  assert (collect_stack c' = collect_stack c1) as E.
  { destruct ring; [by apply free_deferred_collect in H|by injection H as <-]. }
  rewrite E in HX.
  destruct (sweep_loop_collect_only _ _ _ _ _ l _ _ _ _ _ _ Hloop) with X
    as [?|(-> & Hrest)];
    [exists r; by apply get_reg_Some|done..|by left|].
  right. split; [done|]. exact Hrest.
Qed.

Section CollectOnly.

Variable size_to_sizeclass : N → N.

Lemma sweep_collect_only fuel this c o marked c' P S (bo : bool) :
  sweep size_to_sizeclass fuel this c o marked = Some c' →
  heap c !! nullptr = None →
  region_inv (heap c) this o P S →
  obj_sat (needs bo) (heap c) o →
  ∀ X, X ∈ collect_stack c' →
    X ∈ collect_stack c ∨
    ∃ a x, a ∈ swept_ring FinaliserRing bo o P S ∧
      heap c !! a = Some (CObject x) ∧
      o_class x = UNMARKED ∧ X ∈ o_fields x ∧ X ≠ o ∧
      Object.get_class (heap c) X = Some ISO.
Proof.
  intros H Hnull Hinv Hbo X HX.
  destruct (region_inv_elim _ _ _ _ _ Hinv)
    as (r & b & Hr & _ & _ & _ & _ & Hthis & _).
  unfold sweep in H.
  set (h0 := <[this := CRegion (with_current_memory_used 0 r)]> (heap c)).
  assert (upd_reg (with_current_memory_used 0) (heap c) this = Some h0) as E0.
  { unfold upd_reg, get_reg. by rewrite Hr. }
  rewrite E0 in H. clear E0. cbn [mbind option_bind] in H.
  assert (∀ a, a ≠ this → h0 !! a = heap c !! a) as Hfr0.
  { intros a Ha. unfold h0. by rewrite lookup_insert_ne. }
  assert (region_inv h0 this o P S) as Hinv0.
  { eapply region_inv_insert_equiv; [done| |done]. done. }
  assert (h0 !! nullptr = None) as Hnull0.
  { rewrite Hfr0; [done|]. intros E. rewrite <- E in Hr. congruence. }
  assert (obj_sat (needs bo) h0 o) as Hbo0.
  { eapply obj_sat_insert_reg; done. }
  destruct (sweep_ring fuel FinaliserRing this (set_heap h0 c) o)
    as [c1|] eqn:H1; [|done].
  cbn [mbind option_bind] in H.
  destruct (sweep_ring fuel NonfinaliserRing this c1 o)
    as [c2|] eqn:H2; [|done].
  cbn [mbind option_bind] in H.
  destruct (sweep_ring_region_inv _ _ _ _ _ _ _ _ _ H1 Hnull0 Hinv0 Hbo0)
    as (Hinv1 & Hnull1 & Hbo1).
  assert (collect_stack c' = collect_stack c2) as E.
  { destruct (RememberedSet.sweep_set (heap c2) this marked); [|done].
    cbn [mbind option_bind] in H. destruct (get_reg g this); [|done].
    cbn [mbind option_bind] in H. destruct (upd_reg _ g this); [|done].
    cbn [mbind option_bind] in H. by injection H as <-. }
  rewrite E in HX.
  destruct (sweep_ring_collect_only _ _ _ _ _ _ _ _ _ H2
              (region_inv_rings _ _ _ _ _ Hinv1) Hbo1 X HX)
    as [HX1|[? _]]; [|done].
  destruct (sweep_ring_collect_only _ _ _ _ _ _ _ _ _ H1
              (region_inv_rings _ _ _ _ _ Hinv0) Hbo0 X HX1)
    as [HX0|(_ & a & x & Ha & Hxa & Hu & HXf & Hne & HXiso)]; [by left|].
  right. cbn [heap set_heap] in Hxa, HXiso.
  assert (a ≠ this) as Hat.
  { intros ->. apply Hthis. revert Ha. unfold swept_ring.
    destruct (swept_secondary FinaliserRing bo);
      rewrite !elem_of_app, !elem_of_cons, ?elem_of_nil; tauto. }
  exists a, x. split; [done|]. rewrite Hfr0 in Hxa by done.
  do 4 (split; [done|]).
  unfold h0 in HXiso. destruct (decide (X = this)) as [->|HXt].
  { unfold Object.get_class, get_obj in HXiso.
    rewrite lookup_insert_eq in HXiso. done. }
  by rewrite get_class_insert_ne in HXiso.
Qed.

End CollectOnly.
Section GcTotal.

Variable size_to_sizeclass : N → N.

(** [gc] returns when the fuel covers the marking and the rings, the
    pointers that [mark] reaches refer to objects, the assertion of the
    sweep holds, and no garbage object of the finaliser ring holds the iso
    of another region (so that no sub-region is left to release). *)
Lemma gc_total fuel k h o this P S xo :
  heap_inv h →
  rings h this o P S →
  h !! o = Some (CObject xo) →
  (∀ q, traced h (o_fields xo) q → markable k h q) →
  sweep_ready h (P ++ o :: S) →
  (∀ a x q, a ∈ P ++ S → h !! a = Some (CObject x) →
     o_class x = UNMARKED →
     desc_needs_finaliser_ring (o_descriptor x) = true →
     ¬ traced h (o_fields xo) a →
     q ∈ o_fields x → q ≠ o → Object.get_class h q ≠ Some ISO) →
  (length (o_fields xo) + mark_work h + k ≤ fuel)%nat →
  (length (P ++ o :: S) ≤ fuel)%nat →
  is_Some (gc size_to_sizeclass fuel h o).
Proof.
  intros Hh Hrings Ho Hok Hready Hnosub Hfuel1 Hfuel2.
  pose proof (heap_inv_rings _ _ _ _ _ Hh Hrings) as Hinv.
  destruct (region_inv_elim _ _ _ _ _ Hinv)
    as (r & b & Hr & _ & _ & _ & Hnd & Hthis & (xo0 & Hxo0 & Hco)%obj_sat_iff
        & Hmut & Hb & HbP & HbS).
  assert (xo0 = xo) as -> by congruence. unfold is_iso in Hco.
  unfold gc.
  assert (Object.debug_is_iso h o = true) as Hdi.
  { unfold Object.debug_is_iso, Object.get_class, get_obj. rewrite Ho.
    simpl. rewrite Hco. by apply bool_decide_eq_true. }
  rewrite (option_guard_decide (Object.debug_is_iso h o = true)).
  rewrite decide_True by done. cbn [mbind option_bind].
  rewrite (region_inv_get _ _ _ _ _ Hinv). cbn [mbind option_bind].
  destruct (mark_total fuel k h this o xo Ho) as [[[hm f] m] Hmark];
    [exists r; by apply get_reg_Some|done|done|].
  rewrite Hmark. cbn [mbind option_bind].
  destruct (mark_rel_heap _ _ _ _ _ _ _ _ _ Hmark) as [Hrel ->].
  pose proof (mark_exact _ _ _ _ _ _ _ _ Ho Hmark) as Hex.
  pose proof (heap_mark_rel_region_inv _ _ _ _ _ _ Hrel Hinv) as Hinvm.
  pose proof (heap_mark_rel_heap_inv _ _ Hrel Hh) as (Hnullm & _).
  (* an object that is unmarked after the marking was unmarked before *)
  assert (∀ a x, hm !! a = Some (CObject x) → o_class x = UNMARKED →
            h !! a = Some (CObject x)) as Hback.
  { intros a x Hx Hu.
    destruct (heap_mark_rel_lookup_inv _ _ _ _ Hrel Hx) as (c0 & Hc0 & Hm).
    destruct c0 as [x0|r0]; [|done]. simpl in Hm.
    destruct Hm as [->|[_ ->]]; [done|]. simpl in Hu. done. }
  assert (∀ X, Object.get_class hm X = Some ISO →
            Object.get_class h X = Some ISO) as Hisoback.
  { intros X. unfold Object.get_class, get_obj.
    destruct (hm !! X) as [[x|]|] eqn:Hx; try done. simpl. intros [= Hc].
    destruct (heap_mark_rel_lookup_inv _ _ _ _ Hrel Hx) as (c0 & Hc0 & Hm).
    destruct c0 as [x0|r0]; [|done]. simpl in Hm. rewrite Hc0. simpl.
    destruct Hm as [->|[_ ->]]; [by rewrite Hc|]. simpl in Hc. done. }
  assert (sweep_ready hm (P ++ o :: S)) as Hreadym.
  { intros a x Ha Hx Hu. apply (Hready a x Ha); [|done]. by apply Hback. }
  set (c1 := mkCollector hm [] [] []).
  destruct (sweep_total size_to_sizeclass fuel this c1 o m P S)
    as [c2 Hsw]; [done..|].
  rewrite Hsw. cbn [mbind option_bind].
  assert (obj_sat (needs b) hm o) as Hbm.
  { destruct (region_inv_elim _ _ _ _ _ Hinvm)
      as (_ & b' & _ & _ & _ & _ & _ & _ & _ & _ & Hb' & _).
    apply obj_sat_iff in Hb as (y & Hy & Hny), Hb' as (y' & Hy' & Hny').
    destruct (Hex o y Hy) as [_ Hk]. rewrite Hk in Hy' by (left; congruence).
    apply obj_sat_iff. exists y'. split; [by rewrite Hk by (left; congruence)|].
    assert (y' = y) as -> by congruence. done. }
  assert (collect_stack c2 = []) as Hcs.
  { destruct (collect_stack c2) as [|X rest] eqn:E; [done|]. exfalso.
    destruct (sweep_collect_only size_to_sizeclass _ _ _ _ _ _ _ _ b Hsw
                Hnullm Hinvm Hbm X)
      as [HX|(a & x & Ha & Hx & Hu & HXf & Hne & HXiso)].
    { rewrite E. left. }
    { by apply elem_of_nil in HX. }
    cbn [heap c1] in Hx, HXiso.
    pose proof (Hback a x Hx Hu) as Hxh.
    assert (a ≠ o) as Hao by (intros ->; congruence).
    rewrite Forall_forall in HbP, HbS.
    assert (a ∈ P ++ S ∧
            desc_needs_finaliser_ring (o_descriptor x) = true) as [HaPS Hn].
    { unfold swept_ring, swept_secondary in Ha. destruct b; simpl in Ha.
      - apply elem_of_app in Ha as [Ha|Ha%list_elem_of_singleton]; [|done].
        split; [apply elem_of_app; by left|].
        apply HbP, obj_sat_iff in Ha as (y & Hy & Hny).
        assert (y = x) as -> by congruence. done.
      - split; [apply elem_of_app; by right|].
        apply HbS, obj_sat_iff in Ha as (y & Hy & Hny).
        assert (y = x) as -> by congruence. done. }
    apply (Hnosub a x X HaPS Hxh Hu Hn); [|done|done|by apply Hisoback].
    intros Ht. destruct (Hex a x Hxh) as [Hmk _].
    rewrite (Hmk Hu Ht) in Hx. injection Hx as Hx.
    apply (f_equal o_class) in Hx. simpl in Hx. congruence. }
  destruct fuel; simpl; by rewrite Hcs.
Qed.

End GcTotal.

Section ExtraGcReturns.

Variable size_to_sizeclass : N → N.
Variable sizeclass_to_size : N → N.

(** X11: [gc] frees exactly the garbage of the region.  Given fuel for
    the marking and for the rings, pointers that refer to objects where
    [mark] reaches them, the assertion of the sweep, and no garbage
    object of the finaliser ring that holds the iso of another region,
    [gc] returns; an unmarked interior object that can be reached from
    the fields of the iso through the fields of unmarked objects
    survives, with its descriptor and fields and unmarked again; one that
    cannot be reached is deallocated; the iso itself survives as the
    iso. *)
Theorem X11_gc_keeps_reachable_frees_unreachable fuel k h o this P S xo :
  reachable size_to_sizeclass sizeclass_to_size h →
  rings h this o P S →
  h !! o = Some (CObject xo) →
  (∀ q, traced h (o_fields xo) q → markable k h q) →
  sweep_ready h (P ++ o :: S) →
  (∀ a x q, a ∈ P ++ S → h !! a = Some (CObject x) →
     o_class x = UNMARKED →
     desc_needs_finaliser_ring (o_descriptor x) = true →
     ¬ traced h (o_fields xo) a →
     q ∈ o_fields x → q ≠ o → Object.get_class h q ≠ Some ISO) →
  (length (o_fields xo) + mark_work h + k ≤ fuel)%nat →
  (length (P ++ o :: S) ≤ fuel)%nat →
  ∃ c',
    gc size_to_sizeclass fuel h o = Some c' ∧
    (∃ xo', heap c' !! o = Some (CObject xo') ∧ o_class xo' = ISO ∧
            o_descriptor xo' = o_descriptor xo ∧
            o_fields xo' = o_fields xo) ∧
    ∀ a x, a ∈ P ++ S → h !! a = Some (CObject x) → o_class x = UNMARKED →
      (traced h (o_fields xo) a →
         ∃ x', heap c' !! a = Some (CObject x') ∧ o_class x' = UNMARKED ∧
               o_descriptor x' = o_descriptor x ∧
               o_fields x' = o_fields x) ∧
      (¬ traced h (o_fields xo) a → heap c' !! a = None).
Proof.
  intros Hreach Hrings Ho Hok Hready Hnosub Hfuel1 Hfuel2.
  apply reachable_heap_inv in Hreach as Hh.
  destruct (gc_total size_to_sizeclass fuel k h o this P S xo
              Hh Hrings Ho Hok Hready Hnosub Hfuel1 Hfuel2) as [c' H].
  exists c'. split; [done|].
  by apply (gc_exact size_to_sizeclass sizeclass_to_size fuel h o c' this).
Qed.

End ExtraGcReturns.

Lemma ex_m4_sweep_ready : sweep_ready ex_m4 ([4%N] ++ 1%N :: [5%N; 3%N]).
Proof.
  intros a x Ha Hx Hu Hnf. simpl in Ha.
  repeat (apply elem_of_cons in Ha as [->|Ha]).
  5:{ apply elem_of_nil in Ha. destruct Ha. }
  all: vm_compute in Hx.
  all: injection Hx as <-.
  all: first [reflexivity | discriminate Hnf | discriminate Hu].
Qed.

Lemma ex_m4_no_garbage_subregion a x q :
  a ∈ [4%N] ++ [5%N; 3%N] → ex_m4 !! a = Some (CObject x) →
  o_class x = UNMARKED →
  desc_needs_finaliser_ring (o_descriptor x) = true →
  ¬ traced ex_m4 [4%N] a →
  q ∈ o_fields x → q ≠ 1%N → Object.get_class ex_m4 q ≠ Some ISO.
Proof.
  intros Ha Hx Hu Hn Hnt Hq Hne. simpl in Ha. exfalso.
  repeat (apply elem_of_cons in Ha as [->|Ha]).
  4:{ apply elem_of_nil in Ha. destruct Ha. }
  - apply Hnt. apply traced_seed. left.
  - vm_compute in Hx. injection Hx as <-. simpl in Hq.
    apply elem_of_nil in Hq. destruct Hq.
  - vm_compute in Hx. injection Hx as <-. simpl in Hq.
    apply elem_of_nil in Hq. destruct Hq.
Qed.

Lemma X11_gc_keeps_reachable_frees_unreachable_witness :
  reachable ex_size_to_sizeclass ex_sizeclass_to_size ex_m4 ∧
  rings ex_m4 2 1 [4%N] [5%N; 3%N] ∧
  ∃ xo,
    ex_m4 !! 1%N = Some (CObject xo) ∧
    (∀ q, traced ex_m4 (o_fields xo) q → markable 0 ex_m4 q) ∧
    sweep_ready ex_m4 ([4%N] ++ 1%N :: [5%N; 3%N]) ∧
    (∀ a x q, a ∈ [4%N] ++ [5%N; 3%N] → ex_m4 !! a = Some (CObject x) →
       o_class x = UNMARKED →
       desc_needs_finaliser_ring (o_descriptor x) = true →
       ¬ traced ex_m4 (o_fields xo) a →
       q ∈ o_fields x → q ≠ 1%N → Object.get_class ex_m4 q ≠ Some ISO) ∧
    (length (o_fields xo) + mark_work ex_m4 + 0 ≤ 4)%nat ∧
    (length ([4%N] ++ 1%N :: [5%N; 3%N]) ≤ 4)%nat ∧
    ∃ c',
      gc ex_size_to_sizeclass 4 ex_m4 1 = Some c' ∧
      heap c' !! 5%N = None ∧
      Object.get_class (heap c') 4 = Some UNMARKED ∧
      Object.get_class (heap c') 3 = Some UNMARKED ∧
      (∃ xo', heap c' !! 1%N = Some (CObject xo') ∧ o_class xo' = ISO ∧
              o_descriptor xo' = o_descriptor xo ∧
              o_fields xo' = o_fields xo) ∧
      ∀ a x, a ∈ [4%N] ++ [5%N; 3%N] → ex_m4 !! a = Some (CObject x) →
        o_class x = UNMARKED →
        (traced ex_m4 (o_fields xo) a →
           ∃ x', heap c' !! a = Some (CObject x') ∧ o_class x' = UNMARKED ∧
                 o_descriptor x' = o_descriptor x ∧
                 o_fields x' = o_fields x) ∧
        (¬ traced ex_m4 (o_fields xo) a → heap c' !! a = None).
Proof.
  split; [exact ex_m4_reachable|]. split; [exact ex_m4_rings|].
  destruct (ex_m4 !! 1%N) as [[xo|r]|] eqn:Ho;
    [|vm_compute in Ho; discriminate Ho|vm_compute in Ho; discriminate Ho].
  assert (o_fields xo = [4%N]) as Hf.
  { pose proof Ho as Ho'. vm_compute in Ho'. injection Ho' as <-. reflexivity. }
  assert (∀ q, traced ex_m4 (o_fields xo) q → markable 0 ex_m4 q) as Hok.
  { rewrite Hf. exact ex_m4_markable. }
  assert (∀ a x q, a ∈ [4%N] ++ [5%N; 3%N] → ex_m4 !! a = Some (CObject x) →
            o_class x = UNMARKED →
            desc_needs_finaliser_ring (o_descriptor x) = true →
            ¬ traced ex_m4 (o_fields xo) a →
            q ∈ o_fields x → q ≠ 1%N →
            Object.get_class ex_m4 q ≠ Some ISO) as Hnosub.
  { rewrite Hf. exact ex_m4_no_garbage_subregion. }
  assert (length (o_fields xo) + mark_work ex_m4 + 0 ≤ 4)%nat as Hfuel1.
  { rewrite Hf. vm_compute. lia. }
  assert (length ([4%N] ++ 1%N :: [5%N; 3%N]) ≤ 4)%nat as Hfuel2
    by (simpl; lia).
  exists xo. split; [reflexivity|]. split; [exact Hok|].
  split; [exact ex_m4_sweep_ready|]. split; [exact Hnosub|].
  split; [exact Hfuel1|]. split; [exact Hfuel2|].
  destruct (X11_gc_keeps_reachable_frees_unreachable
              ex_size_to_sizeclass ex_sizeclass_to_size 4 0 ex_m4 1 2
              [4%N] [5%N; 3%N] xo ex_m4_reachable ex_m4_rings Ho Hok
              ex_m4_sweep_ready Hnosub Hfuel1 Hfuel2) as (c' & Hgc & Hrest).
  exists c'. split; [exact Hgc|].
  split; [vm_compute in Hgc; injection Hgc as <-; vm_compute; reflexivity|].
  split; [vm_compute in Hgc; injection Hgc as <-; vm_compute; reflexivity|].
  split; [vm_compute in Hgc; injection Hgc as <-; vm_compute; reflexivity|].
  exact Hrest.
Defined.
